(** * Unified Bed Leveling: the mesh model and the Z correction of ubl.h

    A shallow embedding of [Marlin/src/feature/bedlevel/ubl/ubl.h]: the grid
    geometry ([get_cell_index_x], [find_closest_x_index],
    [mesh_index_to_xpos]), the interpolation ([calc_z0], [get_z_correction]
    and the two single-axis helpers) and [mesh_is_valid].

    Numbers are the ones of the firmware: [float] is IEEE 754 binary32 with
    round to nearest even, taken from the Standard Library's [SpecFloat]
    (executable, so every function below can be run on a concrete mesh);
    [int8_t], [uint8_t] and [int] are integers of [Z] with the conversions
    written out. Every operation is rounded to single precision on its own:
    the literal [0.5] of [find_closest_x_index] is taken in single precision
    (as where [double] is [float]), and no multiplication is fused with an
    addition.

    The functions that read [z_values] or write to the serial port run in a
    state and error monad; the index computations, which touch no state in
    the source, are plain functions.

    The development has three layers: the embedding and the notions the
    statements use; lemmas on the model, among them an error analysis of
    the single-precision operations over the rationals; and the
    properties of ubl.h, each marked with the claim it settles. *)

From Stdlib Require Import ZArith List Bool Lia String QArith Qabs Qpower Qround Qminmax Lqa.
From Stdlib Require Import Floats.SpecFloat.
Import ListNotations.

#[local] Open Scope Z_scope.

(** The exact value of a floating-point number, as a rational; [None] for
    NaN and the infinities. *)
Definition SF2Q (f : spec_float) : option Q :=
  match f with
  | S754_zero _ => Some 0%Q
  | S754_finite s m e =>
      Some (if 0 <=? e
            then inject_Z (cond_Zopp s (Zpos m * 2 ^ e))
            else Qmake (cond_Zopp s (Zpos m)) (Z.to_pos (2 ^ (- e))))
  | S754_infinity _ | S754_nan => None
  end.


(** ** Single precision *)

Module F32.

Definition prec : Z := 24.
Definition emax : Z := 128.

Definition float : Type := spec_float.

Definition add : float -> float -> float := SFadd prec emax.
Definition sub : float -> float -> float := SFsub prec emax.
Definition mul : float -> float -> float := SFmul prec emax.
Definition div : float -> float -> float := SFdiv prec emax.

Definition ltb : float -> float -> bool := SFltb.
Definition leb : float -> float -> bool := SFleb.
Definition eqb : float -> float -> bool := SFeqb.

(** [isnan] of <math.h>. *)
Definition isnan (f : float) : bool :=
  match f with S754_nan => true | _ => false end.

Definition is_finite (f : float) : bool :=
  match f with S754_zero _ | S754_finite _ _ _ => true | _ => false end.

Definition NAN : float := S754_nan.
Definition zero : float := S754_zero false.

(** Conversion of an integer to [float] (rounds above 2^24). *)
Definition of_int (z : Z) : float := binary_normalize prec emax z 0 false.

(** The literal [n/d] for integers that are exact in single precision: the
    division is correctly rounded, so this is the nearest [float]. *)
Definition of_ratio (n d : Z) : float := div (of_int n) (of_int d).

Definition one : float := of_int 1.
Definition half : float := of_ratio 1 2.

(** The integral part, towards zero; [None] for NaN and the infinities. *)
Definition trunc (f : float) : option Z :=
  match f with
  | S754_zero _ => Some 0
  | S754_finite s m e => Some (cond_Zopp s (Z.shiftl (Zpos m) e))
  | S754_infinity _ | S754_nan => None
  end.

(** The integral part, towards minus infinity. *)
Definition floor (f : float) : option Z :=
  match f with
  | S754_zero _ => Some 0
  | S754_finite s m e => Some (Z.shiftl (cond_Zopp s (Zpos m)) e)
  | S754_infinity _ | S754_nan => None
  end.

(** A number that is neither zero nor NaN. *)
Definition is_nonzero_number (f : float) : bool :=
  match f with S754_finite _ _ _ | S754_infinity _ => true | _ => false end.

(** The exact value, as a rational. *)
Definition to_Q : float -> option Q := SF2Q.

End F32.

Abbreviation float := F32.float.

(** ** Double precision, for the reference evaluation of the formula *)

Module F64.

Definition prec : Z := 53.
Definition emax : Z := 1024.

Definition add : spec_float -> spec_float -> spec_float := SFadd prec emax.
Definition sub : spec_float -> spec_float -> spec_float := SFsub prec emax.
Definition mul : spec_float -> spec_float -> spec_float := SFmul prec emax.
Definition div : spec_float -> spec_float -> spec_float := SFdiv prec emax.

Definition of_int (z : Z) : spec_float := binary_normalize prec emax z 0 false.

Definition to_Q : spec_float -> option Q := SF2Q.


End F64.





(** ** Integer types and the macros of macros.h and Arduino.h

    These one-line macros are not part of ubl.h; they are written out here
    with their standard definitions. *)

(** [constrain(amt, low, high)] of Arduino.h. *)
Definition constrain (amt low high : Z) : Z :=
  if amt <? low then low else if amt >? high then high else amt.

(** [WITHIN(N, L, H)]: [((N) >= (L) && (N) <= (H))], on integers. *)
Definition WITHIN (n l h : Z) : bool := (l <=? n) && (n <=? h).

(** [WITHIN] on [float] operands: both comparisons are false on NaN. *)
Definition WITHIN_f (n l h : float) : bool := F32.leb l n && F32.leb n h.

Definition _MIN (a b : Z) : Z := if a <? b then a else b.

(** Conversion of an [int] to [int8_t] and to [uint8_t]. *)
Definition to_int8 (z : Z) : Z := (z + 128) mod 256 - 128.
Definition to_uint8 (z : Z) : Z := z mod 256.

Definition in_int8 (z : Z) : bool := (-128 <=? z) && (z <=? 127).

(** ** The build configuration

    Configuration.h, Configuration_adv.h and ubl.cpp are outside the files
    at hand, so what ubl.h takes from them is a parameter of the model. *)

Class Configuration : Type := {
  (** Number of mesh lines on each axis. *)
  GRID_MAX_POINTS_X : Z;
  GRID_MAX_POINTS_Y : Z;
  (** The span of the mesh, in integer millimetres as in the stock
      configuration. *)
  MESH_MIN_X : Z;
  MESH_MAX_X : Z;
  MESH_MIN_Y : Z;
  MESH_MAX_Y : Z;
  (** [Some r] when UBL_Z_RAISE_WHEN_OFF_MESH is defined as [r]. *)
  UBL_Z_RAISE_WHEN_OFF_MESH : option float;
  (** The tables of ubl.cpp behind [mesh_index_to_xpos] and
      [mesh_index_to_ypos]. *)
  _mesh_index_to_xpos : list float;
  _mesh_index_to_ypos : list float;
  (** DEBUG_LEVELING_FEATURE, which turns the DEBUG_ macros on. *)
  DEBUG_LEVELING_FEATURE : bool;
  (** What the target yields when a [float] whose integral part does not fit
      [int8_t] (or a NaN, or an infinity) is converted to [int8_t]. C++
      leaves that conversion undefined; the compilers of the firmware's
      targets produce some integer without trapping, and which one differs
      between them. *)
  fix_unrepresentable : float -> Z
}.

(** ** The state of the leveling subsystem *)

Definition bed_mesh_t : Type := list (list float).

Variant MarlinDebugFlags : Type := LEVELING | MESH_ADJUST.

(** What the DEBUG_ECHO family writes to the serial port. *)
Variant serial_item : Type :=
  | SerialStr (s : string)
  | SerialChar (c : string)
  | SerialInt (z : Z)
  | SerialFloat (f : float)
  | SerialEOL.

Record ubl_state : Type := mk_ubl_state {
  z_values : bed_mesh_t;              (* z_values[x][y] *)
  storage_slot : Z;
  marlin_debug_flags : MarlinDebugFlags -> bool;
  serial : list serial_item
}.

(** [z_values[x][y]], [None] outside the array. *)
Definition mesh_at (m : bed_mesh_t) (x y : Z) : option float :=
  if (x <? 0) || (y <? 0) then None
  else match nth_error m (Z.to_nat x) with
       | Some col => nth_error col (Z.to_nat y)
       | None => None
       end.

(** Replacement of the element of index [n]; the list is unchanged when
    [n] is past its end. *)
Fixpoint update_nth {A : Type} (n : nat) (f : A -> A) (l : list A) : list A :=
  match l, n with
  | [], _ => []
  | a :: l', O => f a :: l'
  | a :: l', S n' => a :: update_nth n' f l'
  end.

(** [z_values[x][y] = z]. *)
Definition mesh_set (m : bed_mesh_t) (x y : Z) (z : float) : bed_mesh_t :=
  if (x <? 0) || (y <? 0) then m
  else update_nth (Z.to_nat x) (update_nth (Z.to_nat y) (fun _ => z)) m.

(** ** A state and error monad

    A computation runs on the subsystem's state and either returns a value
    with the new state, or stops at an array access outside [z_values]. *)

Definition M (A : Type) : Type := ubl_state -> option (A * ubl_state).

Definition ret {A : Type} (a : A) : M A := fun s => Some (a, s).

Definition bind {A B : Type} (c : M A) (k : A -> M B) : M B :=
  fun s => match c s with
           | Some (a, s') => k a s'
           | None => None
           end.

Declare Scope ubl_scope.
Delimit Scope ubl_scope with ubl.
Notation "x <- c ;; k" := (bind c (fun x => k))
  (at level 61, c at next level, right associativity) : ubl_scope.
Notation "c ;;; k" := (bind c (fun _ => k))
  (at level 61, right associativity) : ubl_scope.
#[local] Open Scope ubl_scope.

(** Reading [z_values[x][y]]. *)
Definition read_z (x y : Z) : M float :=
  fun s => match mesh_at (z_values s) x y with
           | Some z => Some (z, s)
           | None => None
           end.

(** Writing [z_values[x][y]]. *)
Definition write_z (x y : Z) (z : float) : M unit :=
  fun s => match mesh_at (z_values s) x y with
           | Some _ =>
               Some (tt, mk_ubl_state (mesh_set (z_values s) x y z)
                           (storage_slot s) (marlin_debug_flags s) (serial s))
           | None => None
           end.

Definition DEBUGGING (F : MarlinDebugFlags) : M bool :=
  fun s => Some (marlin_debug_flags s F, s).

Definition when_ (b : bool) (c : M unit) : M unit :=
  if b then c else ret tt.

(** The DEBUG_ECHO macros of debug_out.h: they write only when
    DEBUG_LEVELING_FEATURE is built in. *)
Definition DEBUG_ECHO `{Configuration} (items : list serial_item) : M unit :=
  fun s =>
    if DEBUG_LEVELING_FEATURE
    then Some (tt, mk_ubl_state (z_values s) (storage_slot s)
                     (marlin_debug_flags s) (serial s ++ items))
    else Some (tt, s).

(** ** ubl.h *)

Section UBL.

Context {cfg : Configuration}.

(** Conversion of a [float] to [int8_t], as in [const int8_t cx = ...]. *)
Definition float_to_int8 (f : float) : Z :=
  match F32.trunc f with
  | Some z => if in_int8 z then z else to_int8 (fix_unrepresentable f)
  | None => to_int8 (fix_unrepresentable f)
  end.

(** Modelled from the spec: [RECIPROCAL] of macros.h, "division by cell
    width is implemented as multiplication by precomputed reciprocal". *)
Definition RECIPROCAL (x : float) : float := F32.div F32.one x.

Definition MESH_X_DIST : float :=
  F32.div (F32.of_int (MESH_MAX_X - MESH_MIN_X))
          (F32.of_int (GRID_MAX_POINTS_X - 1)).

Definition MESH_Y_DIST : float :=
  F32.div (F32.of_int (MESH_MAX_Y - MESH_MIN_Y))
          (F32.of_int (GRID_MAX_POINTS_Y - 1)).

(** [set_z] *)
Definition set_z (px py : Z) (z : float) : M unit := write_z px py z.

Definition get_cell_index_x (x : float) : Z :=
  let cx := float_to_int8
              (F32.mul (F32.sub x (F32.of_int MESH_MIN_X))
                       (RECIPROCAL MESH_X_DIST)) in
  to_int8 (constrain cx 0 (GRID_MAX_POINTS_X - 1)).

Definition get_cell_index_y (y : float) : Z :=
  let cy := float_to_int8
              (F32.mul (F32.sub y (F32.of_int MESH_MIN_Y))
                       (RECIPROCAL MESH_Y_DIST)) in
  to_int8 (constrain cy 0 (GRID_MAX_POINTS_Y - 1)).

Definition find_closest_x_index (x : float) : Z :=
  let px := float_to_int8
              (F32.mul (F32.add (F32.sub x (F32.of_int MESH_MIN_X))
                                (F32.mul MESH_X_DIST F32.half))
                       (RECIPROCAL MESH_X_DIST)) in
  if WITHIN px 0 (GRID_MAX_POINTS_X - 1) then px else -1.

Definition find_closest_y_index (y : float) : Z :=
  let py := float_to_int8
              (F32.mul (F32.add (F32.sub y (F32.of_int MESH_MIN_Y))
                                (F32.mul MESH_Y_DIST F32.half))
                       (RECIPROCAL MESH_Y_DIST)) in
  if WITHIN py 0 (GRID_MAX_POINTS_Y - 1) then py else -1.

(** [z1 + (z2 - z1) * (a0 - a1) / (a2 - a1)] *)
Definition calc_z0 (a0 a1 z1 a2 z2 : float) : float :=
  F32.add z1
    (F32.div (F32.mul (F32.sub z2 z1) (F32.sub a0 a1)) (F32.sub a2 a1)).

(** The argument is a [uint8_t]. A table shorter than its declared size
    reads as zero, as a static array does. *)
Definition mesh_index_to_xpos (i : Z) : float :=
  let i := to_uint8 i in
  if i <? GRID_MAX_POINTS_X
  then nth (Z.to_nat i) _mesh_index_to_xpos F32.zero
  else F32.add (F32.of_int MESH_MIN_X) (F32.mul (F32.of_int i) MESH_X_DIST).

Definition mesh_index_to_ypos (i : Z) : float :=
  let i := to_uint8 i in
  if i <? GRID_MAX_POINTS_Y
  then nth (Z.to_nat i) _mesh_index_to_ypos F32.zero
  else F32.add (F32.of_int MESH_MIN_Y) (F32.mul (F32.of_int i) MESH_Y_DIST).

(** The value returned off the mesh by the single-axis helpers:
    UBL_Z_RAISE_WHEN_OFF_MESH when defined, NAN otherwise. *)
Definition off_mesh_value : float :=
  match UBL_Z_RAISE_WHEN_OFF_MESH with
  | Some r => r
  | None => F32.NAN
  end.

Definition z_correction_for_x_on_horizontal_mesh_line
    (rx0 : float) (x1_i yi : Z) : M float :=
  if negb (WITHIN x1_i 0 (GRID_MAX_POINTS_X - 1))
     || negb (WITHIN yi 0 (GRID_MAX_POINTS_Y - 1))
  then
    dbg <- DEBUGGING LEVELING ;;
    when_ dbg
      (DEBUG_ECHO [SerialStr (if WITHIN x1_i 0 (GRID_MAX_POINTS_X - 1)
                              then "yi" else "x1_i")] ;;;
       DEBUG_ECHO
         [SerialStr " out of bounds in z_correction_for_x_on_horizontal_mesh_line(rx0=";
          SerialFloat rx0; SerialStr ",x1_i="; SerialInt x1_i;
          SerialStr ",yi="; SerialInt yi; SerialStr ")"; SerialEOL]) ;;;
    ret off_mesh_value
  else
    let xratio := F32.mul (F32.sub rx0 (mesh_index_to_xpos x1_i))
                          (RECIPROCAL MESH_X_DIST) in
    z1 <- read_z x1_i yi ;;
    z2 <- read_z (_MIN x1_i (GRID_MAX_POINTS_X - 2) + 1) yi ;;
    ret (F32.add z1 (F32.mul xratio (F32.sub z2 z1))).

Definition z_correction_for_y_on_vertical_mesh_line
    (ry0 : float) (xi y1_i : Z) : M float :=
  if negb (WITHIN xi 0 (GRID_MAX_POINTS_X - 1))
     || negb (WITHIN y1_i 0 (GRID_MAX_POINTS_Y - 1))
  then
    dbg <- DEBUGGING LEVELING ;;
    when_ dbg
      (DEBUG_ECHO [SerialStr (if WITHIN xi 0 (GRID_MAX_POINTS_X - 1)
                              then "y1_i" else "xi")] ;;;
       DEBUG_ECHO
         [SerialStr " out of bounds in z_correction_for_y_on_vertical_mesh_line(ry0=";
          SerialFloat ry0; SerialStr ", xi="; SerialInt xi;
          SerialStr ", y1_i="; SerialInt y1_i; SerialStr ")"; SerialEOL]) ;;;
    ret off_mesh_value
  else
    let yratio := F32.mul (F32.sub ry0 (mesh_index_to_ypos y1_i))
                          (RECIPROCAL MESH_Y_DIST) in
    z1 <- read_z xi y1_i ;;
    z2 <- read_z xi (_MIN y1_i (GRID_MAX_POINTS_Y - 2) + 1) ;;
    ret (F32.add z1 (F32.mul yratio (F32.sub z2 z1))).

(** The test of the #ifdef block of [get_z_correction]: the position is
    off the mesh on one axis at least. *)
Definition off_mesh (rx0 ry0 : float) : bool :=
  negb (WITHIN_f rx0 (F32.of_int MESH_MIN_X) (F32.of_int MESH_MAX_X))
  || negb (WITHIN_f ry0 (F32.of_int MESH_MIN_Y) (F32.of_int MESH_MAX_Y)).

(** The part of [get_z_correction] after the #ifdef block. *)
Definition get_z_correction_on_mesh (rx0 ry0 : float) (cx cy : Z) : M float :=
  let cx1 := _MIN cx (GRID_MAX_POINTS_X - 2) + 1 in
  let cy1 := _MIN cy (GRID_MAX_POINTS_Y - 2) + 1 in
  za <- read_z cx cy ;;
  zb <- read_z cx1 cy ;;
  let z1 := calc_z0 rx0 (mesh_index_to_xpos cx) za
                        (mesh_index_to_xpos (cx + 1)) zb in
  zc <- read_z cx cy1 ;;
  zd <- read_z cx1 cy1 ;;
  let z2 := calc_z0 rx0 (mesh_index_to_xpos cx) zc
                        (mesh_index_to_xpos (cx + 1)) zd in
  let z0 := calc_z0 ry0 (mesh_index_to_ypos cy) z1
                        (mesh_index_to_ypos (cy + 1)) z2 in
  dbg <- DEBUGGING MESH_ADJUST ;;
  when_ dbg
    (DEBUG_ECHO [SerialStr " raw get_z_correction("; SerialFloat rx0] ;;;
     DEBUG_ECHO [SerialChar ","] ;;;
     DEBUG_ECHO [SerialFloat ry0] ;;;
     DEBUG_ECHO [SerialStr ") = "; SerialFloat z0] ;;;
     DEBUG_ECHO [SerialStr " >>>---> "; SerialFloat z0; SerialEOL]) ;;;
  if F32.isnan z0 then
    dbg <- DEBUGGING MESH_ADJUST ;;
    when_ dbg
      (DEBUG_ECHO [SerialStr "??? Yikes!  NAN in get_z_correction(";
                   SerialFloat rx0] ;;;
       DEBUG_ECHO [SerialChar ","] ;;;
       DEBUG_ECHO [SerialFloat ry0] ;;;
       DEBUG_ECHO [SerialChar ")"] ;;;
       DEBUG_ECHO [SerialEOL]) ;;;
    ret F32.zero
  else ret z0.

Definition get_z_correction (rx0 ry0 : float) : M float :=
  let cx := get_cell_index_x rx0 in
  let cy := get_cell_index_y ry0 in
  match UBL_Z_RAISE_WHEN_OFF_MESH with
  | Some raise =>
      if off_mesh rx0 ry0 then ret raise
      else get_z_correction_on_mesh rx0 ry0 cx cy
  | None => get_z_correction_on_mesh rx0 ry0 cx cy
  end.

(** The inner loop of [mesh_is_valid] from [y] on, for [n] more rounds:
    [false] when it has returned false, [true] when it has run through. *)
Fixpoint mesh_is_valid_row (x y : Z) (n : nat) : M bool :=
  match n with
  | O => ret true
  | S n' =>
      z <- read_z x y ;;
      if F32.isnan z then ret false
      else mesh_is_valid_row x (y + 1) n'
  end.

Fixpoint mesh_is_valid_from (x : Z) (n : nat) : M bool :=
  match n with
  | O => ret true
  | S n' =>
      ok <- mesh_is_valid_row x 0 (Z.to_nat GRID_MAX_POINTS_Y) ;;
      if ok then mesh_is_valid_from (x + 1) n' else ret false
  end.

Definition mesh_is_valid : M bool :=
  mesh_is_valid_from 0 (Z.to_nat GRID_MAX_POINTS_X).

End UBL.

(** ** Concrete configurations *)

(** [MESH_X_DIST] for a given span and number of lines. *)
Definition mesh_dist (mesh_min mesh_max grid_max_points : Z) : float :=
  F32.div (F32.of_int (mesh_max - mesh_min)) (F32.of_int (grid_max_points - 1)).

(** Modelled from the spec: the table [_mesh_index_to_xpos] of ubl.cpp,
    "a precomputed lookup table (supports non-uniform spacing in principle
    even though default is uniform)". Its entry [i] is the value the
    fallback branch of [mesh_index_to_xpos] computes,
    [MESH_MIN_X + i * (MESH_X_DIST)]. *)
Definition uniform_table (grid_max_points mesh_min : Z) (dist : float)
  : list float :=
  map (fun i => F32.add (F32.of_int mesh_min)
                        (F32.mul (F32.of_int (Z.of_nat i)) dist))
      (seq 0 (Z.to_nat grid_max_points)).

(** A configuration with uniform tables, on a target that converts through
    a wider integer and keeps the low byte. *)
Definition uniform_configuration
    (gx gy min_x max_x min_y max_y : Z) (raise : option float)
  : Configuration :=
  {| GRID_MAX_POINTS_X := gx;
     GRID_MAX_POINTS_Y := gy;
     MESH_MIN_X := min_x;
     MESH_MAX_X := max_x;
     MESH_MIN_Y := min_y;
     MESH_MAX_Y := max_y;
     UBL_Z_RAISE_WHEN_OFF_MESH := raise;
     _mesh_index_to_xpos := uniform_table gx min_x (mesh_dist min_x max_x gx);
     _mesh_index_to_ypos := uniform_table gy min_y (mesh_dist min_y max_y gy);
     DEBUG_LEVELING_FEATURE := true;
     fix_unrepresentable :=
       fun f => match F32.trunc f with Some z => z | None => 0 end |}.

(** The grid of the spec's scenario: 3 by 3 lines over [0,200] on both axes,
    without and with an off-mesh raise. *)
Definition scenario_cfg : Configuration :=
  uniform_configuration 3 3 0 200 0 200 None.

Definition scenario_raise_cfg : Configuration :=
  uniform_configuration 3 3 0 200 0 200 (Some (F32.of_int 5)).

(** The mesh of the scenario: z[0][0] = 1, z[1][0] = 2, z[0][1] = 3,
    z[1][1] = 4, the other points still undefined. *)
Definition scenario_mesh : bed_mesh_t :=
  [ [F32.of_int 1; F32.of_int 3; F32.NAN];
    [F32.of_int 2; F32.of_int 4; F32.NAN];
    [F32.NAN; F32.NAN; F32.NAN] ].


(** A 220 mm bed with three lines per axis, and a mesh that is 0.3, 0.1 and
    0.2 along its three X lines. *)
Definition bed220_cfg : Configuration :=
  uniform_configuration 3 3 0 220 0 220 None.

Definition tenths_mesh : bed_mesh_t :=
  [ repeat (F32.of_ratio 3 10) 3;
    repeat (F32.of_ratio 1 10) 3;
    repeat (F32.of_ratio 2 10) 3 ].

(** A mesh two millimetres wide that starts at 2^24 mm, where single
    precision has no odd integers any more. *)
Definition far_cfg : Configuration :=
  uniform_configuration 3 3 16777216 16777218 0 200 None.

Definition all_nan_mesh (gx gy : nat) : bed_mesh_t :=
  repeat (repeat F32.NAN gy) gx.

Definition quiet (m : bed_mesh_t) : ubl_state :=
  mk_ubl_state m 0 (fun _ => false) [].

Definition verbose (m : bed_mesh_t) : ubl_state :=
  mk_ubl_state m 0 (fun _ => true) [].

(** The value a computation returns. *)
Definition result {A : Type} (c : M A) (s : ubl_state) : option A :=
  option_map fst (c s).

(** ** Values and rounding: notions for the error analysis

    The exact value of a single-precision number as a rational, and what the
    rounding of [SpecFloat] does to a mantissa, in the terms its proofs
    use. *)

(** Powers of two, as rationals. *)
Definition pow2 (e : Z) : Q := (2 ^ e)%Q.

Arguments pow2 : simpl never.

Definition inbetween (m : Z) (x : Q) (l : location) : Prop :=
  match l with
  | loc_Exact => (x == inject_Z m)%Q
  | loc_Inexact Lt => (inject_Z m < x /\ x < inject_Z m + (1 # 2))%Q
  | loc_Inexact Eq => (x == inject_Z m + (1 # 2))%Q
  | loc_Inexact Gt => (inject_Z m + (1 # 2) < x /\ x < inject_Z m + 1)%Q
  end.

Definition represents (mrs : shr_record) (x : Q) : Prop :=
  0 <= shr_m mrs /\ inbetween (shr_m mrs) x (loc_of_shr_record mrs).

Definition fexp32 (e : Z) : Z := Z.max (e - 24) (-149).

Definition sgnQ (s : bool) : Q := if s then (-1)%Q else 1%Q.

(** The value of a number; 0 for what is not one. *)
Definition val (f : spec_float) : Q :=
  match f with
  | S754_finite s m e => (sgnQ s * inject_Z (Z.pos m) * pow2 e)%Q
  | _ => 0%Q
  end.

(** The exponent is not below that of the subnormal numbers. *)
Definition exponent_ok (f : spec_float) : Prop :=
  match f with
  | S754_finite _ _ e => -149 <= e
  | _ => True
  end.

(** The second half of [binary_round_aux]: normalising a mantissa that the
    rounding may have carried to [2^24], and the test for overflow. *)
Definition round_finish (sx : bool) (m1 e' : Z) : spec_float :=
  let '(mrs'', e'') := shr_fexp 24 128 m1 e' loc_Exact in
  match shr_m mrs'' with
  | Z0 => S754_zero sx
  | Zpos m => if e'' <=? 128 - 24 then S754_finite sx m e'' else S754_infinity sx
  | Zneg _ => S754_nan
  end.

(** The relative error of one rounding, [2^-24], and a bound on the absolute
    error where the result is subnormal ([2^-150], rounded up to [2^-50]). *)
Definition unit_roundoff : Q := 1 # 16777216.
Definition underflow_bound : Q := 1 # 1125899906842624.


(** ** Notions the statements use *)

Section Statements.

Context {cfg : Configuration}.

(** The grid has at least one line per axis, and its last index fits
    [int8_t], the type the cell indices are returned in. *)
Definition grid_dims_ok : Prop :=
  1 <= GRID_MAX_POINTS_X <= 128 /\ 1 <= GRID_MAX_POINTS_Y <= 128.

(** [m] has the declared size of [z_values]:
    GRID_MAX_POINTS_X columns of GRID_MAX_POINTS_Y values. *)
Definition has_dims (m : bed_mesh_t) : bool :=
  (Z.of_nat (List.length m) =? GRID_MAX_POINTS_X)
  && forallb (fun col => Z.of_nat (List.length col) =? GRID_MAX_POINTS_Y) m.

Definition in_grid (x y : Z) : Prop :=
  0 <= x <= GRID_MAX_POINTS_X - 1 /\ 0 <= y <= GRID_MAX_POINTS_Y - 1.

(** The single-precision quotient the cell lookup takes the integral part
    of. *)
Definition cell_quotient_x (pos : float) : float :=
  F32.mul (F32.sub pos (F32.of_int MESH_MIN_X)) (RECIPROCAL MESH_X_DIST).

Definition cell_quotient_y (pos : float) : float :=
  F32.mul (F32.sub pos (F32.of_int MESH_MIN_Y)) (RECIPROCAL MESH_Y_DIST).

(** The position is below MESH_MIN or above MESH_MAX on one axis. *)
Definition strictly_outside (rx0 ry0 : float) : bool :=
  F32.ltb rx0 (F32.of_int MESH_MIN_X) || F32.ltb (F32.of_int MESH_MAX_X) rx0
  || F32.ltb ry0 (F32.of_int MESH_MIN_Y) || F32.ltb (F32.of_int MESH_MAX_Y) ry0.

(** The query is not answered by the off-mesh raise. *)
Definition reaches_interpolation (rx0 ry0 : float) : Prop :=
  UBL_Z_RAISE_WHEN_OFF_MESH = None \/ off_mesh rx0 ry0 = false.

(** The index of the line after [cx] that [get_z_correction] reads. *)
Definition upper_x (cx : Z) : Z := _MIN cx (GRID_MAX_POINTS_X - 2) + 1.
Definition upper_y (cy : Z) : Z := _MIN cy (GRID_MAX_POINTS_Y - 2) + 1.

(** The two-stage interpolation of [get_z_correction] in the cell
    [(cx, cy)], from its four mesh values: along X on the lower and on the
    upper line of the cell, then along Y between the two results. *)
Definition bilinear (rx0 ry0 : float) (cx cy : Z) (za zb zc zd : float)
  : float :=
  let z1 := calc_z0 rx0 (mesh_index_to_xpos cx) za
                        (mesh_index_to_xpos (cx + 1)) zb in
  let z2 := calc_z0 rx0 (mesh_index_to_xpos cx) zc
                        (mesh_index_to_xpos (cx + 1)) zd in
  calc_z0 ry0 (mesh_index_to_ypos cy) z1 (mesh_index_to_ypos (cy + 1)) z2.

Definition nan_to_zero (z : float) : float :=
  if F32.isnan z then F32.zero else z.

(** The four mesh values [get_z_correction] reads for the cell. *)
Definition cell_values (m : bed_mesh_t) (cx cy : Z)
  : option (float * float * float * float) :=
  match mesh_at m cx cy, mesh_at m (upper_x cx) cy,
        mesh_at m cx (upper_y cy), mesh_at m (upper_x cx) (upper_y cy) with
  | Some za, Some zb, Some zc, Some zd => Some (za, zb, zc, zd)
  | _, _, _, _ => None
  end.

(** The value of [get_z_correction], as a function of the mesh alone. *)
Definition z_correction_value (m : bed_mesh_t) (rx0 ry0 : float)
  : option float :=
  let cx := get_cell_index_x rx0 in
  let cy := get_cell_index_y ry0 in
  let on_mesh :=
    match cell_values m cx cy with
    | Some (za, zb, zc, zd) =>
        Some (nan_to_zero (bilinear rx0 ry0 cx cy za zb zc zd))
    | None => None
    end in
  match UBL_Z_RAISE_WHEN_OFF_MESH with
  | Some raise => if off_mesh rx0 ry0 then Some raise else on_mesh
  | None => on_mesh
  end.

(** The value a single-axis helper returns inside the grid. *)
Definition x_line_value (m : bed_mesh_t) (rx0 : float) (x1_i yi : Z)
  : option float :=
  match mesh_at m x1_i yi, mesh_at m (upper_x x1_i) yi with
  | Some z1, Some z2 =>
      Some (F32.add z1
              (F32.mul (F32.mul (F32.sub rx0 (mesh_index_to_xpos x1_i))
                                (RECIPROCAL MESH_X_DIST))
                       (F32.sub z2 z1)))
  | _, _ => None
  end.

Definition y_line_value (m : bed_mesh_t) (ry0 : float) (xi y1_i : Z)
  : option float :=
  match mesh_at m xi y1_i, mesh_at m xi (upper_y y1_i) with
  | Some z1, Some z2 =>
      Some (F32.add z1
              (F32.mul (F32.mul (F32.sub ry0 (mesh_index_to_ypos y1_i))
                                (RECIPROCAL MESH_Y_DIST))
                       (F32.sub z2 z1)))
  | _, _ => None
  end.






(** The tables hold the positions of evenly spaced lines, as ubl.cpp fills
    them. *)
Definition uniform_tables : Prop :=
  _mesh_index_to_xpos
  = uniform_table GRID_MAX_POINTS_X MESH_MIN_X MESH_X_DIST
  /\ _mesh_index_to_ypos
     = uniform_table GRID_MAX_POINTS_Y MESH_MIN_Y MESH_Y_DIST.

(** The mesh bounds fit a 16-bit [int] and there are 2 to 15 lines on each
    axis. *)
Definition ordinary_bed : Prop :=
  2 <= GRID_MAX_POINTS_X <= 15 /\ 2 <= GRID_MAX_POINTS_Y <= 15
  /\ -32768 <= MESH_MIN_X /\ MESH_MIN_X < MESH_MAX_X /\ MESH_MAX_X <= 32767
  /\ -32768 <= MESH_MIN_Y /\ MESH_MIN_Y < MESH_MAX_Y /\ MESH_MAX_Y <= 32767.

(** Every point of the grid holds a number. *)
Definition all_defined (m : bed_mesh_t) : Prop :=
  forall x y z, in_grid x y -> mesh_at m x y = Some z -> F32.isnan z = false.

End Statements.

(** [z] is the stored number [z0]; a stored -0.0 may come back as +0.0. *)
Definition same_number (z z0 : float) : Prop :=
  z = z0 \/ (z0 = S754_zero true /\ z = S754_zero false).

(** [s'] differs from [s] by serial output only: the mesh, the storage slot
    and the debug flags are those of [s]. *)
Definition frame (s s' : ubl_state) : Prop :=
  z_values s' = z_values s
  /\ storage_slot s' = storage_slot s
  /\ marlin_debug_flags s' = marlin_debug_flags s
  /\ exists out, serial s' = (serial s ++ out)%list.

(** A query: whenever it returns, the state is as it was, serial output
    apart. *)
Definition query {A : Type} (c : M A) : Prop :=
  forall s a s', c s = Some (a, s') -> frame s s'.

(** A reader: it writes nothing at all, and what it returns depends on the
    mesh alone. *)
Definition reader {A : Type} (c : M A) : Prop :=
  forall s1 s2, z_values s1 = z_values s2 ->
    c s1 = option_map (fun r => (fst r, s1)) (c s2).

(** A mesh that holds the same height at every point. *)
Definition constant_mesh (z : float) (gx gy : nat) : bed_mesh_t :=
  repeat (repeat z gy) gx.

(** ** Positions as exact numbers

    The position of a point measured on the mesh, in the rationals: what
    the single-precision index computations approximate. *)

(** The exact width of a cell. *)
Definition cell_width (mesh_min mesh_max grid_max_points : Z) : Q :=
  inject_Z (mesh_max - mesh_min) / inject_Z (grid_max_points - 1).

(** The exact number of cell widths from MESH_MIN to the position [pos]. *)
Definition cells_from_min (mesh_min mesh_max grid_max_points : Z)
    (pos : float) : Q :=
  (val pos - inject_Z mesh_min) / cell_width mesh_min mesh_max grid_max_points.

(** The exact position of line [i]. *)
Definition line_position (mesh_min mesh_max grid_max_points i : Z) : Q :=
  inject_Z mesh_min
  + inject_Z i * cell_width mesh_min mesh_max grid_max_points.

Section Positions.

Context {cfg : Configuration}.

Definition cell_width_x : Q :=
  cell_width MESH_MIN_X MESH_MAX_X GRID_MAX_POINTS_X.

Definition cell_width_y : Q :=
  cell_width MESH_MIN_Y MESH_MAX_Y GRID_MAX_POINTS_Y.

Definition cells_from_min_x (pos : float) : Q :=
  cells_from_min MESH_MIN_X MESH_MAX_X GRID_MAX_POINTS_X pos.

Definition cells_from_min_y (pos : float) : Q :=
  cells_from_min MESH_MIN_Y MESH_MAX_Y GRID_MAX_POINTS_Y pos.

Definition line_position_x (i : Z) : Q :=
  line_position MESH_MIN_X MESH_MAX_X GRID_MAX_POINTS_X i.

Definition line_position_y (i : Z) : Q :=
  line_position MESH_MIN_Y MESH_MAX_Y GRID_MAX_POINTS_Y i.

End Positions.

(** ** The interpolation on exact numbers *)

(** [z1 + (z2 - z1) * (a0 - a1) / (a2 - a1)] in the rationals: what
    [calc_z0] approximates. *)
Definition calc_z0_exact (a0 a1 z1 a2 z2 : Q) : Q :=
  z1 + (z2 - z1) * (a0 - a1) / (a2 - a1).

(** A bound on the absolute error of an operation whose result is
    subnormal ([2^-150], rounded up to [2^-100]). *)
Definition tiny_bound : Q := 1 # 1267650600228229401496703205376.

Section ExactInterpolation.

Context {cfg : Configuration}.

(** The two-stage interpolation of [get_z_correction] in the cell
    [(cx, cy)] on exact numbers: the values of the position, of the four
    heights and of the positions [mesh_index_to_xpos] and
    [mesh_index_to_ypos] give for the lines of the cell. *)
Definition bilinear_exact (rx0 ry0 : float) (cx cy : Z)
    (za zb zc zd : float) : Q :=
  let x1 := val (mesh_index_to_xpos cx) in
  let x2 := val (mesh_index_to_xpos (cx + 1)) in
  let y1 := val (mesh_index_to_ypos cy) in
  let y2 := val (mesh_index_to_ypos (cy + 1)) in
  calc_z0_exact (val ry0) y1
    (calc_z0_exact (val rx0) x1 (val za) x2 (val zb)) y2
    (calc_z0_exact (val rx0) x1 (val zc) x2 (val zd)).

End ExactInterpolation.

(** ** The model at work *)

Example f32_one : F32.one = S754_finite false 8388608 (-23).
Proof. reflexivity. Qed.

Example f32_half : F32.half = S754_finite false 8388608 (-24).
Proof. reflexivity. Qed.

Example f32_tenth_rounds :
  F32.to_Q (F32.of_ratio 1 10) = Some (13421773 # 134217728)%Q.
Proof. reflexivity. Qed.

Example f32_trunc_neg : F32.trunc (F32.of_ratio (-7) 2) = Some (-3).
Proof. reflexivity. Qed.

Example scenario_tables :
  @_mesh_index_to_xpos scenario_cfg
  = [F32.of_int 0; F32.of_int 100; F32.of_int 200].
Proof. reflexivity. Qed.

Example scenario_cells :
  map (@get_cell_index_x scenario_cfg)
      [F32.of_int (-5); F32.of_int 0; F32.of_int 50; F32.of_int 100;
       F32.of_int 199; F32.of_int 200; F32.of_int 250]
  = [0; 0; 0; 1; 1; 2; 2].
Proof. reflexivity. Qed.

Example scenario_closest :
  map (@find_closest_x_index scenario_cfg)
      [F32.of_int (-51); F32.of_int (-50); F32.of_int 49; F32.of_int 50;
       F32.of_int 249; F32.of_int 250]
  = [0; 0; 0; 1; 2; -1].
Proof. reflexivity. Qed.

Example scenario_midpoint :
  result (@get_z_correction scenario_cfg (F32.of_int 50) (F32.of_int 50))
         (quiet scenario_mesh)
  = Some (F32.of_ratio 5 2).
Proof. reflexivity. Qed.

Example scenario_undefined_cell :
  @get_z_correction scenario_cfg (F32.of_int 150) (F32.of_int 50)
     (verbose scenario_mesh)
  = Some (F32.zero,
          mk_ubl_state scenario_mesh 0 (fun _ => true)
            [SerialStr " raw get_z_correction("; SerialFloat (F32.of_int 150);
             SerialChar ","; SerialFloat (F32.of_int 50);
             SerialStr ") = "; SerialFloat F32.NAN;
             SerialStr " >>>---> "; SerialFloat F32.NAN; SerialEOL;
             SerialStr "??? Yikes!  NAN in get_z_correction(";
             SerialFloat (F32.of_int 150); SerialChar ",";
             SerialFloat (F32.of_int 50); SerialChar ")"; SerialEOL]).
Proof. reflexivity. Qed.

Example scenario_set_z :
  option_map (fun r => z_values (snd r))
    (set_z 2 0 (F32.of_int 7) (quiet scenario_mesh))
  = Some [ [F32.of_int 1; F32.of_int 3; F32.NAN];
           [F32.of_int 2; F32.of_int 4; F32.NAN];
           [F32.of_int 7; F32.NAN; F32.NAN] ].
Proof. reflexivity. Qed.

Example f32_half_of_47 :
  F32.trunc (F32.mul (F32.of_int 47) F32.half) = Some 23
  /\ F32.floor (F32.mul (F32.of_int (-47)) F32.half) = Some (-24)
  /\ F32.trunc (F32.mul (F32.of_int (-47)) F32.half) = Some (-23).
Proof. repeat split. Qed.

Example mesh_is_valid_on_infinities :
  result (@mesh_is_valid scenario_cfg)
         (quiet (repeat (repeat (S754_infinity false) 3) 3))
  = Some true.
Proof. reflexivity. Qed.

(** ** Integers *)

Lemma to_int8_id (z : Z) : -128 <= z <= 127 -> to_int8 z = z.
Proof.
  intros H. unfold to_int8.
  rewrite Z.mod_small by lia. lia.
Qed.

Lemma to_int8_range (z : Z) : -128 <= to_int8 z <= 127.
Proof.
  unfold to_int8.
  pose proof (Z.mod_pos_bound (z + 128) 256). lia.
Qed.

Lemma in_int8_spec (z : Z) : in_int8 z = true <-> -128 <= z <= 127.
Proof. unfold in_int8. rewrite andb_true_iff, !Z.leb_le. tauto. Qed.

Lemma constrain_range (amt low high : Z) :
  low <= high -> low <= constrain amt low high <= high.
Proof.
  intros H. unfold constrain.
  destruct (amt <? low) eqn:E1; [lia|].
  destruct (amt >? high) eqn:E2; [lia|].
  apply Z.ltb_ge in E1. rewrite Z.gtb_ltb in E2. apply Z.ltb_ge in E2. lia.
Qed.

Lemma constrain_max_min (amt low high : Z) :
  low <= high -> constrain amt low high = Z.max low (Z.min amt high).
Proof.
  intros H. unfold constrain.
  destruct (amt <? low) eqn:E1.
  - apply Z.ltb_lt in E1. lia.
  - apply Z.ltb_ge in E1. rewrite Z.gtb_ltb.
    destruct (high <? amt) eqn:E2.
    + apply Z.ltb_lt in E2. lia.
    + apply Z.ltb_ge in E2. lia.
Qed.

Lemma WITHIN_spec (n l h : Z) : WITHIN n l h = true <-> l <= n <= h.
Proof. unfold WITHIN. rewrite andb_true_iff, !Z.leb_le. tauto. Qed.

Lemma _MIN_min (a b : Z) : _MIN a b = Z.min a b.
Proof. unfold _MIN. destruct (a <? b) eqn:E; [apply Z.ltb_lt in E | apply Z.ltb_ge in E]; lia. Qed.

(** ** Single precision: the facts the proofs need *)

Module F32Facts.

Lemma add_nan_l y : F32.add F32.NAN y = F32.NAN.
Proof. reflexivity. Qed.

Lemma add_nan_r x : F32.add x F32.NAN = F32.NAN.
Proof. destruct x; reflexivity. Qed.

Lemma sub_nan_l y : F32.sub F32.NAN y = F32.NAN.
Proof. reflexivity. Qed.

Lemma sub_nan_r x : F32.sub x F32.NAN = F32.NAN.
Proof. destruct x; reflexivity. Qed.

Lemma mul_nan_l y : F32.mul F32.NAN y = F32.NAN.
Proof. reflexivity. Qed.

Lemma div_nan_l y : F32.div F32.NAN y = F32.NAN.
Proof. reflexivity. Qed.

Lemma isnan_spec f : F32.isnan f = true <-> f = F32.NAN.
Proof. unfold F32.NAN. destruct f; simpl; split; intros H; congruence. Qed.

(** Comparison the other way round. *)
Lemma compare_swap x y :
  SFcompare y x = option_map CompOpp (SFcompare x y).
Proof.
  destruct x as [sx|sx| |sx mx ex], y as [sy|sy| |sy my ey]; simpl;
    try reflexivity;
    try (destruct sx; reflexivity);
    try (destruct sy; reflexivity);
    try (destruct sx, sy; reflexivity).
  destruct sx, sy; try reflexivity;
    rewrite (Z.compare_antisym ey ex);
    destruct (ey ?= ex); simpl; try reflexivity;
    change (Pos.compare_cont Eq my mx) with (my ?= mx)%positive;
    change (Pos.compare_cont Eq mx my) with (mx ?= my)%positive;
    rewrite (Pos.compare_antisym mx my);
    destruct (mx ?= my)%positive; reflexivity.
Qed.

Lemma ltb_not_leb x y : F32.ltb x y = true -> F32.leb y x = false.
Proof.
  unfold F32.ltb, F32.leb, SFltb, SFleb.
  rewrite (compare_swap x y).
  destruct (SFcompare x y) as [[]|]; simpl; congruence.
Qed.

End F32Facts.

(** ** The mesh as an array *)

Lemma nth_error_in_range {A : Type} (l : list A) (n : nat) :
  (n < List.length l)%nat -> exists a, nth_error l n = Some a.
Proof.
  intros H. destruct (nth_error l n) eqn:E; [eauto|].
  apply nth_error_None in E. lia.
Qed.

Section Geometry.

Context {cfg : Configuration}.

Lemma has_dims_columns (m : bed_mesh_t) :
  has_dims m = true -> Z.of_nat (List.length m) = GRID_MAX_POINTS_X.
Proof.
  unfold has_dims. rewrite andb_true_iff. intros [H _].
  now apply Z.eqb_eq in H.
Qed.

Lemma has_dims_rows (m : bed_mesh_t) (n : nat) (col : list float) :
  has_dims m = true -> nth_error m n = Some col ->
  Z.of_nat (List.length col) = GRID_MAX_POINTS_Y.
Proof.
  unfold has_dims. rewrite andb_true_iff. intros [_ H] E.
  rewrite forallb_forall in H.
  apply Z.eqb_eq, H. eapply nth_error_In; eauto.
Qed.

(** Inside the grid a read finds a value... *)
Lemma mesh_at_in_grid (m : bed_mesh_t) (x y : Z) :
  has_dims m = true -> in_grid x y -> exists z, mesh_at m x y = Some z.
Proof.
  intros Hd [Hx Hy]. unfold mesh_at.
  destruct (x <? 0) eqn:Ex; [apply Z.ltb_lt in Ex; lia|].
  destruct (y <? 0) eqn:Ey; [apply Z.ltb_lt in Ey; lia|]. simpl.
  pose proof (has_dims_columns m Hd) as Hc.
  destruct (nth_error_in_range m (Z.to_nat x)) as [col Ecol]; [lia|].
  rewrite Ecol.
  pose proof (has_dims_rows m _ col Hd Ecol) as Hr.
  apply nth_error_in_range. lia.
Qed.

(** ... and outside of it there is none. *)
Lemma mesh_at_outside (m : bed_mesh_t) (x y : Z) :
  has_dims m = true -> ~ in_grid x y -> mesh_at m x y = None.
Proof.
  intros Hd Hout. unfold mesh_at.
  destruct (x <? 0) eqn:Ex; [reflexivity|].
  destruct (y <? 0) eqn:Ey; [reflexivity|]. simpl.
  apply Z.ltb_ge in Ex, Ey.
  pose proof (has_dims_columns m Hd) as Hc.
  destruct (nth_error m (Z.to_nat x)) as [col|] eqn:Ecol; [|reflexivity].
  pose proof (has_dims_rows m _ col Hd Ecol) as Hr.
  apply nth_error_None.
  assert (Hlt : (Z.to_nat x < List.length m)%nat)
    by (apply nth_error_Some; congruence).
  unfold in_grid in Hout. lia.
Qed.

Lemma float_to_int8_range (f : float) : -128 <= float_to_int8 f <= 127.
Proof.
  unfold float_to_int8.
  destruct (F32.trunc f) as [z|]; [|apply to_int8_range].
  destruct (in_int8 z) eqn:E; [now apply in_int8_spec | apply to_int8_range].
Qed.

Lemma float_to_int8_trunc (f : float) (t : Z) :
  F32.trunc f = Some t -> in_int8 t = true -> float_to_int8 f = t.
Proof. intros E H. unfold float_to_int8. now rewrite E, H. Qed.

(** The clamp of an [int8_t] into the grid's indices. *)
Lemma clamp_to_grid (c g : Z) :
  1 <= g <= 128 ->
  to_int8 (constrain c 0 (g - 1)) = Z.max 0 (Z.min c (g - 1))
  /\ 0 <= to_int8 (constrain c 0 (g - 1)) <= g - 1.
Proof.
  intros Hg.
  pose proof (constrain_range c 0 (g - 1) ltac:(lia)) as Hr.
  rewrite to_int8_id by lia.
  rewrite constrain_max_min by lia. lia.
Qed.

Lemma get_cell_index_x_range (x : float) :
  grid_dims_ok -> 0 <= get_cell_index_x x <= GRID_MAX_POINTS_X - 1.
Proof. intros [Hx _]. unfold get_cell_index_x. now apply clamp_to_grid. Qed.

Lemma get_cell_index_y_range (y : float) :
  grid_dims_ok -> 0 <= get_cell_index_y y <= GRID_MAX_POINTS_Y - 1.
Proof. intros [_ Hy]. unfold get_cell_index_y. now apply clamp_to_grid. Qed.

Lemma upper_x_range (cx : Z) :
  0 <= cx <= GRID_MAX_POINTS_X - 1 -> 0 <= upper_x cx <= GRID_MAX_POINTS_X - 1.
Proof. unfold upper_x. rewrite _MIN_min. lia. Qed.

Lemma upper_y_range (cy : Z) :
  0 <= cy <= GRID_MAX_POINTS_Y - 1 -> 0 <= upper_y cy <= GRID_MAX_POINTS_Y - 1.
Proof. unfold upper_y. rewrite _MIN_min. lia. Qed.

(** In a mesh of the declared size every cell the lookup can return has its
    four values. *)
Lemma cell_values_in_grid (m : bed_mesh_t) (cx cy : Z) :
  has_dims m = true ->
  0 <= cx <= GRID_MAX_POINTS_X - 1 -> 0 <= cy <= GRID_MAX_POINTS_Y - 1 ->
  exists za zb zc zd, cell_values m cx cy = Some (za, zb, zc, zd).
Proof.
  intros Hd Hx Hy.
  pose proof (upper_x_range cx Hx) as Hx1.
  pose proof (upper_y_range cy Hy) as Hy1.
  unfold cell_values.
  destruct (mesh_at_in_grid m cx cy Hd) as [za ->]; [split; lia|].
  destruct (mesh_at_in_grid m (upper_x cx) cy Hd) as [zb ->]; [split; lia|].
  destruct (mesh_at_in_grid m cx (upper_y cy) Hd) as [zc ->]; [split; lia|].
  destruct (mesh_at_in_grid m (upper_x cx) (upper_y cy) Hd) as [zd ->];
    [split; lia|].
  eauto.
Qed.

End Geometry.

(** ** The monad: what a run leaves behind *)

Lemma frame_refl (s : ubl_state) : frame s s.
Proof.
  unfold frame. repeat split. exists []. now rewrite app_nil_r.
Qed.

Lemma frame_trans (s1 s2 s3 : ubl_state) :
  frame s1 s2 -> frame s2 s3 -> frame s1 s3.
Proof.
  intros (Hz & Hs & Hf & o1 & Ho1) (Hz' & Hs' & Hf' & o2 & Ho2).
  unfold frame. repeat split; try congruence.
  exists (o1 ++ o2)%list. rewrite Ho2, Ho1. now rewrite app_assoc.
Qed.

Lemma query_ret {A : Type} (a : A) : query (ret a).
Proof. intros s a' s' H. injection H as _ <-. apply frame_refl. Qed.

Lemma query_bind {A B : Type} (c : M A) (k : A -> M B) :
  query c -> (forall a, query (k a)) -> query (bind c k).
Proof.
  intros Hc Hk s b s' H. unfold bind in H.
  destruct (c s) as [[a s1]|] eqn:E; [|discriminate].
  eapply frame_trans; [eapply Hc | eapply Hk]; eauto.
Qed.

Lemma query_read_z (x y : Z) : query (read_z x y).
Proof.
  intros s a s' H. unfold read_z in H.
  destruct (mesh_at (z_values s) x y); [|discriminate].
  injection H as _ <-. apply frame_refl.
Qed.

Lemma query_DEBUGGING (F : MarlinDebugFlags) : query (DEBUGGING F).
Proof. intros s a s' H. injection H as _ <-. apply frame_refl. Qed.

Lemma query_DEBUG_ECHO {cfg : Configuration} (items : list serial_item) :
  query (DEBUG_ECHO items).
Proof.
  intros s a s' H. unfold DEBUG_ECHO in H.
  destruct DEBUG_LEVELING_FEATURE; injection H as _ <-.
  - unfold frame; simpl. repeat split. now exists items.
  - apply frame_refl.
Qed.

Lemma query_when (b : bool) (c : M unit) : query c -> query (when_ b c).
Proof. intros H. destruct b; simpl; [assumption | apply query_ret]. Qed.

Lemma query_if {A : Type} (b : bool) (c1 c2 : M A) :
  query c1 -> query c2 -> query (if b then c1 else c2).
Proof. now destruct b. Qed.

Create HintDb ubl_query.
#[export] Hint Resolve query_ret query_bind query_read_z query_DEBUGGING
  query_DEBUG_ECHO query_when query_if : ubl_query.

(** Steps through a computation built from the queries above. *)
Ltac run_query :=
  repeat first [ progress intros
               | apply query_bind
               | apply query_when
               | apply query_if
               | solve [auto with ubl_query] ].

Section Queries.

Context {cfg : Configuration}.

Lemma query_get_z_correction_on_mesh (rx0 ry0 : float) (cx cy : Z) :
  query (get_z_correction_on_mesh rx0 ry0 cx cy).
Proof. unfold get_z_correction_on_mesh. run_query. Qed.

Lemma query_get_z_correction (rx0 ry0 : float) :
  query (get_z_correction rx0 ry0).
Proof.
  unfold get_z_correction.
  destruct UBL_Z_RAISE_WHEN_OFF_MESH;
    [apply query_if; [apply query_ret|] |];
    apply query_get_z_correction_on_mesh.
Qed.

Lemma query_z_correction_for_x (rx0 : float) (x1_i yi : Z) :
  query (z_correction_for_x_on_horizontal_mesh_line rx0 x1_i yi).
Proof. unfold z_correction_for_x_on_horizontal_mesh_line. run_query. Qed.

Lemma query_z_correction_for_y (ry0 : float) (xi y1_i : Z) :
  query (z_correction_for_y_on_vertical_mesh_line ry0 xi y1_i).
Proof. unfold z_correction_for_y_on_vertical_mesh_line. run_query. Qed.

Lemma query_mesh_is_valid_row (n : nat) :
  forall x y, query (mesh_is_valid_row x y n).
Proof. induction n as [|n IH]; simpl; run_query. Qed.

Lemma query_mesh_is_valid : query mesh_is_valid.
Proof.
  unfold mesh_is_valid. generalize 0.
  induction (Z.to_nat GRID_MAX_POINTS_X) as [|n IH]; simpl; intros x;
    run_query. apply query_mesh_is_valid_row.
Qed.

End Queries.

(** [set_z] is no query: it changes the mesh. *)
Lemma set_z_writes : ~ query (set_z 2 0 (F32.of_int 7)).
Proof.
  intros H.
  destruct (H (quiet scenario_mesh) tt
              (mk_ubl_state
                 (mesh_set scenario_mesh 2 0 (F32.of_int 7)) 0
                 (fun _ => false) []) eq_refl) as [Hz _].
  discriminate Hz.
Qed.

(** ** What the stateful functions compute *)

Section Runs.

Context {cfg : Configuration}.

Ltac frame_by_output :=
  unfold frame; simpl; repeat split;
  repeat rewrite <- app_assoc;
  first [ eexists; reflexivity
        | exists []; now rewrite app_nil_r ].

(** The interpolation step reads the four values of the cell and returns
    the two-stage interpolation of them, NaN replaced by zero. *)
Lemma get_z_correction_on_mesh_run (rx0 ry0 : float) (cx cy : Z)
      (s : ubl_state) :
  match cell_values (z_values s) cx cy with
  | Some (za, zb, zc, zd) =>
      exists s',
        get_z_correction_on_mesh rx0 ry0 cx cy s
        = Some (nan_to_zero (bilinear rx0 ry0 cx cy za zb zc zd), s')
        /\ frame s s'
  | None => get_z_correction_on_mesh rx0 ry0 cx cy s = None
  end.
Proof.
  unfold cell_values, get_z_correction_on_mesh, bind, read_z.
  fold (upper_x cx). fold (upper_y cy).
  destruct (mesh_at (z_values s) cx cy) as [za|]; [|reflexivity].
  destruct (mesh_at (z_values s) (upper_x cx) cy) as [zb|]; [|reflexivity].
  destruct (mesh_at (z_values s) cx (upper_y cy)) as [zc|]; [|reflexivity].
  destruct (mesh_at (z_values s) (upper_x cx) (upper_y cy)) as [zd|];
    [|reflexivity].
  unfold nan_to_zero, bilinear, DEBUGGING, when_, DEBUG_ECHO, bind, ret.
  cbv zeta.
  destruct (marlin_debug_flags s MESH_ADJUST) eqn:Eflag;
    destruct DEBUG_LEVELING_FEATURE;
    match goal with |- context [F32.isnan ?z] => destruct (F32.isnan z) end;
    cbn [marlin_debug_flags z_values storage_slot serial];
    rewrite ?Eflag;
    eexists; (split; [reflexivity | frame_by_output]).
Qed.

(** [get_z_correction] returns [z_correction_value] of the mesh, and stops
    only where that has no value. *)
Lemma get_z_correction_run (rx0 ry0 : float) (s : ubl_state) :
  match z_correction_value (z_values s) rx0 ry0 with
  | Some z => exists s', get_z_correction rx0 ry0 s = Some (z, s') /\ frame s s'
  | None => get_z_correction rx0 ry0 s = None
  end.
Proof.
  pose proof (get_z_correction_on_mesh_run rx0 ry0 (get_cell_index_x rx0)
                (get_cell_index_y ry0) s) as Hon.
  unfold z_correction_value, get_z_correction.
  destruct UBL_Z_RAISE_WHEN_OFF_MESH as [raise|].
  - destruct (off_mesh rx0 ry0).
    + exists s. split; [reflexivity | apply frame_refl].
    + destruct (cell_values _ _ _) as [[[[za zb] zc] zd]|]; exact Hon.
  - destruct (cell_values _ _ _) as [[[[za zb] zc] zd]|]; exact Hon.
Qed.

Lemma get_z_correction_result (rx0 ry0 : float) (s : ubl_state) :
  result (get_z_correction rx0 ry0) s
  = z_correction_value (z_values s) rx0 ry0.
Proof.
  pose proof (get_z_correction_run rx0 ry0 s) as H. unfold result.
  destruct (z_correction_value (z_values s) rx0 ry0).
  - destruct H as (s' & -> & _). reflexivity.
  - now rewrite H.
Qed.

(** Off the grid a single-axis helper returns the off-mesh value without
    reading the mesh; on the grid it interpolates along its line. *)
Lemma z_correction_for_x_run (rx0 : float) (x1_i yi : Z) (s : ubl_state) :
  if WITHIN x1_i 0 (GRID_MAX_POINTS_X - 1)
     && WITHIN yi 0 (GRID_MAX_POINTS_Y - 1)
  then z_correction_for_x_on_horizontal_mesh_line rx0 x1_i yi s
       = option_map (fun z => (z, s)) (x_line_value (z_values s) rx0 x1_i yi)
  else exists s',
         z_correction_for_x_on_horizontal_mesh_line rx0 x1_i yi s
         = Some (off_mesh_value, s') /\ frame s s'.
Proof.
  unfold z_correction_for_x_on_horizontal_mesh_line.
  rewrite <- negb_andb.
  destruct (WITHIN x1_i 0 (GRID_MAX_POINTS_X - 1)
            && WITHIN yi 0 (GRID_MAX_POINTS_Y - 1)); cbn [negb].
  - unfold x_line_value, bind, read_z. fold (upper_x x1_i).
    destruct (mesh_at (z_values s) x1_i yi); [|reflexivity].
    destruct (mesh_at (z_values s) (upper_x x1_i) yi); reflexivity.
  - unfold DEBUGGING, when_, DEBUG_ECHO, bind, ret.
    destruct (marlin_debug_flags s LEVELING);
      destruct DEBUG_LEVELING_FEATURE;
      eexists; (split; [reflexivity | frame_by_output]).
Qed.

Lemma z_correction_for_y_run (ry0 : float) (xi y1_i : Z) (s : ubl_state) :
  if WITHIN xi 0 (GRID_MAX_POINTS_X - 1)
     && WITHIN y1_i 0 (GRID_MAX_POINTS_Y - 1)
  then z_correction_for_y_on_vertical_mesh_line ry0 xi y1_i s
       = option_map (fun z => (z, s)) (y_line_value (z_values s) ry0 xi y1_i)
  else exists s',
         z_correction_for_y_on_vertical_mesh_line ry0 xi y1_i s
         = Some (off_mesh_value, s') /\ frame s s'.
Proof.
  unfold z_correction_for_y_on_vertical_mesh_line.
  rewrite <- negb_andb.
  destruct (WITHIN xi 0 (GRID_MAX_POINTS_X - 1)
            && WITHIN y1_i 0 (GRID_MAX_POINTS_Y - 1)); cbn [negb].
  - unfold y_line_value, bind, read_z. fold (upper_y y1_i).
    destruct (mesh_at (z_values s) xi y1_i); [|reflexivity].
    destruct (mesh_at (z_values s) xi (upper_y y1_i)); reflexivity.
  - unfold DEBUGGING, when_, DEBUG_ECHO, bind, ret.
    destruct (marlin_debug_flags s LEVELING);
      destruct DEBUG_LEVELING_FEATURE;
      eexists; (split; [reflexivity | frame_by_output]).
Qed.

Lemma in_grid_WITHIN (x y : Z) :
  WITHIN x 0 (GRID_MAX_POINTS_X - 1) && WITHIN y 0 (GRID_MAX_POINTS_Y - 1)
  = true <-> in_grid x y.
Proof. rewrite andb_true_iff, !WITHIN_spec. reflexivity. Qed.

(** ** [mesh_is_valid] *)

Lemma reader_ret {A : Type} (a : A) : reader (ret a).
Proof. intros s1 s2 _. reflexivity. Qed.

Lemma reader_read_then {A : Type} (x y : Z) (k : float -> M A) :
  (forall z, reader (k z)) -> reader (bind (read_z x y) k).
Proof.
  intros Hk s1 s2 E. unfold bind, read_z. rewrite E.
  destruct (mesh_at (z_values s2) x y) as [z|]; [|reflexivity].
  now apply Hk.
Qed.

Lemma reader_bind {A B : Type} (c : M A) (k : A -> M B) :
  reader c -> (forall a, reader (k a)) -> reader (bind c k).
Proof.
  intros Hc Hk s1 s2 E. unfold bind.
  rewrite (Hc s1 s2 E).
  destruct (c s2) as [[a s2']|] eqn:E2; simpl; [|reflexivity].
  rewrite (Hk a s1 s2' ).
  - reflexivity.
  - rewrite E. specialize (Hc s2 s2 eq_refl). rewrite E2 in Hc.
    simpl in Hc. now injection Hc as <-.
Qed.

Lemma reader_row (n : nat) : forall x y, reader (mesh_is_valid_row x y n).
Proof.
  induction n as [|n IH]; intros x y; simpl.
  - apply reader_ret.
  - apply reader_read_then. intros z.
    destruct (F32.isnan z); [apply reader_ret | apply IH].
Qed.

Lemma reader_from (n : nat) : forall x, reader (mesh_is_valid_from x n).
Proof.
  induction n as [|n IH]; intros x; simpl.
  - apply reader_ret.
  - apply reader_bind; [apply reader_row|].
    intros [|]; [apply IH | apply reader_ret].
Qed.

Lemma reader_mesh_is_valid : reader mesh_is_valid.
Proof. apply reader_from. Qed.

Lemma reader_state {A : Type} (c : M A) (s : ubl_state) (a : A) (s' : ubl_state) :
  reader c -> c s = Some (a, s') -> s' = s.
Proof.
  intros Hc E. specialize (Hc s s eq_refl). rewrite E in Hc. simpl in Hc.
  now injection Hc.
Qed.

(** The inner loop returns, and says whether the stretch of the column it
    ran over holds numbers only. *)
Lemma mesh_is_valid_row_run (n : nat) : forall (x y : Z) (s : ubl_state),
  (forall k, 0 <= k < Z.of_nat n ->
             exists z, mesh_at (z_values s) x (y + k) = Some z) ->
  exists b,
    mesh_is_valid_row x y n s = Some (b, s)
    /\ (b = true <->
        forall k z, 0 <= k < Z.of_nat n ->
                    mesh_at (z_values s) x (y + k) = Some z ->
                    F32.isnan z = false).
Proof.
  induction n as [|n IH]; intros x y s Hin.
  - exists true. split; [reflexivity|]. split; [intros _ k z Hk; lia | reflexivity].
  - simpl. unfold bind, read_z.
    destruct (Hin 0 ltac:(lia)) as [z0 E0]. rewrite Z.add_0_r in E0.
    rewrite E0.
    destruct (F32.isnan z0) eqn:Enan.
    + exists false. split; [reflexivity|]. split; [discriminate|].
      intros H. specialize (H 0 z0 ltac:(lia)).
      rewrite Z.add_0_r in H. specialize (H E0). congruence.
    + destruct (IH x (y + 1) s) as (b & Eb & Hb).
      { intros k Hk. destruct (Hin (k + 1) ltac:(lia)) as [z Ez].
        exists z. now replace (y + 1 + k) with (y + (k + 1)) by lia. }
      exists b. split; [exact Eb|]. rewrite Hb. split.
      * intros H k z Hk Ez.
        destruct (Z.eq_dec k 0) as [->|Hne].
        -- rewrite Z.add_0_r in Ez. congruence.
        -- apply (H (k - 1) z); [lia|].
           now replace (y + 1 + (k - 1)) with (y + k) by lia.
      * intros H k z Hk Ez. apply (H (k + 1) z); [lia|].
        now replace (y + (k + 1)) with (y + 1 + k) by lia.
Qed.

Lemma mesh_is_valid_from_run (n : nat) : forall (x : Z) (s : ubl_state),
  0 <= GRID_MAX_POINTS_Y ->
  (forall i k, 0 <= i < Z.of_nat n -> 0 <= k < GRID_MAX_POINTS_Y ->
               exists z, mesh_at (z_values s) (x + i) k = Some z) ->
  exists b,
    mesh_is_valid_from x n s = Some (b, s)
    /\ (b = true <->
        forall i k z, 0 <= i < Z.of_nat n -> 0 <= k < GRID_MAX_POINTS_Y ->
                      mesh_at (z_values s) (x + i) k = Some z ->
                      F32.isnan z = false).
Proof.
  induction n as [|n IH]; intros x s Hy Hin.
  - exists true. split; [reflexivity|]. split; [intros _ i k z Hi; lia | reflexivity].
  - simpl. unfold bind.
    destruct (mesh_is_valid_row_run (Z.to_nat GRID_MAX_POINTS_Y) x 0 s)
      as (b0 & E0 & H0).
    { intros k Hk. rewrite Z2Nat.id in Hk by lia.
      destruct (Hin 0 k ltac:(lia) Hk) as [z Ez]. exists z.
      now rewrite Z.add_0_r in Ez. }
    rewrite E0. rewrite Z2Nat.id in H0 by lia.
    destruct b0.
    + destruct (IH (x + 1) s Hy) as (b & Eb & Hb).
      { intros i k Hi Hk. destruct (Hin (i + 1) k ltac:(lia) Hk) as [z Ez].
        exists z. now replace (x + 1 + i) with (x + (i + 1)) by lia. }
      exists b. split; [exact Eb|]. rewrite Hb. split.
      * intros H i k z Hi Hk Ez.
        destruct (Z.eq_dec i 0) as [->|Hne].
        -- rewrite Z.add_0_r in Ez.
           destruct H0 as [H0 _]. apply (H0 eq_refl k z Hk). exact Ez.
        -- apply (H (i - 1) k z); [lia|exact Hk|].
           now replace (x + 1 + (i - 1)) with (x + i) by lia.
      * intros H i k z Hi Hk Ez. apply (H (i + 1) k z); [lia|exact Hk|].
        now replace (x + (i + 1)) with (x + 1 + i) by lia.
    + exists false. split; [reflexivity|]. split; [discriminate|].
      intros H. destruct H0 as [_ H0]. apply H0.
      intros k z Hk Ez. apply (H 0 k z); [lia|exact Hk|].
      now rewrite Z.add_0_r.
Qed.

End Runs.

(** ** Integral parts and propagation of NaN *)

Module F32Integral.

(** Below zero the two integral parts differ by one at most, and from zero
    on they are the same. *)
Lemma trunc_floor (f : float) (t : Z) :
  F32.floor f = Some t ->
  exists t', F32.trunc f = Some t'
             /\ t <= t' <= t + 1 /\ (0 <= t -> t' = t) /\ (t < 0 -> t' <= 0).
Proof.
  destruct f as [s|s| |s m e]; simpl; try discriminate.
  - intros [= <-]. exists 0. repeat split; lia.
  - intros [= <-]. eexists. split; [reflexivity|].
    destruct s; simpl; [|repeat split; lia].
    destruct (Z.le_gt_cases 0 e) as [He|He].
    + rewrite !Z.shiftl_mul_pow2 by lia.
      pose proof (Z.pow_pos_nonneg 2 e ltac:(lia) He).
      repeat split; nia.
    + rewrite !Z.shiftl_div_pow2 by lia.
      pose proof (Z.pow_pos_nonneg 2 (- e) ltac:(lia) ltac:(lia)) as Hp.
      pose proof (Z.div_mod (Z.pos m) (2 ^ (- e)) ltac:(lia)) as H1.
      pose proof (Z.mod_pos_bound (Z.pos m) (2 ^ (- e)) Hp) as H2.
      pose proof (Z.div_mod (Z.neg m) (2 ^ (- e)) ltac:(lia)) as H3.
      pose proof (Z.mod_pos_bound (Z.neg m) (2 ^ (- e)) Hp) as H4.
      assert (Hneg : Z.neg m = - Z.pos m) by reflexivity.
      repeat split; nia.
Qed.

Lemma calc_z0_nan_z1 (a0 a1 a2 z2 : float) :
  calc_z0 a0 a1 F32.NAN a2 z2 = F32.NAN.
Proof. reflexivity. Qed.

Lemma calc_z0_nan_z2 (a0 a1 z1 a2 : float) :
  calc_z0 a0 a1 z1 a2 F32.NAN = F32.NAN.
Proof.
  unfold calc_z0.
  rewrite F32Facts.sub_nan_l, F32Facts.mul_nan_l, F32Facts.div_nan_l.
  apply F32Facts.add_nan_r.
Qed.

End F32Integral.

(** ** Interpolation at the lower end of a cell *)

Module F32Zero.

Lemma sub_diag (x : float) :
  F32.is_finite x = true -> F32.sub x x = S754_zero false.
Proof.
  destruct x as [[|]|s| |s m e]; simpl; try discriminate; intros _;
    try reflexivity.
  unfold F32.sub, SFsub. rewrite Z.sub_diag. reflexivity.
Qed.

Lemma mul_zero_r (a : float) (b : bool) :
  F32.is_finite a = true -> exists b', F32.mul a (S754_zero b) = S754_zero b'.
Proof.
  destruct a as [sa|sa| |sa m e]; simpl; try discriminate; intros _;
    eexists; reflexivity.
Qed.

Lemma div_zero_l (b : bool) (w : float) :
  F32.is_nonzero_number w = true ->
  exists b', F32.div (S754_zero b) w = S754_zero b'.
Proof.
  destruct w as [sw|sw| |sw m e]; simpl; try discriminate; intros _;
    eexists; reflexivity.
Qed.

Lemma add_zero_r (z : float) (b : bool) :
  F32.is_finite z = true -> same_number (F32.add z (S754_zero b)) z.
Proof.
  unfold same_number.
  destruct z as [[|]|sz| |sz m e]; simpl; try discriminate; intros _;
    destruct b; simpl; auto.
Qed.

Lemma same_number_finite (z z0 : float) :
  same_number z z0 -> F32.is_finite z0 = true -> F32.is_finite z = true.
Proof. intros [-> | [_ ->]]; auto. Qed.

Lemma same_number_trans (z z1 z0 : float) :
  same_number z z1 -> same_number z1 z0 -> same_number z z0.
Proof.
  unfold same_number.
  intros [-> | [E1 ->]] [-> | [E0 E1']]; auto; congruence.
Qed.

Lemma sub_same_number_finite (c c' a a' : float) :
  F32.is_finite a = true -> F32.is_finite c = true ->
  same_number a' a -> same_number c' c ->
  F32.is_finite (F32.sub c a) = true -> F32.is_finite (F32.sub c' a') = true.
Proof.
  intros Ha Hc [-> | [-> ->]] [-> | [-> ->]] H; try exact H.
  - destruct a as [[|]|sa| |sa m e]; simpl in *; auto.
  - destruct c as [[|]|sc| |sc m e]; simpl in *; auto.
Qed.

(** At [a0 = a1] the interpolation returns [z1]. *)
Lemma calc_z0_at_lower_end (a a2 z1 z2 : float) :
  F32.is_finite a = true ->
  F32.is_nonzero_number (F32.sub a2 a) = true ->
  F32.is_finite z1 = true ->
  F32.is_finite (F32.sub z2 z1) = true ->
  same_number (calc_z0 a a z1 a2 z2) z1.
Proof.
  intros Ha Hw Hz Hd. unfold calc_z0.
  rewrite (sub_diag a Ha).
  destruct (mul_zero_r (F32.sub z2 z1) false Hd) as [b ->].
  destruct (div_zero_l b (F32.sub a2 a) Hw) as [b' ->].
  now apply add_zero_r.
Qed.

End F32Zero.

(** * Rounding errors of the single-precision operations *)

Lemma pow2_pos e : (0 < pow2 e)%Q.
Proof. apply Qpower_0_lt. reflexivity. Qed.

Lemma pow2_add a b : (pow2 (a + b) == pow2 a * pow2 b)%Q.
Proof. apply Qpower_plus. discriminate. Qed.

Lemma pow2_0 : (pow2 0 == 1)%Q.
Proof. reflexivity. Qed.

Lemma pow2_1 : (pow2 1 == 2)%Q.
Proof. reflexivity. Qed.

Lemma pow2_m1 : (pow2 (-1) == 1 # 2)%Q.
Proof. reflexivity. Qed.

Lemma pow2_le a b : a <= b -> (pow2 a <= pow2 b)%Q.
Proof. intros H. apply Qpower_le_compat_l; [exact H | discriminate]. Qed.

Lemma pow2_lt a b : a < b -> (pow2 a < pow2 b)%Q.
Proof. intros H. apply Qpower_lt_compat_l; [exact H | reflexivity]. Qed.

Lemma pow2_Z e : 0 <= e -> (pow2 e == inject_Z (2 ^ e))%Q.
Proof. intros H. unfold pow2. now rewrite Zpower_Qpower. Qed.

Lemma pow2_succ e : (pow2 (e + 1) == 2 * pow2 e)%Q.
Proof. rewrite pow2_add, pow2_1. ring. Qed.

Lemma pow2_opp_mul e : (pow2 e * pow2 (- e) == 1)%Q.
Proof. rewrite <- pow2_add. now replace (e + - e) with 0 by lia. Qed.

(** ** Number of binary digits *)

Lemma digits2_pos_bounds (m : positive) :
  2 ^ (Z.pos (digits2_pos m) - 1) <= Z.pos m < 2 ^ Z.pos (digits2_pos m).
Proof.
  induction m as [m IH|m IH|]; simpl digits2_pos.
  - rewrite Pos2Z.inj_succ.
    replace (Z.succ (Z.pos (digits2_pos m)) - 1) with (Z.pos (digits2_pos m) - 1 + 1) by lia.
    rewrite Z.pow_succ_r by lia.
    assert (0 <= Z.pos (digits2_pos m) - 1) by lia.
    rewrite Z.pow_add_r by lia. change (2 ^ 1) with 2. lia.
  - rewrite Pos2Z.inj_succ.
    replace (Z.succ (Z.pos (digits2_pos m)) - 1) with (Z.pos (digits2_pos m) - 1 + 1) by lia.
    rewrite Z.pow_succ_r by lia.
    rewrite Z.pow_add_r by lia. change (2 ^ 1) with 2. lia.
  - simpl. lia.
Qed.

Lemma Zdigits2_bounds (m : Z) :
  0 < m -> 2 ^ (Zdigits2 m - 1) <= m < 2 ^ Zdigits2 m.
Proof.
  destruct m as [|p|p]; try lia. intros _. apply digits2_pos_bounds.
Qed.

Lemma Zdigits2_nonneg (m : Z) : 0 <= Zdigits2 m.
Proof. destruct m; simpl; lia. Qed.

Lemma Zdigits2_unique (m k : Z) :
  2 ^ (k - 1) <= m < 2 ^ k -> 0 < m -> Zdigits2 m = k.
Proof.
  intros H Hm.
  pose proof (Zdigits2_bounds m Hm) as Hd.
  pose proof (Zdigits2_nonneg m) as Hn.
  assert (Hk : 0 < k).
  { destruct (Z.lt_ge_cases 0 k); [assumption|].
    assert (2 ^ k <= 2 ^ 0) by (apply Z.pow_le_mono_r; lia).
    simpl in *. lia. }
  destruct (Z.lt_trichotomy (Zdigits2 m) k) as [Hlt | [Heq | Hgt]]; [|exact Heq|].
  - assert (2 ^ Zdigits2 m <= 2 ^ (k - 1)) by (apply Z.pow_le_mono_r; lia). lia.
  - assert (2 ^ k <= 2 ^ (Zdigits2 m - 1)) by (apply Z.pow_le_mono_r; lia). lia.
Qed.

(** ** Shifting right with a round and a sticky bit *)

Lemma inject_Z_xO p : (inject_Z (Z.pos p~0) == 2 * inject_Z (Z.pos p))%Q.
Proof. rewrite Pos2Z.inj_xO, inject_Z_mult. reflexivity. Qed.

Lemma inject_Z_xI p : (inject_Z (Z.pos p~1) == 2 * inject_Z (Z.pos p) + 1)%Q.
Proof. rewrite Pos2Z.inj_xI, inject_Z_plus, inject_Z_mult. reflexivity. Qed.

Lemma shr_1_represents (mrs : shr_record) (x : Q) :
  represents mrs x -> represents (shr_1 mrs) (x * (1 # 2)).
Proof.
  destruct mrs as [m r s]. unfold represents. simpl shr_m.
  intros [Hm H].
  destruct m as [|[p|p|]|p]; try lia;
    destruct r, s; simpl in H |- *;
    rewrite ?inject_Z_xO, ?inject_Z_xI in H;
    (split; [lia|]); simpl;
    change (inject_Z 0) with 0%Q in *; change (inject_Z 1) with 1%Q in *;
    lra.
Qed.

Lemma represents_ext (mrs : shr_record) (x y : Q) :
  (x == y)%Q -> represents mrs x -> represents mrs y.
Proof.
  intros E [Hm H]. split; [exact Hm|].
  unfold inbetween in *.
  destruct (loc_of_shr_record mrs) as [|[| |]]; lra.
Qed.

Lemma iter_shr_1_represents (p : positive) :
  forall (mrs : shr_record) (x : Q),
    represents mrs x ->
    represents (iter_pos shr_1 p mrs) (x * pow2 (- Z.pos p)).
Proof.
  induction p as [p IH|p IH|]; intros mrs x H; simpl iter_pos.
  - apply (represents_ext _ (x * (1 # 2) * pow2 (- Z.pos p) * pow2 (- Z.pos p))).
    + replace (- Z.pos p~1) with (- Z.pos p + (- Z.pos p + -1)) by lia.
      rewrite !pow2_add, pow2_m1. ring.
    + apply IH, IH. now apply shr_1_represents.
  - apply (represents_ext _ (x * pow2 (- Z.pos p) * pow2 (- Z.pos p))).
    + replace (- Z.pos p~0) with (- Z.pos p + - Z.pos p) by lia.
      rewrite !pow2_add. ring.
    + now apply IH, IH.
  - apply (represents_ext _ (x * (1 # 2))).
    + change (- Z.pos 1) with (Z.neg 1). rewrite pow2_m1. reflexivity.
    + now apply shr_1_represents.
Qed.

Lemma record_of_loc (m : Z) (l : location) :
  shr_m (shr_record_of_loc m l) = m
  /\ loc_of_shr_record (shr_record_of_loc m l) = l.
Proof. destruct l as [|[| |]]; split; reflexivity. Qed.

Lemma represents_record_of_loc (m : Z) (l : location) (x : Q) :
  0 <= m -> inbetween m x l -> represents (shr_record_of_loc m l) x.
Proof.
  intros Hm H. destruct (record_of_loc m l) as [E1 E2].
  unfold represents. now rewrite E1, E2.
Qed.

(** A shift by [n] places keeps the number the record stands for, at the new
    exponent. *)
Lemma shr_represents (mrs : shr_record) (e n : Z) (x : Q) :
  represents mrs x ->
  represents (fst (shr mrs e n)) (x * pow2 (- Z.max n 0))
  /\ snd (shr mrs e n) = e + Z.max n 0.
Proof.
  intros H. destruct n as [|p|p]; unfold shr; cbn [fst snd].
  - split; [|lia]. apply (represents_ext _ x); [|exact H].
    replace (- Z.max 0 0) with 0 by lia. rewrite pow2_0. ring.
  - split; [|lia]. replace (Z.max (Z.pos p) 0) with (Z.pos p) by lia.
    now apply iter_shr_1_represents.
  - split; [|lia]. apply (represents_ext _ x); [|exact H].
    replace (- Z.max (Z.neg p) 0) with 0 by lia. rewrite pow2_0. ring.
Qed.

Lemma round_nearest_even_near (m : Z) (l : location) (x : Q) :
  inbetween m x l ->
  let m' := round_nearest_even m l in
  (Qabs (inject_Z m' - x) <= 1 # 2)%Q
  /\ m <= m' <= m + 1
  /\ (l = loc_Exact -> m' = m).
Proof.
  intros H m'. subst m'. unfold inbetween in H.
  destruct l as [|[| |]]; unfold round_nearest_even.
  - split; [|split; [lia|reflexivity]].
    apply Qabs_Qle_condition. lra.
  - destruct (Z.even m).
    + split; [|split; [lia|discriminate]]. apply Qabs_Qle_condition. lra.
    + split; [|split; [lia|discriminate]]. apply Qabs_Qle_condition.
      rewrite inject_Z_plus. change (inject_Z 1) with 1%Q. lra.
  - split; [|split; [lia|discriminate]]. apply Qabs_Qle_condition. lra.
  - split; [|split; [lia|discriminate]]. apply Qabs_Qle_condition.
    rewrite inject_Z_plus. change (inject_Z 1) with 1%Q. lra.
Qed.

(** ** Rounding to single precision *)

Lemma fexp32_eq (e : Z) : fexp 24 128 e = fexp32 e.
Proof. reflexivity. Qed.

Lemma inbetween_bounds (m : Z) (x : Q) (l : location) :
  inbetween m x l -> (inject_Z m <= x /\ x < inject_Z m + 1)%Q.
Proof. unfold inbetween. destruct l as [|[| |]]; lra. Qed.

Lemma inject_Z_pow2 (k : Z) : 0 <= k -> (inject_Z (2 ^ k) == pow2 k)%Q.
Proof. intros H. now rewrite pow2_Z. Qed.

Lemma below_pow2_digits (m : Z) (x : Q) :
  0 <= m -> (x < inject_Z m + 1)%Q -> (x < pow2 (Zdigits2 m))%Q.
Proof.
  intros Hm Hx.
  assert (H : m + 1 <= 2 ^ Zdigits2 m).
  { destruct (Z.eq_dec m 0) as [->|Hne]; [simpl; lia|].
    pose proof (Zdigits2_bounds m ltac:(lia)). lia. }
  rewrite Zle_Qle in H. rewrite inject_Z_plus in H.
  rewrite inject_Z_pow2 in H by apply Zdigits2_nonneg.
  change (inject_Z 1) with 1%Q in H. lra.
Qed.

(** An integer within one half of a number below [2^w]. *)
Lemma near_below_pow2 (m1 w : Z) (x1 : Q) :
  (Qabs (inject_Z m1 - x1) <= 1 # 2)%Q -> (x1 < pow2 w)%Q ->
  (0 <= w -> m1 <= 2 ^ w) /\ (w < 0 -> m1 <= 0).
Proof.
  intros Hn Hx. apply Qabs_Qle_condition in Hn. split; intros Hw.
  - rewrite <- inject_Z_pow2 in Hx by exact Hw.
    assert (H : (inject_Z m1 < inject_Z (2 ^ w + 1))%Q).
    { rewrite inject_Z_plus. change (inject_Z 1) with 1%Q. lra. }
    rewrite <- Zlt_Qlt in H. lia.
  - assert (Hp : (pow2 w <= pow2 (-1))%Q) by (apply pow2_le; lia).
    rewrite pow2_m1 in Hp.
    assert (H : (inject_Z m1 < inject_Z 1)%Q).
    { change (inject_Z 1) with 1%Q. lra. }
    rewrite <- Zlt_Qlt in H. lia.
Qed.

Lemma shr_nop (mrs : shr_record) (e n : Z) : n <= 0 -> shr mrs e n = (mrs, e).
Proof. destruct n; [reflexivity | lia | reflexivity]. Qed.

Lemma pow2_lt_inv (a b : Z) : (pow2 a < pow2 b)%Q -> a < b.
Proof.
  intros H. destruct (Z.lt_ge_cases a b) as [|Hge]; [assumption|].
  apply pow2_le in Hge. lra.
Qed.

Lemma pow2_le_inv (a b : Z) : (pow2 a <= pow2 b)%Q -> a <= b.
Proof.
  intros H. destruct (Z.le_gt_cases a b) as [|Hgt]; [assumption|].
  apply pow2_lt in Hgt. lra.
Qed.

Lemma Zdigits2_le_24 (m : Z) : 0 <= m < 2 ^ 24 -> Zdigits2 m <= 24.
Proof.
  intros [H0 H]. destruct (Z.eq_dec m 0) as [->|Hne]; [simpl; lia|].
  pose proof (Zdigits2_bounds m ltac:(lia)) as [Hd _].
  assert (Hlt : 2 ^ (Zdigits2 m - 1) < 2 ^ 24) by lia.
  apply Z.pow_lt_mono_r_iff in Hlt; lia.
Qed.

Lemma round_finish_correct (sx : bool) (m1 e' : Z) :
  0 <= m1 <= 2 ^ 24 -> -149 <= e' ->
  (inject_Z m1 * pow2 e' < pow2 101)%Q ->
  F32.is_finite (round_finish sx m1 e') = true
  /\ exponent_ok (round_finish sx m1 e')
  /\ (val (round_finish sx m1 e') == sgnQ sx * (inject_Z m1 * pow2 e'))%Q.
Proof.
  intros [Hm0 Hm] He Hov. unfold round_finish, shr_fexp.
  rewrite fexp32_eq. unfold fexp32.
  destruct (Z.eq_dec m1 (2 ^ 24)) as [->|Hne].
  - change (Zdigits2 (2 ^ 24)) with 25.
    replace (Z.max (25 + e' - 24) (-149) - e') with 1 by lia.
    change (shr (shr_record_of_loc (2 ^ 24) loc_Exact) e' 1)
      with (Build_shr_record 8388608 false false, e' + 1).
    cbv beta iota. cbn [shr_m]. change (128 - 24) with 104.
    assert (Hlt : e' + 1 <= 104).
    { assert (H : (pow2 (24 + e') < pow2 101)%Q).
      { rewrite pow2_add, <- inject_Z_pow2 by lia. exact Hov. }
      apply pow2_lt_inv in H. lia. }
    apply Z.leb_le in Hlt. rewrite Hlt. cbn -[pow2 inject_Z].
    split; [reflexivity|]. split; [lia|].
    rewrite pow2_succ.
    assert (E : (inject_Z (2 ^ 24) == 2 * inject_Z 8388608)%Q) by reflexivity.
    rewrite E. ring.
  - assert (Hd : Zdigits2 m1 <= 24) by (apply Zdigits2_le_24; lia).
    rewrite shr_nop by lia.
    destruct (record_of_loc m1 loc_Exact) as [-> _].
    destruct m1 as [|p|p]; [| |lia].
    + cbn. repeat split. ring.
    + assert (Hlt : e' <= 104).
      { assert (H : (pow2 e' < pow2 101)%Q).
        { assert (H1 : (1 <= inject_Z (Z.pos p))%Q).
          { change 1%Q with (inject_Z 1). rewrite <- Zle_Qle. lia. }
          pose proof (pow2_pos e'). nra. }
        apply pow2_lt_inv in H. lia. }
      apply Z.leb_le in Hlt. change (128 - 24) with 104. rewrite Hlt.
      cbn -[pow2 inject_Z]. repeat split; [exact He | ring].
Qed.

Lemma binary_round_aux_eq (sx : bool) (mx ex : Z) (lx : location) :
  binary_round_aux 24 128 sx mx ex lx
  = round_finish sx
      (round_nearest_even (shr_m (fst (shr_fexp 24 128 mx ex lx)))
         (loc_of_shr_record (fst (shr_fexp 24 128 mx ex lx))))
      (snd (shr_fexp 24 128 mx ex lx)).
Proof.
  unfold binary_round_aux, round_finish.
  destruct (shr_fexp 24 128 mx ex lx) as [mrs' e']. reflexivity.
Qed.

(** [binary_round_aux] returns the number nearest to [x * 2^ex] at the
    exponent [fexp32 (digits + ex)], or [x * 2^ex] itself when that is a
    number already. *)
Lemma binary_round_aux_correct (sx : bool) (mx ex : Z) (lx : location) (x : Q) :
  0 <= mx -> inbetween mx x lx ->
  (lx = loc_Exact \/ ex <= fexp32 (Zdigits2 mx + ex)) ->
  (x * pow2 ex < pow2 100)%Q ->
  exists v : Q,
    (0 <= v)%Q
    /\ (val (binary_round_aux 24 128 sx mx ex lx) == sgnQ sx * v)%Q
    /\ F32.is_finite (binary_round_aux 24 128 sx mx ex lx) = true
    /\ exponent_ok (binary_round_aux 24 128 sx mx ex lx)
    /\ (Qabs (v - x * pow2 ex)
        <= (1 # 2) * pow2 (fexp32 (Zdigits2 mx + ex)))%Q
    /\ (lx = loc_Exact -> fexp32 (Zdigits2 mx + ex) <= ex ->
        (v == x * pow2 ex)%Q).
Proof.
  intros Hmx Hin Hl Hov.
  rewrite binary_round_aux_eq. unfold shr_fexp. rewrite fexp32_eq.
  set (d := Zdigits2 mx) in *. set (n1 := fexp32 (d + ex) - ex).
  pose proof (shr_represents (shr_record_of_loc mx lx) ex n1 x
                (represents_record_of_loc mx lx x Hmx Hin)) as [[Hm' Hin'] He'].
  pose proof (inbetween_bounds _ _ _ Hin) as [Hx0 Hx1].
  assert (Hx00 : (0 <= x)%Q).
  { assert (H : (inject_Z 0 <= inject_Z mx)%Q) by (rewrite <- Zle_Qle; lia).
    change (inject_Z 0) with 0%Q in H. lra. }
  pose proof (below_pow2_digits mx x Hmx Hx1) as Hxd. fold d in Hxd.
  (* no shift and an exact start: the number itself *)
  assert (Hexact : lx = loc_Exact -> n1 <= 0 ->
            shr (shr_record_of_loc mx lx) ex n1
            = (shr_record_of_loc mx loc_Exact, ex)
            /\ (x == inject_Z mx)%Q).
  { intros -> Hn. rewrite shr_nop by exact Hn. split; [reflexivity|exact Hin]. }
  set (mrs' := fst (shr (shr_record_of_loc mx lx) ex n1)) in *.
  set (e' := snd (shr (shr_record_of_loc mx lx) ex n1)) in *.
  set (k := Z.max n1 0) in *.
  set (x1 := (x * pow2 (- k))%Q) in *.
  pose proof (round_nearest_even_near _ _ _ Hin') as (Hnear & Hm1 & _).
  set (m1 := round_nearest_even (shr_m mrs') (loc_of_shr_record mrs')) in *.
  assert (Hx1k : (x1 * pow2 e' == x * pow2 ex)%Q).
  { unfold x1. rewrite He'. rewrite (pow2_add ex k).
    transitivity (x * pow2 ex * (pow2 k * pow2 (- k)))%Q; [ring|].
    rewrite pow2_opp_mul. ring. }
  assert (Hx1d : (x1 < pow2 (d - k))%Q).
  { unfold x1. unfold Z.sub. rewrite (pow2_add d (- k)).
    pose proof (pow2_pos (- k)). nra. }
  pose proof (near_below_pow2 m1 (d - k) x1 Hnear Hx1d) as [Hw1 Hw2].
  assert (Hfx : d + ex - 24 <= fexp32 (d + ex) /\ -149 <= fexp32 (d + ex))
    by (unfold fexp32; lia).
  assert (Hm1b : 0 <= m1 <= 2 ^ 24).
  { split; [lia|].
    destruct (Z.lt_ge_cases (d - k) 0) as [Hneg|Hpos]; [specialize (Hw2 Hneg); lia|].
    specialize (Hw1 Hpos).
    assert (2 ^ (d - k) <= 2 ^ 24) by (apply Z.pow_le_mono_r; unfold k, n1; lia).
    lia. }
  assert (He'lo : -149 <= e') by (rewrite He'; unfold k, n1; lia).
  assert (Hx1pos : (0 <= x1)%Q).
  { unfold x1. pose proof (pow2_pos (- k)). nra. }
  apply Qabs_Qle_condition in Hnear.
  assert (Hov1 : (inject_Z m1 * pow2 e' < pow2 101)%Q).
  { pose proof (pow2_pos e') as Hp.
    replace 101 with (100 + 1) by lia. rewrite pow2_succ.
    destruct (Z.eq_dec m1 0) as [E0|Hne].
    - rewrite E0. change (inject_Z 0) with 0%Q. pose proof (pow2_pos 100). lra.
    - assert (H1 : (1 <= inject_Z m1)%Q).
      { change 1%Q with (inject_Z 1). rewrite <- Zle_Qle. lia. }
      assert (H2 : (inject_Z m1 <= 2 * x1)%Q) by lra.
      nra. }
  destruct (round_finish_correct sx m1 e' Hm1b He'lo Hov1) as (Hfin & Hok & Hval).
  exists (inject_Z m1 * pow2 e')%Q.
  assert (Hm1pos : (0 <= inject_Z m1)%Q).
  { change 0%Q with (inject_Z 0). rewrite <- Zle_Qle. lia. }
  pose proof (pow2_pos e') as Hpe.
  split; [nra|]. split; [exact Hval|]. split; [exact Hfin|].
  split; [exact Hok|]. split.
  - rewrite <- Hx1k.
    destruct (Z.le_gt_cases n1 0) as [Hn|Hn].
    + (* no shift *)
      destruct Hl as [Hl|Hl].
      * destruct (Hexact Hl Hn) as [Es Ex].
        assert (Em : m1 = mx).
        { unfold m1, mrs'. rewrite Es. reflexivity. }
        assert (Ex1 : (x1 == x)%Q).
        { unfold x1. replace k with 0 by (unfold k; lia).
          change (- 0) with 0. rewrite pow2_0. ring. }
        rewrite Em, Ex1, Ex.
        setoid_replace (inject_Z mx * pow2 e' - inject_Z mx * pow2 e')%Q
          with 0%Q by ring.
        pose proof (pow2_pos (fexp32 (d + ex))). simpl. lra.
      * assert (Ee : e' = fexp32 (d + ex)) by (rewrite He'; unfold k, n1 in *; lia).
        rewrite <- Ee. apply Qabs_Qle_condition. nra.
    + assert (Ee : e' = fexp32 (d + ex)) by (rewrite He'; unfold k, n1 in *; lia).
      rewrite <- Ee. apply Qabs_Qle_condition. nra.
  - intros Hl' Hn.
    destruct (Hexact Hl' ltac:(unfold n1; lia)) as [Es Ex].
    assert (Em : m1 = mx).
    { unfold m1, mrs'. rewrite Es. reflexivity. }
    assert (Ee : e' = ex).
    { unfold e'. rewrite Es. reflexivity. }
    rewrite Em, Ee, Ex. reflexivity.
Qed.

(** A bound that needs no lower limit on the number: the error is at most
    [2^-24] of it, or half the spacing of the subnormal numbers. *)
Lemma binary_round_aux_error (sx : bool) (mx ex : Z) (lx : location) (x : Q) :
  0 <= mx -> inbetween mx x lx ->
  (lx = loc_Exact \/ ex <= fexp32 (Zdigits2 mx + ex)) ->
  (x * pow2 ex < pow2 100)%Q ->
  exists v : Q,
    (0 <= v)%Q
    /\ (val (binary_round_aux 24 128 sx mx ex lx) == sgnQ sx * v)%Q
    /\ F32.is_finite (binary_round_aux 24 128 sx mx ex lx) = true
    /\ exponent_ok (binary_round_aux 24 128 sx mx ex lx)
    /\ (Qabs (v - x * pow2 ex) <= pow2 (-24) * (x * pow2 ex) + pow2 (-150))%Q
    /\ (lx = loc_Exact -> fexp32 (Zdigits2 mx + ex) <= ex ->
        (v == x * pow2 ex)%Q).
Proof.
  intros Hmx Hin Hl Hov.
  destruct (binary_round_aux_correct sx mx ex lx x Hmx Hin Hl Hov)
    as (v & Hv0 & Hval & Hfin & Hok & Herr & Hex).
  exists v. repeat (split; [assumption|]). split; [|exact Hex].
  pose proof (inbetween_bounds _ _ _ Hin) as [Hx0 Hx1].
  set (d := Zdigits2 mx) in *.
  pose proof (pow2_pos ex) as Hpe. pose proof (pow2_pos (-150)) as Hp150.
  pose proof (pow2_pos (-24)) as Hp24.
  assert (Hx00 : (0 <= x)%Q).
  { assert (H : (inject_Z 0 <= inject_Z mx)%Q) by (rewrite <- Zle_Qle; lia).
    change (inject_Z 0) with 0%Q in H. lra. }
  assert (Hsub : ((1 # 2) * pow2 (-149) == pow2 (-150))%Q).
  { replace (-149) with (-150 + 1) by lia. rewrite pow2_succ. ring. }
  assert (Hy : (0 <= x * pow2 ex)%Q) by (apply Qmult_le_0_compat; lra).
  assert (Hy24 : (0 <= pow2 (-24) * (x * pow2 ex))%Q)
    by (apply Qmult_le_0_compat; lra).
  unfold fexp32 in *.
  destruct (Z.max_spec (d + ex - 24) (-149)) as [[Hlt Emax] | [Hge Emax]];
    rewrite Emax in *.
  - (* subnormal exponent *)
    rewrite Hsub in Herr.
    eapply Qle_trans; [exact Herr|]. lra.
  - (* normal exponent *)
    destruct (Z.eq_dec mx 0) as [E0|Hne].
    + (* no digit at all: the number is zero, or below the subnormals *)
      subst mx. change (Zdigits2 0) with 0 in d. subst d.
      destruct Hl as [Hl|Hl]; [|lia].
      rewrite (Hex Hl ltac:(lia)).
      setoid_replace (x * pow2 ex - x * pow2 ex)%Q with 0%Q by ring.
      simpl Qabs. lra.
    + pose proof (Zdigits2_bounds mx ltac:(lia)) as [Hd _]. fold d in Hd.
      assert (Hd1 : 0 <= d - 1).
      { pose proof (Zdigits2_bounds mx ltac:(lia)) as [_ Hu]. fold d in Hu.
        destruct (Z.lt_ge_cases 0 d) as [|Hd0]; [lia|].
        assert (2 ^ d <= 2 ^ 0) by (apply Z.pow_le_mono_r; lia).
        change (2 ^ 0) with 1 in *. lia. }
      rewrite Zle_Qle, inject_Z_pow2 in Hd by exact Hd1.
      assert (E : ((1 # 2) * pow2 (d + ex - 24)
                   == pow2 (d - 1) * pow2 ex * pow2 (-24))%Q).
      { replace (d + ex - 24) with ((d - 1) + 1 + ex + -24) by lia.
        rewrite !pow2_add, pow2_1. ring. }
      rewrite E in Herr.
      eapply Qle_trans; [exact Herr|].
      assert (Hle : (pow2 (d - 1) * pow2 ex <= x * pow2 ex)%Q) by nra.
      set (y := (x * pow2 ex)%Q) in *. set (z := (pow2 (d - 1) * pow2 ex)%Q) in *.
      nra.
Qed.

(** ** Alignment of a mantissa *)

Lemma iter_xO (m d : positive) :
  Z.pos (Pos.iter xO m d) = Z.pos m * 2 ^ Z.pos d.
Proof.
  change (Pos.iter xO m d) with (shift_pos d m).
  rewrite shift_pos_correct. change (Z.pow_pos 2 d) with (2 ^ Z.pos d). lia.
Qed.

Lemma shl_align_correct (mx : positive) (ex ex' : Z) :
  let mz := fst (shl_align mx ex ex') in
  let ez := snd (shl_align mx ex ex') in
  ez = Z.min ex ex'
  /\ Z.pos mz = Z.pos mx * 2 ^ (ex - ez)
  /\ (inject_Z (Z.pos mz) * pow2 ez == inject_Z (Z.pos mx) * pow2 ex)%Q
  /\ Zdigits2 (Z.pos mz) + ez = Zdigits2 (Z.pos mx) + ex.
Proof.
  unfold shl_align.
  destruct (ex' - ex) as [|p|p] eqn:E; cbn [fst snd].
  - replace (Z.min ex ex') with ex by lia.
    rewrite Z.sub_diag. repeat split; try lia; try reflexivity.
  - replace (Z.min ex ex') with ex by lia.
    rewrite Z.sub_diag. repeat split; try lia; try reflexivity.
  - replace (Z.min ex ex') with ex' by lia.
    replace (ex - ex') with (Z.pos p) by lia.
    rewrite iter_xO. split; [reflexivity|]. split; [reflexivity|]. split.
    + rewrite inject_Z_mult, inject_Z_pow2 by lia.
      assert (Ep : (pow2 ex == pow2 (Z.pos p) * pow2 ex')%Q).
      { rewrite <- pow2_add. replace (Z.pos p + ex') with ex by lia.
        reflexivity. }
      rewrite Ep. ring.
    + pose proof (Zdigits2_bounds (Z.pos mx) ltac:(lia)) as [H1 H2].
      assert (Hd : 0 < Zdigits2 (Z.pos mx)) by (simpl; lia).
      rewrite (Zdigits2_unique (Z.pos mx * 2 ^ Z.pos p)
                 (Zdigits2 (Z.pos mx) + Z.pos p)); [lia| |lia].
      replace (Zdigits2 (Z.pos mx) + Z.pos p - 1)
        with (Zdigits2 (Z.pos mx) - 1 + Z.pos p) by lia.
      rewrite !Z.pow_add_r by lia.
      assert (0 < 2 ^ Z.pos p) by (apply Z.pow_pos_nonneg; lia).
      nia.
Qed.

Lemma inbetween_exact (m : Z) : inbetween m (inject_Z m) loc_Exact.
Proof. simpl. reflexivity. Qed.

Lemma binary_round_error (sx : bool) (mx : positive) (ex : Z) :
  (inject_Z (Z.pos mx) * pow2 ex < pow2 100)%Q ->
  exists v : Q,
    (0 <= v)%Q
    /\ (val (binary_round 24 128 sx mx ex) == sgnQ sx * v)%Q
    /\ F32.is_finite (binary_round 24 128 sx mx ex) = true
    /\ (Qabs (v - inject_Z (Z.pos mx) * pow2 ex)
        <= pow2 (-24) * (inject_Z (Z.pos mx) * pow2 ex) + pow2 (-150))%Q
    /\ (fexp32 (Zdigits2 (Z.pos mx) + ex) <= ex ->
        (v == inject_Z (Z.pos mx) * pow2 ex)%Q).
Proof.
  intros Hov. unfold binary_round. rewrite fexp32_eq.
  change (Z.pos (digits2_pos mx)) with (Zdigits2 (Z.pos mx)).
  pose proof (shl_align_correct mx ex (fexp32 (Zdigits2 (Z.pos mx) + ex)))
    as (Hez & _ & Hv & Hd).
  destruct (shl_align mx ex (fexp32 (Zdigits2 (Z.pos mx) + ex))) as [mz ez].
  cbn [fst snd] in *.
  destruct (binary_round_aux_error sx (Z.pos mz) ez loc_Exact
              (inject_Z (Z.pos mz)) ltac:(lia) (inbetween_exact _)
              (or_introl eq_refl))
    as (v & Hv0 & Hval & Hfin & _ & Herr & Hex).
  { rewrite Hv. exact Hov. }
  exists v. split; [exact Hv0|]. split; [exact Hval|]. split; [exact Hfin|].
  rewrite Hv in Herr, Hex. split; [exact Herr|].
  intros Hf. apply Hex; [reflexivity|]. rewrite Hd. lia.
Qed.

Lemma sgnQ_xorb (a b : bool) : (sgnQ (xorb a b) == sgnQ a * sgnQ b)%Q.
Proof. destruct a, b; reflexivity. Qed.

Lemma sgnQ_sq (a : bool) : (sgnQ a * sgnQ a == 1)%Q.
Proof. destruct a; reflexivity. Qed.

Lemma Qabs_sgnQ (s : bool) (v : Q) : (0 <= v)%Q -> (Qabs (sgnQ s * v) == v)%Q.
Proof.
  intros H. destruct s; simpl sgnQ.
  - setoid_replace (-1 * v)%Q with (- v)%Q by ring.
    rewrite Qabs_opp. now apply Qabs_pos.
  - setoid_replace (1 * v)%Q with v by ring. now apply Qabs_pos.
Qed.

(** The value of an integer mantissa at an exponent, rounded. *)
Lemma binary_normalize_error (m e : Z) :
  (Qabs (inject_Z m * pow2 e) < pow2 100)%Q ->
  F32.is_finite (binary_normalize 24 128 m e false) = true
  /\ (Qabs (val (binary_normalize 24 128 m e false) - inject_Z m * pow2 e)
      <= pow2 (-24) * Qabs (inject_Z m * pow2 e) + pow2 (-150))%Q
  /\ (fexp32 (Zdigits2 m + e) <= e ->
      (val (binary_normalize 24 128 m e false) == inject_Z m * pow2 e)%Q).
Proof.
  intros Hov. pose proof (pow2_pos e) as Hpe. pose proof (pow2_pos (-150)).
  destruct m as [|p|p]; unfold binary_normalize.
  - split; [reflexivity|]. change (inject_Z 0) with 0%Q. simpl val.
    split; [|intros _; ring].
    setoid_replace (0 - 0 * pow2 e)%Q with 0%Q by ring. lra.
  - assert (Hp : (0 <= inject_Z (Z.pos p) * pow2 e)%Q).
    { apply Qmult_le_0_compat; [|lra].
      change 0%Q with (inject_Z 0). rewrite <- Zle_Qle. lia. }
    rewrite (Qabs_pos _ Hp) in Hov. rewrite (Qabs_pos _ Hp).
    destruct (binary_round_error false p e Hov)
      as (v & Hv0 & Hval & Hfin & Herr & Hex).
    split; [exact Hfin|].
    assert (E : (val (binary_round 24 128 false p e) == v)%Q).
    { rewrite Hval. simpl sgnQ. ring. }
    rewrite E. split; [exact Herr | exact Hex].
  - assert (Hp : (0 <= inject_Z (Z.pos p) * pow2 e)%Q).
    { apply Qmult_le_0_compat; [|lra].
      change 0%Q with (inject_Z 0). rewrite <- Zle_Qle. lia. }
    assert (En : (inject_Z (Z.neg p) * pow2 e
                  == - (inject_Z (Z.pos p) * pow2 e))%Q).
    { change (Z.neg p) with (- Z.pos p). rewrite inject_Z_opp. ring. }
    assert (Ha : (Qabs (inject_Z (Z.neg p) * pow2 e)
                  == inject_Z (Z.pos p) * pow2 e)%Q).
    { rewrite En, Qabs_opp. now apply Qabs_pos. }
    rewrite Ha in Hov. rewrite Ha, En.
    change (Zdigits2 (Z.neg p)) with (Zdigits2 (Z.pos p)).
    destruct (binary_round_error true p e Hov)
      as (v & Hv0 & Hval & Hfin & Herr & Hex).
    split; [exact Hfin|].
    assert (E : (val (binary_round 24 128 true p e) == - v)%Q).
    { rewrite Hval. simpl sgnQ. ring. }
    rewrite E. split.
    + setoid_replace (- v - - (inject_Z (Z.pos p) * pow2 e))%Q
        with (- (v - inject_Z (Z.pos p) * pow2 e))%Q by ring.
      rewrite Qabs_opp. exact Herr.
    + intros Hf. rewrite (Hex Hf). reflexivity.
Qed.

(** ** The operations *)

Lemma inject_cond_Zopp (s : bool) (z : Z) :
  (inject_Z (cond_Zopp s z) == sgnQ s * inject_Z z)%Q.
Proof. destruct s; simpl; [rewrite inject_Z_opp|]; ring. Qed.

Lemma aligned_value (s : bool) (m : positive) (e ez : Z) :
  ez <= e ->
  (inject_Z (cond_Zopp s (Z.pos (fst (shl_align m e ez)))) * pow2 ez
   == val (S754_finite s m e))%Q.
Proof.
  intros Hle.
  pose proof (shl_align_correct m e ez) as (Hez & _ & Hv & _).
  cbn zeta in Hez, Hv. rewrite Hez in Hv.
  replace (Z.min e ez) with ez in Hv by lia.
  rewrite inject_cond_Zopp. simpl val.
  rewrite <- Qmult_assoc, Hv. ring.
Qed.

Lemma add_error (a b : float) :
  F32.is_finite a = true -> F32.is_finite b = true ->
  (Qabs (val a + val b) < pow2 100)%Q ->
  F32.is_finite (F32.add a b) = true
  /\ (Qabs (val (F32.add a b) - (val a + val b))
      <= pow2 (-24) * Qabs (val a + val b) + pow2 (-150))%Q.
Proof.
  intros Ha Hb Hov.
  assert (Hp : (0 <= pow2 (-24) * Qabs (val a + val b) + pow2 (-150))%Q).
  { pose proof (pow2_pos (-24)). pose proof (pow2_pos (-150)).
    pose proof (Qabs_nonneg (val a + val b)). nra. }
  assert (Hexact : forall r, (val r == val a + val b)%Q ->
            (Qabs (val r - (val a + val b))
             <= pow2 (-24) * Qabs (val a + val b) + pow2 (-150))%Q).
  { intros r E.
    setoid_replace (val r - (val a + val b))%Q with 0%Q by (rewrite E; ring).
    exact Hp. }
  destruct a as [sa|sa| |sa ma ea], b as [sb|sb| |sb mb eb];
    try discriminate.
  - split; [destruct sa, sb; reflexivity|].
    apply Hexact. destruct sa, sb; reflexivity.
  - split; [reflexivity|]. apply Hexact. simpl. ring.
  - split; [reflexivity|]. apply Hexact. simpl. ring.
  - unfold F32.add, SFadd. fold F32.prec F32.emax.
    set (ez := Z.min ea eb).
    set (S := cond_Zopp sa (Z.pos (fst (shl_align ma ea ez)))
              + cond_Zopp sb (Z.pos (fst (shl_align mb eb ez)))).
    assert (Ev : (inject_Z S * pow2 ez
                  == val (S754_finite sa ma ea) + val (S754_finite sb mb eb))%Q).
    { unfold S. rewrite inject_Z_plus.
      rewrite <- (aligned_value sa ma ea ez), <- (aligned_value sb mb eb ez)
        by (unfold ez; lia).
      ring. }
    rewrite <- Ev in Hov |- *.
    destruct (binary_normalize_error S ez Hov) as (Hfin & Herr & _).
    split; [exact Hfin | exact Herr].
Qed.

Lemma sub_error (a b : float) :
  F32.is_finite a = true -> F32.is_finite b = true ->
  (Qabs (val a - val b) < pow2 100)%Q ->
  F32.is_finite (F32.sub a b) = true
  /\ (Qabs (val (F32.sub a b) - (val a - val b))
      <= pow2 (-24) * Qabs (val a - val b) + pow2 (-150))%Q.
Proof.
  intros Ha Hb Hov.
  assert (Hp : (0 <= pow2 (-24) * Qabs (val a - val b) + pow2 (-150))%Q).
  { pose proof (pow2_pos (-24)). pose proof (pow2_pos (-150)).
    pose proof (Qabs_nonneg (val a - val b)). nra. }
  assert (Hexact : forall r, (val r == val a - val b)%Q ->
            (Qabs (val r - (val a - val b))
             <= pow2 (-24) * Qabs (val a - val b) + pow2 (-150))%Q).
  { intros r E.
    setoid_replace (val r - (val a - val b))%Q with 0%Q by (rewrite E; ring).
    exact Hp. }
  destruct a as [sa|sa| |sa ma ea], b as [sb|sb| |sb mb eb];
    try discriminate.
  - split; [destruct sa, sb; reflexivity|].
    apply Hexact. destruct sa, sb; reflexivity.
  - split; [reflexivity|]. apply Hexact. simpl. destruct sb; simpl; ring.
  - split; [reflexivity|]. apply Hexact. simpl. ring.
  - unfold F32.sub, SFsub. fold F32.prec F32.emax.
    set (ez := Z.min ea eb).
    set (S := cond_Zopp sa (Z.pos (fst (shl_align ma ea ez)))
              - cond_Zopp sb (Z.pos (fst (shl_align mb eb ez)))).
    assert (Ev : (inject_Z S * pow2 ez
                  == val (S754_finite sa ma ea) - val (S754_finite sb mb eb))%Q).
    { unfold S. unfold Z.sub. rewrite inject_Z_plus, inject_Z_opp.
      rewrite <- (aligned_value sa ma ea ez), <- (aligned_value sb mb eb ez)
        by (unfold ez; lia).
      ring. }
    rewrite <- Ev in Hov |- *.
    destruct (binary_normalize_error S ez Hov) as (Hfin & Herr & _).
    split; [exact Hfin | exact Herr].
Qed.

Lemma Qabs_sgnQ_mul (s : bool) (t : Q) : (Qabs (sgnQ s * t) == Qabs t)%Q.
Proof.
  destruct s; simpl sgnQ.
  - setoid_replace (-1 * t)%Q with (- t)%Q by ring. apply Qabs_opp.
  - setoid_replace (1 * t)%Q with t by ring. reflexivity.
Qed.

Lemma mul_error (a b : float) :
  F32.is_finite a = true -> F32.is_finite b = true ->
  (Qabs (val a * val b) < pow2 100)%Q ->
  F32.is_finite (F32.mul a b) = true
  /\ (Qabs (val (F32.mul a b) - val a * val b)
      <= pow2 (-24) * Qabs (val a * val b) + pow2 (-150))%Q.
Proof.
  intros Ha Hb Hov.
  assert (Hp : (0 <= pow2 (-24) * Qabs (val a * val b) + pow2 (-150))%Q).
  { pose proof (pow2_pos (-24)). pose proof (pow2_pos (-150)).
    pose proof (Qabs_nonneg (val a * val b)). nra. }
  assert (Hexact : forall r, (val r == val a * val b)%Q ->
            (Qabs (val r - val a * val b)
             <= pow2 (-24) * Qabs (val a * val b) + pow2 (-150))%Q).
  { intros r E.
    setoid_replace (val r - val a * val b)%Q with 0%Q by (rewrite E; ring).
    exact Hp. }
  destruct a as [sa|sa| |sa ma ea], b as [sb|sb| |sb mb eb];
    try discriminate;
    try (split; [reflexivity | apply Hexact; simpl; ring]).
  unfold F32.mul, SFmul. fold F32.prec F32.emax.
  set (y := (inject_Z (Z.pos (ma * mb)) * pow2 (ea + eb))%Q).
  assert (Hy0 : (0 <= y)%Q).
  { unfold y. apply Qmult_le_0_compat.
    - change 0%Q with (inject_Z 0). rewrite <- Zle_Qle. lia.
    - pose proof (pow2_pos (ea + eb)). lra. }
  assert (Ev : (val (S754_finite sa ma ea) * val (S754_finite sb mb eb)
                == sgnQ (xorb sa sb) * y)%Q).
  { unfold y. simpl val. rewrite sgnQ_xorb, Pos2Z.inj_mul, inject_Z_mult, pow2_add.
    ring. }
  rewrite Ev in Hov |- *. rewrite Qabs_sgnQ_mul, (Qabs_pos y Hy0) in Hov |- *.
  destruct (binary_round_aux_error (xorb sa sb) (Z.pos (ma * mb)) (ea + eb)
              loc_Exact (inject_Z (Z.pos (ma * mb))) ltac:(lia)
              (inbetween_exact _) (or_introl eq_refl) Hov)
    as (v & Hv0 & Hval & Hfin & _ & Herr & _).
  split; [exact Hfin|]. fold y in Herr.
  rewrite Hval.
  setoid_replace (sgnQ (xorb sa sb) * v - sgnQ (xorb sa sb) * y)%Q
    with (sgnQ (xorb sa sb) * (v - y))%Q by ring.
  rewrite Qabs_sgnQ_mul. exact Herr.
Qed.

Lemma of_int_exact (z : Z) :
  - 2 ^ 24 < z < 2 ^ 24 ->
  F32.is_finite (F32.of_int z) = true /\ (val (F32.of_int z) == inject_Z z)%Q.
Proof.
  intros Hz. unfold F32.of_int. fold F32.prec F32.emax.
  assert (Hv : (inject_Z z * pow2 0 == inject_Z z)%Q) by (rewrite pow2_0; ring).
  destruct (binary_normalize_error z 0) as (Hfin & _ & Hex).
  - rewrite Hv.
    assert (H : (Qabs (inject_Z z) < inject_Z (2 ^ 24))%Q).
    { apply Qabs_case; intros _; [|rewrite <- inject_Z_opp];
        rewrite <- Zlt_Qlt; lia. }
    assert (H' : (pow2 24 < pow2 100)%Q) by (apply pow2_lt; lia).
    rewrite inject_Z_pow2 in H by lia. lra.
  - split; [exact Hfin|]. rewrite Hex; [exact Hv|].
    assert (Hd : Zdigits2 z <= 24).
    { destruct z as [|p|p].
      - simpl; lia.
      - apply Zdigits2_le_24. lia.
      - change (Zdigits2 (Z.neg p)) with (Zdigits2 (Z.pos p)).
        apply Zdigits2_le_24. lia. }
    unfold fexp32. lia.
Qed.

(** ** Division *)

Lemma new_location_inbetween (m2 q r : Z) (x : Q) :
  0 < m2 -> 0 <= r < m2 ->
  (x * inject_Z m2 == inject_Z q * inject_Z m2 + inject_Z r)%Q ->
  inbetween q x (new_location m2 r).
Proof.
  intros Hm2 Hr Hx.
  assert (HM : (0 < inject_Z m2)%Q).
  { change 0%Q with (inject_Z 0). rewrite <- Zlt_Qlt. lia. }
  assert (HR0 : (0 <= inject_Z r)%Q).
  { change 0%Q with (inject_Z 0). rewrite <- Zle_Qle. lia. }
  assert (Hexact : r = 0 -> (x == inject_Z q)%Q).
  { intros ->. change (inject_Z 0) with 0%Q in Hx.
    assert (E : ((x - inject_Z q) * inject_Z m2 == 0)%Q) by (ring_simplify; lra).
    apply Qmult_integral in E. destruct E as [E|E]; lra. }
  assert (Hcmp : forall c : Z, 0 < r ->
            (inject_Z (2 * r) < inject_Z m2 ->
             inject_Z q < x /\ x < inject_Z q + (1 # 2))%Q
            /\ (inject_Z (2 * r) == inject_Z m2 -> x == inject_Z q + (1 # 2))%Q
            /\ (inject_Z m2 < inject_Z (2 * r) ->
                inject_Z q + (1 # 2) < x /\ x < inject_Z q + 1)%Q).
  { intros _ Hr0. rewrite inject_Z_mult. change (inject_Z 2) with 2%Q.
    assert (HR1 : (0 < inject_Z r)%Q).
    { change 0%Q with (inject_Z 0). rewrite <- Zlt_Qlt. lia. }
    assert (HR2 : (inject_Z r < inject_Z m2)%Q) by (rewrite <- Zlt_Qlt; lia).
    split; [|split].
    - intros Hlt. split; nra.
    - intros Heq.
      assert (E : ((x - inject_Z q - (1 # 2)) * inject_Z m2 == 0)%Q)
        by (ring_simplify; lra).
      apply Qmult_integral in E. destruct E as [E|E]; lra.
    - intros Hgt. split; nra. }
  unfold new_location.
  destruct (Z.even m2) eqn:Hev;
    unfold new_location_even, new_location_odd;
    destruct (r =? 0) eqn:E0;
    try (apply Z.eqb_eq in E0; now apply Hexact);
    apply Z.eqb_neq in E0;
    destruct (Hcmp 0 ltac:(lia)) as (HLt & HEq & HGt).
  - destruct (Z.compare_spec (2 * r) m2) as [E|E|E]; simpl.
    + apply HEq. now rewrite E.
    + apply HLt. rewrite <- Zlt_Qlt. exact E.
    + apply HGt. rewrite <- Zlt_Qlt. exact E.
  - assert (Hodd : 2 * r <> m2).
    { intros E. rewrite <- E, Z.even_mul in Hev. discriminate. }
    destruct (Z.compare_spec (2 * r + 1) m2) as [E|E|E]; simpl.
    + apply HLt. rewrite <- Zlt_Qlt. lia.
    + apply HLt. rewrite <- Zlt_Qlt. lia.
    + apply HGt. rewrite <- Zlt_Qlt. lia.
Qed.

Lemma SFdiv_core_correct (m1 m2 : positive) (e1 e2 : Z) :
  let q := fst (fst (SFdiv_core_binary 24 128 (Z.pos m1) e1 (Z.pos m2) e2)) in
  let e' := snd (fst (SFdiv_core_binary 24 128 (Z.pos m1) e1 (Z.pos m2) e2)) in
  let l := snd (SFdiv_core_binary 24 128 (Z.pos m1) e1 (Z.pos m2) e2) in
  exists x : Q,
    0 <= q
    /\ inbetween q x l
    /\ (x * pow2 e'
        == inject_Z (Z.pos m1) / inject_Z (Z.pos m2) * pow2 (e1 - e2))%Q
    /\ e' <= fexp32 (Zdigits2 q + e').
Proof.
  unfold SFdiv_core_binary. rewrite fexp32_eq.
  set (d1 := Zdigits2 (Z.pos m1)). set (d2 := Zdigits2 (Z.pos m2)).
  set (e' := Z.min (fexp32 (d1 + e1 - (d2 + e2))) (e1 - e2)).
  set (s := e1 - e2 - e').
  assert (Hs : 0 <= s) by (unfold s, e'; lia).
  set (m' := match s with
             | 0 => Z.pos m1
             | Z.pos _ => Z.shiftl (Z.pos m1) s
             | Z.neg _ => 0
             end).
  assert (Em' : m' = Z.pos m1 * 2 ^ s).
  { unfold m'. destruct s as [|p|p] eqn:Es; [simpl; lia| |lia].
    rewrite Z.shiftl_mul_pow2 by lia. reflexivity. }
  pose proof (Z_div_mod m' (Z.pos m2) ltac:(lia)) as Hdm.
  destruct (Z.div_eucl m' (Z.pos m2)) as [q r]. destruct Hdm as [Hdm Hr].
  cbn [fst snd].
  assert (Hpow : 0 < 2 ^ s) by (apply Z.pow_pos_nonneg; lia).
  assert (Hq : 0 <= q) by nia.
  assert (HM2 : (0 < inject_Z (Z.pos m2))%Q).
  { change 0%Q with (inject_Z 0). rewrite <- Zlt_Qlt. lia. }
  exists (inject_Z m' / inject_Z (Z.pos m2))%Q.
  split; [exact Hq|]. split; [|split].
  - apply new_location_inbetween; [lia | exact Hr |].
    rewrite <- inject_Z_mult, <- inject_Z_plus.
    replace (q * Z.pos m2 + r) with m' by lia.
    field. lra.
  - rewrite Em', inject_Z_mult, inject_Z_pow2 by exact Hs.
    assert (Ep : (pow2 (e1 - e2) == pow2 s * pow2 e')%Q).
    { rewrite <- pow2_add. replace (s + e') with (e1 - e2) by (unfold s; lia).
      reflexivity. }
    rewrite Ep. field. lra.
  - destruct (Z.le_gt_cases e' (-149)) as [Hlo|Hhi]; [unfold fexp32; lia|].
    assert (Hd1 : 0 < d1 /\ 0 < d2) by (unfold d1, d2; simpl; lia).
    pose proof (Zdigits2_bounds (Z.pos m1) ltac:(lia)) as [Hm1 _]. fold d1 in Hm1.
    pose proof (Zdigits2_bounds (Z.pos m2) ltac:(lia)) as [_ Hm2]. fold d2 in Hm2.
    assert (Hsd : 24 + d2 <= d1 + s) by (unfold s, e', fexp32 in *; lia).
    assert (Hbig : 2 ^ 23 * 2 ^ d2 <= m').
    { rewrite Em'. rewrite <- Z.pow_add_r by lia.
      assert (H : 2 ^ (23 + d2) <= 2 ^ (d1 - 1 + s))
        by (apply Z.pow_le_mono_r; lia).
      assert (E : 2 ^ (d1 - 1 + s) = 2 ^ (d1 - 1) * 2 ^ s)
        by (apply Z.pow_add_r; lia).
      rewrite E in H. eapply Z.le_trans; [exact H|].
      apply Z.mul_le_mono_nonneg_r; lia. }
    assert (Hq23 : 2 ^ 23 <= q).
    { destruct (Z.le_gt_cases (2 ^ 23) q) as [|Hlt]; [assumption|].
      assert (0 < 2 ^ d2) by (apply Z.pow_pos_nonneg; lia).
      nia. }
    pose proof (Zdigits2_bounds q ltac:(lia)) as [_ Hqd].
    assert (Hdq : 23 < Zdigits2 q).
    { apply (Z.pow_lt_mono_r_iff 2); [lia | apply Zdigits2_nonneg | lia]. }
    unfold fexp32. lia.
Qed.

Lemma div_error (a b : float) :
  F32.is_finite a = true -> F32.is_finite b = true -> ~ (val b == 0)%Q ->
  (Qabs (val a / val b) < pow2 100)%Q ->
  F32.is_finite (F32.div a b) = true
  /\ (Qabs (val (F32.div a b) - val a / val b)
      <= pow2 (-24) * Qabs (val a / val b) + pow2 (-150))%Q.
Proof.
  intros Ha Hb Hb0 Hov.
  assert (Hp : (0 <= pow2 (-24) * Qabs (val a / val b) + pow2 (-150))%Q).
  { pose proof (pow2_pos (-24)). pose proof (pow2_pos (-150)).
    pose proof (Qabs_nonneg (val a / val b)). nra. }
  destruct b as [sb|sb| |sb mb eb]; try discriminate;
    [exfalso; apply Hb0; reflexivity|].
  destruct a as [sa|sa| |sa ma ea]; try discriminate.
  - split; [reflexivity|].
    change (F32.div (S754_zero sa) (S754_finite sb mb eb))
      with (S754_zero (xorb sa sb)).
    change (val (S754_zero (xorb sa sb))) with 0%Q.
    change (val (S754_zero sa)) with 0%Q in *.
    set (vb := val (S754_finite sb mb eb)) in *.
    setoid_replace (0 - 0 / vb)%Q with 0%Q by (field; exact Hb0).
    exact Hp.
  - unfold F32.div, SFdiv. fold F32.prec F32.emax.
    pose proof (SFdiv_core_correct ma mb ea eb) as (x & Hq & Hin & Hv & Hfx).
    change F32.prec with 24. change F32.emax with 128.
    destruct (SFdiv_core_binary 24 128 (Z.pos ma) ea (Z.pos mb) eb)
      as [[q e'] l].
    cbn [fst snd] in *.
    set (y := (inject_Z (Z.pos ma) / inject_Z (Z.pos mb) * pow2 (ea - eb))%Q) in *.
    assert (HMa : (0 < inject_Z (Z.pos ma))%Q).
    { change 0%Q with (inject_Z 0). rewrite <- Zlt_Qlt. lia. }
    assert (HMb : (0 < inject_Z (Z.pos mb))%Q).
    { change 0%Q with (inject_Z 0). rewrite <- Zlt_Qlt. lia. }
    pose proof (pow2_pos (ea - eb)) as Hpe.
    pose proof (pow2_pos eb) as Hpb.
    assert (Hy0 : (0 <= y)%Q).
    { unfold y. apply Qmult_le_0_compat; [|lra].
      apply Qlt_le_weak, Qlt_shift_div_l; lra. }
    assert (Ev : (val (S754_finite sa ma ea) / val (S754_finite sb mb eb)
                  == sgnQ (xorb sa sb) * y)%Q).
    { unfold y. simpl val. rewrite sgnQ_xorb.
      assert (Ep : (pow2 ea == pow2 (ea - eb) * pow2 eb)%Q).
      { rewrite <- pow2_add. replace (ea - eb + eb) with ea by lia.
        reflexivity. }
      rewrite Ep. destruct sa, sb; simpl sgnQ; field; lra. }
    rewrite Ev in Hov |- *. rewrite Qabs_sgnQ_mul, (Qabs_pos y Hy0) in Hov |- *.
    rewrite <- Hv in Hov.
    destruct (binary_round_aux_error (xorb sa sb) q e' l x Hq Hin
                (or_intror Hfx) Hov)
      as (v & Hv0 & Hval & Hfin & _ & Herr & _).
    split; [exact Hfin|]. rewrite Hv in Herr.
    rewrite Hval.
    setoid_replace (sgnQ (xorb sa sb) * v - sgnQ (xorb sa sb) * y)%Q
      with (sgnQ (xorb sa sb) * (v - y))%Q by ring.
    rewrite Qabs_sgnQ_mul. exact Herr.
Qed.

(** ** Back to integers *)

Lemma trunc_val (f : float) (i : Z) :
  F32.is_finite f = true -> 0 <= i ->
  (inject_Z i <= val f /\ val f < inject_Z i + 1)%Q ->
  F32.trunc f = Some i.
Proof.
  intros Hf Hi [Hlo Hhi].
  assert (Hi0 : (0 <= inject_Z i)%Q).
  { change 0%Q with (inject_Z 0). rewrite <- Zle_Qle. exact Hi. }
  destruct f as [s|s| |s m e]; try discriminate; simpl in *.
  - f_equal. assert (H : (inject_Z i < inject_Z 1)%Q)
      by (change (inject_Z 1) with 1%Q; lra).
    rewrite <- Zlt_Qlt in H. lia.
  - pose proof (pow2_pos e) as Hpe.
    assert (HM : (0 < inject_Z (Z.pos m))%Q).
    { change 0%Q with (inject_Z 0). rewrite <- Zlt_Qlt. lia. }
    destruct s; simpl sgnQ in *.
    { exfalso. nra. }
    simpl cond_Zopp. f_equal.
    destruct (Z.le_gt_cases 0 e) as [He|He].
    + rewrite Z.shiftl_mul_pow2 by exact He.
      rewrite <- inject_Z_pow2 in Hlo, Hhi by exact He.
      assert (E : (1 * inject_Z (Z.pos m) * inject_Z (2 ^ e)
                   == inject_Z (Z.pos m * 2 ^ e))%Q)
        by (rewrite inject_Z_mult; ring).
      rewrite E in Hlo, Hhi.
      rewrite <- Zle_Qle in Hlo.
      assert (H : (inject_Z (Z.pos m * 2 ^ e) < inject_Z (i + 1))%Q)
        by (rewrite inject_Z_plus; exact Hhi).
      rewrite <- Zlt_Qlt in H. lia.
    + rewrite Z.shiftl_div_pow2 by lia.
      pose proof (pow2_pos (- e)) as Hpk.
      pose proof (pow2_opp_mul e) as Hinv.
      assert (Hk : 0 < 2 ^ (- e)) by (apply Z.pow_pos_nonneg; lia).
      assert (H1 : (inject_Z (i * 2 ^ (- e)) <= inject_Z (Z.pos m))%Q).
      { rewrite inject_Z_mult, inject_Z_pow2 by lia. nra. }
      assert (H2 : (inject_Z (Z.pos m) < inject_Z ((i + 1) * 2 ^ (- e)))%Q).
      { rewrite inject_Z_mult, inject_Z_plus, inject_Z_pow2 by lia.
        change (inject_Z 1) with 1%Q. nra. }
      rewrite <- Zle_Qle in H1. rewrite <- Zlt_Qlt in H2.
      symmetry. apply (Z.div_unique_pos _ _ i (Z.pos m - i * 2 ^ (- e))); lia.
Qed.

(** ** Constants *)

Lemma pow2_m24 : (pow2 (-24) == 1 # 16777216)%Q.
Proof. reflexivity. Qed.

Lemma pow2_m150_small : (pow2 (-150) <= 1 # 1125899906842624)%Q.
Proof.
  assert (H : (pow2 (-150) <= pow2 (-50))%Q) by (apply pow2_le; lia).
  assert (E : (pow2 (-50) == 1 # 1125899906842624)%Q) by reflexivity.
  rewrite E in H. exact H.
Qed.

Lemma below_pow2_100 (x : Q) : (Qabs x <= 1048576)%Q -> (Qabs x < pow2 100)%Q.
Proof.
  intros H.
  assert (H1 : (pow2 21 <= pow2 100)%Q) by (apply pow2_le; lia).
  assert (E : (pow2 21 == 2097152)%Q) by reflexivity.
  rewrite E in H1. lra.
Qed.

(** The error of an operation whose exact result is at most [c] in size. *)
Lemma error_below (v x c : Q) :
  (Qabs (v - x) <= pow2 (-24) * Qabs x + pow2 (-150))%Q ->
  (Qabs x <= c)%Q ->
  (- (c * unit_roundoff + underflow_bound) <= v - x
   /\ v - x <= c * unit_roundoff + underflow_bound)%Q.
Proof.
  intros H Hc. rewrite pow2_m24 in H.
  pose proof pow2_m150_small as Hs. unfold unit_roundoff, underflow_bound.
  apply Qabs_Qle_condition. eapply Qle_trans; [exact H|].
  pose proof (Qabs_nonneg x). lra.
Qed.

(** ** The nearest-line computation, on the values *)

Section ClosestAnalysis.

#[local] Open Scope Q_scope.

(* span, cells, index, mesh minimum, exact cell width *)
Variables A B I Mn x : Q.
(* the values of the floating-point results *)
Variables vD vP vX vT1 vH vT2 vR vT3 : Q.


Hypothesis HB : 1 <= B /\ B <= 14.
Hypothesis HA : 1 <= A /\ A <= 65535.
Hypothesis HI : 0 <= I /\ I <= B.
Hypothesis HMn : -32768 <= Mn /\ Mn + A <= 32767.
Hypothesis Hx : x * B == A.

Lemma width_bounds : 1 # 14 <= x /\ x <= A.
Proof. nra. Qed.

Hypothesis HD : - (x * unit_roundoff + underflow_bound) <= vD - x /\ vD - x <= x * unit_roundoff + underflow_bound.

Lemma vD_bounds : 1 # 15 <= vD /\ vD <= 65536.
Proof. pose proof width_bounds. unfold unit_roundoff, underflow_bound in *. split; lra. Qed.

Lemma IvD_bounds :
  - (1 # 255) <= I * vD - I * x /\ I * vD - I * x <= 1 # 255
  /\ 0 <= I * x /\ I * x <= A /\ Qabs (I * vD) <= 65536.
Proof.
  pose proof width_bounds as [Hx1 Hx2]. unfold unit_roundoff, underflow_bound in *.
  assert (H0 : 0 <= I * x) by nra.
  assert (H1 : I * x <= A) by nra.
  assert (H2 : - (1 # 255) <= I * vD - I * x /\ I * vD - I * x <= 1 # 255).
  { assert (Hd : I * (vD - x) <= I * (x * (1 # 16777216) + (1 # 1125899906842624))) by nra.
    assert (Hd' : - (I * (x * (1 # 16777216) + (1 # 1125899906842624))) <= I * (vD - x)) by nra.
    assert (Hi : I * (x * (1 # 16777216) + (1 # 1125899906842624))
                 == (I * x) * (1 # 16777216) + I * (1 # 1125899906842624)) by ring.
    split; lra. }
  repeat split; try lra.
  apply Qabs_Qle_condition. split; lra.
Qed.

Hypothesis HP : - (1 # 250) <= vP - I * vD /\ vP - I * vD <= 1 # 250.

Lemma MnvP_bounds : Qabs (Mn + vP) <= 32769.
Proof.
  pose proof IvD_bounds as (H1 & H2 & H3 & H4 & _).
  apply Qabs_Qle_condition. split; lra.
Qed.

Hypothesis HX : - (1 # 500) <= vX - (Mn + vP) /\ vX - (Mn + vP) <= 1 # 500.

Lemma vXMn_bounds : Qabs (vX - Mn) <= 65537.
Proof.
  pose proof IvD_bounds as (H1 & H2 & H3 & H4 & _).
  apply Qabs_Qle_condition. split; lra.
Qed.

Hypothesis H1 : - (1 # 250) <= vT1 - (vX - Mn) /\ vT1 - (vX - Mn) <= 1 # 250.

Lemma vDhalf_bounds : Qabs (vD * (1 # 2)) <= 32768.
Proof. pose proof vD_bounds. apply Qabs_Qle_condition. split; lra. Qed.

Hypothesis HH : - (1 # 500) <= vH - vD * (1 # 2) /\ vH - vD * (1 # 2) <= 1 # 500.

Lemma vT1vH_bounds : Qabs (vT1 + vH) <= 98310.
Proof.
  pose proof IvD_bounds as (H1' & H2 & H3 & H4 & _). pose proof vD_bounds.
  apply Qabs_Qle_condition. split; lra.
Qed.

Hypothesis H2 : - (3 # 500) <= vT2 - (vT1 + vH) /\ vT2 - (vT1 + vH) <= 3 # 500.

(** The sum is the middle of cell [I], up to 0.02. *)
Lemma vT2_middle :
  - (1 # 50) <= vT2 - (I + (1 # 2)) * vD /\ vT2 - (I + (1 # 2)) * vD <= 1 # 50.
Proof.
  pose proof IvD_bounds as (H1' & H2' & _).
  assert (E : (I + (1 # 2)) * vD == I * vD + vD * (1 # 2)) by ring.
  split; lra.
Qed.

Lemma inv_vD_bounds : 0 < / vD /\ Qabs (1 / vD) <= / vD /\ / vD <= 15
                      /\ vD * / vD == 1.
Proof.
  pose proof vD_bounds as [Hlo Hhi].
  assert (Hpos : 0 < vD) by lra.
  assert (Hinv : 0 < / vD) by (apply Qinv_lt_0_compat; exact Hpos).
  assert (E : vD * / vD == 1) by (apply Qmult_inv_r; lra).
  split; [exact Hinv|]. split; [|split; [nra | exact E]].
  unfold Qdiv. setoid_replace (1 * / vD) with (/ vD) by ring.
  rewrite Qabs_pos; lra.
Qed.

Hypothesis HR : - (/ vD * unit_roundoff + underflow_bound) <= vR - 1 / vD
                /\ vR - 1 / vD <= / vD * unit_roundoff + underflow_bound.

Lemma vR_bounds :
  0 <= vR /\ vR <= 16
  /\ - (1 # 1000000) <= vD * vR - 1 /\ vD * vR - 1 <= 1 # 1000000.
Proof.
  pose proof vD_bounds as [Hlo Hhi].
  pose proof inv_vD_bounds as (Hinv & _ & H15 & E).
  unfold unit_roundoff, underflow_bound in *. unfold Qdiv in HR.
  assert (E1 : 1 * / vD == / vD) by ring. rewrite E1 in HR.
  assert (Hr : vD * vR - 1 == vD * (vR - / vD)).
  { setoid_replace (vD * (vR - / vD)) with (vD * vR - vD * / vD) by ring.
    rewrite E. reflexivity. }
  assert (Hinvlo : 1 # 65536 <= / vD) by nra.
  split; [lra|]. split; [lra|].
  rewrite Hr.
  assert (Hb : vD * (/ vD * (1 # 16777216) + (1 # 1125899906842624))
               == (1 # 16777216) + vD * (1 # 1125899906842624)).
  { setoid_replace (vD * (/ vD * (1 # 16777216) + (1 # 1125899906842624)))
      with ((vD * / vD) * (1 # 16777216) + vD * (1 # 1125899906842624)) by ring.
    rewrite E. ring. }
  split; nra.
Qed.

Lemma product_bounds :
  I + (1 # 10) <= vT2 * vR /\ vT2 * vR <= I + (9 # 10) /\ Qabs (vT2 * vR) <= 16.
Proof.
  pose proof vT2_middle as [Hm1 Hm2].
  pose proof vR_bounds as (Hr0 & Hr16 & Hr1 & Hr2).
  set (E := vT2 - (I + (1 # 2)) * vD) in *.
  assert (Ep : vT2 * vR == (I + (1 # 2)) * (vD * vR) + E * vR)
    by (unfold E; ring).
  assert (HEr : - (8 # 25) <= E * vR /\ E * vR <= 8 # 25) by (split; nra).
  assert (HIr : - (1 # 50000) <= (I + (1 # 2)) * (vD * vR - 1)
                /\ (I + (1 # 2)) * (vD * vR - 1) <= 1 # 50000).
  { destruct HI, HB. split; nra. }
  assert (Hs : (I + (1 # 2)) * (vD * vR)
               == (I + (1 # 2)) + (I + (1 # 2)) * (vD * vR - 1)) by ring.
  assert (Hlo : I + (1 # 10) <= vT2 * vR) by lra.
  assert (Hhi : vT2 * vR <= I + (9 # 10)) by lra.
  split; [exact Hlo|]. split; [exact Hhi|].
  destruct HI, HB. apply Qabs_Qle_condition. split; lra.
Qed.

Hypothesis H3 : - (1 # 1000000) <= vT3 - vT2 * vR /\ vT3 - vT2 * vR <= 1 # 1000000.

Lemma vT3_in_cell : I <= vT3 /\ vT3 < I + 1.
Proof. pose proof product_bounds as (Hlo & Hhi & _). split; lra. Qed.

End ClosestAnalysis.

Lemma val_half : (val F32.half == 1 # 2)%Q.
Proof. reflexivity. Qed.

Lemma val_one : (val F32.one == 1)%Q.
Proof. reflexivity. Qed.

Lemma Qabs_le_of_bounds (x c : Q) : (- c <= x)%Q -> (x <= c)%Q -> (Qabs x <= c)%Q.
Proof. intros H1 H2. apply Qabs_Qle_condition. split; assumption. Qed.

(** The position of line [i] of a uniform mesh lies in the middle of what
    the nearest-line computation maps to [i]. *)
Lemma closest_core (mn mx g i : Z) :
  2 <= g <= 15 -> -32768 <= mn -> mn < mx -> mx <= 32767 -> 0 <= i <= g - 1 ->
  let D := mesh_dist mn mx g in
  let X := F32.add (F32.of_int mn) (F32.mul (F32.of_int i) D) in
  F32.trunc
    (F32.mul (F32.add (F32.sub X (F32.of_int mn)) (F32.mul D F32.half))
             (F32.div F32.one D))
  = Some i.
Proof.
  intros Hg Hmn Hlt Hmx Hi D X.
  set (A := inject_Z (mx - mn)). set (B := inject_Z (g - 1)).
  set (I := inject_Z i). set (Mn := inject_Z mn).
  assert (HB : (1 <= B /\ B <= 14)%Q).
  { unfold B. split; [change 1%Q with (inject_Z 1) | change 14%Q with (inject_Z 14)];
      rewrite <- Zle_Qle; lia. }
  assert (HA : (1 <= A /\ A <= 65535)%Q).
  { unfold A. split; [change 1%Q with (inject_Z 1) | change 65535%Q with (inject_Z 65535)];
      rewrite <- Zle_Qle; lia. }
  assert (HI : (0 <= I /\ I <= B)%Q).
  { unfold I, B. split; [change 0%Q with (inject_Z 0)|]; rewrite <- Zle_Qle; lia. }
  assert (HMn : (-32768 <= Mn /\ Mn + A <= 32767)%Q).
  { unfold Mn, A. rewrite <- inject_Z_plus. split;
      [change (-32768)%Q with (inject_Z (-32768)) | change 32767%Q with (inject_Z 32767)];
      rewrite <- Zle_Qle; lia. }
  set (x := (A / B)%Q).
  assert (Hx : (x * B == A)%Q) by (unfold x; field; lra).
  pose proof (width_bounds A B x HB HA Hx) as [Hx1 Hx2].
  (* the constants *)
  destruct (of_int_exact (mx - mn) ltac:(lia)) as [FA VA]. fold A in VA.
  destruct (of_int_exact (g - 1) ltac:(lia)) as [FB VB]. fold B in VB.
  destruct (of_int_exact i ltac:(lia)) as [FI VI]. fold I in VI.
  destruct (of_int_exact mn ltac:(lia)) as [FM VM]. fold Mn in VM.
  (* D *)
  assert (Hxabs : (Qabs x == x)%Q) by (apply Qabs_pos; lra).
  destruct (div_error (F32.of_int (mx - mn)) (F32.of_int (g - 1)) FA FB)
    as [FD ED].
  { rewrite VB. lra. }
  { rewrite VA, VB. fold x. apply below_pow2_100. rewrite Hxabs. lra. }
  fold (mesh_dist mn mx g) in FD, ED. fold D in FD, ED.
  rewrite VA, VB in ED. fold x in ED.
  set (vD := val D) in *.
  assert (HD := error_below vD x x ED ltac:(rewrite Hxabs; lra)).
  pose proof (vD_bounds A B Mn x vD HB HA HMn Hx HD) as [HD1 HD2].
  (* P = i * D *)
  pose proof (IvD_bounds A B I Mn x vD HB HA HI HMn Hx HD)
    as (HP1 & HP2 & HP3 & HP4 & HP5).
  destruct (mul_error (F32.of_int i) D FI FD) as [FP EP].
  { rewrite VI. fold vD. apply below_pow2_100. lra. }
  rewrite VI in EP. fold vD in EP.
  set (vP := val (F32.mul (F32.of_int i) D)) in *.
  assert (HP : (- (1 # 250) <= vP - I * vD /\ vP - I * vD <= 1 # 250)%Q).
  { pose proof (error_below vP (I * vD) 65536 EP HP5) as He.
    unfold unit_roundoff, underflow_bound in He. lra. }
  (* X = mn + P *)
  pose proof (MnvP_bounds A B I Mn x vD vP HB HA HI HMn Hx HD HP) as HX0.
  destruct (add_error (F32.of_int mn) (F32.mul (F32.of_int i) D) FM FP)
    as [FX EX].
  { rewrite VM. fold vP. apply below_pow2_100. lra. }
  rewrite VM in EX. fold vP in EX. fold X in FX, EX.
  set (vX := val X) in *.
  assert (HX : (- (1 # 500) <= vX - (Mn + vP) /\ vX - (Mn + vP) <= 1 # 500)%Q).
  { pose proof (error_below vX (Mn + vP) 32769 EX HX0) as He.
    unfold unit_roundoff, underflow_bound in He. lra. }
  (* T1 = X - mn *)
  pose proof (vXMn_bounds A B I Mn x vD vP vX HB HA HI HMn Hx HD HP HX) as HT0.
  destruct (sub_error X (F32.of_int mn) FX FM) as [FT1 ET1].
  { rewrite VM. fold vX. apply below_pow2_100. lra. }
  rewrite VM in ET1. fold vX in ET1.
  set (vT1 := val (F32.sub X (F32.of_int mn))) in *.
  assert (H1 : (- (1 # 250) <= vT1 - (vX - Mn) /\ vT1 - (vX - Mn) <= 1 # 250)%Q).
  { pose proof (error_below vT1 (vX - Mn) 65537 ET1 HT0) as He.
    unfold unit_roundoff, underflow_bound in He. lra. }
  (* H = D / 2 *)
  pose proof (vDhalf_bounds A B Mn x vD HB HA HMn Hx HD) as HH0.
  destruct (mul_error D F32.half FD eq_refl) as [FH EH].
  { rewrite val_half. fold vD. apply below_pow2_100. lra. }
  rewrite val_half in EH. fold vD in EH.
  set (vH := val (F32.mul D F32.half)) in *.
  assert (HH : (- (1 # 500) <= vH - vD * (1 # 2) /\ vH - vD * (1 # 2) <= 1 # 500)%Q).
  { pose proof (error_below vH (vD * (1 # 2)) 32768 EH HH0) as He.
    unfold unit_roundoff, underflow_bound in He. lra. }
  (* T2 = T1 + H *)
  pose proof (vT1vH_bounds A B I Mn x vD vP vX vT1 vH HB HA HI HMn Hx HD HP HX
                H1 HH) as HT20.
  destruct (add_error _ _ FT1 FH) as [FT2 ET2].
  { fold vT1 vH. apply below_pow2_100. lra. }
  fold vT1 vH in ET2.
  set (vT2 := val (F32.add (F32.sub X (F32.of_int mn)) (F32.mul D F32.half))) in *.
  assert (H2 : (- (3 # 500) <= vT2 - (vT1 + vH) /\ vT2 - (vT1 + vH) <= 3 # 500)%Q).
  { pose proof (error_below vT2 (vT1 + vH) 98310 ET2 HT20) as He.
    unfold unit_roundoff, underflow_bound in He. lra. }
  (* R = 1 / D *)
  pose proof (inv_vD_bounds A B Mn x vD HB HA HMn Hx HD) as (HR0 & HR1 & HR2 & HR3).
  destruct (div_error F32.one D eq_refl FD) as [FR ER].
  { fold vD. lra. }
  { rewrite val_one. fold vD. apply below_pow2_100. lra. }
  rewrite val_one in ER. fold vD in ER.
  set (vR := val (F32.div F32.one D)) in *.
  assert (HR := error_below vR (1 / vD)%Q (/ vD)%Q ER HR1).
  (* T3 = T2 * R *)
  pose proof (product_bounds A B I Mn x vD vP vX vT1 vH vT2 vR HB HA HI HMn Hx
                HD HP HX H1 HH H2 HR) as (HT31 & HT32 & HT33).
  destruct (mul_error _ _ FT2 FR) as [FT3 ET3].
  { fold vT2 vR. apply below_pow2_100. lra. }
  fold vT2 vR in ET3.
  set (T3 := F32.mul (F32.add (F32.sub X (F32.of_int mn)) (F32.mul D F32.half))
                     (F32.div F32.one D)) in *.
  set (vT3 := val T3) in *.
  assert (H3 : (- (1 # 1000000) <= vT3 - vT2 * vR
                /\ vT3 - vT2 * vR <= 1 # 1000000)%Q).
  { pose proof (error_below vT3 (vT2 * vR) 16 ET3 HT33) as He.
    unfold unit_roundoff, underflow_bound in He. lra. }
  apply trunc_val; [exact FT3 | lia |].
  fold I. fold vT3.
  exact (vT3_in_cell A B I Mn x vD vP vX vT1 vH vT2 vR vT3 HB HA HI HMn Hx
           HD HP HX H1 HH H2 HR H3).
Qed.


Lemma nth_uniform_table (g mn i : Z) (dist : float) :
  0 <= i < g ->
  nth (Z.to_nat i) (uniform_table g mn dist) F32.zero
  = F32.add (F32.of_int mn) (F32.mul (F32.of_int i) dist).
Proof.
  intros Hi. unfold uniform_table.
  set (f := fun k : nat =>
              F32.add (F32.of_int mn) (F32.mul (F32.of_int (Z.of_nat k)) dist)).
  rewrite (nth_indep _ F32.zero (f 0%nat))
    by (rewrite length_map, length_seq; lia).
  rewrite map_nth, seq_nth by lia.
  unfold f. simpl Nat.add. now rewrite Z2Nat.id by lia.
Qed.

(** ** The claims *)

Lemma scenario_grid_dims_ok : @grid_dims_ok scenario_cfg.
Proof. unfold grid_dims_ok; simpl; lia. Defined.

(** C1 as stated fails: on the 3 by 3 grid of the scenario, at MESH_MAX
    (200) and beyond it (250), the lookup returns GRID_MAX_POINTS - 1 = 2,
    one past the last cell [GRID_MAX_POINTS - 2]. *)
Lemma get_cell_index_past_last_cell :
  @get_cell_index_x scenario_cfg (F32.of_int 200) = 2
  /\ @get_cell_index_x scenario_cfg (F32.of_int 250) = 2
  /\ @get_cell_index_y scenario_cfg (F32.of_int 250) = 2
  /\ ~ (0 <= @get_cell_index_x scenario_cfg (F32.of_int 250)
        <= @GRID_MAX_POINTS_X scenario_cfg - 2).
Proof.
  repeat split; try reflexivity.
  change (@get_cell_index_x scenario_cfg (F32.of_int 250)) with 2.
  simpl. lia.
Qed.

Section ClaimsOnQueries.

Context {cfg : Configuration}.

Lemma bilinear_nan (rx0 ry0 : float) (cx cy : Z) (za zb zc zd : float) :
  F32.isnan za || F32.isnan zb || F32.isnan zc || F32.isnan zd = true ->
  bilinear rx0 ry0 cx cy za zb zc zd = F32.NAN.
Proof.
  rewrite !orb_true_iff, !F32Facts.isnan_spec.
  unfold bilinear.
  intros [[[-> | ->] | ->] | ->];
    rewrite ?F32Integral.calc_z0_nan_z1, ?F32Integral.calc_z0_nan_z2;
    reflexivity.
Qed.

Lemma z_correction_value_on_mesh (m : bed_mesh_t) (rx0 ry0 : float)
      (za zb zc zd : float) :
  reaches_interpolation rx0 ry0 ->
  cell_values m (get_cell_index_x rx0) (get_cell_index_y ry0)
  = Some (za, zb, zc, zd) ->
  z_correction_value m rx0 ry0
  = Some (nan_to_zero (bilinear rx0 ry0 (get_cell_index_x rx0)
                                (get_cell_index_y ry0) za zb zc zd)).
Proof.
  intros Hr Hc. unfold z_correction_value. rewrite Hc.
  destruct Hr as [-> | Hoff]; [reflexivity|].
  rewrite Hoff. destruct UBL_Z_RAISE_WHEN_OFF_MESH; reflexivity.
Qed.

Lemma z_correction_value_nan (m : bed_mesh_t) (rx0 ry0 : float)
      (za zb zc zd : float) :
  reaches_interpolation rx0 ry0 ->
  cell_values m (get_cell_index_x rx0) (get_cell_index_y ry0)
  = Some (za, zb, zc, zd) ->
  F32.isnan za || F32.isnan zb || F32.isnan zc || F32.isnan zd = true ->
  z_correction_value m rx0 ry0 = Some F32.zero.
Proof.
  intros Hr Hc Hnan.
  rewrite (z_correction_value_on_mesh _ _ _ _ _ _ _ Hr Hc).
  now rewrite (bilinear_nan _ _ _ _ _ _ _ _ Hnan).
Qed.

(** C3: when a query reaches the interpolation and one of the four mesh
    values it reads is NaN, [get_z_correction] returns 0.0 (and so not
    NaN). *)
Theorem get_z_correction_nan_is_zero (rx0 ry0 : float) (s : ubl_state)
        (za zb zc zd : float) :
  reaches_interpolation rx0 ry0 ->
  cell_values (z_values s) (get_cell_index_x rx0) (get_cell_index_y ry0)
  = Some (za, zb, zc, zd) ->
  F32.isnan za || F32.isnan zb || F32.isnan zc || F32.isnan zd = true ->
  exists s', get_z_correction rx0 ry0 s = Some (F32.zero, s') /\ frame s s'.
Proof.
  intros Hr Hc Hnan.
  pose proof (get_z_correction_run rx0 ry0 s) as Hrun.
  now rewrite (z_correction_value_nan _ _ _ _ _ _ _ Hr Hc Hnan) in Hrun.
Qed.

(** C4: with an index off the grid, each single-axis helper returns
    UBL_Z_RAISE_WHEN_OFF_MESH when that is defined and NaN otherwise; the
    mesh is not read (the state may have any mesh at all), no index is
    clamped and a NaN is not replaced by 0.0. *)
Theorem single_axis_off_grid (r0 : float) (xi yi : Z) (s : ubl_state) :
  ~ in_grid xi yi ->
  let off := match UBL_Z_RAISE_WHEN_OFF_MESH with
             | Some raise => raise
             | None => F32.NAN
             end in
  (exists s', z_correction_for_x_on_horizontal_mesh_line r0 xi yi s
              = Some (off, s') /\ frame s s')
  /\ (exists s', z_correction_for_y_on_vertical_mesh_line r0 xi yi s
                 = Some (off, s') /\ frame s s').
Proof.
  intros Hout off.
  assert (E : WITHIN xi 0 (GRID_MAX_POINTS_X - 1)
              && WITHIN yi 0 (GRID_MAX_POINTS_Y - 1) = false).
  { apply not_true_iff_false. now rewrite in_grid_WITHIN. }
  pose proof (z_correction_for_x_run r0 xi yi s) as Hx.
  pose proof (z_correction_for_y_run r0 xi yi s) as Hy.
  rewrite E in Hx, Hy. split; assumption.
Qed.

Lemma strictly_outside_off_mesh (rx0 ry0 : float) :
  strictly_outside rx0 ry0 = true -> off_mesh rx0 ry0 = true.
Proof.
  unfold strictly_outside, off_mesh, WITHIN_f. intros H.
  rewrite !orb_true_iff in H.
  destruct H as [[[H | H] | H] | H]; apply F32Facts.ltb_not_leb in H;
    rewrite H; rewrite ?andb_false_r; simpl; rewrite ?orb_true_r;
    reflexivity.
Qed.

(** C6: with UBL_Z_RAISE_WHEN_OFF_MESH defined, a position strictly
    outside [MESH_MIN, MESH_MAX] on either axis gets that value at once:
    the run returns on every state, whatever its mesh (even one with no
    point to read), and leaves the state as it was. *)
Theorem get_z_correction_off_mesh_raise (raise rx0 ry0 : float)
        (s : ubl_state) :
  UBL_Z_RAISE_WHEN_OFF_MESH = Some raise ->
  strictly_outside rx0 ry0 = true ->
  get_z_correction rx0 ry0 s = Some (raise, s).
Proof.
  intros Hr Hout. unfold get_z_correction.
  rewrite Hr, (strictly_outside_off_mesh _ _ Hout). reflexivity.
Qed.

Lemma mesh_is_valid_run (s : ubl_state) :
  grid_dims_ok -> has_dims (z_values s) = true ->
  exists b, mesh_is_valid s = Some (b, s)
            /\ (b = true <-> all_defined (z_values s)).
Proof.
  intros [Hgx Hgy] Hd.
  destruct (mesh_is_valid_from_run (Z.to_nat GRID_MAX_POINTS_X) 0 s)
    as (b & Eb & Hb); [lia| |].
  - intros i k Hi Hk. rewrite Z2Nat.id in Hi by lia.
    apply mesh_at_in_grid; [exact Hd | split; lia].
  - exists b. split; [exact Eb|]. rewrite Hb, Z2Nat.id by lia.
    unfold all_defined, in_grid. split.
    + intros H x y z [Hx Hy] E. apply (H x y z); [lia | lia | exact E].
    + intros H i k z Hi Hk E. apply (H i k z); [lia | exact E].
Qed.

(** C7: in a mesh of the declared size [mesh_is_valid] returns true
    exactly when no point of the grid is NaN, which for a mesh whose points
    are each NaN or finite (the mesh of the data model) is to say that every
    point is finite; and when every point is NaN it returns false, and
    [get_z_correction] returns 0.0 wherever the query reaches the
    interpolation (everywhere on the mesh, and everywhere at all without an
    off-mesh raise). *)
Theorem mesh_is_valid_iff_all_defined (s : ubl_state) :
  grid_dims_ok -> has_dims (z_values s) = true ->
  (exists b, mesh_is_valid s = Some (b, s)
             /\ (b = true <-> all_defined (z_values s))
             /\ ((forall x y z, mesh_at (z_values s) x y = Some z ->
                               F32.isnan z = true \/ F32.is_finite z = true) ->
                 (b = true <->
                  forall x y z, in_grid x y ->
                                mesh_at (z_values s) x y = Some z ->
                                F32.is_finite z = true)))
  /\ ((forall x y z, mesh_at (z_values s) x y = Some z -> z = F32.NAN) ->
      mesh_is_valid s = Some (false, s)
      /\ forall rx0 ry0,
           reaches_interpolation rx0 ry0 ->
           exists s', get_z_correction rx0 ry0 s = Some (F32.zero, s')
                      /\ frame s s').
Proof.
  intros Hg Hd. split.
  { destruct (mesh_is_valid_run s Hg Hd) as (b & Eb & Hb).
    exists b. split; [exact Eb|]. split; [exact Hb|].
    intros Hmodel. rewrite Hb. unfold all_defined. split.
    - intros H x y z Hin E.
      destruct (Hmodel x y z E) as [Hn|Hf]; [|exact Hf].
      rewrite (H x y z Hin E) in Hn. discriminate.
    - intros H x y z Hin E. specialize (H x y z Hin E).
      destruct z; simpl in *; congruence. }
  intros Hnan. split.
  - destruct (mesh_is_valid_run s Hg Hd) as (b & Eb & Hb).
    destruct b; [|exact Eb]. exfalso.
    destruct Hb as [Hb _]. specialize (Hb eq_refl).
    assert (Hin : in_grid 0 0) by (destruct Hg; split; lia).
    destruct (mesh_at_in_grid _ 0 0 Hd Hin) as [z Ez].
    pose proof (Hb 0 0 z Hin Ez) as Hz.
    rewrite (Hnan 0 0 z Ez) in Hz. discriminate.
  - intros rx0 ry0 Hr.
    destruct (cell_values_in_grid (z_values s) (get_cell_index_x rx0)
                (get_cell_index_y ry0) Hd
                (get_cell_index_x_range rx0 Hg)
                (get_cell_index_y_range ry0 Hg))
      as (za & zb & zc & zd & Ec).
    pose proof (get_z_correction_run rx0 ry0 s) as Hrun.
    rewrite (z_correction_value_nan _ _ _ za zb zc zd Hr Ec) in Hrun;
      [exact Hrun|].
    assert (Ea : za = F32.NAN).
    { unfold cell_values in Ec.
      destruct (mesh_at (z_values s) (get_cell_index_x rx0)
                  (get_cell_index_y ry0)) as [z|] eqn:E; [|discriminate].
      assert (z = za).
      { destruct (mesh_at _ (upper_x _) (get_cell_index_y ry0));
          [|discriminate].
        destruct (mesh_at _ (get_cell_index_x rx0) (upper_y _));
          [|discriminate].
        destruct (mesh_at _ (upper_x _) (upper_y _)); [|discriminate].
        congruence. }
      subst z. exact (Hnan _ _ _ E). }
    rewrite Ea. reflexivity.
Qed.

Lemma x_line_value_in_grid (m : bed_mesh_t) (rx0 : float) (x1_i yi : Z) :
  has_dims m = true -> in_grid x1_i yi ->
  exists z, x_line_value m rx0 x1_i yi = Some z.
Proof.
  intros Hd [Hx Hy]. unfold x_line_value.
  pose proof (upper_x_range x1_i Hx) as Hx1.
  destruct (mesh_at_in_grid m x1_i yi Hd) as [z1 ->]; [split; lia|].
  destruct (mesh_at_in_grid m (upper_x x1_i) yi Hd) as [z2 ->];
    [split; lia|].
  eauto.
Qed.

Lemma y_line_value_in_grid (m : bed_mesh_t) (ry0 : float) (xi y1_i : Z) :
  has_dims m = true -> in_grid xi y1_i ->
  exists z, y_line_value m ry0 xi y1_i = Some z.
Proof.
  intros Hd [Hx Hy]. unfold y_line_value.
  pose proof (upper_y_range y1_i Hy) as Hy1.
  destruct (mesh_at_in_grid m xi y1_i Hd) as [z1 ->]; [split; lia|].
  destruct (mesh_at_in_grid m xi (upper_y y1_i) Hd) as [z2 ->];
    [split; lia|].
  eauto.
Qed.

(** C9: on a mesh of the declared size no read of [z_values] falls outside
    the array. A read outside the array stops the run ([read_z] has no
    value there); [get_z_correction] at every position, finite or not, and
    the two single-axis helpers at every pair of integer indices return
    all the same: each index they read at is on the grid, the neighbour
    [_MIN(i, GRID_MAX_POINTS - 2) + 1] included. *)
Theorem z_values_reads_in_bounds (s : ubl_state) :
  grid_dims_ok -> has_dims (z_values s) = true ->
  (forall x y, ~ in_grid x y -> read_z x y s = None)
  /\ (forall cx cy, in_grid cx cy -> in_grid (upper_x cx) (upper_y cy))
  /\ (forall rx0 ry0,
        in_grid (get_cell_index_x rx0) (get_cell_index_y ry0)
        /\ exists z s', get_z_correction rx0 ry0 s = Some (z, s'))
  /\ (forall rx0 x1_i yi,
        exists z s',
          z_correction_for_x_on_horizontal_mesh_line rx0 x1_i yi s
          = Some (z, s'))
  /\ (forall ry0 xi y1_i,
        exists z s',
          z_correction_for_y_on_vertical_mesh_line ry0 xi y1_i s
          = Some (z, s')).
Proof.
  intros Hg Hd. split; [|split; [|split; [|split]]].
  - intros x y Hout. unfold read_z.
    now rewrite (mesh_at_outside _ x y Hd Hout).
  - intros cx cy [Hx Hy].
    split; [now apply upper_x_range | now apply upper_y_range].
  - intros rx0 ry0. split.
    { split; [now apply get_cell_index_x_range
             | now apply get_cell_index_y_range]. }
    pose proof (get_z_correction_run rx0 ry0 s) as Hrun.
    unfold z_correction_value in Hrun.
    destruct (cell_values_in_grid (z_values s) (get_cell_index_x rx0)
                (get_cell_index_y ry0) Hd
                (get_cell_index_x_range rx0 Hg)
                (get_cell_index_y_range ry0 Hg))
      as (za & zb & zc & zd & Ec).
    rewrite Ec in Hrun.
    destruct UBL_Z_RAISE_WHEN_OFF_MESH as [raise|];
      [destruct (off_mesh rx0 ry0)|];
      destruct Hrun as (s' & E & _); eauto.
  - intros rx0 x1_i yi.
    pose proof (z_correction_for_x_run rx0 x1_i yi s) as Hrun.
    destruct (WITHIN x1_i 0 (GRID_MAX_POINTS_X - 1)
              && WITHIN yi 0 (GRID_MAX_POINTS_Y - 1)) eqn:E.
    + apply in_grid_WITHIN in E.
      destruct (x_line_value_in_grid _ rx0 _ _ Hd E) as [z Ez].
      rewrite Ez in Hrun. simpl in Hrun. eauto.
    + destruct Hrun as (s' & Es & _). eauto.
  - intros ry0 xi y1_i.
    pose proof (z_correction_for_y_run ry0 xi y1_i s) as Hrun.
    destruct (WITHIN xi 0 (GRID_MAX_POINTS_X - 1)
              && WITHIN y1_i 0 (GRID_MAX_POINTS_Y - 1)) eqn:E.
    + apply in_grid_WITHIN in E.
      destruct (y_line_value_in_grid _ ry0 _ _ Hd E) as [z Ez].
      rewrite Ez in Hrun. simpl in Hrun. eauto.
    + destruct Hrun as (s' & Es & _). eauto.
Qed.

(** C10: [get_z_correction] and [mesh_is_valid] write neither [z_values]
    nor the rest of the mesh state ([get_z_correction] may write to the
    serial port when debugging is on, [mesh_is_valid] writes nothing), and
    what they return is decided by the arguments and the contents of the
    mesh: a call on any state with the same mesh, the state the first call
    left behind included, returns the same value. The index functions
    [get_cell_index_x], [find_closest_x_index], [mesh_index_to_xpos] and
    their Y twins read no state in the source and are functions of their
    argument here. *)
Theorem queries_do_not_write (rx0 ry0 : float) (s : ubl_state) :
  (forall z s',
      get_z_correction rx0 ry0 s = Some (z, s') ->
      frame s s'
      /\ forall s2, z_values s2 = z_values s ->
                    result (get_z_correction rx0 ry0) s2 = Some z)
  /\ (forall b s',
        mesh_is_valid s = Some (b, s') ->
        s' = s
        /\ forall s2, z_values s2 = z_values s ->
                      result mesh_is_valid s2 = Some b).
Proof.
  split.
  - intros z s' E. split; [exact (query_get_z_correction rx0 ry0 s z s' E)|].
    intros s2 E2.
    rewrite get_z_correction_result, E2, <- get_z_correction_result.
    unfold result. now rewrite E.
  - intros b s' E. split.
    + exact (reader_state _ _ _ _ reader_mesh_is_valid E).
    + intros s2 E2. unfold result.
      rewrite (reader_mesh_is_valid s2 s E2), E. reflexivity.
Qed.

End ClaimsOnQueries.

Lemma get_z_correction_nan_is_zero_witness :
  @reaches_interpolation scenario_cfg (F32.of_int 150) (F32.of_int 50)
  /\ exists s',
       @get_z_correction scenario_cfg (F32.of_int 150) (F32.of_int 50)
         (verbose scenario_mesh) = Some (F32.zero, s')
       /\ frame (verbose scenario_mesh) s'.
Proof.
  split; [left; reflexivity|].
  apply (@get_z_correction_nan_is_zero scenario_cfg (F32.of_int 150)
           (F32.of_int 50) (verbose scenario_mesh)
           (F32.of_int 2) F32.NAN (F32.of_int 4) F32.NAN);
    [left; reflexivity | reflexivity | reflexivity].
Defined.

Lemma single_axis_off_grid_witness :
  ~ @in_grid scenario_cfg 3 0
  /\ (exists s',
        @z_correction_for_x_on_horizontal_mesh_line scenario_cfg
          (F32.of_int 250) 3 0 (quiet scenario_mesh) = Some (F32.NAN, s')
        /\ frame (quiet scenario_mesh) s')
  /\ (exists s',
        @z_correction_for_y_on_vertical_mesh_line scenario_raise_cfg
          (F32.of_int 250) 0 (-1) (quiet scenario_mesh)
        = Some (F32.of_int 5, s')
        /\ frame (quiet scenario_mesh) s').
Proof.
  assert (H1 : ~ @in_grid scenario_cfg 3 0)
    by (unfold in_grid; simpl; lia).
  assert (H2 : ~ @in_grid scenario_raise_cfg 0 (-1))
    by (unfold in_grid; simpl; lia).
  split; [exact H1|]. split.
  - exact (proj1 (@single_axis_off_grid scenario_cfg (F32.of_int 250) 3 0
                    (quiet scenario_mesh) H1)).
  - exact (proj2 (@single_axis_off_grid scenario_raise_cfg (F32.of_int 250)
                    0 (-1) (quiet scenario_mesh) H2)).
Defined.

Lemma get_z_correction_off_mesh_raise_witness :
  @strictly_outside scenario_raise_cfg (F32.of_int 250) (F32.of_int 50) = true
  /\ @get_z_correction scenario_raise_cfg (F32.of_int 250) (F32.of_int 50)
       (quiet []) = Some (F32.of_int 5, quiet []).
Proof.
  split; [reflexivity|].
  apply (@get_z_correction_off_mesh_raise scenario_raise_cfg); reflexivity.
Defined.

Lemma scenario_mesh_has_dims : @has_dims scenario_cfg scenario_mesh = true.
Proof. reflexivity. Defined.

Lemma mesh_is_valid_iff_all_defined_witness :
  @grid_dims_ok scenario_cfg
  /\ @has_dims scenario_cfg (all_nan_mesh 3 3) = true
  /\ @mesh_is_valid scenario_cfg (quiet (all_nan_mesh 3 3))
     = Some (false, quiet (all_nan_mesh 3 3))
  /\ exists s',
       @get_z_correction scenario_cfg (F32.of_int 50) (F32.of_int 50)
         (quiet (all_nan_mesh 3 3)) = Some (F32.zero, s')
       /\ frame (quiet (all_nan_mesh 3 3)) s'.
Proof.
  split; [exact scenario_grid_dims_ok|]. split; [reflexivity|].
  destruct (@mesh_is_valid_iff_all_defined scenario_cfg
              (quiet (all_nan_mesh 3 3)) scenario_grid_dims_ok eq_refl)
    as [_ H].
  assert (Hnan : forall x y z,
             mesh_at (z_values (quiet (all_nan_mesh 3 3))) x y = Some z ->
             z = F32.NAN).
  { intros x y z. unfold mesh_at. simpl.
    destruct ((x <? 0) || (y <? 0)); [discriminate|].
    destruct (Z.to_nat x) as [|[|[|[|n]]]]; simpl; try discriminate;
      destruct (Z.to_nat y) as [|[|[|[|k]]]]; simpl; congruence. }
  destruct (H Hnan) as [Hv Hz]. split; [exact Hv|].
  apply Hz. left. reflexivity.
Defined.

Lemma z_values_reads_in_bounds_witness :
  @grid_dims_ok scenario_cfg
  /\ @has_dims scenario_cfg scenario_mesh = true
  /\ exists z s',
       @get_z_correction scenario_cfg (F32.of_int 250) (F32.of_int 250)
         (quiet scenario_mesh) = Some (z, s').
Proof.
  split; [exact scenario_grid_dims_ok|]. split; [reflexivity|].
  destruct (@z_values_reads_in_bounds scenario_cfg (quiet scenario_mesh)
              scenario_grid_dims_ok scenario_mesh_has_dims)
    as (_ & _ & H & _).
  exact (proj2 (H (F32.of_int 250) (F32.of_int 250))).
Defined.

Lemma queries_do_not_write_witness :
  @get_z_correction scenario_cfg (F32.of_int 50) (F32.of_int 50)
    (verbose scenario_mesh)
  = Some (F32.of_ratio 5 2,
          mk_ubl_state scenario_mesh 0 (fun _ => true)
            [SerialStr " raw get_z_correction("; SerialFloat (F32.of_int 50);
             SerialChar ","; SerialFloat (F32.of_int 50);
             SerialStr ") = "; SerialFloat (F32.of_ratio 5 2);
             SerialStr " >>>---> "; SerialFloat (F32.of_ratio 5 2);
             SerialEOL])
  /\ result (@get_z_correction scenario_cfg (F32.of_int 50) (F32.of_int 50))
            (quiet scenario_mesh)
     = Some (F32.of_ratio 5 2).
Proof.
  split; [reflexivity|].
  destruct (@queries_do_not_write scenario_cfg (F32.of_int 50) (F32.of_int 50)
              (verbose scenario_mesh)) as [H _].
  specialize (H (F32.of_ratio 5 2)
                (mk_ubl_state scenario_mesh 0 (fun _ => true)
                   [SerialStr " raw get_z_correction(";
                    SerialFloat (F32.of_int 50);
                    SerialChar ","; SerialFloat (F32.of_int 50);
                    SerialStr ") = "; SerialFloat (F32.of_ratio 5 2);
                    SerialStr " >>>---> "; SerialFloat (F32.of_ratio 5 2);
                    SerialEOL])
                eq_refl).
  exact (proj2 H (quiet scenario_mesh) eq_refl).
Defined.

Section ClaimsOnInterpolation.

Context {cfg : Configuration}.

Lemma bilinear_at_corner (x y : float) (cx cy : Z) (za zb zc zd : float) :
  x = mesh_index_to_xpos cx -> y = mesh_index_to_ypos cy ->
  F32.is_finite x = true -> F32.is_finite y = true ->
  F32.is_nonzero_number (F32.sub (mesh_index_to_xpos (cx + 1)) x) = true ->
  F32.is_nonzero_number (F32.sub (mesh_index_to_ypos (cy + 1)) y) = true ->
  F32.is_finite za = true -> F32.is_finite zc = true ->
  F32.is_finite (F32.sub zb za) = true ->
  F32.is_finite (F32.sub zd zc) = true ->
  F32.is_finite (F32.sub zc za) = true ->
  same_number (bilinear x y cx cy za zb zc zd) za.
Proof.
  intros Ex Ey Hx Hy Hwx Hwy Ha Hc Hba Hdc Hca. unfold bilinear.
  rewrite <- Ex, <- Ey.
  pose proof (F32Zero.calc_z0_at_lower_end x _ za zb Hx Hwx Ha Hba) as H1.
  pose proof (F32Zero.calc_z0_at_lower_end x _ zc zd Hx Hwx Hc Hdc) as H2.
  eapply F32Zero.same_number_trans; [|exact H1].
  apply F32Zero.calc_z0_at_lower_end; [exact Hy | exact Hwy | |].
  - exact (F32Zero.same_number_finite _ _ H1 Ha).
  - exact (F32Zero.sub_same_number_finite zc _ za _ Ha Hc H1 H2 Hca).
Qed.

(** C5, as amended: at a grid point that the cell lookup maps back to its
    own indices, [get_z_correction] returns the stored value exactly (+0.0
    for a stored -0.0), provided the point's coordinates are finite, the
    next line on each axis lies elsewhere, the value and the one above it
    are finite, and the three differences the interpolation forms do not
    overflow. *)
Theorem get_z_correction_at_grid_point (xi yi : Z) (s : ubl_state)
        (za zb zc zd : float) :
  let x := mesh_index_to_xpos xi in
  let y := mesh_index_to_ypos yi in
  reaches_interpolation x y ->
  get_cell_index_x x = xi -> get_cell_index_y y = yi ->
  cell_values (z_values s) xi yi = Some (za, zb, zc, zd) ->
  F32.is_finite x = true -> F32.is_finite y = true ->
  F32.is_nonzero_number (F32.sub (mesh_index_to_xpos (xi + 1)) x) = true ->
  F32.is_nonzero_number (F32.sub (mesh_index_to_ypos (yi + 1)) y) = true ->
  F32.is_finite za = true -> F32.is_finite zc = true ->
  F32.is_finite (F32.sub zb za) = true ->
  F32.is_finite (F32.sub zd zc) = true ->
  F32.is_finite (F32.sub zc za) = true ->
  mesh_at (z_values s) xi yi = Some za
  /\ exists z s', get_z_correction x y s = Some (z, s')
                  /\ frame s s' /\ same_number z za.
Proof.
  intros x y Hr Ecx Ecy Ec Hx Hy Hwx Hwy Ha Hc Hba Hdc Hca. split.
  - unfold cell_values in Ec.
    destruct (mesh_at (z_values s) xi yi) as [z|]; [|discriminate].
    destruct (mesh_at _ (upper_x xi) yi); [|discriminate].
    destruct (mesh_at _ xi (upper_y yi)); [|discriminate].
    destruct (mesh_at _ (upper_x xi) (upper_y yi)); [|discriminate].
    congruence.
  - pose proof (get_z_correction_run x y s) as Hrun.
    rewrite <- Ecx, <- Ecy in Ec.
    rewrite (z_correction_value_on_mesh _ _ _ _ _ _ _ Hr Ec) in Hrun.
    rewrite Ecx, Ecy in Hrun.
    pose proof (bilinear_at_corner x y xi yi za zb zc zd eq_refl eq_refl
                  Hx Hy Hwx Hwy Ha Hc Hba Hdc Hca) as Hs.
    destruct Hrun as (s' & E & Hf).
    exists (nan_to_zero (bilinear x y xi yi za zb zc zd)), s'.
    split; [exact E|]. split; [exact Hf|].
    unfold nan_to_zero.
    pose proof (F32Zero.same_number_finite _ _ Hs Ha) as Hfin.
    destruct (bilinear x y xi yi za zb zc zd); try discriminate; exact Hs.
Qed.

End ClaimsOnInterpolation.

Lemma get_z_correction_at_grid_point_witness :
  @get_cell_index_x scenario_cfg (@mesh_index_to_xpos scenario_cfg 0) = 0
  /\ @get_cell_index_y scenario_cfg (@mesh_index_to_ypos scenario_cfg 0) = 0
  /\ mesh_at scenario_mesh 0 0 = Some (F32.of_int 1)
  /\ exists z s',
       @get_z_correction scenario_cfg (F32.of_int 0) (F32.of_int 0)
         (quiet scenario_mesh) = Some (z, s')
       /\ frame (quiet scenario_mesh) s'
       /\ same_number z (F32.of_int 1).
Proof.
  split; [reflexivity|]. split; [reflexivity|].
  apply (@get_z_correction_at_grid_point scenario_cfg 0 0
           (quiet scenario_mesh)
           (F32.of_int 1) (F32.of_int 2) (F32.of_int 3) (F32.of_int 4));
    try reflexivity.
  left. reflexivity.
Defined.

(** C5 as stated fails: on a 220 mm bed with three lines the quotient of
    the middle line, 110 * (1/110) in single precision, is just below 1, so
    the point (110, 0) is looked up in cell 0 and interpolated as the upper
    end of that cell; between the stored 0.3 and 0.1 the result is one unit
    in the last place below the stored 0.1. *)
Lemma grid_point_not_reproduced :
  @mesh_index_to_xpos bed220_cfg 1 = F32.of_int 110
  /\ @mesh_index_to_ypos bed220_cfg 0 = F32.of_int 0
  /\ forallb (forallb F32.is_finite) tenths_mesh = true
  /\ @get_cell_index_x bed220_cfg (F32.of_int 110) = 0
  /\ mesh_at tenths_mesh 1 0 = Some (S754_finite false 13421773 (-27))
  /\ result (@get_z_correction bed220_cfg (@mesh_index_to_xpos bed220_cfg 1)
               (@mesh_index_to_ypos bed220_cfg 0)) (quiet tenths_mesh)
     = Some (S754_finite false 13421772 (-27)).
Proof. repeat split; vm_compute; reflexivity. Qed.


(** C8 as stated fails where the mesh lies so far out that single precision
    cannot tell its lines apart: from 2^24 mm on, with lines 1 mm apart,
    the position of line 1 rounds to that of line 0. *)
Lemma closest_index_of_far_line :
  @mesh_index_to_xpos far_cfg 1 = @mesh_index_to_xpos far_cfg 0
  /\ @find_closest_x_index far_cfg (@mesh_index_to_xpos far_cfg 1) = 0.
Proof. split; vm_compute; reflexivity. Qed.

Section ClaimOnRoundTrip.

Context {cfg : Configuration}.

Lemma mesh_index_to_xpos_uniform (i : Z) :
  uniform_tables -> 0 <= i <= GRID_MAX_POINTS_X - 1 -> GRID_MAX_POINTS_X <= 256 ->
  mesh_index_to_xpos i
  = F32.add (F32.of_int MESH_MIN_X) (F32.mul (F32.of_int i) MESH_X_DIST).
Proof.
  intros [Hx _] Hi Hg. unfold mesh_index_to_xpos, to_uint8.
  rewrite Z.mod_small by lia.
  destruct (i <? GRID_MAX_POINTS_X) eqn:E; [|reflexivity].
  rewrite Hx. apply nth_uniform_table. lia.
Qed.

Lemma mesh_index_to_ypos_uniform (i : Z) :
  uniform_tables -> 0 <= i <= GRID_MAX_POINTS_Y - 1 -> GRID_MAX_POINTS_Y <= 256 ->
  mesh_index_to_ypos i
  = F32.add (F32.of_int MESH_MIN_Y) (F32.mul (F32.of_int i) MESH_Y_DIST).
Proof.
  intros [_ Hy] Hi Hg. unfold mesh_index_to_ypos, to_uint8.
  rewrite Z.mod_small by lia.
  destruct (i <? GRID_MAX_POINTS_Y) eqn:E; [|reflexivity].
  rewrite Hy. apply nth_uniform_table. lia.
Qed.

(** C8, as amended: with the tables of evenly spaced lines, mesh bounds
    that fit a 16-bit [int] and 2 to 15 lines per axis, the nearest-index
    lookup applied to the position of line [i] returns [i], for every valid
    [i] on each axis. (The quotient it truncates lies between [i + 0.1] and
    [i + 0.9].) *)
Theorem find_closest_index_round_trip (i : Z) :
  uniform_tables -> ordinary_bed ->
  (0 <= i <= GRID_MAX_POINTS_X - 1 ->
   find_closest_x_index (mesh_index_to_xpos i) = i)
  /\ (0 <= i <= GRID_MAX_POINTS_Y - 1 ->
      find_closest_y_index (mesh_index_to_ypos i) = i).
Proof.
  intros Hu (Hgx & Hgy & Hx1 & Hx2 & Hx3 & Hy1 & Hy2 & Hy3). split; intros Hi.
  - rewrite (mesh_index_to_xpos_uniform i Hu Hi ltac:(lia)).
    unfold find_closest_x_index.
    rewrite (float_to_int8_trunc _ i).
    + assert (E : WITHIN i 0 (GRID_MAX_POINTS_X - 1) = true)
        by (apply WITHIN_spec; lia).
      now rewrite E.
    + exact (closest_core MESH_MIN_X MESH_MAX_X GRID_MAX_POINTS_X i
               Hgx Hx1 Hx2 Hx3 Hi).
    + apply in_int8_spec. lia.
  - rewrite (mesh_index_to_ypos_uniform i Hu Hi ltac:(lia)).
    unfold find_closest_y_index.
    rewrite (float_to_int8_trunc _ i).
    + assert (E : WITHIN i 0 (GRID_MAX_POINTS_Y - 1) = true)
        by (apply WITHIN_spec; lia).
      now rewrite E.
    + exact (closest_core MESH_MIN_Y MESH_MAX_Y GRID_MAX_POINTS_Y i
               Hgy Hy1 Hy2 Hy3 Hi).
    + apply in_int8_spec. lia.
Qed.

End ClaimOnRoundTrip.

Lemma scenario_uniform_tables : @uniform_tables scenario_cfg.
Proof. split; reflexivity. Defined.

Lemma scenario_ordinary_bed : @ordinary_bed scenario_cfg.
Proof. unfold ordinary_bed; simpl; lia. Defined.

Lemma find_closest_index_round_trip_witness :
  @uniform_tables scenario_cfg /\ @ordinary_bed scenario_cfg
  /\ @find_closest_x_index scenario_cfg (@mesh_index_to_xpos scenario_cfg 2) = 2
  /\ @find_closest_y_index scenario_cfg (@mesh_index_to_ypos scenario_cfg 1) = 1.
Proof.
  split; [exact scenario_uniform_tables|].
  split; [exact scenario_ordinary_bed|]. split.
  - apply (proj1 (@find_closest_index_round_trip scenario_cfg 2
                    scenario_uniform_tables scenario_ordinary_bed)).
    simpl. lia.
  - apply (proj2 (@find_closest_index_round_trip scenario_cfg 1
                    scenario_uniform_tables scenario_ordinary_bed)).
    simpl. lia.
Defined.

(** * Further properties of ubl.h *)

(** ** Lists updated in place *)

Lemma update_nth_length {A : Type} (n : nat) (f : A -> A) (l : list A) :
  List.length (update_nth n f l) = List.length l.
Proof.
  revert n. induction l as [|a l IH]; intros [|n]; simpl; auto.
Qed.

Lemma nth_error_update_nth {A : Type} (f : A -> A) (l : list A) :
  forall n k,
    nth_error (update_nth n f l) k
    = if Nat.eqb n k then option_map f (nth_error l k) else nth_error l k.
Proof.
  induction l as [|a l IH]; intros [|n] [|k]; simpl; try reflexivity.
  - now destruct (Nat.eqb n k).
  - apply IH.
Qed.

Lemma update_nth_ext {A : Type} (f g : A -> A) (l : list A) :
  (forall a, f a = g a) -> forall n, update_nth n f l = update_nth n g l.
Proof.
  intros H. induction l as [|a l IH]; intros [|n]; simpl; try reflexivity.
  - now rewrite H.
  - now rewrite IH.
Qed.

Lemma update_nth_twice {A : Type} (f g : A -> A) (l : list A) :
  forall n, update_nth n f (update_nth n g l)
            = update_nth n (fun a => f (g a)) l.
Proof.
  induction l as [|a l IH]; intros [|n]; simpl; try reflexivity.
  now rewrite IH.
Qed.

Lemma update_nth_swap {A : Type} (f g : A -> A) (l : list A) :
  forall n k, n <> k ->
    update_nth n f (update_nth k g l) = update_nth k g (update_nth n f l).
Proof.
  induction l as [|a l IH]; intros [|n] [|k] H; simpl; try reflexivity.
  - congruence.
  - rewrite IH; [reflexivity | congruence].
Qed.

Lemma forallb_update_nth {A : Type} (P : A -> bool) (f : A -> A) (l : list A) :
  (forall a, P a = true -> P (f a) = true) ->
  forall n, forallb P l = true -> forallb P (update_nth n f l) = true.
Proof.
  intros H. induction l as [|a l IH]; intros [|n]; simpl; auto;
    rewrite !andb_true_iff; intros [Ha Hl]; auto.
Qed.

(** ** The mesh after a write *)

Lemma mesh_at_set_same (m : bed_mesh_t) (x y : Z) (z z0 : float) :
  mesh_at m x y = Some z0 -> mesh_at (mesh_set m x y z) x y = Some z.
Proof.
  unfold mesh_at, mesh_set.
  destruct ((x <? 0) || (y <? 0)); [discriminate|].
  rewrite nth_error_update_nth, Nat.eqb_refl.
  destruct (nth_error m (Z.to_nat x)) as [col|]; [|discriminate].
  simpl. rewrite nth_error_update_nth, Nat.eqb_refl.
  now intros ->.
Qed.

Lemma mesh_at_set_other (m : bed_mesh_t) (x y x' y' : Z) (z : float) :
  (x', y') <> (x, y) ->
  mesh_at (mesh_set m x y z) x' y' = mesh_at m x' y'.
Proof.
  intros Hne. unfold mesh_at, mesh_set.
  destruct ((x <? 0) || (y <? 0)) eqn:E; [reflexivity|].
  destruct ((x' <? 0) || (y' <? 0)) eqn:E'; [reflexivity|].
  apply orb_false_iff in E, E'. rewrite !Z.ltb_ge in E, E'.
  rewrite nth_error_update_nth.
  destruct (Nat.eqb (Z.to_nat x) (Z.to_nat x')) eqn:Ex; [|reflexivity].
  apply Nat.eqb_eq in Ex.
  destruct (nth_error m (Z.to_nat x')) as [col|]; [|reflexivity].
  simpl. rewrite nth_error_update_nth.
  destruct (Nat.eqb (Z.to_nat y) (Z.to_nat y')) eqn:Ey; [|reflexivity].
  apply Nat.eqb_eq in Ey. exfalso. apply Hne. f_equal; lia.
Qed.

Lemma mesh_set_twice (m : bed_mesh_t) (x y : Z) (z1 z2 : float) :
  mesh_set (mesh_set m x y z1) x y z2 = mesh_set m x y z2.
Proof.
  unfold mesh_set. destruct ((x <? 0) || (y <? 0)); [reflexivity|].
  rewrite update_nth_twice. apply update_nth_ext. intros col.
  rewrite update_nth_twice. reflexivity.
Qed.

Lemma mesh_set_swap (m : bed_mesh_t) (x y x' y' : Z) (z z' : float) :
  (x', y') <> (x, y) ->
  mesh_set (mesh_set m x y z) x' y' z' = mesh_set (mesh_set m x' y' z') x y z.
Proof.
  intros Hne. unfold mesh_set.
  destruct ((x <? 0) || (y <? 0)) eqn:E; [reflexivity|].
  destruct ((x' <? 0) || (y' <? 0)) eqn:E'; [reflexivity|].
  apply orb_false_iff in E, E'. rewrite !Z.ltb_ge in E, E'.
  destruct (Nat.eq_dec (Z.to_nat x') (Z.to_nat x)) as [Ex|Ex].
  - rewrite Ex, !update_nth_twice. apply update_nth_ext. intros col.
    apply update_nth_swap. intros Ey. apply Hne. f_equal; lia.
  - now apply update_nth_swap.
Qed.

Section Writes.

Context {cfg : Configuration}.

Lemma has_dims_mesh_set (m : bed_mesh_t) (x y : Z) (z : float) :
  has_dims m = true -> has_dims (mesh_set m x y z) = true.
Proof.
  unfold has_dims, mesh_set. rewrite !andb_true_iff. intros [Hl Hc].
  destruct ((x <? 0) || (y <? 0)); [now split|].
  rewrite update_nth_length. split; [exact Hl|].
  apply forallb_update_nth; [|exact Hc].
  intros col. now rewrite update_nth_length.
Qed.

Lemma set_z_run (px py : Z) (z : float) (s : ubl_state) :
  has_dims (z_values s) = true -> in_grid px py ->
  set_z px py z s
  = Some (tt, mk_ubl_state (mesh_set (z_values s) px py z) (storage_slot s)
                (marlin_debug_flags s) (serial s)).
Proof.
  intros Hd Hin. unfold set_z, write_z.
  now destruct (mesh_at_in_grid _ px py Hd Hin) as [z0 ->].
Qed.

(** X1: [set_z] on a point of the grid stores the value: the point reads
    back as the value written, every other element of [z_values] is as it
    was, the array keeps its size, and nothing else of the state changes. *)
Theorem set_z_then_read (px py : Z) (z : float) (s : ubl_state) :
  has_dims (z_values s) = true -> in_grid px py ->
  exists s',
    set_z px py z s = Some (tt, s')
    /\ read_z px py s' = Some (z, s')
    /\ (forall x y, (x, y) <> (px, py) -> read_z x y s' =
                    option_map (fun r => (fst r, s')) (read_z x y s))
    /\ has_dims (z_values s') = true
    /\ storage_slot s' = storage_slot s
    /\ marlin_debug_flags s' = marlin_debug_flags s
    /\ serial s' = serial s.
Proof.
  intros Hd Hin. eexists. split; [now apply set_z_run|].
  destruct (mesh_at_in_grid _ px py Hd Hin) as [z0 E0].
  unfold read_z. cbn [z_values storage_slot marlin_debug_flags serial].
  rewrite (mesh_at_set_same _ _ _ z z0 E0).
  split; [reflexivity|]. split.
  - intros x y Hne. rewrite (mesh_at_set_other _ _ _ _ _ z Hne).
    now destruct (mesh_at (z_values s) x y).
  - split; [now apply has_dims_mesh_set|]. now repeat split.
Qed.

(** X2: [set_z] checks no index. The write falls inside [z_values] exactly
    when both indices are on the grid; in particular not with the -1 that
    [find_closest_x_index] and [find_closest_y_index] return for a position
    off the mesh. *)
Theorem set_z_in_array_iff (px py : Z) (z : float) (s : ubl_state) :
  has_dims (z_values s) = true ->
  ((exists s', set_z px py z s = Some (tt, s')) <-> in_grid px py)
  /\ set_z (-1) py z s = None
  /\ set_z px (-1) z s = None.
Proof.
  intros Hd.
  assert (Hout : forall x y, ~ in_grid x y -> set_z x y z s = None).
  { intros x y Hn. unfold set_z, write_z.
    now rewrite (mesh_at_outside _ x y Hd Hn). }
  split; [split|split].
  - intros [s' E].
    destruct (Z_le_dec 0 px), (Z_le_dec px (GRID_MAX_POINTS_X - 1)),
      (Z_le_dec 0 py), (Z_le_dec py (GRID_MAX_POINTS_Y - 1));
      try (split; lia);
      rewrite Hout in E by (unfold in_grid; lia); discriminate.
  - intros Hin. eexists. now apply set_z_run.
  - apply Hout. unfold in_grid. lia.
  - apply Hout. unfold in_grid. lia.
Qed.

(** X3: [mesh_is_valid] after [set_z]. Once a point of the grid has been
    written, the mesh is valid exactly when the value written is not NaN and
    no other point of the grid was NaN: writing NaN invalidates the mesh,
    and writing a number to its last undefined point completes it. *)
Theorem mesh_is_valid_after_set_z (px py : Z) (z : float) (s : ubl_state) :
  grid_dims_ok -> has_dims (z_values s) = true -> in_grid px py ->
  exists s' b,
    set_z px py z s = Some (tt, s')
    /\ mesh_is_valid s' = Some (b, s')
    /\ (b = true <->
        F32.isnan z = false
        /\ forall x y z0, in_grid x y -> (x, y) <> (px, py) ->
                          mesh_at (z_values s) x y = Some z0 ->
                          F32.isnan z0 = false).
Proof.
  intros Hg Hd Hin.
  set (s' := mk_ubl_state (mesh_set (z_values s) px py z) (storage_slot s)
               (marlin_debug_flags s) (serial s)).
  assert (Hd' : has_dims (z_values s') = true)
    by (now apply has_dims_mesh_set).
  destruct (mesh_is_valid_run s' Hg Hd') as (b & Eb & Hb).
  exists s', b. split; [now apply set_z_run|]. split; [exact Eb|].
  rewrite Hb. unfold all_defined. cbn [s' z_values].
  destruct (mesh_at_in_grid _ px py Hd Hin) as [z0 E0].
  split.
  - intros H. split.
    + apply (H px py z Hin). exact (mesh_at_set_same _ _ _ z z0 E0).
    + intros x y z1 Hxy Hne E. apply (H x y z1 Hxy).
      now rewrite (mesh_at_set_other _ _ _ _ _ z Hne).
  - intros [Hz Hothers] x y z1 Hxy E.
    destruct (Z.eq_dec x px) as [->|Hx].
    + destruct (Z.eq_dec y py) as [->|Hy].
      * rewrite (mesh_at_set_same _ _ _ z z0 E0) in E. congruence.
      * assert (Hne : (px, y) <> (px, py)) by congruence.
        rewrite (mesh_at_set_other _ _ _ _ _ z Hne) in E.
        exact (Hothers px y z1 Hxy Hne E).
    + assert (Hne : (x, y) <> (px, py)) by congruence.
      rewrite (mesh_at_set_other _ _ _ _ _ z Hne) in E.
      exact (Hothers x y z1 Hxy Hne E).
Qed.

(** X4: the correction at a position depends on the four mesh points of
    its cell only. A [set_z] on any other point (one off the column pair or
    off the row pair that [get_z_correction] reads) leaves the value
    returned at that position as it was. *)
Theorem get_z_correction_after_set_z
        (px py : Z) (z rx0 ry0 : float) (s s' : ubl_state) :
  set_z px py z s = Some (tt, s') ->
  (px <> get_cell_index_x rx0 /\ px <> upper_x (get_cell_index_x rx0))
  \/ (py <> get_cell_index_y ry0 /\ py <> upper_y (get_cell_index_y ry0)) ->
  result (get_z_correction rx0 ry0) s'
  = result (get_z_correction rx0 ry0) s.
Proof.
  intros E Hne. rewrite !get_z_correction_result.
  unfold set_z, write_z in E.
  destruct (mesh_at (z_values s) px py); [|discriminate].
  injection E as <-. cbn [z_values].
  unfold z_correction_value, cell_values.
  rewrite !mesh_at_set_other; [reflexivity | | | |];
    intros Heq; injection Heq as Hx Hy; lia.
Qed.

(** X5: writes compose as assignments to an array do: of two writes to the
    same point the second one stands, and writes to two different points
    can be done in either order; also when one of them falls outside the
    array, where both orders stop. *)
Theorem set_z_composes (px py qx qy : Z) (z1 z2 : float) (s : ubl_state) :
  (set_z px py z1 ;;; set_z px py z2) s = set_z px py z2 s
  /\ ((px, py) <> (qx, qy) ->
      (set_z px py z1 ;;; set_z qx qy z2) s
      = (set_z qx qy z2 ;;; set_z px py z1) s).
Proof.
  unfold set_z, write_z, bind. split.
  - destruct (mesh_at (z_values s) px py) as [z0|] eqn:E0; [|reflexivity].
    cbn [z_values storage_slot marlin_debug_flags serial].
    rewrite (mesh_at_set_same _ _ _ z1 z0 E0), mesh_set_twice. reflexivity.
  - intros Hne.
    assert (Hne' : (qx, qy) <> (px, py)) by congruence.
    destruct (mesh_at (z_values s) px py) as [zp|] eqn:Ep;
      destruct (mesh_at (z_values s) qx qy) as [zq|] eqn:Eq;
      cbn [z_values storage_slot marlin_debug_flags serial];
      rewrite ?(mesh_at_set_other _ _ _ _ _ z1 Hne'),
        ?(mesh_at_set_other _ _ _ _ _ z2 Hne), ?Ep, ?Eq;
      try reflexivity.
    now rewrite (mesh_set_swap _ _ _ _ _ z1 z2 Hne').
Qed.

End Writes.

Lemma set_z_then_read_witness :
  exists s',
    @set_z 1 2 (F32.of_int 7) (quiet scenario_mesh) = Some (tt, s')
    /\ read_z 1 2 s' = Some (F32.of_int 7, s').
Proof.
  destruct (@set_z_then_read scenario_cfg 1 2 (F32.of_int 7)
              (quiet scenario_mesh)) as (s' & E & R & _).
  - reflexivity.
  - unfold in_grid. simpl. lia.
  - exists s'. split; [exact E | exact R].
Defined.

Lemma set_z_in_array_iff_witness :
  @set_z (-1) 0 (F32.of_int 7) (quiet scenario_mesh) = None.
Proof.
  destruct (@set_z_in_array_iff scenario_cfg 0 0 (F32.of_int 7)
              (quiet scenario_mesh)) as (_ & E & _).
  - reflexivity.
  - exact E.
Defined.

Lemma mesh_is_valid_after_set_z_witness :
  exists s' b,
    @set_z 2 2 F32.NAN (quiet scenario_mesh) = Some (tt, s')
    /\ @mesh_is_valid scenario_cfg s' = Some (b, s').
Proof.
  destruct (@mesh_is_valid_after_set_z scenario_cfg 2 2 F32.NAN
              (quiet scenario_mesh)) as (s' & b & E & V & _).
  - exact scenario_grid_dims_ok.
  - reflexivity.
  - unfold in_grid. simpl. lia.
  - exists s', b. split; [exact E | exact V].
Defined.

Lemma get_z_correction_after_set_z_witness :
  result (@get_z_correction scenario_cfg (F32.of_int 50) (F32.of_int 50))
         (mk_ubl_state (mesh_set scenario_mesh 2 2 (F32.of_int 7)) 0
            (fun _ => false) [])
  = result (@get_z_correction scenario_cfg (F32.of_int 50) (F32.of_int 50))
           (quiet scenario_mesh).
Proof.
  apply (@get_z_correction_after_set_z scenario_cfg 2 2 (F32.of_int 7)).
  - reflexivity.
  - left. split; vm_compute; discriminate.
Defined.

(** ** Zeros, infinities and NaN in the interpolation *)

Module F32Edge.

Lemma mul_nan_r x : F32.mul x F32.NAN = F32.NAN.
Proof. destruct x; reflexivity. Qed.

Lemma mul_zero_l (b : bool) (a : float) :
  F32.is_finite a = true -> exists b', F32.mul (S754_zero b) a = S754_zero b'.
Proof.
  destruct a as [sa|sa| |sa m e]; simpl; try discriminate; intros _;
    eexists; reflexivity.
Qed.

Lemma leb_nan_l x : F32.leb F32.NAN x = false.
Proof. reflexivity. Qed.

Lemma leb_nan_r x : F32.leb x F32.NAN = false.
Proof. destruct x; reflexivity. Qed.

(** A quotient by zero is an infinity or NaN. *)
Lemma div_by_zero (p : float) (b : bool) :
  F32.is_finite (F32.div p (S754_zero b)) = false
  /\ (F32.is_nonzero_number p = true ->
      exists s, F32.div p (S754_zero b) = S754_infinity s).
Proof.
  destruct p as [sp|sp| |sp m e]; simpl; split; try reflexivity;
    try discriminate; intros _; eexists; reflexivity.
Qed.

(** Nothing added to an infinity or a NaN makes it finite. *)
Lemma add_not_finite (z q : float) :
  F32.is_finite q = false -> F32.is_finite (F32.add z q) = false.
Proof.
  destruct q as [sq|sq| |sq mq eq]; simpl; try discriminate; intros _;
    destruct z as [sz|sz| |sz mz ez]; simpl; try reflexivity.
  destruct sz, sq; reflexivity.
Qed.

Lemma add_finite_infinity (z : float) (s : bool) :
  F32.is_finite z = true -> F32.add z (S754_infinity s) = S754_infinity s.
Proof. destruct z; simpl; try discriminate; reflexivity. Qed.

(** A number added to a zero: the number itself, but for [-0.0 + +0.0]. *)
Lemma add_zero_exact (z : float) (b : bool) :
  F32.is_finite z = true -> z <> S754_zero true ->
  F32.add z (S754_zero b) = z.
Proof.
  destruct z as [[|]|sz| |sz m e]; simpl; try discriminate; intros _ Hz;
    try congruence; destruct b; reflexivity.
Qed.

(** Interpolation between two equal values: the value, whatever the
    position, when the position is a number and the cell has a width. *)
Lemma calc_z0_equal_ends (a0 a1 a2 z : float) :
  F32.is_finite (F32.sub a0 a1) = true ->
  F32.is_nonzero_number (F32.sub a2 a1) = true ->
  F32.is_finite z = true ->
  same_number (calc_z0 a0 a1 z a2 z) z
  /\ (z <> S754_zero true -> calc_z0 a0 a1 z a2 z = z).
Proof.
  intros Ha Hw Hz. unfold calc_z0.
  rewrite (F32Zero.sub_diag z Hz).
  destruct (mul_zero_l false (F32.sub a0 a1) Ha) as [b ->].
  destruct (F32Zero.div_zero_l b (F32.sub a2 a1) Hw) as [b' ->].
  split; [now apply F32Zero.add_zero_r | now apply add_zero_exact].
Qed.

(** The same between two zeros of either sign. *)
Lemma calc_z0_zero_ends (a0 a1 a2 : float) (b1 b2 : bool) :
  F32.is_finite (F32.sub a0 a1) = true ->
  F32.is_nonzero_number (F32.sub a2 a1) = true ->
  exists b, calc_z0 a0 a1 (S754_zero b1) a2 (S754_zero b2) = S754_zero b.
Proof.
  intros Ha Hw. unfold calc_z0.
  assert (Hs : exists b, F32.sub (S754_zero b2) (S754_zero b1) = S754_zero b)
    by (destruct b1, b2; eexists; reflexivity).
  destruct Hs as [b ->].
  destruct (mul_zero_l b (F32.sub a0 a1) Ha) as [b' ->].
  destruct (F32Zero.div_zero_l b' (F32.sub a2 a1) Hw) as [b'' ->].
  destruct b1, b''; eexists; reflexivity.
Qed.

Lemma calc_z0_same_ends (a0 a1 a2 z z1 z2 : float) :
  F32.is_finite (F32.sub a0 a1) = true ->
  F32.is_nonzero_number (F32.sub a2 a1) = true ->
  F32.is_finite z = true ->
  same_number z1 z -> same_number z2 z ->
  same_number (calc_z0 a0 a1 z1 a2 z2) z.
Proof.
  intros Ha Hw Hz H1 H2.
  assert (Hzero : forall b1 b2 : bool,
             same_number (calc_z0 a0 a1 (S754_zero b1) a2 (S754_zero b2))
                         (S754_zero true)).
  { intros b1 b2. destruct (calc_z0_zero_ends a0 a1 a2 b1 b2 Ha Hw) as [b ->].
    unfold same_number. destruct b; auto. }
  destruct H1 as [-> | [-> ->]], H2 as [-> | [E ->]];
    try apply Hzero.
  - now apply calc_z0_equal_ends.
  - subst z. apply Hzero.
Qed.

(** NaN in the position or in a mesh value goes through the interpolation. *)
Lemma calc_z0_nan_a0 (a1 z1 a2 z2 : float) :
  calc_z0 F32.NAN a1 z1 a2 z2 = F32.NAN.
Proof.
  unfold calc_z0.
  rewrite F32Facts.sub_nan_l, mul_nan_r, F32Facts.div_nan_l.
  apply F32Facts.add_nan_r.
Qed.

Lemma lerp_nan (r0 a R z1 z2 : float) :
  F32.isnan r0 || F32.isnan z1 || F32.isnan z2 = true ->
  F32.add z1 (F32.mul (F32.mul (F32.sub r0 a) R) (F32.sub z2 z1)) = F32.NAN.
Proof.
  rewrite !orb_true_iff, !F32Facts.isnan_spec. intros [[-> | ->] | ->].
  - rewrite F32Facts.sub_nan_l, !F32Facts.mul_nan_l.
    apply F32Facts.add_nan_r.
  - reflexivity.
  - rewrite F32Facts.sub_nan_l, mul_nan_r. apply F32Facts.add_nan_r.
Qed.

(** At the line itself the ratio is zero and the helper's sum is [z1]. *)
Lemma lerp_zero_ratio (a R z1 z2 : float) :
  F32.is_finite a = true -> F32.is_finite R = true ->
  F32.is_finite z1 = true -> F32.is_finite (F32.sub z2 z1) = true ->
  same_number
    (F32.add z1 (F32.mul (F32.mul (F32.sub a a) R) (F32.sub z2 z1))) z1.
Proof.
  intros Ha HR Hz Hd. rewrite (F32Zero.sub_diag a Ha).
  destruct (mul_zero_l false R HR) as [b ->].
  destruct (mul_zero_l b (F32.sub z2 z1) Hd) as [b' ->].
  now apply F32Zero.add_zero_r.
Qed.

(** Between a value and itself the sum is that value, for every ratio that
    is a number. *)
Lemma lerp_zero_slope (ratio z : float) :
  F32.is_finite ratio = true -> F32.is_finite z = true ->
  same_number (F32.add z (F32.mul ratio (F32.sub z z))) z.
Proof.
  intros Hr Hz. rewrite (F32Zero.sub_diag z Hz).
  destruct (F32Zero.mul_zero_r ratio false Hr) as [b ->].
  now apply F32Zero.add_zero_r.
Qed.

End F32Edge.

Section EdgeBehaviour.

Context {cfg : Configuration}.

Lemma upper_x_last : upper_x (GRID_MAX_POINTS_X - 1) = GRID_MAX_POINTS_X - 1.
Proof. unfold upper_x. rewrite _MIN_min. lia. Qed.

Lemma upper_y_last : upper_y (GRID_MAX_POINTS_Y - 1) = GRID_MAX_POINTS_Y - 1.
Proof. unfold upper_y. rewrite _MIN_min. lia. Qed.

Lemma off_mesh_nan (rx0 ry0 : float) :
  F32.isnan rx0 || F32.isnan ry0 = true -> off_mesh rx0 ry0 = true.
Proof.
  rewrite orb_true_iff, !F32Facts.isnan_spec. unfold off_mesh, WITHIN_f.
  intros [-> | ->].
  - now rewrite F32Edge.leb_nan_r.
  - rewrite F32Edge.leb_nan_r. simpl. apply orb_true_r.
Qed.

Lemma bilinear_nan_position (rx0 ry0 : float) (cx cy : Z)
      (za zb zc zd : float) :
  F32.isnan rx0 || F32.isnan ry0 = true ->
  bilinear rx0 ry0 cx cy za zb zc zd = F32.NAN.
Proof.
  rewrite orb_true_iff, !F32Facts.isnan_spec. unfold bilinear.
  intros [-> | ->].
  - rewrite !F32Edge.calc_z0_nan_a0. apply F32Integral.calc_z0_nan_z1.
  - apply F32Edge.calc_z0_nan_a0.
Qed.

Lemma nan_to_zero_not_nan (z : float) : F32.isnan (nan_to_zero z) = false.
Proof. unfold nan_to_zero. now destruct (F32.isnan z) eqn:E. Qed.

Lemma nan_to_zero_finite (z : float) :
  F32.is_finite z = true -> nan_to_zero z = z.
Proof. now destruct z. Qed.

(** X6: a cell of no width. When the two lines of a cell are at the same
    position, [calc_z0] divides by zero and its result is never a finite
    number, whatever the heights and the position asked for: it is an
    infinity when the product it divides is a number other than zero and
    [z1] is finite. (NaN is the only one of these results that
    [get_z_correction] replaces by 0.0.) *)
Theorem calc_z0_zero_width (a0 a z1 z2 : float) :
  F32.is_finite a = true ->
  F32.is_finite (calc_z0 a0 a z1 a z2) = false
  /\ (F32.is_finite z1 = true ->
      F32.is_nonzero_number (F32.mul (F32.sub z2 z1) (F32.sub a0 a)) = true ->
      exists s, calc_z0 a0 a z1 a z2 = S754_infinity s
                /\ nan_to_zero (calc_z0 a0 a z1 a z2) = S754_infinity s).
Proof.
  intros Ha. unfold calc_z0. rewrite (F32Zero.sub_diag a Ha).
  destruct (F32Edge.div_by_zero (F32.mul (F32.sub z2 z1) (F32.sub a0 a)) false)
    as [Hnf Hinf].
  split; [now apply F32Edge.add_not_finite|].
  intros Hz Hp. destruct (Hinf Hp) as [s ->].
  exists s. now rewrite (F32Edge.add_finite_infinity z1 s Hz).
Qed.

(** X7: at the position of a mesh line the single-axis helper for that line
    returns the stored height itself (a stored -0.0 as +0.0), with no
    rounding: the ratio is exactly zero. This needs numbers only: the line's
    position, the reciprocal of the cell width, the height and its
    difference to the next one. *)
Theorem line_helper_at_own_line (xi yi : Z) (z1 z2 : float) (s : ubl_state) :
  in_grid xi yi -> F32.is_finite z1 = true ->
  mesh_at (z_values s) xi yi = Some z1 ->
  (mesh_at (z_values s) (upper_x xi) yi = Some z2 ->
   F32.is_finite (F32.sub z2 z1) = true ->
   F32.is_finite (mesh_index_to_xpos xi) = true ->
   F32.is_finite (RECIPROCAL MESH_X_DIST) = true ->
   exists z,
     z_correction_for_x_on_horizontal_mesh_line (mesh_index_to_xpos xi) xi yi s
     = Some (z, s) /\ same_number z z1)
  /\ (mesh_at (z_values s) xi (upper_y yi) = Some z2 ->
      F32.is_finite (F32.sub z2 z1) = true ->
      F32.is_finite (mesh_index_to_ypos yi) = true ->
      F32.is_finite (RECIPROCAL MESH_Y_DIST) = true ->
      exists z,
        z_correction_for_y_on_vertical_mesh_line (mesh_index_to_ypos yi) xi yi s
        = Some (z, s) /\ same_number z z1).
Proof.
  intros Hin Hz E1. pose proof (proj2 (in_grid_WITHIN xi yi) Hin) as Hw.
  split; intros E2 Hd Ha HR.
  - pose proof (z_correction_for_x_run (mesh_index_to_xpos xi) xi yi s) as Hrun.
    rewrite Hw in Hrun. unfold x_line_value in Hrun. rewrite E1, E2 in Hrun.
    eexists. split; [exact Hrun|]. now apply F32Edge.lerp_zero_ratio.
  - pose proof (z_correction_for_y_run (mesh_index_to_ypos yi) xi yi s) as Hrun.
    rewrite Hw in Hrun. unfold y_line_value in Hrun. rewrite E1, E2 in Hrun.
    eexists. split; [exact Hrun|]. now apply F32Edge.lerp_zero_ratio.
Qed.

(** X8: on the last line of its axis a single-axis helper applies no
    slope. The neighbour index is capped at the last element of
    [z_values], so both ends are the same point and the helper returns the
    height stored there, at every position whose ratio is a number: beyond
    the last line the mesh is continued flat, not extrapolated. *)
Theorem line_helper_on_last_line (r0 : float) (xi yi : Z) (z1 : float)
        (s : ubl_state) :
  in_grid xi yi -> F32.is_finite z1 = true ->
  mesh_at (z_values s) xi yi = Some z1 ->
  (xi = GRID_MAX_POINTS_X - 1 ->
   F32.is_finite (F32.mul (F32.sub r0 (mesh_index_to_xpos xi))
                          (RECIPROCAL MESH_X_DIST)) = true ->
   exists z,
     z_correction_for_x_on_horizontal_mesh_line r0 xi yi s = Some (z, s)
     /\ same_number z z1)
  /\ (yi = GRID_MAX_POINTS_Y - 1 ->
      F32.is_finite (F32.mul (F32.sub r0 (mesh_index_to_ypos yi))
                             (RECIPROCAL MESH_Y_DIST)) = true ->
      exists z,
        z_correction_for_y_on_vertical_mesh_line r0 xi yi s = Some (z, s)
        /\ same_number z z1).
Proof.
  intros Hin Hz E1. pose proof (proj2 (in_grid_WITHIN xi yi) Hin) as Hw.
  split; intros Hlast Hr.
  - pose proof (z_correction_for_x_run r0 xi yi s) as Hrun.
    rewrite Hw in Hrun. unfold x_line_value in Hrun.
    assert (Eu : upper_x xi = xi) by (rewrite Hlast; apply upper_x_last).
    rewrite Eu, E1 in Hrun.
    eexists. split; [exact Hrun|]. now apply F32Edge.lerp_zero_slope.
  - pose proof (z_correction_for_y_run r0 xi yi s) as Hrun.
    rewrite Hw in Hrun. unfold y_line_value in Hrun.
    assert (Eu : upper_y yi = yi) by (rewrite Hlast; apply upper_y_last).
    rewrite Eu, E1 in Hrun.
    eexists. split; [exact Hrun|]. now apply F32Edge.lerp_zero_slope.
Qed.

(** X9: inside the grid the single-axis helpers hand a NaN on. When the
    position is NaN, or one of the two mesh points read is undefined, they
    return NaN and not the 0.0 that [get_z_correction] returns for such a
    cell. *)
Theorem line_helper_keeps_nan (r0 : float) (xi yi : Z) (z1 z2 : float)
        (s : ubl_state) :
  in_grid xi yi ->
  mesh_at (z_values s) xi yi = Some z1 ->
  F32.isnan r0 || F32.isnan z1 || F32.isnan z2 = true ->
  (mesh_at (z_values s) (upper_x xi) yi = Some z2 ->
   z_correction_for_x_on_horizontal_mesh_line r0 xi yi s = Some (F32.NAN, s))
  /\ (mesh_at (z_values s) xi (upper_y yi) = Some z2 ->
      z_correction_for_y_on_vertical_mesh_line r0 xi yi s
      = Some (F32.NAN, s)).
Proof.
  intros Hin E1 Hnan. pose proof (proj2 (in_grid_WITHIN xi yi) Hin) as Hw.
  split; intros E2.
  - pose proof (z_correction_for_x_run r0 xi yi s) as Hrun.
    rewrite Hw in Hrun. unfold x_line_value in Hrun. rewrite E1, E2 in Hrun.
    rewrite Hrun. simpl. now rewrite (F32Edge.lerp_nan _ _ _ _ _ Hnan).
  - pose proof (z_correction_for_y_run r0 xi yi s) as Hrun.
    rewrite Hw in Hrun. unfold y_line_value in Hrun. rewrite E1, E2 in Hrun.
    rewrite Hrun. simpl. now rewrite (F32Edge.lerp_nan _ _ _ _ _ Hnan).
Qed.

(** X10: [get_z_correction] never returns NaN. On a mesh of the declared
    size it returns at every position, a number or not, and what it returns
    is not NaN, unless the value configured for
    UBL_Z_RAISE_WHEN_OFF_MESH is itself NaN. *)
Theorem get_z_correction_never_nan (rx0 ry0 : float) (s : ubl_state) :
  grid_dims_ok -> has_dims (z_values s) = true ->
  (forall raise, UBL_Z_RAISE_WHEN_OFF_MESH = Some raise ->
                 F32.isnan raise = false) ->
  exists z s',
    get_z_correction rx0 ry0 s = Some (z, s')
    /\ F32.isnan z = false /\ frame s s'.
Proof.
  intros Hg Hd Hraise.
  pose proof (get_z_correction_run rx0 ry0 s) as Hrun.
  unfold z_correction_value in Hrun.
  destruct (cell_values_in_grid (z_values s) (get_cell_index_x rx0)
              (get_cell_index_y ry0) Hd
              (get_cell_index_x_range rx0 Hg)
              (get_cell_index_y_range ry0 Hg))
    as (za & zb & zc & zd & Ec).
  rewrite Ec in Hrun.
  destruct UBL_Z_RAISE_WHEN_OFF_MESH as [raise|];
    [destruct (off_mesh rx0 ry0)|];
    destruct Hrun as (s' & E & Hf); eexists; exists s';
    (split; [exact E|]); (split; [|exact Hf]);
    first [ apply nan_to_zero_not_nan | now apply Hraise ].
Qed.

(** X11: a position that is not a number. With NaN for either coordinate
    [get_z_correction] returns UBL_Z_RAISE_WHEN_OFF_MESH when that is
    defined (NaN is within no range) and 0.0 otherwise (the NaN goes
    through the interpolation and is thrown out at the end), whatever the
    mesh holds and whatever cell the conversion of the NaN selects. *)
Theorem get_z_correction_at_nan_position (rx0 ry0 : float) (s : ubl_state) :
  grid_dims_ok -> has_dims (z_values s) = true ->
  F32.isnan rx0 || F32.isnan ry0 = true ->
  exists s',
    get_z_correction rx0 ry0 s
    = Some (match UBL_Z_RAISE_WHEN_OFF_MESH with
            | Some raise => raise
            | None => F32.zero
            end, s')
    /\ frame s s'.
Proof.
  intros Hg Hd Hnan.
  pose proof (get_z_correction_run rx0 ry0 s) as Hrun.
  unfold z_correction_value in Hrun.
  rewrite (off_mesh_nan _ _ Hnan) in Hrun.
  destruct UBL_Z_RAISE_WHEN_OFF_MESH as [raise|]; [exact Hrun|].
  destruct (cell_values_in_grid (z_values s) (get_cell_index_x rx0)
              (get_cell_index_y ry0) Hd
              (get_cell_index_x_range rx0 Hg)
              (get_cell_index_y_range ry0 Hg))
    as (za & zb & zc & zd & Ec).
  rewrite Ec, (bilinear_nan_position _ _ _ _ _ _ _ _ Hnan) in Hrun.
  exact Hrun.
Qed.

(** X12: past the last line of an axis the mesh is continued flat. When
    the cell index is that of the last line, both ends of the
    interpolation along that axis are the same point of [z_values] (the
    neighbour index is capped), so the position along that axis has no
    effect: on X the result is the interpolation along Y between the two
    heights of the last column, on Y it is the interpolation along X on the
    last row. The position has to be a number and the line after the last, a
    computed one, at another position than the last. *)
Theorem get_z_correction_past_last_line (rx0 ry0 : float) (s : ubl_state)
        (za zb zc zd : float) :
  reaches_interpolation rx0 ry0 ->
  cell_values (z_values s) (get_cell_index_x rx0) (get_cell_index_y ry0)
  = Some (za, zb, zc, zd) ->
  (get_cell_index_x rx0 = GRID_MAX_POINTS_X - 1 ->
   F32.is_finite (F32.sub rx0 (mesh_index_to_xpos (GRID_MAX_POINTS_X - 1)))
   = true ->
   F32.is_nonzero_number
     (F32.sub (mesh_index_to_xpos GRID_MAX_POINTS_X)
              (mesh_index_to_xpos (GRID_MAX_POINTS_X - 1))) = true ->
   F32.is_finite za = true -> za <> S754_zero true ->
   F32.is_finite zc = true -> zc <> S754_zero true ->
   result (get_z_correction rx0 ry0) s
   = Some (nan_to_zero
             (calc_z0 ry0 (mesh_index_to_ypos (get_cell_index_y ry0)) za
                      (mesh_index_to_ypos (get_cell_index_y ry0 + 1)) zc)))
  /\ (get_cell_index_y ry0 = GRID_MAX_POINTS_Y - 1 ->
      F32.is_finite (F32.sub ry0 (mesh_index_to_ypos (GRID_MAX_POINTS_Y - 1)))
      = true ->
      F32.is_nonzero_number
        (F32.sub (mesh_index_to_ypos GRID_MAX_POINTS_Y)
                 (mesh_index_to_ypos (GRID_MAX_POINTS_Y - 1))) = true ->
      let z1 := calc_z0 rx0 (mesh_index_to_xpos (get_cell_index_x rx0)) za
                        (mesh_index_to_xpos (get_cell_index_x rx0 + 1)) zb in
      F32.is_finite z1 = true ->
      exists z, result (get_z_correction rx0 ry0) s = Some z /\ same_number z z1).
Proof.
  intros Hr Hc. rewrite get_z_correction_result.
  rewrite (z_correction_value_on_mesh _ _ _ _ _ _ _ Hr Hc).
  unfold cell_values in Hc.
  destruct (mesh_at (z_values s) (get_cell_index_x rx0) (get_cell_index_y ry0))
    as [za'|] eqn:Ea; [|discriminate].
  destruct (mesh_at (z_values s) (upper_x (get_cell_index_x rx0)) (get_cell_index_y ry0))
    as [zb'|] eqn:Eb; [|discriminate].
  destruct (mesh_at (z_values s) (get_cell_index_x rx0) (upper_y (get_cell_index_y ry0)))
    as [zc'|] eqn:Ec; [|discriminate].
  destruct (mesh_at (z_values s) (upper_x (get_cell_index_x rx0))
                    (upper_y (get_cell_index_y ry0)))
    as [zd'|] eqn:Ed; [|discriminate].
  injection Hc as -> -> -> ->.
  split.
  - intros Hlast Hpos Hw Hza Hza0 Hzc Hzc0.
    assert (Eu : upper_x (get_cell_index_x rx0) = get_cell_index_x rx0)
      by (rewrite Hlast; apply upper_x_last).
    rewrite Eu in Eb, Ed.
    assert (zb = za) by congruence. assert (zd = zc) by congruence.
    subst zb zd. unfold bilinear. rewrite Hlast.
    replace (GRID_MAX_POINTS_X - 1 + 1) with GRID_MAX_POINTS_X by lia.
    destruct (F32Edge.calc_z0_equal_ends rx0 _ _ za Hpos Hw Hza) as [_ ->];
      [|exact Hza0].
    destruct (F32Edge.calc_z0_equal_ends rx0 _ _ zc Hpos Hw Hzc) as [_ ->];
      [|exact Hzc0].
    reflexivity.
  - intros Hlast Hpos Hw z1 Hz1.
    assert (Eu : upper_y (get_cell_index_y ry0) = get_cell_index_y ry0)
      by (rewrite Hlast; apply upper_y_last).
    rewrite Eu in Ec, Ed.
    assert (zc = za) by congruence. assert (zd = zb) by congruence.
    subst zc zd. unfold bilinear. fold z1. rewrite Hlast.
    replace (GRID_MAX_POINTS_Y - 1 + 1) with GRID_MAX_POINTS_Y by lia.
    destruct (F32Edge.calc_z0_equal_ends ry0 _ _ z1 Hpos Hw Hz1) as [Hs _].
    eexists. split; [reflexivity|].
    rewrite nan_to_zero_finite; [exact Hs|].
    exact (F32Zero.same_number_finite _ _ Hs Hz1).
Qed.

(** X13: a flat cell is reproduced exactly. When the four mesh points of
    the cell hold the same height, [get_z_correction] returns that height
    (a stored -0.0 as +0.0) at every position of the cell, with no rounding
    error: the position has to be a number, and the two lines of the cell
    at different positions on each axis. *)
Theorem get_z_correction_on_flat_cell (rx0 ry0 : float) (s : ubl_state)
        (z : float) :
  let cx := get_cell_index_x rx0 in
  let cy := get_cell_index_y ry0 in
  reaches_interpolation rx0 ry0 ->
  cell_values (z_values s) cx cy = Some (z, z, z, z) ->
  F32.is_finite z = true ->
  F32.is_finite (F32.sub rx0 (mesh_index_to_xpos cx)) = true ->
  F32.is_finite (F32.sub ry0 (mesh_index_to_ypos cy)) = true ->
  F32.is_nonzero_number
    (F32.sub (mesh_index_to_xpos (cx + 1)) (mesh_index_to_xpos cx)) = true ->
  F32.is_nonzero_number
    (F32.sub (mesh_index_to_ypos (cy + 1)) (mesh_index_to_ypos cy)) = true ->
  exists r, result (get_z_correction rx0 ry0) s = Some r /\ same_number r z.
Proof.
  intros cx cy Hr Hc Hz Hx Hy Hwx Hwy. rewrite get_z_correction_result.
  rewrite (z_correction_value_on_mesh _ _ _ _ _ _ _ Hr Hc).
  fold cx cy. unfold bilinear.
  destruct (F32Edge.calc_z0_equal_ends rx0 _ _ z Hx Hwx Hz) as [H1 _].
  pose proof (F32Edge.calc_z0_same_ends ry0 _ _ z _ _ Hy Hwy Hz H1 H1) as H0.
  eexists. split; [reflexivity|].
  rewrite nan_to_zero_finite; [exact H0|].
  exact (F32Zero.same_number_finite _ _ H0 Hz).
Qed.

End EdgeBehaviour.

Lemma calc_z0_zero_width_witness :
  exists s,
    calc_z0 (F32.of_int 50) (F32.of_int 100) (F32.of_int 1)
            (F32.of_int 100) (F32.of_int 2) = S754_infinity s.
Proof.
  destruct (calc_z0_zero_width (F32.of_int 50) (F32.of_int 100)
              (F32.of_int 1) (F32.of_int 2) eq_refl) as [_ H].
  destruct (H eq_refl eq_refl) as (s & E & _).
  exists s. exact E.
Defined.

Lemma scenario_in_grid_0_0 : @in_grid scenario_cfg 0 0.
Proof. unfold in_grid. simpl. lia. Defined.

Lemma line_helper_at_own_line_witness :
  exists z,
    @z_correction_for_x_on_horizontal_mesh_line scenario_cfg
      (@mesh_index_to_xpos scenario_cfg 0) 0 0 (quiet scenario_mesh)
    = Some (z, quiet scenario_mesh)
    /\ same_number z (F32.of_int 1).
Proof.
  destruct (@line_helper_at_own_line scenario_cfg 0 0 (F32.of_int 1)
              (F32.of_int 2) (quiet scenario_mesh) scenario_in_grid_0_0
              eq_refl eq_refl) as [H _].
  exact (H eq_refl eq_refl eq_refl eq_refl).
Defined.

Lemma bed220_in_grid_2_0 : @in_grid bed220_cfg 2 0.
Proof. unfold in_grid. simpl. lia. Defined.

Lemma line_helper_on_last_line_witness :
  exists z,
    @z_correction_for_x_on_horizontal_mesh_line bed220_cfg
      (F32.of_int 250) 2 0 (quiet tenths_mesh)
    = Some (z, quiet tenths_mesh)
    /\ same_number z (F32.of_ratio 2 10).
Proof.
  destruct (@line_helper_on_last_line bed220_cfg (F32.of_int 250) 2 0
              (F32.of_ratio 2 10) (quiet tenths_mesh) bed220_in_grid_2_0
              eq_refl eq_refl) as [H _].
  exact (H eq_refl eq_refl).
Defined.

Lemma scenario_in_grid_1_0 : @in_grid scenario_cfg 1 0.
Proof. unfold in_grid. simpl. lia. Defined.

Lemma line_helper_keeps_nan_witness :
  @z_correction_for_x_on_horizontal_mesh_line scenario_cfg
    (F32.of_int 150) 1 0 (quiet scenario_mesh)
  = Some (F32.NAN, quiet scenario_mesh).
Proof.
  destruct (@line_helper_keeps_nan scenario_cfg (F32.of_int 150) 1 0
              (F32.of_int 2) F32.NAN (quiet scenario_mesh)
              scenario_in_grid_1_0 eq_refl eq_refl) as [H _].
  exact (H eq_refl).
Defined.

Lemma get_z_correction_never_nan_witness :
  exists z s',
    @get_z_correction scenario_cfg (F32.of_int 150) (F32.of_int 150)
      (quiet scenario_mesh) = Some (z, s')
    /\ F32.isnan z = false.
Proof.
  destruct (@get_z_correction_never_nan scenario_cfg (F32.of_int 150)
              (F32.of_int 150) (quiet scenario_mesh) scenario_grid_dims_ok
              eq_refl) as (z & s' & E & Hz & _).
  - intros raise H. discriminate H.
  - exists z, s'. split; [exact E | exact Hz].
Defined.

Lemma get_z_correction_at_nan_position_witness :
  exists s',
    @get_z_correction scenario_cfg F32.NAN (F32.of_int 50)
      (quiet scenario_mesh) = Some (F32.zero, s').
Proof.
  destruct (@get_z_correction_at_nan_position scenario_cfg F32.NAN
              (F32.of_int 50) (quiet scenario_mesh) scenario_grid_dims_ok
              eq_refl eq_refl) as (s' & E & _).
  exists s'. exact E.
Defined.

Lemma bed220_reaches (rx0 ry0 : float) : @reaches_interpolation bed220_cfg rx0 ry0.
Proof. left. reflexivity. Defined.

Lemma get_z_correction_past_last_line_witness :
  result (@get_z_correction bed220_cfg (F32.of_int 250) (F32.of_int 50))
         (quiet tenths_mesh)
  = Some (F32.of_ratio 2 10).
Proof.
  destruct (@get_z_correction_past_last_line bed220_cfg (F32.of_int 250)
              (F32.of_int 50) (quiet tenths_mesh)
              (F32.of_ratio 2 10) (F32.of_ratio 2 10)
              (F32.of_ratio 2 10) (F32.of_ratio 2 10)
              (bed220_reaches _ _) eq_refl) as [H _].
  rewrite (H eq_refl eq_refl eq_refl eq_refl ltac:(discriminate) eq_refl
             ltac:(discriminate)).
  reflexivity.
Defined.

Lemma get_z_correction_on_flat_cell_witness :
  exists r,
    result (@get_z_correction bed220_cfg (F32.of_int 70) (F32.of_int 130))
           (quiet (constant_mesh (F32.of_ratio 3 10) 3 3)) = Some r
    /\ same_number r (F32.of_ratio 3 10).
Proof.
  exact (@get_z_correction_on_flat_cell bed220_cfg (F32.of_int 70)
           (F32.of_int 130) (quiet (constant_mesh (F32.of_ratio 3 10) 3 3))
           (F32.of_ratio 3 10) (bed220_reaches _ _) eq_refl eq_refl eq_refl
           eq_refl eq_refl eq_refl).
Defined.

(** ** The index computations against the exact position *)

(** The integral part of a number that is not above zero. *)
Lemma trunc_val_neg (f : float) (i : Z) :
  F32.is_finite f = true -> i <= 0 ->
  (inject_Z i - 1 < val f /\ val f <= inject_Z i)%Q ->
  F32.trunc f = Some i.
Proof.
  intros Hf Hi [Hlo Hhi].
  assert (Hi0 : (inject_Z i <= 0)%Q).
  { change 0%Q with (inject_Z 0). rewrite <- Zle_Qle. exact Hi. }
  destruct f as [s|s| |s m e]; try discriminate.
  - simpl in *. f_equal.
    assert (H : (inject_Z (-1) < inject_Z i)%Q)
      by (change (inject_Z (-1)) with (-1)%Q; lra).
    rewrite <- Zlt_Qlt in H. lia.
  - pose proof (pow2_pos e) as Hpe.
    assert (HM : (0 < inject_Z (Z.pos m))%Q).
    { change 0%Q with (inject_Z 0). rewrite <- Zlt_Qlt. lia. }
    destruct s.
    + assert (H : F32.trunc (S754_finite false m e) = Some (- i)).
      { apply trunc_val; [reflexivity | lia |].
        rewrite inject_Z_opp. unfold val in *. simpl sgnQ in *.
        split; nra. }
      simpl in *. injection H as H. f_equal. lia.
    + exfalso. unfold val in Hhi. simpl sgnQ in Hhi. nra.
Qed.

Lemma Qmul_bounds (x y a b : Q) :
  (- a <= x /\ x <= a -> - b <= y /\ y <= b ->
   - (a * b) <= x * y /\ x * y <= a * b)%Q.
Proof. intros [H1 H2] [H3 H4]. split; nra. Qed.

Lemma Qle_of_mul_pos (d e c : Q) :
  (0 < d -> d * (e - c) <= 0 -> e <= c)%Q.
Proof. intros Hd H. nra. Qed.

Lemma Qge_of_mul_pos (d e c : Q) :
  (0 < d -> 0 <= d * (e - c) -> c <= e)%Q.
Proof. intros Hd H. nra. Qed.

Section QuotientAnalysis.

#[local] Open Scope Q_scope.

(* span, cells, exact cell width; the exact quotient and the offset added
   to it (0 for the cell index, 1/2 for the nearest line) *)
Variables A B W q c : Q.
(* the values of the floating-point results: the cell width, its
   reciprocal, the numerator and the quotient *)
Variables vD vR N vT : Q.

Hypothesis HB : 1 <= B /\ B <= 14.
Hypothesis HA : 1 <= A /\ A <= 65535.
Hypothesis HW : W * B == A.
Hypothesis Hq : -120 <= q /\ q <= 120.
Hypothesis Hc : 0 <= c /\ c <= 1.

Lemma W_bounds : 1 # 14 <= W /\ W <= 65535.
Proof. nra. Qed.

Hypothesis HD : - (W * unit_roundoff + underflow_bound) <= vD - W
                /\ vD - W <= W * unit_roundoff + underflow_bound.

Lemma vD_close :
  (9999999 # 10000000) * W <= vD /\ vD <= (10000001 # 10000000) * W
  /\ 1 # 15 <= vD /\ vD <= 65536.
Proof.
  pose proof W_bounds as [H1 H2]. unfold unit_roundoff, underflow_bound in HD.
  repeat split; lra.
Qed.

Hypothesis HR : - (/ vD * unit_roundoff + underflow_bound) <= vR - 1 / vD
                /\ vR - 1 / vD <= / vD * unit_roundoff + underflow_bound.

Lemma rho_bounds :
  - (1 # 10000000) <= vD * vR - 1 /\ vD * vR - 1 <= 1 # 10000000.
Proof.
  pose proof vD_close as (_ & _ & Hlo & Hhi).
  assert (Hpos : 0 < vD) by lra.
  assert (E : vD * / vD == 1) by (apply Qmult_inv_r; lra).
  unfold unit_roundoff, underflow_bound in HR. unfold Qdiv in HR.
  assert (E1 : 1 * / vD == / vD) by ring. rewrite E1 in HR.
  assert (Hr : vD * vR - 1 == vD * (vR - / vD)).
  { setoid_replace (vD * (vR - / vD)) with (vD * vR - vD * / vD) by ring.
    rewrite E. reflexivity. }
  assert (Hb : vD * (/ vD * (1 # 16777216) + (1 # 1125899906842624))
               == (1 # 16777216) + vD * (1 # 1125899906842624)).
  { setoid_replace (vD * (/ vD * (1 # 16777216) + (1 # 1125899906842624)))
      with ((vD * / vD) * (1 # 16777216) + vD * (1 # 1125899906842624)) by ring.
    rewrite E. ring. }
  rewrite Hr. split; nra.
Qed.

Hypothesis HN : - (W * (1 # 50000) + (4 # 1125899906842624))
                <= N - (q * W + c * vD)
                /\ N - (q * W + c * vD)
                   <= W * (1 # 50000) + (4 # 1125899906842624).

(** The quotient before its rounding is within 1/20000 of the exact one. *)
Lemma quotient_near :
  - (1 # 20000) <= N * vR - (q + c) /\ N * vR - (q + c) <= 1 # 20000.
Proof.
  pose proof W_bounds as [HW1 HW2].
  pose proof vD_close as (HD1 & HD2 & HD3 & HD4).
  pose proof rho_bounds as Hrho.
  unfold unit_roundoff, underflow_bound in HD.
  assert (Hpos : 0 < vD) by lra.
  set (E := N * vR - (q + c)).
  assert (EE : vD * E == (q * W + c * vD) * (vD * vR - 1)
                         + (N - (q * W + c * vD)) * (vD * vR)
                         - q * (vD - W)) by (unfold E; ring).
  (* the three terms *)
  assert (Hs : - ((1212 # 10) * W) <= q * W + c * vD
               /\ q * W + c * vD <= (1212 # 10) * W).
  { destruct Hq, Hc. split; nra. }
  pose proof (Qmul_bounds _ _ _ _ Hs Hrho) as Ht1.
  assert (Hrho' : - (10000001 # 10000000) <= vD * vR
                  /\ vD * vR <= 10000001 # 10000000) by lra.
  assert (HN' : - (W * (1 # 50000) + (4 # 1125899906842624))
                <= N - (q * W + c * vD)
                /\ N - (q * W + c * vD)
                   <= W * (1 # 50000) + (4 # 1125899906842624)) by exact HN.
  pose proof (Qmul_bounds _ _ _ _ HN' Hrho') as Ht2.
  assert (Hq' : - (120 # 1) <= q /\ q <= 120 # 1) by (destruct Hq; split; lra).
  assert (Hd' : - (W * (1 # 16777216) + (1 # 1125899906842624)) <= vD - W
                /\ vD - W <= W * (1 # 16777216) + (1 # 1125899906842624))
    by exact HD.
  pose proof (Qmul_bounds _ _ _ _ Hq' Hd') as Ht3.
  set (t1 := (q * W + c * vD) * (vD * vR - 1)) in *.
  set (t2 := (N - (q * W + c * vD)) * (vD * vR)) in *.
  set (t3 := q * (vD - W)) in *.
  split.
  - apply (Qge_of_mul_pos vD); [exact Hpos|].
    setoid_replace (vD * (E - - (1 # 20000)))
      with (vD * E + vD * (1 # 20000)) by ring.
    rewrite EE. lra.
  - apply (Qle_of_mul_pos vD); [exact Hpos|].
    setoid_replace (vD * (E - (1 # 20000)))
      with (vD * E - vD * (1 # 20000)) by ring.
    rewrite EE. lra.
Qed.

Lemma quotient_size : Qabs (N * vR) <= 122.
Proof.
  pose proof quotient_near as [H1 H2]. destruct Hq, Hc.
  apply Qabs_Qle_condition. split; lra.
Qed.

Hypothesis HT : - (122 * unit_roundoff + underflow_bound) <= vT - N * vR
                /\ vT - N * vR <= 122 * unit_roundoff + underflow_bound.

(** The quotient that is truncated is within 3/40000 of the exact one. *)
Lemma rounded_quotient_near :
  - (3 # 40000) <= vT - (q + c) /\ vT - (q + c) <= 3 # 40000.
Proof.
  pose proof quotient_near as [H1 H2].
  unfold unit_roundoff, underflow_bound in HT. split; lra.
Qed.

End QuotientAnalysis.

Lemma below_pow2_100_wide (x : Q) :
  (Qabs x <= 1073741824)%Q -> (Qabs x < pow2 100)%Q.
Proof.
  intros H.
  assert (H1 : (pow2 31 <= pow2 100)%Q) by (apply pow2_le; lia).
  assert (E : (pow2 31 == 2147483648)%Q) by reflexivity.
  rewrite E in H1. lra.
Qed.

(** The integral part of a number between two integers. *)
Lemma trunc_range (f : float) (lo hi : Z) :
  F32.is_finite f = true -> lo <= 0 <= hi ->
  (inject_Z lo - 1 < val f /\ val f < inject_Z hi + 1)%Q ->
  exists t, F32.trunc f = Some t /\ lo <= t <= hi.
Proof.
  intros Hf Hz [Hlo Hhi].
  destruct (Qlt_le_dec (val f) 0) as [Hneg|Hpos].
  - set (j := - Qfloor (- val f)).
    pose proof (Qfloor_le (- val f)) as H1.
    pose proof (Qlt_floor (- val f)) as H2.
    rewrite inject_Z_plus in H2. change (inject_Z 1) with 1%Q in H2.
    assert (Ej : (inject_Z j == - inject_Z (Qfloor (- val f)))%Q)
      by (unfold j; now rewrite inject_Z_opp).
    assert (Hj0 : (inject_Z j < inject_Z 1)%Q)
      by (change (inject_Z 1) with 1%Q; lra).
    assert (Hj1 : (inject_Z (lo - 1) < inject_Z j)%Q).
    { unfold Z.sub. rewrite inject_Z_plus, inject_Z_opp.
      change (inject_Z 1) with 1%Q. lra. }
    rewrite <- Zlt_Qlt in Hj0, Hj1.
    exists j. split; [|lia].
    apply trunc_val_neg; [exact Hf | lia | split; lra].
  - set (i := Qfloor (val f)).
    pose proof (Qfloor_le (val f)) as H1.
    pose proof (Qlt_floor (val f)) as H2.
    fold i in H1, H2.
    rewrite inject_Z_plus in H2. change (inject_Z 1) with 1%Q in H2.
    assert (Hi0 : (inject_Z (-1) < inject_Z i)%Q)
      by (change (inject_Z (-1)) with (-1)%Q; lra).
    assert (Hi1 : (inject_Z i < inject_Z (hi + 1))%Q).
    { rewrite inject_Z_plus. change (inject_Z 1) with 1%Q. lra. }
    rewrite <- Zlt_Qlt in Hi0, Hi1.
    exists i. split; [|lia].
    apply trunc_val; [exact Hf | lia | split; lra].
Qed.

(** The same on one side of zero. *)
Lemma trunc_range_pos (f : float) (lo hi : Z) :
  F32.is_finite f = true -> 0 <= lo ->
  (inject_Z lo <= val f /\ val f < inject_Z hi + 1)%Q ->
  exists t, F32.trunc f = Some t /\ lo <= t <= hi.
Proof.
  intros Hf Hz [Hlo Hhi].
  assert (Hl0 : (0 <= inject_Z lo)%Q).
  { change 0%Q with (inject_Z 0). rewrite <- Zle_Qle. exact Hz. }
  set (i := Qfloor (val f)).
  pose proof (Qfloor_le (val f)) as H1.
  pose proof (Qlt_floor (val f)) as H2.
  fold i in H1, H2.
  rewrite inject_Z_plus in H2. change (inject_Z 1) with 1%Q in H2.
  assert (Hi0 : (inject_Z lo < inject_Z (i + 1))%Q).
  { rewrite inject_Z_plus. change (inject_Z 1) with 1%Q. lra. }
  assert (Hi1 : (inject_Z i < inject_Z (hi + 1))%Q).
  { rewrite inject_Z_plus. change (inject_Z 1) with 1%Q. lra. }
  rewrite <- Zlt_Qlt in Hi0, Hi1.
  exists i. split; [|lia].
  apply trunc_val; [exact Hf | lia | split; lra].
Qed.

Lemma trunc_range_neg (f : float) (lo hi : Z) :
  F32.is_finite f = true -> hi <= 0 ->
  (inject_Z lo - 1 < val f /\ val f <= inject_Z hi)%Q ->
  exists t, F32.trunc f = Some t /\ lo <= t <= hi.
Proof.
  intros Hf Hz [Hlo Hhi].
  assert (Hh0 : (inject_Z hi <= 0)%Q).
  { change 0%Q with (inject_Z 0). rewrite <- Zle_Qle. exact Hz. }
  set (j := - Qfloor (- val f)).
  pose proof (Qfloor_le (- val f)) as H1.
  pose proof (Qlt_floor (- val f)) as H2.
  rewrite inject_Z_plus in H2. change (inject_Z 1) with 1%Q in H2.
  assert (Ej : (inject_Z j == - inject_Z (Qfloor (- val f)))%Q)
    by (unfold j; now rewrite inject_Z_opp).
  assert (Hj0 : (inject_Z j < inject_Z (hi + 1))%Q).
  { rewrite inject_Z_plus. change (inject_Z 1) with 1%Q. lra. }
  assert (Hj1 : (inject_Z (lo - 1) < inject_Z j)%Q).
  { unfold Z.sub. rewrite inject_Z_plus, inject_Z_opp.
    change (inject_Z 1) with 1%Q. lra. }
  rewrite <- Zlt_Qlt in Hj0, Hj1.
  exists j. split; [|lia].
  apply trunc_val_neg; [exact Hf | lia | split; lra].
Qed.

Section QuotientCore.

Variables mn mx g : Z.
Variable x : float.

Hypothesis Hg : 2 <= g <= 15.
Hypothesis Hmn : -32768 <= mn.
Hypothesis Hlt : mn < mx.
Hypothesis Hmx : mx <= 32767.
Hypothesis Hx : F32.is_finite x = true.
Hypothesis Hq : (- (120 # 1) <= cells_from_min mn mx g x
                 /\ cells_from_min mn mx g x <= 120 # 1)%Q.

Lemma cell_width_bounds :
  (1 # 14 <= cell_width mn mx g /\ cell_width mn mx g <= 65535)%Q.
Proof.
  unfold cell_width.
  set (A := inject_Z (mx - mn)). set (B := inject_Z (g - 1)).
  assert (HB : (1 <= B /\ B <= 14)%Q).
  { unfold B. split; [change 1%Q with (inject_Z 1) | change 14%Q with (inject_Z 14)];
      rewrite <- Zle_Qle; lia. }
  assert (HA : (1 <= A /\ A <= 65535)%Q).
  { unfold A. split; [change 1%Q with (inject_Z 1) | change 65535%Q with (inject_Z 65535)];
      rewrite <- Zle_Qle; lia. }
  assert (HW : (A / B * B == A)%Q) by (field; lra).
  exact (W_bounds A B (A / B)%Q HB HA HW).
Qed.

Lemma cells_from_min_spec :
  (cells_from_min mn mx g x * cell_width mn mx g == val x - inject_Z mn)%Q.
Proof.
  pose proof cell_width_bounds as [H1 _].
  unfold cells_from_min. field. lra.
Qed.

(** The two quotients of ubl.h, for the axis: that of
    [get_cell_index_x], and that of [find_closest_x_index]. *)
Lemma quotients_near :
  let D := mesh_dist mn mx g in
  let R := F32.div F32.one D in
  let T1 := F32.sub x (F32.of_int mn) in
  let Tc := F32.mul T1 R in
  let Tn := F32.mul (F32.add T1 (F32.mul D F32.half)) R in
  let q := cells_from_min mn mx g x in
  (F32.is_finite Tc = true
   /\ (- (3 # 40000) <= val Tc - q /\ val Tc - q <= 3 # 40000)%Q)
  /\ (F32.is_finite Tn = true
      /\ (- (3 # 40000) <= val Tn - (q + (1 # 2))
          /\ val Tn - (q + (1 # 2)) <= 3 # 40000)%Q).
Proof.
  intros D R T1 Tc Tn q.
  set (A := inject_Z (mx - mn)). set (B := inject_Z (g - 1)).
  set (Mn := inject_Z mn).
  assert (HB : (1 <= B /\ B <= 14)%Q).
  { unfold B. split; [change 1%Q with (inject_Z 1) | change 14%Q with (inject_Z 14)];
      rewrite <- Zle_Qle; lia. }
  assert (HA : (1 <= A /\ A <= 65535)%Q).
  { unfold A. split; [change 1%Q with (inject_Z 1) | change 65535%Q with (inject_Z 65535)];
      rewrite <- Zle_Qle; lia. }
  set (W := cell_width mn mx g).
  assert (HW : (W * B == A)%Q) by (unfold W, cell_width; fold A B; field; lra).
  pose proof cell_width_bounds as [HW1 HW2]. fold W in HW1, HW2.
  pose proof cells_from_min_spec as Hqs. fold q W Mn in Hqs.
  assert (Hq' : (-120 <= q /\ q <= 120)%Q).
  { pose proof Hq as [Hq1 Hq2]. fold q in Hq1, Hq2. split; lra. }
  (* the constants *)
  destruct (of_int_exact (mx - mn) ltac:(lia)) as [FA VA]. fold A in VA.
  destruct (of_int_exact (g - 1) ltac:(lia)) as [FB VB]. fold B in VB.
  destruct (of_int_exact mn ltac:(lia)) as [FM VM]. fold Mn in VM.
  (* D *)
  assert (HWeq : (A / B == W)%Q) by (unfold W, cell_width; reflexivity).
  assert (HWabs : (Qabs W == W)%Q) by (apply Qabs_pos; lra).
  destruct (div_error (F32.of_int (mx - mn)) (F32.of_int (g - 1)) FA FB)
    as [FD ED].
  { rewrite VB. lra. }
  { rewrite VA, VB, HWeq. apply below_pow2_100. rewrite HWabs. lra. }
  fold (mesh_dist mn mx g) in FD, ED. fold D in FD, ED.
  rewrite VA, VB, HWeq in ED.
  set (vD := val D) in *.
  assert (HD := error_below vD W W ED ltac:(rewrite HWabs; lra)).
  pose proof (vD_close A B W vD HB HA HW HD) as (HD1 & HD2 & HD3 & HD4).
  (* R = 1 / D *)
  assert (Hinv : (0 < / vD)%Q) by (apply Qinv_lt_0_compat; lra).
  assert (Hinvabs : (Qabs (1 / vD) <= / vD)%Q).
  { unfold Qdiv. setoid_replace (1 * / vD)%Q with (/ vD)%Q by ring.
    rewrite Qabs_pos; lra. }
  assert (Hinv15 : (/ vD <= 15)%Q).
  { assert (E : (vD * / vD == 1)%Q) by (apply Qmult_inv_r; lra). nra. }
  destruct (div_error F32.one D eq_refl FD) as [FR ER].
  { fold vD. lra. }
  { rewrite val_one. fold vD. apply below_pow2_100. lra. }
  rewrite val_one in ER. fold vD in ER. fold R in FR, ER.
  set (vR := val R) in *.
  assert (HR := error_below vR (1 / vD)%Q (/ vD)%Q ER Hinvabs).
  (* T1 = x - mn *)
  assert (Ha : (Qabs (val x - Mn) <= 120 * W)%Q).
  { rewrite <- Hqs. apply Qabs_Qle_condition. split; nra. }
  destruct (sub_error x (F32.of_int mn) Hx FM) as [FT1 ET1].
  { rewrite VM. apply below_pow2_100_wide.
    eapply Qle_trans; [exact Ha|]. lra. }
  rewrite VM in ET1. fold T1 in FT1, ET1.
  set (vT1 := val T1) in *.
  assert (H1 := error_below vT1 (val x - Mn) (120 * W) ET1 Ha).
  unfold unit_roundoff, underflow_bound in H1.
  apply Qabs_Qle_condition in Ha.
  (* the cell quotient *)
  assert (Hc0 : (0 <= 0 /\ 0 <= 1)%Q) by (split; lra).
  assert (HNc : (- (W * (1 # 50000) + (4 # 1125899906842624))
                 <= vT1 - (q * W + 0 * vD)
                 /\ vT1 - (q * W + 0 * vD)
                    <= W * (1 # 50000) + (4 # 1125899906842624))%Q).
  { rewrite Hqs. split; lra. }
  pose proof (quotient_size A B W q 0 vD vR vT1 HB HA HW Hq' Hc0 HD HR HNc)
    as Hsc.
  destruct (mul_error T1 R FT1 FR) as [FTc ETc].
  { fold vT1 vR. apply below_pow2_100. lra. }
  fold vT1 vR in ETc. fold Tc in FTc, ETc.
  assert (HTc := error_below (val Tc) (vT1 * vR) 122 ETc Hsc).
  pose proof (rounded_quotient_near A B W q 0 vD vR vT1 (val Tc) HB HA HW Hq'
                Hc0 HD HR HNc HTc) as Hcell.
  split.
  { split; [exact FTc|]. split; lra. }
  (* H = D / 2 *)
  assert (HH0 : (Qabs (vD * (1 # 2)) <= W)%Q)
    by (apply Qabs_Qle_condition; split; lra).
  destruct (mul_error D F32.half FD eq_refl) as [FH EH].
  { rewrite val_half. fold vD. apply below_pow2_100. lra. }
  rewrite val_half in EH. fold vD in EH.
  set (vH := val (F32.mul D F32.half)) in *.
  assert (HH := error_below vH (vD * (1 # 2)) W EH HH0).
  unfold unit_roundoff, underflow_bound in HH.
  (* T2 = T1 + H *)
  assert (HS0 : (Qabs (vT1 + vH) <= 122 * W)%Q)
    by (apply Qabs_Qle_condition; split; lra).
  destruct (add_error T1 (F32.mul D F32.half) FT1 FH) as [FT2 ET2].
  { fold vT1 vH. apply below_pow2_100_wide.
    eapply Qle_trans; [exact HS0|]. lra. }
  fold vT1 vH in ET2.
  set (T2 := F32.add T1 (F32.mul D F32.half)) in *.
  set (vT2 := val T2) in *.
  assert (H2 := error_below vT2 (vT1 + vH) (122 * W) ET2 HS0).
  unfold unit_roundoff, underflow_bound in H2.
  assert (Hc1 : (0 <= 1 # 2 /\ 1 # 2 <= 1)%Q) by (split; lra).
  assert (HNn : (- (W * (1 # 50000) + (4 # 1125899906842624))
                 <= vT2 - (q * W + (1 # 2) * vD)
                 /\ vT2 - (q * W + (1 # 2) * vD)
                    <= W * (1 # 50000) + (4 # 1125899906842624))%Q).
  { rewrite Hqs. split; lra. }
  pose proof (quotient_size A B W q (1 # 2) vD vR vT2 HB HA HW Hq' Hc1 HD HR
                HNn) as Hsn.
  destruct (mul_error T2 R FT2 FR) as [FTn ETn].
  { fold vT2 vR. apply below_pow2_100. lra. }
  fold vT2 vR in ETn. fold Tn in FTn, ETn.
  assert (HTn := error_below (val Tn) (vT2 * vR) 122 ETn Hsn).
  pose proof (rounded_quotient_near A B W q (1 # 2) vD vR vT2 (val Tn) HB HA HW
                Hq' Hc1 HD HR HNn HTn) as Hnear.
  split; [exact FTn | exact Hnear].
Qed.

End QuotientCore.

Lemma inject_Z_range (i lo hi : Z) :
  lo <= i <= hi -> (inject_Z lo <= inject_Z i /\ inject_Z i <= inject_Z hi)%Q.
Proof. intros H. rewrite <- !Zle_Qle. exact H. Qed.

Section IndexOnAxis.

Context {cfg : Configuration}.

Variables mn mx g : Z.
Variable pos : float.

Hypothesis Hg : 2 <= g <= 15.
Hypothesis Hmn : -32768 <= mn.
Hypothesis Hlt : mn < mx.
Hypothesis Hmx : mx <= 32767.
Hypothesis Hpos : F32.is_finite pos = true.

(** What [get_cell_index_x] computes on an axis, from the exact position. *)
Lemma cell_index_on_axis :
  let q := cells_from_min mn mx g pos in
  let T1 := F32.sub pos (F32.of_int mn) in
  let R := F32.div F32.one (mesh_dist mn mx g) in
  let cell := to_int8 (constrain (float_to_int8 (F32.mul T1 R)) 0 (g - 1)) in
  (forall i, 0 <= i <= g - 2 ->
     (inject_Z i + (1 # 10000) <= q /\ q <= inject_Z i + 1 - (1 # 10000))%Q ->
     cell = i)
  /\ ((- (120 # 1) <= q /\ q <= 1 - (1 # 10000))%Q -> cell = 0)
  /\ ((inject_Z (g - 1) + (1 # 10000) <= q /\ q <= 120 # 1)%Q ->
      cell = g - 1).
Proof.
  intros q T1 R cell.
  assert (Hclamp : forall t, F32.trunc (F32.mul T1 R) = Some t ->
                             -128 <= t <= 127 ->
                             cell = Z.max 0 (Z.min t (g - 1))).
  { intros t Et Ht. unfold cell.
    rewrite (float_to_int8_trunc _ t Et) by (apply in_int8_spec; lia).
    apply clamp_to_grid. lia. }
  split; [|split].
  - intros i Hi [H1 H2].
    pose proof (inject_Z_range i 0 13 ltac:(lia)) as [Hi0 Hi1].
    change (inject_Z 0) with 0%Q in Hi0. change (inject_Z 13) with 13%Q in Hi1.
    destruct (quotients_near mn mx g pos Hg Hmn Hlt Hmx Hpos) as [[FT HT] _].
    { fold q. split; lra. }
    fold q T1 R in FT, HT.
    rewrite (Hclamp i); [lia | | lia].
    apply trunc_val; [exact FT | lia | split; lra].
  - intros [H1 H2].
    destruct (quotients_near mn mx g pos Hg Hmn Hlt Hmx Hpos) as [[FT HT] _].
    { fold q. split; lra. }
    fold q T1 R in FT, HT.
    destruct (trunc_range (F32.mul T1 R) (-121) 0 FT ltac:(lia))
      as (t & Et & Ht).
    { change (inject_Z (-121)) with (-121)%Q. change (inject_Z 0) with 0%Q.
      split; lra. }
    rewrite (Hclamp t Et); lia.
  - intros [H1 H2].
    pose proof (inject_Z_range (g - 1) 1 14 ltac:(lia)) as [Hi0 Hi1].
    change (inject_Z 1) with 1%Q in Hi0. change (inject_Z 14) with 14%Q in Hi1.
    destruct (quotients_near mn mx g pos Hg Hmn Hlt Hmx Hpos) as [[FT HT] _].
    { fold q. split; lra. }
    fold q T1 R in FT, HT.
    destruct (trunc_range_pos (F32.mul T1 R) (g - 1) 120 FT ltac:(lia))
      as (t & Et & Ht).
    { change (inject_Z 120) with 120%Q. split; lra. }
    rewrite (Hclamp t Et); lia.
Qed.

(** What [find_closest_x_index] computes on an axis. *)
Lemma closest_index_on_axis :
  let q := cells_from_min mn mx g pos in
  let T1 := F32.sub pos (F32.of_int mn) in
  let D := mesh_dist mn mx g in
  let px := float_to_int8
              (F32.mul (F32.add T1 (F32.mul D F32.half)) (F32.div F32.one D)) in
  let closest := if WITHIN px 0 (g - 1) then px else -1 in
  (forall i, 0 <= i <= g - 1 ->
     (inject_Z i - (1 # 2) + (1 # 10000) <= q
      /\ q <= inject_Z i + (1 # 2) - (1 # 10000))%Q ->
     closest = i)
  /\ ((- (3 # 2) + (1 # 10000) <= q /\ q <= (1 # 2) - (1 # 10000))%Q ->
      closest = 0)
  /\ ((- (120 # 1) <= q /\ q <= - (3 # 2) - (1 # 10000))%Q -> closest = -1)
  /\ ((inject_Z (g - 1) + (1 # 2) + (1 # 10000) <= q /\ q <= 120 # 1)%Q ->
      closest = -1).
Proof.
  intros q T1 D px closest.
  set (T := F32.mul (F32.add T1 (F32.mul D F32.half)) (F32.div F32.one D)) in *.
  assert (Hpx : forall t, F32.trunc T = Some t -> -128 <= t <= 127 ->
                          closest = if WITHIN t 0 (g - 1) then t else -1).
  { intros t Et Ht. unfold closest, px.
    now rewrite (float_to_int8_trunc _ t Et) by (apply in_int8_spec; lia). }
  assert (Hin : forall t, 0 <= t <= g - 1 -> WITHIN t 0 (g - 1) = true)
    by (intros t Ht; now apply WITHIN_spec).
  assert (Hout : forall t, t < 0 \/ g - 1 < t -> WITHIN t 0 (g - 1) = false).
  { intros t Ht. destruct (WITHIN t 0 (g - 1)) eqn:E; [|reflexivity].
    apply WITHIN_spec in E. lia. }
  assert (Hnear : (- (120 # 1) <= q /\ q <= 120 # 1)%Q ->
                  F32.is_finite T = true
                  /\ (- (3 # 40000) <= val T - (q + (1 # 2))
                      /\ val T - (q + (1 # 2)) <= 3 # 40000)%Q).
  { intros Hq.
    destruct (quotients_near mn mx g pos Hg Hmn Hlt Hmx Hpos Hq) as [_ H].
    exact H. }
  pose proof (inject_Z_range (g - 1) 1 14 ltac:(lia)) as [Hg0 Hg1].
  change (inject_Z 1) with 1%Q in Hg0. change (inject_Z 14) with 14%Q in Hg1.
  split; [|split; [|split]].
  - intros i Hi [H1 H2].
    pose proof (inject_Z_range i 0 14 ltac:(lia)) as [Hi0 Hi1].
    change (inject_Z 0) with 0%Q in Hi0. change (inject_Z 14) with 14%Q in Hi1.
    destruct Hnear as [FT HT]; [split; lra|].
    rewrite (Hpx i), Hin; [reflexivity | lia | | lia].
    apply trunc_val; [exact FT | lia | split; lra].
  - intros [H1 H2].
    destruct Hnear as [FT HT]; [split; lra|].
    destruct (trunc_range T 0 0 FT ltac:(lia)) as (t & Et & Ht).
    { change (inject_Z 0) with 0%Q. split; lra. }
    assert (t = 0) by lia. subst t.
    rewrite (Hpx 0 Et), Hin; [reflexivity | lia | lia].
  - intros [H1 H2].
    destruct Hnear as [FT HT]; [split; lra|].
    destruct (trunc_range_neg T (-120) (-1) FT ltac:(lia)) as (t & Et & Ht).
    { change (inject_Z (-120)) with (-120)%Q.
      change (inject_Z (-1)) with (-1)%Q. split; lra. }
    rewrite (Hpx t Et), Hout; [reflexivity | lia | lia].
  - intros [H1 H2].
    destruct Hnear as [FT HT]; [split; lra|].
    destruct (trunc_range_pos T g 120 FT ltac:(lia)) as (t & Et & Ht).
    { change (inject_Z 120) with 120%Q.
      assert (E : (inject_Z g == inject_Z (g - 1) + inject_Z 1)%Q).
      { rewrite <- inject_Z_plus. replace (g - 1 + 1) with g by lia.
        reflexivity. }
      change (inject_Z 1) with 1%Q in E.
      split; lra. }
    rewrite (Hpx t Et), Hout; [reflexivity | lia | lia].
Qed.

End IndexOnAxis.

Section IndexTheorems.

Context {cfg : Configuration}.

(** X14: the cell index is that of the cell the position lies in. On a bed
    with 2 to 15 lines per axis and mesh bounds that fit a 16-bit [int],
    for every position that is a number and lies in cell [i], at least a
    ten-thousandth of a cell width away from the two lines that bound it,
    [get_cell_index_x] (and [get_cell_index_y] on its axis) returns [i]:
    the rounding of the single-precision quotient stays well below that
    margin. *)
Theorem get_cell_index_is_containing_cell (pos : float) (i : Z) :
  ordinary_bed -> F32.is_finite pos = true ->
  (0 <= i <= GRID_MAX_POINTS_X - 2 ->
   (inject_Z i + (1 # 10000) <= cells_from_min_x pos
    /\ cells_from_min_x pos <= inject_Z i + 1 - (1 # 10000))%Q ->
   get_cell_index_x pos = i)
  /\ (0 <= i <= GRID_MAX_POINTS_Y - 2 ->
      (inject_Z i + (1 # 10000) <= cells_from_min_y pos
       /\ cells_from_min_y pos <= inject_Z i + 1 - (1 # 10000))%Q ->
      get_cell_index_y pos = i).
Proof.
  intros (Hgx & Hgy & Hx1 & Hx2 & Hx3 & Hy1 & Hy2 & Hy3) Hpos. split.
  - destruct (cell_index_on_axis MESH_MIN_X MESH_MAX_X GRID_MAX_POINTS_X pos
                Hgx Hx1 Hx2 Hx3 Hpos) as [H _].
    intros Hi Hq. exact (H i Hi Hq).
  - destruct (cell_index_on_axis MESH_MIN_Y MESH_MAX_Y GRID_MAX_POINTS_Y pos
                Hgy Hy1 Hy2 Hy3 Hpos) as [H _].
    intros Hi Hq. exact (H i Hi Hq).
Qed.

(** X15: outside the mesh the cell index is clamped to the nearer end. On
    such a bed, with the position counted in cell widths from MESH_MIN: a
    position from 120 cell widths below MESH_MIN up to a ten-thousandth of
    a cell width before line 1 gets index 0, and one from a ten-thousandth
    of a cell width beyond the last line up to 120 cell widths above
    MESH_MIN gets the index of the last line, GRID_MAX_POINTS - 1 (not that
    of the last cell). Within that distance the quotient fits [int8_t];
    further out its conversion is left to the target. At the last line
    itself the rounding of the quotient decides. *)
Theorem get_cell_index_off_mesh (pos : float) :
  ordinary_bed -> F32.is_finite pos = true ->
  ((- (120 # 1) <= cells_from_min_x pos
    /\ cells_from_min_x pos <= 1 - (1 # 10000))%Q ->
   get_cell_index_x pos = 0)
  /\ ((inject_Z (GRID_MAX_POINTS_X - 1) + (1 # 10000) <= cells_from_min_x pos
       /\ cells_from_min_x pos <= 120 # 1)%Q ->
      get_cell_index_x pos = GRID_MAX_POINTS_X - 1)
  /\ ((- (120 # 1) <= cells_from_min_y pos
       /\ cells_from_min_y pos <= 1 - (1 # 10000))%Q ->
      get_cell_index_y pos = 0)
  /\ ((inject_Z (GRID_MAX_POINTS_Y - 1) + (1 # 10000) <= cells_from_min_y pos
       /\ cells_from_min_y pos <= 120 # 1)%Q ->
      get_cell_index_y pos = GRID_MAX_POINTS_Y - 1).
Proof.
  intros (Hgx & Hgy & Hx1 & Hx2 & Hx3 & Hy1 & Hy2 & Hy3) Hpos.
  destruct (cell_index_on_axis MESH_MIN_X MESH_MAX_X GRID_MAX_POINTS_X pos
              Hgx Hx1 Hx2 Hx3 Hpos) as (_ & Hx0 & Hxl).
  destruct (cell_index_on_axis MESH_MIN_Y MESH_MAX_Y GRID_MAX_POINTS_Y pos
              Hgy Hy1 Hy2 Hy3 Hpos) as (_ & Hy0 & Hyl).
  split; [exact Hx0|]. split; [exact Hxl|]. split; [exact Hy0 | exact Hyl].
Qed.

(** X16: the nearest-index lookup finds the nearest line. On such a bed,
    for every position that is a number and lies within half a cell width
    of line [i], less a ten-thousandth of a cell width,
    [find_closest_x_index] (and [find_closest_y_index] on its axis)
    returns [i]. *)
Theorem find_closest_index_is_nearest (pos : float) (i : Z) :
  ordinary_bed -> F32.is_finite pos = true ->
  (0 <= i <= GRID_MAX_POINTS_X - 1 ->
   (inject_Z i - (1 # 2) + (1 # 10000) <= cells_from_min_x pos
    /\ cells_from_min_x pos <= inject_Z i + (1 # 2) - (1 # 10000))%Q ->
   find_closest_x_index pos = i)
  /\ (0 <= i <= GRID_MAX_POINTS_Y - 1 ->
      (inject_Z i - (1 # 2) + (1 # 10000) <= cells_from_min_y pos
       /\ cells_from_min_y pos <= inject_Z i + (1 # 2) - (1 # 10000))%Q ->
      find_closest_y_index pos = i).
Proof.
  intros (Hgx & Hgy & Hx1 & Hx2 & Hx3 & Hy1 & Hy2 & Hy3) Hpos. split.
  - destruct (closest_index_on_axis MESH_MIN_X MESH_MAX_X GRID_MAX_POINTS_X pos
                Hgx Hx1 Hx2 Hx3 Hpos) as [H _].
    intros Hi Hq. exact (H i Hi Hq).
  - destruct (closest_index_on_axis MESH_MIN_Y MESH_MAX_Y GRID_MAX_POINTS_Y pos
                Hgy Hy1 Hy2 Hy3 Hpos) as [H _].
    intros Hi Hq. exact (H i Hi Hq).
Qed.

(** X17: where the nearest-index lookup says -1. The conversion to
    [int8_t] truncates towards zero, so the two sides of the mesh differ.
    On such a bed, with the position counted in cell widths from MESH_MIN
    and a margin of a ten-thousandth of a cell width at each threshold:
    beyond the last line the lookup returns -1 from half a cell width and
    the margin on; below MESH_MIN it still returns 0 down to a cell width
    and a half less the margin, and -1 from a cell width and a half and
    the margin down (shown up to 120 cell widths from MESH_MIN on either
    side). Within the margin of a threshold the rounding decides. *)
Theorem find_closest_index_off_mesh (pos : float) :
  ordinary_bed -> F32.is_finite pos = true ->
  (((- (3 # 2) + (1 # 10000) <= cells_from_min_x pos
     /\ cells_from_min_x pos <= (1 # 2) - (1 # 10000))%Q ->
    find_closest_x_index pos = 0)
   /\ ((- (120 # 1) <= cells_from_min_x pos
        /\ cells_from_min_x pos <= - (3 # 2) - (1 # 10000))%Q ->
       find_closest_x_index pos = -1)
   /\ ((inject_Z (GRID_MAX_POINTS_X - 1) + (1 # 2) + (1 # 10000)
        <= cells_from_min_x pos
        /\ cells_from_min_x pos <= 120 # 1)%Q ->
       find_closest_x_index pos = -1))
  /\ (((- (3 # 2) + (1 # 10000) <= cells_from_min_y pos
        /\ cells_from_min_y pos <= (1 # 2) - (1 # 10000))%Q ->
       find_closest_y_index pos = 0)
      /\ ((- (120 # 1) <= cells_from_min_y pos
           /\ cells_from_min_y pos <= - (3 # 2) - (1 # 10000))%Q ->
          find_closest_y_index pos = -1)
      /\ ((inject_Z (GRID_MAX_POINTS_Y - 1) + (1 # 2) + (1 # 10000)
           <= cells_from_min_y pos
           /\ cells_from_min_y pos <= 120 # 1)%Q ->
          find_closest_y_index pos = -1)).
Proof.
  intros (Hgx & Hgy & Hx1 & Hx2 & Hx3 & Hy1 & Hy2 & Hy3) Hpos.
  destruct (closest_index_on_axis MESH_MIN_X MESH_MAX_X GRID_MAX_POINTS_X pos
              Hgx Hx1 Hx2 Hx3 Hpos) as (_ & Hx & Hxm & Hxp).
  destruct (closest_index_on_axis MESH_MIN_Y MESH_MAX_Y GRID_MAX_POINTS_Y pos
              Hgy Hy1 Hy2 Hy3 Hpos) as (_ & Hy & Hym & Hyp).
  split; (split; [|split]); assumption.
Qed.

End IndexTheorems.

Lemma get_cell_index_is_containing_cell_witness :
  @get_cell_index_x scenario_cfg (F32.of_int 150) = 1.
Proof.
  destruct (@get_cell_index_is_containing_cell scenario_cfg (F32.of_int 150) 1
              scenario_ordinary_bed eq_refl) as [H _].
  apply H.
  - simpl. lia.
  - split; apply Qle_bool_iff; vm_compute; reflexivity.
Defined.

Lemma get_cell_index_off_mesh_witness :
  @get_cell_index_x scenario_cfg (F32.of_int 250) = 2.
Proof.
  destruct (@get_cell_index_off_mesh scenario_cfg (F32.of_int 250)
              scenario_ordinary_bed eq_refl) as (_ & H & _).
  apply H. split; apply Qle_bool_iff; vm_compute; reflexivity.
Defined.

Lemma find_closest_index_is_nearest_witness :
  @find_closest_x_index scenario_cfg (F32.of_int 60) = 1.
Proof.
  destruct (@find_closest_index_is_nearest scenario_cfg (F32.of_int 60) 1
              scenario_ordinary_bed eq_refl) as [H _].
  apply H.
  - simpl. lia.
  - split; apply Qle_bool_iff; vm_compute; reflexivity.
Defined.

Lemma find_closest_index_off_mesh_witness :
  @find_closest_x_index scenario_cfg (F32.of_int (-100)) = 0.
Proof.
  destruct (@find_closest_index_off_mesh scenario_cfg (F32.of_int (-100))
              scenario_ordinary_bed eq_refl) as [[H _] _].
  apply H. split; apply Qle_bool_iff; vm_compute; reflexivity.
Defined.

Example find_closest_sides :
  @find_closest_x_index scenario_cfg (F32.of_int (-100)) = 0
  /\ @find_closest_x_index scenario_cfg (F32.of_int (-151)) = -1
  /\ @find_closest_x_index scenario_cfg (F32.of_int 251) = -1
  /\ @find_closest_x_index scenario_cfg (F32.of_int 249) = 2.
Proof. vm_compute. repeat split. Qed.

(** ** The cell index, on and off the mesh *)

Section ClaimOnCellIndex.

Context {cfg : Configuration}.

Lemma clamped_floor (f : float) (t g : Z) :
  1 <= g <= 128 -> F32.floor f = Some t -> -128 <= t <= 127 ->
  to_int8 (constrain (float_to_int8 f) 0 (g - 1)) = Z.max 0 (Z.min t (g - 1)).
Proof.
  intros Hg Hf Ht.
  destruct (F32Integral.trunc_floor f t Hf) as (t' & Et & H1 & H2 & H3).
  rewrite (float_to_int8_trunc f t' Et) by (apply in_int8_spec; lia).
  destruct (clamp_to_grid t' g Hg) as [-> _]. lia.
Qed.

(** C1, as amended: on a grid of 1 to 128 lines per axis, for every
    position whatever, off the mesh or not a number, the cell index lies in
    [0, GRID_MAX_POINTS - 1], and it is the floor of the single-precision
    quotient [(pos - MESH_MIN) * RECIPROCAL(MESH_DIST)] clamped into that
    range whenever that floor fits [int8_t]. On a bed with 2 to 15 lines
    per axis and mesh bounds that fit a 16-bit [int], a position that is a
    number gets index 0 when it lies at or below MESH_MIN, by up to 120
    cell widths, and the index GRID_MAX_POINTS - 1 of the last line (not
    GRID_MAX_POINTS - 2) when it lies beyond MESH_MAX by at least a
    ten-thousandth of a cell width, up to 120 cell widths above
    MESH_MIN. *)
Theorem get_cell_index_clamped (pos : float) :
  (grid_dims_ok ->
   (0 <= get_cell_index_x pos <= GRID_MAX_POINTS_X - 1
    /\ forall t, F32.floor (cell_quotient_x pos) = Some t ->
                 -128 <= t <= 127 ->
         get_cell_index_x pos = Z.max 0 (Z.min t (GRID_MAX_POINTS_X - 1)))
   /\
   (0 <= get_cell_index_y pos <= GRID_MAX_POINTS_Y - 1
    /\ forall t, F32.floor (cell_quotient_y pos) = Some t ->
                 -128 <= t <= 127 ->
         get_cell_index_y pos = Z.max 0 (Z.min t (GRID_MAX_POINTS_Y - 1))))
  /\
  (ordinary_bed -> F32.is_finite pos = true ->
   (((- (120 # 1) <= cells_from_min_x pos /\ cells_from_min_x pos <= 0)%Q ->
     get_cell_index_x pos = 0)
    /\ ((inject_Z (GRID_MAX_POINTS_X - 1) + (1 # 10000) <= cells_from_min_x pos
         /\ cells_from_min_x pos <= 120 # 1)%Q ->
        get_cell_index_x pos = GRID_MAX_POINTS_X - 1))
   /\
   (((- (120 # 1) <= cells_from_min_y pos /\ cells_from_min_y pos <= 0)%Q ->
     get_cell_index_y pos = 0)
    /\ ((inject_Z (GRID_MAX_POINTS_Y - 1) + (1 # 10000) <= cells_from_min_y pos
         /\ cells_from_min_y pos <= 120 # 1)%Q ->
        get_cell_index_y pos = GRID_MAX_POINTS_Y - 1))).
Proof.
  split.
  - intros Hg. split; split.
    + now apply get_cell_index_x_range.
    + intros t Hf Ht. destruct Hg as [Hx _]. now apply clamped_floor.
    + now apply get_cell_index_y_range.
    + intros t Hf Ht. destruct Hg as [_ Hy]. now apply clamped_floor.
  - intros (Hgx & Hgy & Hx1 & Hx2 & Hx3 & Hy1 & Hy2 & Hy3) Hpos.
    destruct (cell_index_on_axis MESH_MIN_X MESH_MAX_X GRID_MAX_POINTS_X pos
                Hgx Hx1 Hx2 Hx3 Hpos) as (_ & Hx0 & Hxl).
    destruct (cell_index_on_axis MESH_MIN_Y MESH_MAX_Y GRID_MAX_POINTS_Y pos
                Hgy Hy1 Hy2 Hy3 Hpos) as (_ & Hy0 & Hyl).
    split; split.
    + intros [H1 H2]. apply Hx0.
      change (cells_from_min MESH_MIN_X MESH_MAX_X GRID_MAX_POINTS_X pos)
        with (cells_from_min_x pos).
      split; lra.
    + exact Hxl.
    + intros [H1 H2]. apply Hy0.
      change (cells_from_min MESH_MIN_Y MESH_MAX_Y GRID_MAX_POINTS_Y pos)
        with (cells_from_min_y pos).
      split; lra.
    + exact Hyl.
Qed.

End ClaimOnCellIndex.

Lemma get_cell_index_clamped_witness :
  @get_cell_index_x scenario_cfg (F32.of_int 150) = 1
  /\ @get_cell_index_y scenario_cfg (F32.of_int 150) = 1
  /\ @get_cell_index_x scenario_cfg (F32.of_int (-30)) = 0
  /\ @get_cell_index_x scenario_cfg (F32.of_int 250) = 2.
Proof.
  destruct (@get_cell_index_clamped scenario_cfg (F32.of_int 150))
    as [H _].
  destruct (H scenario_grid_dims_ok) as [[_ Hx] [_ Hy]].
  split; [apply (Hx 1); [reflexivity | lia]|].
  split; [apply (Hy 1); [reflexivity | lia]|].
  split.
  - destruct (@get_cell_index_clamped scenario_cfg (F32.of_int (-30)))
      as [_ H0].
    destruct (H0 scenario_ordinary_bed eq_refl) as [[H1 _] _].
    apply H1. split; apply Qle_bool_iff; vm_compute; reflexivity.
  - destruct (@get_cell_index_clamped scenario_cfg (F32.of_int 250))
      as [_ H0].
    destruct (H0 scenario_ordinary_bed eq_refl) as [[_ H1] _].
    apply H1. split; apply Qle_bool_iff; vm_compute; reflexivity.
Defined.

(** At the last line itself the margin matters: on the 220 mm bed the
    quotient of position 220 rounds below 2, and the lookup gives the
    last cell, 1, where one step further out it gives 2. *)
Example cell_index_at_last_line :
  @get_cell_index_x bed220_cfg (F32.of_int 220) = 1
  /\ @get_cell_index_x bed220_cfg (F32.of_int 221) = 2.
Proof. vm_compute. split; reflexivity. Qed.

(** ** The positions of the mesh lines *)

Section LineAnalysis.

#[local] Open Scope Q_scope.

(* span, cells, exact cell width, mesh minimum, index of the line *)
Variables A B W Mn I : Q.
(* the values of the floating-point results *)
Variables vD vP vX : Q.

Hypothesis HB : 1 <= B /\ B <= 14.
Hypothesis HA : 1 <= A /\ A <= 65535.
Hypothesis HW : W * B == A.
Hypothesis HMn : -32768 <= Mn /\ Mn + A <= 32767.
Hypothesis HI : 0 <= I /\ I <= B + 1.
Hypothesis HD : - (W * unit_roundoff + underflow_bound) <= vD - W
                /\ vD - W <= W * unit_roundoff + underflow_bound.

Lemma line_product_size : Qabs (I * vD) <= 16 * W.
Proof.
  pose proof (W_bounds A B W HB HA HW) as [HW1 HW2].
  pose proof (vD_close A B W vD HB HA HW HD) as (HD1 & HD2 & HD3 & HD4).
  destruct HI, HB. apply Qabs_Qle_condition. split; nra.
Qed.

Hypothesis HP : - (16 * W * unit_roundoff + underflow_bound) <= vP - I * vD
                /\ vP - I * vD <= 16 * W * unit_roundoff + underflow_bound.

Lemma line_product_near :
  - (W * (1 # 500000)) <= vP - I * W /\ vP - I * W <= W * (1 # 500000).
Proof.
  pose proof (W_bounds A B W HB HA HW) as [HW1 HW2].
  unfold unit_roundoff, underflow_bound in *.
  assert (Hd : - ((15 # 1) * (W * (1 # 16777216) + (1 # 1125899906842624)))
               <= I * (vD - W)
               /\ I * (vD - W)
                  <= (15 # 1) * (W * (1 # 16777216) + (1 # 1125899906842624))).
  { apply Qmul_bounds; [destruct HI, HB; split; lra | exact HD]. }
  assert (E : I * (vD - W) == I * vD - I * W) by ring.
  rewrite E in Hd. split; lra.
Qed.

Lemma line_sum_size : Qabs (Mn + vP) <= 32768 + 16 * W.
Proof.
  pose proof (W_bounds A B W HB HA HW) as [HW1 HW2].
  pose proof line_product_near as [H1 H2].
  assert (H0 : 0 <= I * W) by (destruct HI; nra).
  assert (H3 : I * W <= 15 * W) by (destruct HI, HB; nra).
  destruct HMn. apply Qabs_Qle_condition. split; lra.
Qed.

Hypothesis HX :
  - ((32768 + 16 * W) * unit_roundoff + underflow_bound) <= vX - (Mn + vP)
  /\ vX - (Mn + vP) <= (32768 + 16 * W) * unit_roundoff + underflow_bound.

(** The computed position of line [I] against the exact one. *)
Lemma line_near :
  - ((1 # 500) + W * (1 # 300000)) <= vX - (Mn + I * W)
  /\ vX - (Mn + I * W) <= (1 # 500) + W * (1 # 300000).
Proof.
  pose proof (W_bounds A B W HB HA HW) as [HW1 HW2].
  pose proof line_product_near as [H1 H2].
  unfold unit_roundoff, underflow_bound in *. split; lra.
Qed.

End LineAnalysis.

(** A difference of two numbers that are apart is a number other than
    zero. *)
Lemma sub_apart (a b : float) :
  F32.is_finite a = true -> F32.is_finite b = true ->
  (1 # 1000 <= val a - val b /\ val a - val b <= 1073741824)%Q ->
  F32.is_finite (F32.sub a b) = true
  /\ F32.is_nonzero_number (F32.sub a b) = true.
Proof.
  intros Ha Hb [H1 H2].
  assert (Habs : (Qabs (val a - val b) <= 1073741824)%Q)
    by (apply Qabs_Qle_condition; split; lra).
  destruct (sub_error a b Ha Hb (below_pow2_100_wide _ Habs)) as [Hf He].
  split; [exact Hf|].
  pose proof (error_below _ _ _ He (Qle_refl _)) as [Hlo _].
  rewrite Qabs_pos in Hlo by lra.
  unfold unit_roundoff, underflow_bound in Hlo.
  destruct (F32.sub a b) as [s|s| |s m e]; try discriminate; try reflexivity.
  exfalso. simpl in Hlo. lra.
Qed.

Lemma sub_within (a b : float) :
  F32.is_finite a = true -> F32.is_finite b = true ->
  (Qabs (val a) <= 1000000)%Q -> (Qabs (val b) <= 1000000)%Q ->
  F32.is_finite (F32.sub a b) = true.
Proof.
  intros Ha Hb Hva Hvb.
  apply Qabs_Qle_condition in Hva, Hvb.
  apply (sub_error a b Ha Hb). apply below_pow2_100_wide.
  apply Qabs_Qle_condition. split; lra.
Qed.

Section LineCore.

Variables mn mx g : Z.

Hypothesis Hg : 2 <= g <= 15.
Hypothesis Hmn : -32768 <= mn.
Hypothesis Hlt : mn < mx.
Hypothesis Hmx : mx <= 32767.

(** The cell width and its reciprocal are numbers. *)
Lemma dist_finite :
  F32.is_finite (mesh_dist mn mx g) = true
  /\ F32.is_finite (F32.div F32.one (mesh_dist mn mx g)) = true
  /\ (- (cell_width mn mx g * (1 # 10000000))
      <= val (mesh_dist mn mx g) - cell_width mn mx g
      /\ val (mesh_dist mn mx g) - cell_width mn mx g
         <= cell_width mn mx g * (1 # 10000000))%Q.
Proof.
  set (A := inject_Z (mx - mn)). set (B := inject_Z (g - 1)).
  assert (HB : (1 <= B /\ B <= 14)%Q).
  { unfold B. split; [change 1%Q with (inject_Z 1) | change 14%Q with (inject_Z 14)];
      rewrite <- Zle_Qle; lia. }
  assert (HA : (1 <= A /\ A <= 65535)%Q).
  { unfold A. split; [change 1%Q with (inject_Z 1) | change 65535%Q with (inject_Z 65535)];
      rewrite <- Zle_Qle; lia. }
  set (W := cell_width mn mx g).
  assert (HW : (W * B == A)%Q) by (unfold W, cell_width; fold A B; field; lra).
  pose proof (W_bounds A B W HB HA HW) as [HW1 HW2].
  destruct (of_int_exact (mx - mn) ltac:(lia)) as [FA VA]. fold A in VA.
  destruct (of_int_exact (g - 1) ltac:(lia)) as [FB VB]. fold B in VB.
  assert (HWeq : (A / B == W)%Q) by (unfold W, cell_width; reflexivity).
  assert (HWabs : (Qabs W == W)%Q) by (apply Qabs_pos; lra).
  destruct (div_error (F32.of_int (mx - mn)) (F32.of_int (g - 1)) FA FB)
    as [FD ED].
  { rewrite VB. lra. }
  { rewrite VA, VB, HWeq. apply below_pow2_100. rewrite HWabs. lra. }
  fold (mesh_dist mn mx g) in FD, ED.
  rewrite VA, VB, HWeq in ED.
  set (D := mesh_dist mn mx g) in *. set (vD := val D) in *.
  assert (HD := error_below vD W W ED ltac:(rewrite HWabs; lra)).
  pose proof (vD_close A B W vD HB HA HW HD) as (HD1 & HD2 & HD3 & HD4).
  split; [exact FD|]. split.
  - apply (div_error F32.one D eq_refl FD).
    + fold vD. lra.
    + rewrite val_one. fold vD. apply below_pow2_100.
      assert (Hinv : (0 < / vD)%Q) by (apply Qinv_lt_0_compat; lra).
      assert (E : (vD * / vD == 1)%Q) by (apply Qmult_inv_r; lra).
      unfold Qdiv. setoid_replace (1 * / vD)%Q with (/ vD)%Q by ring.
      rewrite Qabs_pos by lra. nra.
  - split; lra.
Qed.

(** Line [i], as the fallback of [mesh_index_to_xpos] and the uniform
    table compute it, against its exact position; [i] may be the line after
    the last. *)
Lemma line_position_near (i : Z) :
  0 <= i <= g ->
  let X := F32.add (F32.of_int mn) (F32.mul (F32.of_int i) (mesh_dist mn mx g)) in
  F32.is_finite X = true
  /\ (- ((1 # 500) + cell_width mn mx g * (1 # 300000))
      <= val X - line_position mn mx g i
      /\ val X - line_position mn mx g i
         <= (1 # 500) + cell_width mn mx g * (1 # 300000))%Q.
Proof.
  intros Hi X.
  set (A := inject_Z (mx - mn)). set (B := inject_Z (g - 1)).
  set (I := inject_Z i). set (Mn := inject_Z mn).
  assert (HB : (1 <= B /\ B <= 14)%Q).
  { unfold B. split; [change 1%Q with (inject_Z 1) | change 14%Q with (inject_Z 14)];
      rewrite <- Zle_Qle; lia. }
  assert (HA : (1 <= A /\ A <= 65535)%Q).
  { unfold A. split; [change 1%Q with (inject_Z 1) | change 65535%Q with (inject_Z 65535)];
      rewrite <- Zle_Qle; lia. }
  assert (HI : (0 <= I /\ I <= B + 1)%Q).
  { unfold I, B. split; [change 0%Q with (inject_Z 0)|].
    - rewrite <- Zle_Qle; lia.
    - change 1%Q with (inject_Z 1). rewrite <- inject_Z_plus, <- Zle_Qle. lia. }
  assert (HMn : (-32768 <= Mn /\ Mn + A <= 32767)%Q).
  { unfold Mn, A. rewrite <- inject_Z_plus. split;
      [change (-32768)%Q with (inject_Z (-32768)) | change 32767%Q with (inject_Z 32767)];
      rewrite <- Zle_Qle; lia. }
  set (W := cell_width mn mx g).
  assert (HW : (W * B == A)%Q) by (unfold W, cell_width; fold A B; field; lra).
  pose proof (W_bounds A B W HB HA HW) as [HW1 HW2].
  destruct (of_int_exact (mx - mn) ltac:(lia)) as [FA VA]. fold A in VA.
  destruct (of_int_exact (g - 1) ltac:(lia)) as [FB VB]. fold B in VB.
  destruct (of_int_exact i ltac:(lia)) as [FI VI]. fold I in VI.
  destruct (of_int_exact mn ltac:(lia)) as [FM VM]. fold Mn in VM.
  assert (HWeq : (A / B == W)%Q) by (unfold W, cell_width; reflexivity).
  assert (HWabs : (Qabs W == W)%Q) by (apply Qabs_pos; lra).
  destruct (div_error (F32.of_int (mx - mn)) (F32.of_int (g - 1)) FA FB)
    as [FD ED].
  { rewrite VB. lra. }
  { rewrite VA, VB, HWeq. apply below_pow2_100. rewrite HWabs. lra. }
  fold (mesh_dist mn mx g) in FD, ED.
  rewrite VA, VB, HWeq in ED.
  set (D := mesh_dist mn mx g) in *. set (vD := val D) in *.
  assert (HD := error_below vD W W ED ltac:(rewrite HWabs; lra)).
  (* P = i * D *)
  pose proof (line_product_size A B W I vD HB HA HW HI HD) as HP0.
  destruct (mul_error (F32.of_int i) D FI FD) as [FP EP].
  { rewrite VI. fold vD. apply below_pow2_100_wide.
    eapply Qle_trans; [exact HP0|]. lra. }
  rewrite VI in EP. fold vD in EP.
  set (vP := val (F32.mul (F32.of_int i) D)) in *.
  assert (HP := error_below vP (I * vD) (16 * W) EP HP0).
  (* X = mn + P *)
  pose proof (line_sum_size A B W Mn I vD vP HB HA HW HMn HI HD HP) as HX0.
  destruct (add_error (F32.of_int mn) (F32.mul (F32.of_int i) D) FM FP)
    as [FX EX].
  { rewrite VM. fold vP. apply below_pow2_100_wide.
    eapply Qle_trans; [exact HX0|]. lra. }
  rewrite VM in EX. fold vP in EX. fold X in FX, EX.
  assert (HX := error_below (val X) (Mn + vP) (32768 + 16 * W) EX HX0).
  split; [exact FX|].
  unfold line_position. fold Mn I W.
  exact (line_near A B W Mn I vD vP (val X) HB HA HW HI HD HP HX).
Qed.

(** Consecutive lines are apart, and the difference the interpolation
    divides by is a number other than zero. *)
Lemma lines_apart (i : Z) :
  0 <= i <= g - 1 ->
  let X := fun k => F32.add (F32.of_int mn)
                      (F32.mul (F32.of_int k) (mesh_dist mn mx g)) in
  (val (X i) < val (X (i + 1)%Z))%Q
  /\ F32.is_nonzero_number (F32.sub (X (i + 1)) (X i)) = true.
Proof.
  intros Hi X.
  destruct (line_position_near i ltac:(lia)) as [F0 [L0 U0]].
  destruct (line_position_near (i + 1) ltac:(lia)) as [F1 [L1 U1]].
  fold (X i) in F0, L0, U0. fold (X (i + 1)) in F1, L1, U1.
  pose proof (cell_width_bounds mn mx g Hg Hmn Hlt Hmx) as [HW1 HW2].
  unfold line_position in *. rewrite inject_Z_plus in L1, U1.
  change (inject_Z 1) with 1%Q in L1, U1.
  set (W := cell_width mn mx g) in *.
  assert (Hd : (1 # 1000 <= val (X (i + 1)%Z) - val (X i)
                /\ val (X (i + 1)%Z) - val (X i) <= 1073741824)%Q).
  { split; lra. }
  split; [lra|]. now apply sub_apart.
Qed.

End LineCore.

Section LinesOfTheMesh.

Context {cfg : Configuration}.

Lemma ordinary_grid_dims : ordinary_bed -> grid_dims_ok.
Proof. unfold ordinary_bed, grid_dims_ok. lia. Qed.

Lemma mesh_index_to_xpos_line (i : Z) :
  uniform_tables -> 0 <= i <= GRID_MAX_POINTS_X -> GRID_MAX_POINTS_X <= 255 ->
  mesh_index_to_xpos i
  = F32.add (F32.of_int MESH_MIN_X) (F32.mul (F32.of_int i) MESH_X_DIST).
Proof.
  intros Hu Hi Hg.
  destruct (Z.eq_dec i GRID_MAX_POINTS_X) as [->|Hne].
  - unfold mesh_index_to_xpos, to_uint8. rewrite Z.mod_small by lia.
    now rewrite Z.ltb_irrefl.
  - apply mesh_index_to_xpos_uniform; [exact Hu | lia | lia].
Qed.

Lemma mesh_index_to_ypos_line (i : Z) :
  uniform_tables -> 0 <= i <= GRID_MAX_POINTS_Y -> GRID_MAX_POINTS_Y <= 255 ->
  mesh_index_to_ypos i
  = F32.add (F32.of_int MESH_MIN_Y) (F32.mul (F32.of_int i) MESH_Y_DIST).
Proof.
  intros Hu Hi Hg.
  destruct (Z.eq_dec i GRID_MAX_POINTS_Y) as [->|Hne].
  - unfold mesh_index_to_ypos, to_uint8. rewrite Z.mod_small by lia.
    now rewrite Z.ltb_irrefl.
  - apply mesh_index_to_ypos_uniform; [exact Hu | lia | lia].
Qed.

(** X18: the mesh lines are where they should be. On a bed with 2 to 15
    lines per axis and mesh bounds that fit a 16-bit [int], with the tables
    of evenly spaced lines, the position [mesh_index_to_xpos] gives for
    line [i] (for the table's lines and for the computed line after the
    last) is a number within 0.002 mm plus a 300000th of a cell width of
    the exact [MESH_MIN + i * (MESH_MAX - MESH_MIN) / (GRID_MAX_POINTS - 1)],
    and each line lies above the one before, so that the difference
    [calc_z0] divides by is a number other than zero; likewise on Y. The
    reciprocal of the cell width is a number too. *)
Theorem mesh_lines_in_place (i : Z) :
  uniform_tables -> ordinary_bed ->
  (0 <= i <= GRID_MAX_POINTS_X ->
   F32.is_finite (mesh_index_to_xpos i) = true
   /\ (Qabs (val (mesh_index_to_xpos i) - line_position_x i)
       <= (1 # 500) + cell_width_x * (1 # 300000))%Q
   /\ (i < GRID_MAX_POINTS_X ->
       (val (mesh_index_to_xpos i) < val (mesh_index_to_xpos (i + 1)))%Q
       /\ F32.is_nonzero_number
            (F32.sub (mesh_index_to_xpos (i + 1)) (mesh_index_to_xpos i))
          = true))
  /\ (0 <= i <= GRID_MAX_POINTS_Y ->
      F32.is_finite (mesh_index_to_ypos i) = true
      /\ (Qabs (val (mesh_index_to_ypos i) - line_position_y i)
          <= (1 # 500) + cell_width_y * (1 # 300000))%Q
      /\ (i < GRID_MAX_POINTS_Y ->
          (val (mesh_index_to_ypos i) < val (mesh_index_to_ypos (i + 1)))%Q
          /\ F32.is_nonzero_number
               (F32.sub (mesh_index_to_ypos (i + 1)) (mesh_index_to_ypos i))
             = true))
  /\ F32.is_finite (RECIPROCAL MESH_X_DIST) = true
  /\ F32.is_finite (RECIPROCAL MESH_Y_DIST) = true.
Proof.
  intros Hu (Hgx & Hgy & Hx1 & Hx2 & Hx3 & Hy1 & Hy2 & Hy3).
  split; [|split; [|split]].
  - intros Hi.
    destruct (line_position_near MESH_MIN_X MESH_MAX_X GRID_MAX_POINTS_X
                Hgx Hx1 Hx2 Hx3 i Hi) as [F [L U]].
    rewrite (mesh_index_to_xpos_line i Hu Hi ltac:(lia)).
    split; [exact F|]. split.
    + apply Qabs_Qle_condition. split; [exact L | exact U].
    + intros Hlt.
      rewrite (mesh_index_to_xpos_line (i + 1) Hu ltac:(lia) ltac:(lia)).
      exact (lines_apart MESH_MIN_X MESH_MAX_X GRID_MAX_POINTS_X
               Hgx Hx1 Hx2 Hx3 i ltac:(lia)).
  - intros Hi.
    destruct (line_position_near MESH_MIN_Y MESH_MAX_Y GRID_MAX_POINTS_Y
                Hgy Hy1 Hy2 Hy3 i Hi) as [F [L U]].
    rewrite (mesh_index_to_ypos_line i Hu Hi ltac:(lia)).
    split; [exact F|]. split.
    + apply Qabs_Qle_condition. split; [exact L | exact U].
    + intros Hlt.
      rewrite (mesh_index_to_ypos_line (i + 1) Hu ltac:(lia) ltac:(lia)).
      exact (lines_apart MESH_MIN_Y MESH_MAX_Y GRID_MAX_POINTS_Y
               Hgy Hy1 Hy2 Hy3 i ltac:(lia)).
  - exact (proj1 (proj2 (dist_finite MESH_MIN_X MESH_MAX_X GRID_MAX_POINTS_X
                           Hgx Hx1 Hx2 Hx3))).
  - exact (proj1 (proj2 (dist_finite MESH_MIN_Y MESH_MAX_Y GRID_MAX_POINTS_Y
                           Hgy Hy1 Hy2 Hy3))).
Qed.

(** What the interpolation needs of a cell of such a bed. *)
Lemma ordinary_cell_x (rx0 : float) (cx : Z) :
  uniform_tables -> ordinary_bed ->
  0 <= cx <= GRID_MAX_POINTS_X - 1 ->
  F32.is_finite rx0 = true -> (Qabs (val rx0) <= 1000000)%Q ->
  F32.is_finite (F32.sub rx0 (mesh_index_to_xpos cx)) = true
  /\ F32.is_nonzero_number
       (F32.sub (mesh_index_to_xpos (cx + 1)) (mesh_index_to_xpos cx)) = true.
Proof.
  intros Hu (Hgx & Hgy & Hx1 & Hx2 & Hx3 & Hy1 & Hy2 & Hy3) Hc Hf Hv.
  destruct (line_position_near MESH_MIN_X MESH_MAX_X GRID_MAX_POINTS_X
              Hgx Hx1 Hx2 Hx3 cx ltac:(lia)) as [F [L U]].
  rewrite (mesh_index_to_xpos_line cx Hu ltac:(lia) ltac:(lia)).
  rewrite (mesh_index_to_xpos_line (cx + 1) Hu ltac:(lia) ltac:(lia)).
  change MESH_X_DIST with (mesh_dist MESH_MIN_X MESH_MAX_X GRID_MAX_POINTS_X).
  split.
  - apply sub_within; [exact Hf | exact F | exact Hv |].
    pose proof (cell_width_bounds _ _ _ Hgx Hx1 Hx2 Hx3) as [HW1 HW2].
    unfold line_position in L, U.
    pose proof (inject_Z_range cx 0 14 ltac:(lia)) as [Hc0 Hc1].
    assert (Hmr : -32768 <= MESH_MIN_X <= 32767) by lia.
    pose proof (inject_Z_range _ _ _ Hmr) as [Hm0 Hm1].
    change (inject_Z 0) with 0%Q in Hc0. change (inject_Z 14) with 14%Q in Hc1.
    change (inject_Z (-32768)) with (-32768)%Q in Hm0.
    change (inject_Z 32767) with 32767%Q in Hm1.
    set (W := cell_width MESH_MIN_X MESH_MAX_X GRID_MAX_POINTS_X) in *.
    assert (H0 : (0 <= inject_Z cx * W)%Q) by nra.
    assert (H1 : (inject_Z cx * W <= 14 * 65535)%Q) by nra.
    apply Qabs_Qle_condition. split; lra.
  - exact (proj2 (lines_apart MESH_MIN_X MESH_MAX_X GRID_MAX_POINTS_X
                    Hgx Hx1 Hx2 Hx3 cx ltac:(lia))).
Qed.

Lemma ordinary_cell_y (ry0 : float) (cy : Z) :
  uniform_tables -> ordinary_bed ->
  0 <= cy <= GRID_MAX_POINTS_Y - 1 ->
  F32.is_finite ry0 = true -> (Qabs (val ry0) <= 1000000)%Q ->
  F32.is_finite (F32.sub ry0 (mesh_index_to_ypos cy)) = true
  /\ F32.is_nonzero_number
       (F32.sub (mesh_index_to_ypos (cy + 1)) (mesh_index_to_ypos cy)) = true.
Proof.
  intros Hu (Hgx & Hgy & Hx1 & Hx2 & Hx3 & Hy1 & Hy2 & Hy3) Hc Hf Hv.
  destruct (line_position_near MESH_MIN_Y MESH_MAX_Y GRID_MAX_POINTS_Y
              Hgy Hy1 Hy2 Hy3 cy ltac:(lia)) as [F [L U]].
  rewrite (mesh_index_to_ypos_line cy Hu ltac:(lia) ltac:(lia)).
  rewrite (mesh_index_to_ypos_line (cy + 1) Hu ltac:(lia) ltac:(lia)).
  change MESH_Y_DIST with (mesh_dist MESH_MIN_Y MESH_MAX_Y GRID_MAX_POINTS_Y).
  split.
  - apply sub_within; [exact Hf | exact F | exact Hv |].
    pose proof (cell_width_bounds _ _ _ Hgy Hy1 Hy2 Hy3) as [HW1 HW2].
    unfold line_position in L, U.
    pose proof (inject_Z_range cy 0 14 ltac:(lia)) as [Hc0 Hc1].
    assert (Hmr : -32768 <= MESH_MIN_Y <= 32767) by lia.
    pose proof (inject_Z_range _ _ _ Hmr) as [Hm0 Hm1].
    change (inject_Z 0) with 0%Q in Hc0. change (inject_Z 14) with 14%Q in Hc1.
    change (inject_Z (-32768)) with (-32768)%Q in Hm0.
    change (inject_Z 32767) with 32767%Q in Hm1.
    set (W := cell_width MESH_MIN_Y MESH_MAX_Y GRID_MAX_POINTS_Y) in *.
    assert (H0 : (0 <= inject_Z cy * W)%Q) by nra.
    assert (H1 : (inject_Z cy * W <= 14 * 65535)%Q) by nra.
    apply Qabs_Qle_condition. split; lra.
  - exact (proj2 (lines_apart MESH_MIN_Y MESH_MAX_Y GRID_MAX_POINTS_Y
                    Hgy Hy1 Hy2 Hy3 cy ltac:(lia))).
Qed.

(** X19: a mesh that holds one height everywhere corrects by that height
    everywhere. On such a bed, when every point of the grid holds the
    number [z], [get_z_correction] returns [z] (a stored -0.0 as +0.0) at
    every position within a kilometre of the origin that reaches the
    interpolation, on the mesh or off it, exactly: no rounding error and no
    extrapolation. *)
Theorem get_z_correction_on_constant_mesh (rx0 ry0 z : float)
        (s : ubl_state) :
  uniform_tables -> ordinary_bed ->
  (forall x y, in_grid x y -> mesh_at (z_values s) x y = Some z) ->
  F32.is_finite z = true ->
  F32.is_finite rx0 = true -> F32.is_finite ry0 = true ->
  (Qabs (val rx0) <= 1000000)%Q -> (Qabs (val ry0) <= 1000000)%Q ->
  reaches_interpolation rx0 ry0 ->
  exists r s',
    get_z_correction rx0 ry0 s = Some (r, s')
    /\ same_number r z /\ frame s s'.
Proof.
  intros Hu Ho Hm Hz Hfx Hfy Hvx Hvy Hr.
  pose proof (ordinary_grid_dims Ho) as Hg.
  pose proof (get_cell_index_x_range rx0 Hg) as Hcx.
  pose proof (get_cell_index_y_range ry0 Hg) as Hcy.
  set (cx := get_cell_index_x rx0) in *. set (cy := get_cell_index_y ry0) in *.
  pose proof (upper_x_range cx Hcx) as Hux.
  pose proof (upper_y_range cy Hcy) as Huy.
  assert (Hc : cell_values (z_values s) cx cy = Some (z, z, z, z)).
  { unfold cell_values. rewrite !Hm by (split; assumption). reflexivity. }
  destruct (ordinary_cell_x rx0 cx Hu Ho Hcx Hfx Hvx) as [Hx Hwx].
  destruct (ordinary_cell_y ry0 cy Hu Ho Hcy Hfy Hvy) as [Hy Hwy].
  pose proof (get_z_correction_run rx0 ry0 s) as Hrun.
  rewrite (z_correction_value_on_mesh _ _ _ _ _ _ _ Hr Hc) in Hrun.
  fold cx cy in Hrun. unfold bilinear in Hrun.
  destruct Hrun as (s' & E & Hf).
  destruct (F32Edge.calc_z0_equal_ends rx0 _ _ z Hx Hwx Hz) as [H1 _].
  pose proof (F32Edge.calc_z0_same_ends ry0 _ _ z _ _ Hy Hwy Hz H1 H1) as H0.
  eexists. exists s'. split; [exact E|]. split; [|exact Hf].
  rewrite nan_to_zero_finite; [exact H0|].
  exact (F32Zero.same_number_finite _ _ H0 Hz).
Qed.

End LinesOfTheMesh.

Lemma mesh_lines_in_place_witness :
  F32.is_finite (@mesh_index_to_xpos scenario_cfg 1) = true
  /\ F32.is_nonzero_number
       (F32.sub (@mesh_index_to_xpos scenario_cfg 2)
                (@mesh_index_to_xpos scenario_cfg 1)) = true.
Proof.
  destruct (@mesh_lines_in_place scenario_cfg 1 scenario_uniform_tables
              scenario_ordinary_bed) as [H _].
  destruct H as (F & _ & H).
  - simpl. lia.
  - split; [exact F|]. apply H. simpl. lia.
Defined.

Lemma constant_mesh_3_3 (z : float) (x y : Z) :
  @in_grid scenario_cfg x y ->
  mesh_at (constant_mesh z 3 3) x y = Some z.
Proof.
  unfold in_grid. simpl. intros [Hx Hy].
  assert (Ex : x = 0 \/ x = 1 \/ x = 2) by lia.
  assert (Ey : y = 0 \/ y = 1 \/ y = 2) by lia.
  destruct Ex as [-> | [-> | ->]], Ey as [-> | [-> | ->]]; reflexivity.
Defined.

Lemma scenario_reaches (rx0 ry0 : float) :
  @reaches_interpolation scenario_cfg rx0 ry0.
Proof. left. reflexivity. Defined.

Lemma get_z_correction_on_constant_mesh_witness :
  exists r s',
    @get_z_correction scenario_cfg (F32.of_int 50) (F32.of_int 250)
      (quiet (constant_mesh (F32.of_ratio 3 10) 3 3)) = Some (r, s')
    /\ same_number r (F32.of_ratio 3 10).
Proof.
  destruct (@get_z_correction_on_constant_mesh scenario_cfg (F32.of_int 50)
              (F32.of_int 250) (F32.of_ratio 3 10)
              (quiet (constant_mesh (F32.of_ratio 3 10) 3 3))
              scenario_uniform_tables scenario_ordinary_bed
              (constant_mesh_3_3 (F32.of_ratio 3 10)) eq_refl eq_refl eq_refl)
    as (r & s' & E & Hs & _).
  - apply Qabs_Qle_condition; split; apply Qle_bool_iff; vm_compute; reflexivity.
  - apply Qabs_Qle_condition; split; apply Qle_bool_iff; vm_compute; reflexivity.
  - exact (scenario_reaches _ _).
  - exists r, s'. split; [exact E | exact Hs].
Defined.

(** ** The accuracy of the interpolation *)

Lemma pow2_m150_tiny : (pow2 (-150) <= tiny_bound)%Q.
Proof.
  assert (H : (pow2 (-150) <= pow2 (-100))%Q) by (apply pow2_le; lia).
  assert (E : (pow2 (-100) == tiny_bound)%Q) by reflexivity.
  rewrite E in H. exact H.
Qed.

(** The error of an operation whose exact result is at most [c] in size,
    with the finer bound on what an underflow adds. *)
Lemma error_below_fine (v x c : Q) :
  (Qabs (v - x) <= pow2 (-24) * Qabs x + pow2 (-150))%Q ->
  (Qabs x <= c)%Q ->
  (- (c * unit_roundoff + tiny_bound) <= v - x
   /\ v - x <= c * unit_roundoff + tiny_bound)%Q.
Proof.
  intros H Hc. rewrite pow2_m24 in H.
  pose proof pow2_m150_tiny as Hs. unfold unit_roundoff.
  apply Qabs_Qle_condition. eapply Qle_trans; [exact H|].
  pose proof (Qabs_nonneg x). lra.
Qed.

Lemma below_pow2_100_huge (x : Q) :
  (Qabs x <= 1152921504606846976)%Q -> (Qabs x < pow2 100)%Q.
Proof.
  intros H.
  assert (H1 : (pow2 61 <= pow2 100)%Q) by (apply pow2_le; lia).
  assert (E : (pow2 61 == 2305843009213693952)%Q) by reflexivity.
  rewrite E in H1. lra.
Qed.

Section InterpolationAnalysis.

#[local] Open Scope Q_scope.

(* the two heights, the offset [a0 - a1] of the position, the width
   [a2 - a1] of the cell, a bound on the heights, and the exact slope
   term [(z2 - z1) * (a0 - a1) / (a2 - a1)] *)
Variables Z1 Z2 a Wd M T : Q.
(* the values of the floating-point results, in the order of evaluation,
   with the exact quotient [Qv] of the two that are divided *)
Variables d n p w Qv qv r : Q.

Hypothesis HM : 0 <= M /\ M <= 1048576.
Hypothesis HZ1 : - M <= Z1 /\ Z1 <= M.
Hypothesis HZ2 : - M <= Z2 /\ Z2 <= M.
Hypothesis HWd : 1 # 16 <= Wd /\ Wd <= 2097152.
Hypothesis Ha : - Wd <= a /\ a <= 2 * Wd.
Hypothesis HT : T * Wd == (Z2 - Z1) * a.

Lemma height_times_width : 0 <= M * Wd /\ M * Wd <= 2199023255552.
Proof. destruct HM, HWd. split; nra. Qed.

Lemma slope_term_size :
  (- (4 * (M * Wd)) <= (Z2 - Z1) * a /\ (Z2 - Z1) * a <= 4 * (M * Wd))
  /\ - (4 * M) <= T /\ T <= 4 * M.
Proof.
  assert (H1 : - (2 * M) <= Z2 - Z1 /\ Z2 - Z1 <= 2 * M)
    by (destruct HZ1, HZ2; split; lra).
  assert (H2 : - (2 * Wd) <= a /\ a <= 2 * Wd)
    by (destruct Ha, HWd; split; lra).
  pose proof (Qmul_bounds _ _ _ _ H1 H2) as [H3 H4].
  assert (E : 2 * M * (2 * Wd) == 4 * (M * Wd)) by ring.
  rewrite E in H3, H4. split; [split; assumption|].
  destruct HWd as [HW1 HW2].
  assert (Hpos : 0 < Wd) by lra.
  split.
  - apply (Qge_of_mul_pos Wd); [exact Hpos|].
    setoid_replace (Wd * (T - - (4 * M))) with (T * Wd + 4 * (M * Wd)) by ring.
    rewrite HT. lra.
  - apply (Qle_of_mul_pos Wd); [exact Hpos|].
    setoid_replace (Wd * (T - 4 * M)) with (T * Wd - 4 * (M * Wd)) by ring.
    rewrite HT. lra.
Qed.

Hypothesis Hd : - (2 * M * unit_roundoff + tiny_bound) <= d - (Z2 - Z1)
                /\ d - (Z2 - Z1) <= 2 * M * unit_roundoff + tiny_bound.
Hypothesis Hn : - (2 * Wd * unit_roundoff + tiny_bound) <= n - a
                /\ n - a <= 2 * Wd * unit_roundoff + tiny_bound.

(** The product of the two differences, before its rounding. *)
Lemma product_near :
  - ((801 # 100) * (M * Wd) * unit_roundoff + (1 # 75557863725914323419136))
  <= d * n - (Z2 - Z1) * a
  /\ d * n - (Z2 - Z1) * a
     <= (801 # 100) * (M * Wd) * unit_roundoff + (1 # 75557863725914323419136).
Proof.
  pose proof height_times_width as [HP0 HP1].
  destruct HM as [HM0 HM1], HWd as [HW0 HW1].
  unfold unit_roundoff, tiny_bound in *.
  assert (Hn' : - (2 * Wd + (2 * Wd * (1 # 16777216)
                            + (1 # 1267650600228229401496703205376))) <= n
                /\ n <= 2 * Wd + (2 * Wd * (1 # 16777216)
                                  + (1 # 1267650600228229401496703205376)))
    by (destruct Ha; split; lra).
  pose proof (Qmul_bounds _ _ _ _ Hd Hn') as Ht1.
  assert (HD' : - (2 * M) <= Z2 - Z1 /\ Z2 - Z1 <= 2 * M)
    by (destruct HZ1, HZ2; split; lra).
  pose proof (Qmul_bounds _ _ _ _ HD' Hn) as Ht2.
  assert (E : d * n - (Z2 - Z1) * a
              == (d - (Z2 - Z1)) * n + (Z2 - Z1) * (n - a)) by ring.
  rewrite E.
  set (t1 := (d - (Z2 - Z1)) * n) in *.
  set (t2 := (Z2 - Z1) * (n - a)) in *.
  split; lra.
Qed.

Lemma product_size :
  Qabs (d * n) <= (401 # 100) * (M * Wd) + (1 # 1180591620717411303424).
Proof.
  pose proof height_times_width as [HP0 HP1].
  pose proof slope_term_size as [[H1 H2] _].
  pose proof product_near as [H3 H4].
  unfold unit_roundoff in *.
  apply Qabs_Qle_condition. split; lra.
Qed.

Hypothesis Hp :
  - (((401 # 100) * (M * Wd) + (1 # 1180591620717411303424)) * unit_roundoff
     + tiny_bound) <= p - d * n
  /\ p - d * n
     <= ((401 # 100) * (M * Wd) + (1 # 1180591620717411303424)) * unit_roundoff
        + tiny_bound.

Hypothesis Hw : - (Wd * unit_roundoff + tiny_bound) <= w - Wd
                /\ w - Wd <= Wd * unit_roundoff + tiny_bound.

Lemma width_close : (999999 # 1000000) * Wd <= w /\ w <= (1000001 # 1000000) * Wd.
Proof.
  destruct HWd. unfold unit_roundoff, tiny_bound in Hw. split; lra.
Qed.

Hypothesis HQ : Qv * w == p.

(** The quotient, before its rounding, against the exact slope term. *)
Lemma quotient_term_near :
  - ((1603 # 100) * M * unit_roundoff + (1 # 590295810358705651712))
  <= Qv - T
  /\ Qv - T <= (1603 # 100) * M * unit_roundoff + (1 # 590295810358705651712).
Proof.
  pose proof height_times_width as [HP0 HP1].
  pose proof slope_term_size as (_ & HT1 & HT2).
  pose proof product_near as [H3 H4].
  pose proof width_close as [Hw1 Hw2].
  destruct HM as [HM0 HM1], HWd as [HW0 HW1].
  assert (Hpos : 0 < w) by lra.
  assert (HT' : - (4 * M) <= T /\ T <= 4 * M) by (split; assumption).
  pose proof (Qmul_bounds _ _ _ _ HT' Hw) as Ht.
  assert (HMw : (999999 # 1000000) * (M * Wd) <= M * w) by nra.
  assert (EE : w * (Qv - T) == (p - d * n) + (d * n - (Z2 - Z1) * a)
                               - T * (w - Wd)).
  { setoid_replace (w * (Qv - T)) with (Qv * w - T * w) by ring.
    rewrite HQ.
    setoid_replace ((p - d * n) + (d * n - (Z2 - Z1) * a) - T * (w - Wd))
      with (p - (Z2 - Z1) * a + T * Wd - T * w) by ring.
    rewrite HT. ring. }
  unfold unit_roundoff, tiny_bound in *.
  set (t3 := T * (w - Wd)) in *.
  set (e1 := p - d * n) in *. set (e2 := d * n - (Z2 - Z1) * a) in *.
  split.
  - apply (Qge_of_mul_pos w); [exact Hpos|].
    setoid_replace (w * (Qv - T - - ((1603 # 100) * M * (1 # 16777216)
                                      + (1 # 590295810358705651712))))
      with (w * (Qv - T) + (1603 # 100) * (1 # 16777216) * (M * w)
            + (1 # 590295810358705651712) * w) by ring.
    rewrite EE. lra.
  - apply (Qle_of_mul_pos w); [exact Hpos|].
    setoid_replace (w * (Qv - T - ((1603 # 100) * M * (1 # 16777216)
                                    + (1 # 590295810358705651712))))
      with (w * (Qv - T) - (1603 # 100) * (1 # 16777216) * (M * w)
            - (1 # 590295810358705651712) * w) by ring.
    rewrite EE. lra.
Qed.

Lemma quotient_term_size :
  Qabs Qv <= (401 # 100) * M + (1 # 590295810358705651712).
Proof.
  pose proof slope_term_size as (_ & HT1 & HT2).
  pose proof quotient_term_near as [H1 H2].
  destruct HM. unfold unit_roundoff in *.
  apply Qabs_Qle_condition. split; lra.
Qed.

Hypothesis Hq :
  - (((401 # 100) * M + (1 # 590295810358705651712)) * unit_roundoff
     + tiny_bound) <= qv - Qv
  /\ qv - Qv
     <= ((401 # 100) * M + (1 # 590295810358705651712)) * unit_roundoff
        + tiny_bound.

Lemma sum_size : Qabs (Z1 + qv) <= (502 # 100) * M + (1 # 295147905179352825856).
Proof.
  pose proof quotient_term_size as HQs. apply Qabs_Qle_condition in HQs.
  destruct HQs, HM, HZ1. unfold unit_roundoff, tiny_bound in *.
  apply Qabs_Qle_condition. split; lra.
Qed.

Hypothesis Hr :
  - (((502 # 100) * M + (1 # 295147905179352825856)) * unit_roundoff
     + tiny_bound) <= r - (Z1 + qv)
  /\ r - (Z1 + qv)
     <= ((502 # 100) * M + (1 # 295147905179352825856)) * unit_roundoff
        + tiny_bound.

(** The result against the exact interpolation. *)
Lemma interpolation_near :
  - (M * (1 # 500000) + (1 # 18446744073709551616)) <= r - (Z1 + T)
  /\ r - (Z1 + T) <= M * (1 # 500000) + (1 # 18446744073709551616).
Proof.
  pose proof quotient_term_near as [H1 H2].
  destruct HM. unfold unit_roundoff, tiny_bound in *. split; lra.
Qed.

End InterpolationAnalysis.

(** Between the two lines the exact interpolation lies between the two
    heights. *)
Lemma calc_z0_exact_between (a0 a1 z1 a2 z2 : Q) :
  (a1 <= a0 -> a0 <= a2 -> a1 < a2 ->
   Qmin z1 z2 <= calc_z0_exact a0 a1 z1 a2 z2
   /\ calc_z0_exact a0 a1 z1 a2 z2 <= Qmax z1 z2)%Q.
Proof.
  intros H1 H2 H3. unfold calc_z0_exact.
  set (T := ((z2 - z1) * (a0 - a1) / (a2 - a1))%Q).
  assert (HT : (T * (a2 - a1) == (z2 - z1) * (a0 - a1))%Q)
    by (unfold T; field; lra).
  pose proof (Q.le_min_l z1 z2). pose proof (Q.le_min_r z1 z2).
  pose proof (Q.le_max_l z1 z2). pose proof (Q.le_max_r z1 z2).
  assert (Hpos : (0 < a2 - a1)%Q) by lra.
  destruct (Qlt_le_dec z2 z1) as [Hlt|Hle].
  - assert (Hhi : (T <= 0)%Q).
    { apply (Qle_of_mul_pos (a2 - a1)); [exact Hpos|].
      setoid_replace ((a2 - a1) * (T - 0))%Q with (T * (a2 - a1))%Q by ring.
      rewrite HT. nra. }
    assert (Hlo : (z2 - z1 <= T)%Q).
    { apply (Qge_of_mul_pos (a2 - a1)); [exact Hpos|].
      setoid_replace ((a2 - a1) * (T - (z2 - z1)))%Q
        with (T * (a2 - a1) - (z2 - z1) * (a2 - a1))%Q by ring.
      rewrite HT. nra. }
    split; lra.
  - assert (Hlo : (0 <= T)%Q).
    { apply (Qge_of_mul_pos (a2 - a1)); [exact Hpos|].
      setoid_replace ((a2 - a1) * (T - 0))%Q with (T * (a2 - a1))%Q by ring.
      rewrite HT. nra. }
    assert (Hhi : (T <= z2 - z1)%Q).
    { apply (Qle_of_mul_pos (a2 - a1)); [exact Hpos|].
      setoid_replace ((a2 - a1) * (T - (z2 - z1)))%Q
        with (T * (a2 - a1) - (z2 - z1) * (a2 - a1))%Q by ring.
      rewrite HT. nra. }
    split; lra.
Qed.

(** [calc_z0] against the exact interpolation of the values of its
    arguments. *)
Lemma calc_z0_near (a0 a1 z1 a2 z2 : float) (M : Q) :
  F32.is_finite a0 = true -> F32.is_finite a1 = true ->
  F32.is_finite a2 = true ->
  F32.is_finite z1 = true -> F32.is_finite z2 = true ->
  (0 <= M /\ M <= 1048576)%Q ->
  (- M <= val z1 /\ val z1 <= M)%Q -> (- M <= val z2 /\ val z2 <= M)%Q ->
  (1 # 16 <= val a2 - val a1 /\ val a2 - val a1 <= 2097152)%Q ->
  (- (val a2 - val a1) <= val a0 - val a1
   /\ val a0 - val a1 <= 2 * (val a2 - val a1))%Q ->
  F32.is_finite (calc_z0 a0 a1 z1 a2 z2) = true
  /\ (- (M * (1 # 500000) + (1 # 18446744073709551616))
      <= val (calc_z0 a0 a1 z1 a2 z2)
         - calc_z0_exact (val a0) (val a1) (val z1) (val a2) (val z2)
      /\ val (calc_z0 a0 a1 z1 a2 z2)
         - calc_z0_exact (val a0) (val a1) (val z1) (val a2) (val z2)
         <= M * (1 # 500000) + (1 # 18446744073709551616))%Q.
Proof.
  intros Fa0 Fa1 Fa2 Fz1 Fz2 HM HZ1 HZ2 HWd Ha.
  set (Z1 := val z1) in *. set (Z2 := val z2) in *.
  set (Wd := (val a2 - val a1)%Q) in *. set (a := (val a0 - val a1)%Q) in *.
  set (T := ((Z2 - Z1) * a / Wd)%Q).
  assert (HT : (T * Wd == (Z2 - Z1) * a)%Q)
    by (unfold T; field; destruct HWd; lra).
  pose proof (height_times_width Wd M HM HWd) as [HP0 HP1].
  unfold calc_z0.
  (* d = z2 - z1 *)
  assert (Hd0 : (Qabs (Z2 - Z1) <= 2 * M)%Q)
    by (destruct HZ1, HZ2; apply Qabs_Qle_condition; split; lra).
  destruct (sub_error z2 z1 Fz2 Fz1) as [Fd Ed].
  { fold Z1 Z2. apply below_pow2_100_wide.
    eapply Qle_trans; [exact Hd0|]. destruct HM. lra. }
  fold Z1 Z2 in Ed.
  set (d := val (F32.sub z2 z1)) in *.
  assert (Hd := error_below_fine d (Z2 - Z1) (2 * M) Ed Hd0).
  (* n = a0 - a1 *)
  assert (Hn0 : (Qabs a <= 2 * Wd)%Q)
    by (destruct Ha, HWd; apply Qabs_Qle_condition; split; lra).
  destruct (sub_error a0 a1 Fa0 Fa1) as [Fn En].
  { fold a. apply below_pow2_100_wide.
    eapply Qle_trans; [exact Hn0|]. destruct HWd. lra. }
  fold a in En.
  set (n := val (F32.sub a0 a1)) in *.
  assert (Hn := error_below_fine n a (2 * Wd) En Hn0).
  (* p = d * n *)
  pose proof (product_size Z1 Z2 a Wd M T d n HM HZ1 HZ2 HWd Ha HT Hd Hn) as Hp0.
  destruct (mul_error _ _ Fd Fn) as [Fp Ep].
  { fold d n. apply below_pow2_100_huge.
    eapply Qle_trans; [exact Hp0|]. lra. }
  fold d n in Ep.
  set (p := val (F32.mul (F32.sub z2 z1) (F32.sub a0 a1))) in *.
  assert (Hp := error_below_fine p (d * n) _ Ep Hp0).
  (* w = a2 - a1 *)
  assert (Hw0 : (Qabs Wd <= Wd)%Q)
    by (destruct HWd; apply Qabs_Qle_condition; split; lra).
  destruct (sub_error a2 a1 Fa2 Fa1) as [Fw Ew].
  { fold Wd. apply below_pow2_100_wide.
    eapply Qle_trans; [exact Hw0|]. destruct HWd. lra. }
  fold Wd in Ew.
  set (w := val (F32.sub a2 a1)) in *.
  assert (Hw := error_below_fine w Wd Wd Ew Hw0).
  pose proof (width_close a Wd w HWd Ha Hw) as [Hw1 Hw2].
  assert (Hwpos : (0 < w)%Q) by (destruct HWd; lra).
  (* the quotient *)
  set (Qv := (p / w)%Q).
  assert (HQ : (Qv * w == p)%Q) by (unfold Qv; field; lra).
  pose proof (quotient_term_size Z1 Z2 a Wd M T d n p w Qv HM HZ1 HZ2 HWd Ha HT
                Hd Hn Hp Hw HQ) as Hq0.
  destruct (div_error _ _ Fp Fw) as [Fq Eq].
  { fold w. lra. }
  { fold p w Qv. apply below_pow2_100_wide.
    eapply Qle_trans; [exact Hq0|]. destruct HM. lra. }
  fold p w Qv in Eq.
  set (qv := val (F32.div (F32.mul (F32.sub z2 z1) (F32.sub a0 a1))
                          (F32.sub a2 a1))) in *.
  assert (Hq := error_below_fine qv Qv _ Eq Hq0).
  (* r = z1 + qv *)
  pose proof (sum_size Z1 Z2 a Wd M T d n p w Qv qv HM HZ1 HZ2 HWd Ha HT
                Hd Hn Hp Hw HQ Hq) as Hr0.
  destruct (add_error z1 _ Fz1 Fq) as [Fr Er].
  { fold Z1 qv. apply below_pow2_100_wide.
    eapply Qle_trans; [exact Hr0|]. destruct HM. lra. }
  fold Z1 qv in Er.
  assert (Hr := error_below_fine _ (Z1 + qv) _ Er Hr0).
  split; [exact Fr|].
  unfold calc_z0_exact.
  fold Wd a. change (Z1 + (Z2 - Z1) * a / Wd)%Q with (Z1 + T)%Q.
  exact (interpolation_near Z1 Z2 a Wd M T d n p w Qv qv _ HM HZ1 HZ2 HWd Ha HT
           Hd Hn Hp Hw HQ Hq Hr).
Qed.

Section Accuracy.

Context {cfg : Configuration}.

(** X20: the accuracy of [calc_z0]. For finite arguments with heights of
    size at most [M] (up to 2^20), a cell at least 1/16 wide and a position
    from one cell width before the cell to one after it, the result is a
    number within [M / 500000] (and 2^-64) of the exact
    [z1 + (z2 - z1) * (a0 - a1) / (a2 - a1)]; between the two lines it
    leaves the range of the two heights by no more than that. *)
Theorem calc_z0_accuracy (a0 a1 z1 a2 z2 : float) (M : Q) :
  F32.is_finite a0 = true -> F32.is_finite a1 = true ->
  F32.is_finite a2 = true ->
  F32.is_finite z1 = true -> F32.is_finite z2 = true ->
  (M <= 1048576)%Q ->
  (Qabs (val z1) <= M)%Q -> (Qabs (val z2) <= M)%Q ->
  (1 # 16 <= val a2 - val a1 /\ val a2 - val a1 <= 2097152)%Q ->
  (- (val a2 - val a1) <= val a0 - val a1
   /\ val a0 - val a1 <= 2 * (val a2 - val a1))%Q ->
  let exact := calc_z0_exact (val a0) (val a1) (val z1) (val a2) (val z2) in
  let err := (M * (1 # 500000) + (1 # 18446744073709551616))%Q in
  F32.is_finite (calc_z0 a0 a1 z1 a2 z2) = true
  /\ (Qabs (val (calc_z0 a0 a1 z1 a2 z2) - exact) <= err)%Q
  /\ ((val a1 <= val a0 /\ val a0 <= val a2)%Q ->
      (Qmin (val z1) (val z2) - err <= val (calc_z0 a0 a1 z1 a2 z2)
       /\ val (calc_z0 a0 a1 z1 a2 z2) <= Qmax (val z1) (val z2) + err)%Q).
Proof.
  intros Fa0 Fa1 Fa2 Fz1 Fz2 HM HZ1 HZ2 HWd Ha exact err.
  assert (HM0 : (0 <= M)%Q)
    by (eapply Qle_trans; [apply Qabs_nonneg | exact HZ1]).
  apply Qabs_Qle_condition in HZ1, HZ2.
  destruct (calc_z0_near a0 a1 z1 a2 z2 M Fa0 Fa1 Fa2 Fz1 Fz2
              (conj HM0 HM) HZ1 HZ2 HWd Ha) as [Fr [Hlo Hhi]].
  fold exact err in Hlo, Hhi.
  split; [exact Fr|]. split.
  - apply Qabs_Qle_condition. split; assumption.
  - intros [H1 H2].
    destruct (calc_z0_exact_between (val a0) (val a1) (val z1) (val a2)
                (val z2) H1 H2) as [Hmin Hmax].
    { destruct HWd. lra. }
    fold exact in Hmin, Hmax. split; lra.
Qed.

End Accuracy.

(** The exact interpolation moves with its two heights by no more than
    they do, for a position between the two lines. *)
Lemma calc_z0_exact_stable (a0 a1 a2 z1 z2 z1' z2' e : Q) :
  (a1 <= a0 -> a0 <= a2 -> a1 < a2 ->
   - e <= z1' - z1 /\ z1' - z1 <= e ->
   - e <= z2' - z2 /\ z2' - z2 <= e ->
   - e <= calc_z0_exact a0 a1 z1' a2 z2' - calc_z0_exact a0 a1 z1 a2 z2
   /\ calc_z0_exact a0 a1 z1' a2 z2' - calc_z0_exact a0 a1 z1 a2 z2 <= e)%Q.
Proof.
  intros H1 H2 H3 [L1 U1] [L2 U2].
  destruct (calc_z0_exact_between a0 a1 (z1' - z1) a2 (z2' - z2) H1 H2 H3)
    as [Hmin Hmax].
  assert (E : (calc_z0_exact a0 a1 z1' a2 z2' - calc_z0_exact a0 a1 z1 a2 z2
               == calc_z0_exact a0 a1 (z1' - z1) a2 (z2' - z2))%Q)
    by (unfold calc_z0_exact; field; lra).
  rewrite E.
  assert (Hlo : (- e <= Qmin (z1' - z1) (z2' - z2))%Q)
    by (apply Q.min_glb; assumption).
  assert (Hhi : (Qmax (z1' - z1) (z2' - z2) <= e)%Q)
    by (apply Q.max_lub; assumption).
  split; lra.
Qed.

Section AccuracyOfTheCorrection.

Context {cfg : Configuration}.

(** X21: the accuracy of [get_z_correction] inside a cell. When the
    position lies between the two lines of the selected cell on each axis,
    the lines are at least 1/16 apart and the four heights are numbers of
    size at most [M] (up to a million), the value returned is a number
    within [M / 200000] (and 2^-62) of the exact two-stage interpolation of
    those heights, and it leaves the range of the four heights by no more
    than that. *)
Theorem get_z_correction_accuracy (rx0 ry0 : float) (s : ubl_state)
        (za zb zc zd : float) (M : Q) :
  let cx := get_cell_index_x rx0 in
  let cy := get_cell_index_y ry0 in
  let x1 := mesh_index_to_xpos cx in
  let x2 := mesh_index_to_xpos (cx + 1) in
  let y1 := mesh_index_to_ypos cy in
  let y2 := mesh_index_to_ypos (cy + 1) in
  let err := (M * (1 # 200000) + (1 # 4611686018427387904))%Q in
  reaches_interpolation rx0 ry0 ->
  cell_values (z_values s) cx cy = Some (za, zb, zc, zd) ->
  F32.is_finite rx0 = true -> F32.is_finite ry0 = true ->
  F32.is_finite x1 = true -> F32.is_finite x2 = true ->
  F32.is_finite y1 = true -> F32.is_finite y2 = true ->
  F32.is_finite za = true -> F32.is_finite zb = true ->
  F32.is_finite zc = true -> F32.is_finite zd = true ->
  (M <= 1000000)%Q ->
  (Qabs (val za) <= M)%Q -> (Qabs (val zb) <= M)%Q ->
  (Qabs (val zc) <= M)%Q -> (Qabs (val zd) <= M)%Q ->
  (1 # 16 <= val x2 - val x1 /\ val x2 - val x1 <= 2097152)%Q ->
  (1 # 16 <= val y2 - val y1 /\ val y2 - val y1 <= 2097152)%Q ->
  (val x1 <= val rx0 /\ val rx0 <= val x2)%Q ->
  (val y1 <= val ry0 /\ val ry0 <= val y2)%Q ->
  exists r,
    result (get_z_correction rx0 ry0) s = Some r
    /\ F32.is_finite r = true
    /\ (Qabs (val r - bilinear_exact rx0 ry0 cx cy za zb zc zd) <= err)%Q
    /\ (Qmin (Qmin (val za) (val zb)) (Qmin (val zc) (val zd)) - err <= val r
        /\ val r
           <= Qmax (Qmax (val za) (val zb)) (Qmax (val zc) (val zd)) + err)%Q.
Proof.
  intros cx cy x1 x2 y1 y2 err Hr Hc Frx Fry Fx1 Fx2 Fy1 Fy2 Fza Fzb Fzc Fzd
         HM Hza Hzb Hzc Hzd HWx HWy Hx Hy.
  rewrite get_z_correction_result.
  rewrite (z_correction_value_on_mesh _ _ _ _ _ _ _ Hr Hc).
  fold cx cy. unfold bilinear, bilinear_exact. fold x1 x2 y1 y2.
  assert (HM0 : (0 <= M)%Q)
    by (eapply Qle_trans; [apply Qabs_nonneg | exact Hza]).
  apply Qabs_Qle_condition in Hza, Hzb, Hzc, Hzd.
  assert (Hax : (- (val x2 - val x1) <= val rx0 - val x1
                 /\ val rx0 - val x1 <= 2 * (val x2 - val x1))%Q)
    by (destruct Hx, HWx; split; lra).
  assert (Hay : (- (val y2 - val y1) <= val ry0 - val y1
                 /\ val ry0 - val y1 <= 2 * (val y2 - val y1))%Q)
    by (destruct Hy, HWy; split; lra).
  assert (HM1 : (0 <= M /\ M <= 1048576)%Q) by (split; lra).
  (* along X, on the lower and on the upper line *)
  destruct (calc_z0_near rx0 x1 za x2 zb M Frx Fx1 Fx2 Fza Fzb HM1 Hza Hzb
              HWx Hax) as [F1 [L1 U1]].
  destruct (calc_z0_near rx0 x1 zc x2 zd M Frx Fx1 Fx2 Fzc Fzd HM1 Hzc Hzd
              HWx Hax) as [F2 [L2 U2]].
  set (z1 := calc_z0 rx0 x1 za x2 zb) in *.
  set (z2 := calc_z0 rx0 x1 zc x2 zd) in *.
  assert (Hxlt : (val x1 < val x2)%Q) by (destruct HWx; lra).
  assert (Hylt : (val y1 < val y2)%Q) by (destruct HWy; lra).
  destruct (calc_z0_exact_between (val rx0) (val x1) (val za) (val x2)
              (val zb) (proj1 Hx) (proj2 Hx) Hxlt) as [B1 B1'].
  destruct (calc_z0_exact_between (val rx0) (val x1) (val zc) (val x2)
              (val zd) (proj1 Hx) (proj2 Hx) Hxlt) as [B2 B2'].
  set (E1 := calc_z0_exact (val rx0) (val x1) (val za) (val x2) (val zb)) in *.
  set (E2 := calc_z0_exact (val rx0) (val x1) (val zc) (val x2) (val zd)) in *.
  pose proof (Q.le_min_l (val za) (val zb)) as Hm1.
  pose proof (Q.le_max_l (val za) (val zb)) as Hm2.
  pose proof (Q.le_min_l (val zc) (val zd)) as Hm3.
  pose proof (Q.le_max_l (val zc) (val zd)) as Hm4.
  pose proof (Q.le_min_r (val za) (val zb)) as Hm5.
  pose proof (Q.le_max_r (val za) (val zb)) as Hm6.
  pose proof (Q.le_min_r (val zc) (val zd)) as Hm7.
  pose proof (Q.le_max_r (val zc) (val zd)) as Hm8.
  set (mab := Qmin (val za) (val zb)) in *.
  set (Mab := Qmax (val za) (val zb)) in *.
  set (mcd := Qmin (val zc) (val zd)) in *.
  set (Mcd := Qmax (val zc) (val zd)) in *.
  pose proof (Q.le_min_l mab mcd) as Hn1.
  pose proof (Q.le_min_r mab mcd) as Hn2.
  pose proof (Q.le_max_l Mab Mcd) as Hn3.
  pose proof (Q.le_max_r Mab Mcd) as Hn4.
  assert (Hg1 : (- M <= mab)%Q) by (apply Q.min_glb; [apply Hza | apply Hzb]).
  assert (Hg2 : (Mab <= M)%Q) by (apply Q.max_lub; [apply Hza | apply Hzb]).
  assert (Hg3 : (- M <= mcd)%Q) by (apply Q.min_glb; [apply Hzc | apply Hzd]).
  assert (Hg4 : (Mcd <= M)%Q) by (apply Q.max_lub; [apply Hzc | apply Hzd]).
  (* along Y, between the two results *)
  set (M' := (M + (M * (1 # 500000) + (1 # 18446744073709551616)))%Q).
  assert (HM' : (0 <= M' /\ M' <= 1048576)%Q) by (unfold M'; split; lra).
  assert (Hz1 : (- M' <= val z1 /\ val z1 <= M')%Q)
    by (unfold M'; destruct Hza, Hzb; split; lra).
  assert (Hz2 : (- M' <= val z2 /\ val z2 <= M')%Q)
    by (unfold M'; destruct Hzc, Hzd; split; lra).
  destruct (calc_z0_near ry0 y1 z1 y2 z2 M' Fry Fy1 Fy2 F1 F2 HM' Hz1 Hz2
              HWy Hay) as [F0 [L0 U0]].
  assert (He1 : (- (M * (1 # 500000) + (1 # 18446744073709551616))
                 <= val z1 - E1
                 /\ val z1 - E1
                    <= M * (1 # 500000) + (1 # 18446744073709551616))%Q)
    by (split; assumption).
  assert (He2 : (- (M * (1 # 500000) + (1 # 18446744073709551616))
                 <= val z2 - E2
                 /\ val z2 - E2
                    <= M * (1 # 500000) + (1 # 18446744073709551616))%Q)
    by (split; assumption).
  destruct (calc_z0_exact_stable (val ry0) (val y1) (val y2) E1 E2 (val z1)
              (val z2) _ (proj1 Hy) (proj2 Hy) Hylt He1 He2) as [S1 S2].
  destruct (calc_z0_exact_between (val ry0) (val y1) E1 (val y2) E2
              (proj1 Hy) (proj2 Hy) Hylt) as [B0 B0'].
  pose proof (Q.le_min_l E1 E2) as Hk1. pose proof (Q.le_min_r E1 E2) as Hk2.
  pose proof (Q.le_max_l E1 E2) as Hk3. pose proof (Q.le_max_r E1 E2) as Hk4.
  assert (Hlow : (Qmin mab mcd <= Qmin E1 E2)%Q)
    by (apply Q.min_glb; lra).
  assert (Hupp : (Qmax E1 E2 <= Qmax Mab Mcd)%Q)
    by (apply Q.max_lub; lra).
  set (r := calc_z0 ry0 y1 z1 y2 z2) in *.
  exists r. rewrite (nan_to_zero_finite r F0).
  split; [reflexivity|]. split; [exact F0|].
  unfold err, M' in *.
  set (X0 := calc_z0_exact (val ry0) (val y1) (val z1) (val y2) (val z2)) in *.
  set (X1 := calc_z0_exact (val ry0) (val y1) E1 (val y2) E2) in *.
  split.
  - apply Qabs_Qle_condition. split; lra.
  - split; lra.
Qed.

End AccuracyOfTheCorrection.

Lemma calc_z0_accuracy_witness :
  F32.is_finite (calc_z0 (F32.of_int 50) (F32.of_int 0) (F32.of_int 1)
                         (F32.of_int 100) (F32.of_int 2)) = true
  /\ (Qabs (val (calc_z0 (F32.of_int 50) (F32.of_int 0) (F32.of_int 1)
                         (F32.of_int 100) (F32.of_int 2))
            - calc_z0_exact (val (F32.of_int 50)) (val (F32.of_int 0))
                (val (F32.of_int 1)) (val (F32.of_int 100))
                (val (F32.of_int 2)))
      <= 2 * (1 # 500000) + (1 # 18446744073709551616))%Q.
Proof.
  destruct (calc_z0_accuracy (F32.of_int 50) (F32.of_int 0) (F32.of_int 1)
              (F32.of_int 100) (F32.of_int 2) 2 eq_refl eq_refl eq_refl eq_refl
              eq_refl) as (F & H & _).
  - apply Qle_bool_iff; vm_compute; reflexivity.
  - apply Qle_bool_iff; vm_compute; reflexivity.
  - apply Qle_bool_iff; vm_compute; reflexivity.
  - split; apply Qle_bool_iff; vm_compute; reflexivity.
  - split; apply Qle_bool_iff; vm_compute; reflexivity.
  - split; [exact F | exact H].
Defined.

Lemma get_z_correction_accuracy_witness :
  exists r,
    result (@get_z_correction scenario_cfg (F32.of_int 50) (F32.of_int 50))
           (quiet scenario_mesh) = Some r
    /\ F32.is_finite r = true
    /\ (Qabs (val r - @bilinear_exact scenario_cfg (F32.of_int 50)
                        (F32.of_int 50) 0 0 (F32.of_int 1) (F32.of_int 2)
                        (F32.of_int 3) (F32.of_int 4))
        <= 4 * (1 # 200000) + (1 # 4611686018427387904))%Q.
Proof.
  destruct (@get_z_correction_accuracy scenario_cfg (F32.of_int 50)
              (F32.of_int 50) (quiet scenario_mesh) (F32.of_int 1)
              (F32.of_int 2) (F32.of_int 3) (F32.of_int 4) 4
              (scenario_reaches _ _) eq_refl eq_refl eq_refl eq_refl eq_refl
              eq_refl eq_refl eq_refl eq_refl eq_refl eq_refl)
    as (r & E & F & H & _).
  - apply Qle_bool_iff; vm_compute; reflexivity.
  - apply Qle_bool_iff; vm_compute; reflexivity.
  - apply Qle_bool_iff; vm_compute; reflexivity.
  - apply Qle_bool_iff; vm_compute; reflexivity.
  - apply Qle_bool_iff; vm_compute; reflexivity.
  - split; apply Qle_bool_iff; vm_compute; reflexivity.
  - split; apply Qle_bool_iff; vm_compute; reflexivity.
  - split; apply Qle_bool_iff; vm_compute; reflexivity.
  - split; apply Qle_bool_iff; vm_compute; reflexivity.
  - exists r. split; [exact E|]. split; [exact F | exact H].
Defined.

(** ** The tolerance of the interpolation inside a cell *)

Section InterpolationInCell.

#[local] Open Scope Q_scope.

(* as in the analysis above, for a position between the two lines: the
   offset [a0 - a1] is between 0 and the width [a2 - a1] *)
Variables Z1 Z2 a Wd M T : Q.
Variables d n p w Qv qv r : Q.

Hypothesis HM : 0 <= M /\ M <= 1048576.
Hypothesis HZ1 : - M <= Z1 /\ Z1 <= M.
Hypothesis HZ2 : - M <= Z2 /\ Z2 <= M.
Hypothesis HWd : 1 # 16 <= Wd /\ Wd <= 2097152.
Hypothesis Ha : 0 <= a /\ a <= Wd.
Hypothesis HT : T * Wd == (Z2 - Z1) * a.


Hypothesis Hd : - (2 * M * unit_roundoff + tiny_bound) <= d - (Z2 - Z1)
                /\ d - (Z2 - Z1) <= 2 * M * unit_roundoff + tiny_bound.
Hypothesis Hn : - (Wd * unit_roundoff + tiny_bound) <= n - a
                /\ n - a <= Wd * unit_roundoff + tiny_bound.



Hypothesis Hp :
  - (((2001 # 1000) * (M * Wd) + (1 # 1180591620717411303424)) * unit_roundoff
     + tiny_bound) <= p - d * n
  /\ p - d * n
     <= ((2001 # 1000) * (M * Wd) + (1 # 1180591620717411303424))
        * unit_roundoff + tiny_bound.

Hypothesis Hw : - (Wd * unit_roundoff + tiny_bound) <= w - Wd
                /\ w - Wd <= Wd * unit_roundoff + tiny_bound.

Hypothesis HQ : Qv * w == p.



Hypothesis Hq :
  - (((2001 # 1000) * M + (1 # 590295810358705651712)) * unit_roundoff
     + tiny_bound) <= qv - Qv
  /\ qv - Qv
     <= ((2001 # 1000) * M + (1 # 590295810358705651712)) * unit_roundoff
        + tiny_bound.


Hypothesis Hr :
  - (((1001 # 1000) * M + (1 # 295147905179352825856)) * unit_roundoff
     + tiny_bound) <= r - (Z1 + qv)
  /\ r - (Z1 + qv)
     <= ((1001 # 1000) * M + (1 # 295147905179352825856)) * unit_roundoff
        + tiny_bound.


End InterpolationInCell.


Section ClaimOnTolerance.

Context {cfg : Configuration}.


End ClaimOnTolerance.


(** ** Serial output, and what is not a number *)

Lemma app_cons_neq {A : Type} (l l' : list A) (a : A) : (l ++ a :: l')%list <> l.
Proof.
  intros H. apply (f_equal (@List.length A)) in H.
  rewrite length_app in H. simpl in H. lia.
Qed.

Lemma state_with_output_neq (s : ubl_state) (a : serial_item)
      (out : list serial_item) :
  mk_ubl_state (z_values s) (storage_slot s) (marlin_debug_flags s)
               (serial s ++ a :: out) <> s.
Proof.
  intros H. apply (f_equal serial) in H. simpl in H.
  exact (app_cons_neq _ _ _ H).
Qed.

Module F32NotFinite.

Lemma sub_l (a b : float) :
  F32.is_finite a = false -> F32.is_finite (F32.sub a b) = false.
Proof.
  destruct a as [sa|sa| |sa ma ea]; simpl; try discriminate; intros _;
    destruct b as [sb|sb| |sb mb eb]; simpl; try reflexivity.
  destruct sa, sb; reflexivity.
Qed.

Lemma sub_r (a b : float) :
  F32.is_finite b = false -> F32.is_finite (F32.sub a b) = false.
Proof.
  destruct b as [sb|sb| |sb mb eb]; simpl; try discriminate; intros _;
    destruct a as [sa|sa| |sa ma ea]; simpl; try reflexivity.
  destruct sa, sb; reflexivity.
Qed.

Lemma mul_l (a b : float) :
  F32.is_finite a = false -> F32.is_finite (F32.mul a b) = false.
Proof.
  destruct a as [sa|sa| |sa ma ea]; simpl; try discriminate; intros _;
    destruct b as [sb|sb| |sb mb eb]; reflexivity.
Qed.

Lemma mul_r (a b : float) :
  F32.is_finite b = false -> F32.is_finite (F32.mul a b) = false.
Proof.
  destruct b as [sb|sb| |sb mb eb]; simpl; try discriminate; intros _;
    destruct a as [sa|sa| |sa ma ea]; reflexivity.
Qed.

Lemma div_l (a b : float) :
  F32.is_finite a = false -> F32.is_finite (F32.div a b) = false.
Proof.
  destruct a as [sa|sa| |sa ma ea]; simpl; try discriminate; intros _;
    destruct b as [sb|sb| |sb mb eb]; reflexivity.
Qed.

Lemma add_l (a b : float) :
  F32.is_finite a = false -> F32.is_finite (F32.add a b) = false.
Proof.
  destruct a as [sa|sa| |sa ma ea]; simpl; try discriminate; intros _;
    destruct b as [sb|sb| |sb mb eb]; simpl; try reflexivity.
  destruct sa, sb; reflexivity.
Qed.

(** What is not a number in the position or in a height stays so through
    [calc_z0]. *)
Lemma calc_z0_not_finite (a0 a1 z1 a2 z2 : float) :
  F32.is_finite a0 && F32.is_finite z1 && F32.is_finite z2 = false ->
  F32.is_finite (calc_z0 a0 a1 z1 a2 z2) = false.
Proof.
  rewrite !andb_false_iff. unfold calc_z0. intros [[H | H] | H].
  - apply F32Edge.add_not_finite, div_l, mul_r, sub_l, H.
  - apply add_l, H.
  - apply F32Edge.add_not_finite, div_l, mul_l, sub_l, H.
Qed.

Lemma nan_to_zero_not_finite (z : float) :
  F32.is_finite z = false ->
  nan_to_zero z = F32.zero \/ exists sg, nan_to_zero z = S754_infinity sg.
Proof.
  destruct z as [sz|sz| |sz m e]; simpl; try discriminate; intros _.
  - right. now exists sz.
  - now left.
Qed.

End F32NotFinite.

Section OutputAndNonNumbers.

Context {cfg : Configuration}.

(** X22: when [get_z_correction] writes to the serial port. A call that
    reaches the interpolation leaves the state exactly as it was unless
    the MESH_ADJUST debug flag is set and DEBUG_LEVELING_FEATURE is built
    in, in which case it always appends to the serial output; a call
    answered by the off-mesh raise never writes. *)
Theorem get_z_correction_silent_iff (rx0 ry0 z : float) (s s' : ubl_state) :
  get_z_correction rx0 ry0 s = Some (z, s') ->
  (reaches_interpolation rx0 ry0 ->
   (s' = s <->
    marlin_debug_flags s MESH_ADJUST && DEBUG_LEVELING_FEATURE = false))
  /\ (~ reaches_interpolation rx0 ry0 -> s' = s).
Proof.
  intros E.
  assert (Hon : forall cx cy,
             get_z_correction_on_mesh rx0 ry0 cx cy s = Some (z, s') ->
             (s' = s <->
              marlin_debug_flags s MESH_ADJUST && DEBUG_LEVELING_FEATURE
              = false)).
  { intros cx cy. unfold get_z_correction_on_mesh, bind, read_z.
    destruct (mesh_at (z_values s) cx cy) as [za|]; [|discriminate].
    destruct (mesh_at (z_values s) (_MIN cx (GRID_MAX_POINTS_X - 2) + 1) cy)
      as [zb|]; [|discriminate].
    destruct (mesh_at (z_values s) cx (_MIN cy (GRID_MAX_POINTS_Y - 2) + 1))
      as [zc|]; [|discriminate].
    destruct (mesh_at (z_values s) (_MIN cx (GRID_MAX_POINTS_X - 2) + 1)
                      (_MIN cy (GRID_MAX_POINTS_Y - 2) + 1))
      as [zd|]; [|discriminate].
    unfold DEBUGGING, when_, DEBUG_ECHO, bind, ret. cbv zeta.
    destruct (marlin_debug_flags s MESH_ADJUST) eqn:Eflag;
      destruct DEBUG_LEVELING_FEATURE;
      match goal with |- context [F32.isnan ?z] => destruct (F32.isnan z) end;
      cbn [marlin_debug_flags z_values storage_slot serial];
      rewrite ?Eflag; cbn [marlin_debug_flags z_values storage_slot serial];
      intros [= _ <-]; simpl;
      try (split; [reflexivity | reflexivity]);
      try (split; [intros _; reflexivity | intros _; reflexivity]);
      repeat rewrite <- app_assoc; simpl;
      (split; [intros H; exfalso; exact (state_with_output_neq _ _ _ H)
              | discriminate]). }
  unfold get_z_correction in E. unfold reaches_interpolation. split.
  - intros [Hnone | Hoff].
    + rewrite Hnone in E. exact (Hon _ _ E).
    + destruct UBL_Z_RAISE_WHEN_OFF_MESH; [rewrite Hoff in E|];
        exact (Hon _ _ E).
  - intros Hn.
    destruct UBL_Z_RAISE_WHEN_OFF_MESH as [raise|].
    + destruct (off_mesh rx0 ry0).
      * now injection E as _ <-.
      * exfalso. apply Hn. now right.
    + exfalso. apply Hn. now left.
Qed.

(** X23: no finite correction from what is not a number. When the position
    or one of the four heights of the selected cell is an infinity or NaN,
    a call that reaches the interpolation returns 0.0 or an infinity, never
    a finite number other than 0.0: a NaN intermediate result is replaced
    by 0.0, an infinite one is returned as it is. *)
Theorem get_z_correction_of_non_numbers (rx0 ry0 : float) (s : ubl_state)
        (za zb zc zd : float) :
  reaches_interpolation rx0 ry0 ->
  cell_values (z_values s) (get_cell_index_x rx0) (get_cell_index_y ry0)
  = Some (za, zb, zc, zd) ->
  F32.is_finite rx0 && F32.is_finite ry0
  && F32.is_finite za && F32.is_finite zb
  && F32.is_finite zc && F32.is_finite zd = false ->
  exists r,
    result (get_z_correction rx0 ry0) s = Some r
    /\ (r = F32.zero \/ exists sg, r = S754_infinity sg).
Proof.
  intros Hr Hc Hnf. rewrite get_z_correction_result.
  rewrite (z_correction_value_on_mesh _ _ _ _ _ _ _ Hr Hc).
  eexists. split; [reflexivity|].
  apply F32NotFinite.nan_to_zero_not_finite. unfold bilinear.
  apply F32NotFinite.calc_z0_not_finite.
  destruct (F32.is_finite ry0) eqn:Fy; [|reflexivity]. simpl.
  rewrite andb_false_iff.
  destruct (F32.is_finite rx0) eqn:Fx.
  - simpl in Hnf. rewrite !andb_false_iff in Hnf.
    destruct Hnf as [[[H | H] | H] | H].
    + left. apply F32NotFinite.calc_z0_not_finite.
      rewrite H. now rewrite andb_false_r.
    + left. apply F32NotFinite.calc_z0_not_finite.
      rewrite H. now rewrite andb_false_r.
    + right. apply F32NotFinite.calc_z0_not_finite.
      rewrite H. now rewrite andb_false_r.
    + right. apply F32NotFinite.calc_z0_not_finite.
      rewrite H. now rewrite andb_false_r.
  - left. apply F32NotFinite.calc_z0_not_finite. now rewrite Fx.
Qed.

End OutputAndNonNumbers.

Lemma get_z_correction_silent_iff_witness :
  match @get_z_correction scenario_cfg (F32.of_int 50) (F32.of_int 50)
          (verbose scenario_mesh) with
  | Some (_, s') => s' <> verbose scenario_mesh
  | None => False
  end.
Proof.
  destruct (@get_z_correction scenario_cfg (F32.of_int 50) (F32.of_int 50)
              (verbose scenario_mesh)) as [[z s']|] eqn:E.
  - intros H.
    apply (proj1 (proj1 (@get_z_correction_silent_iff scenario_cfg
                           (F32.of_int 50) (F32.of_int 50) z
                           (verbose scenario_mesh) s' E)
                        (scenario_reaches _ _))) in H.
    discriminate H.
  - vm_compute in E. discriminate E.
Defined.

Lemma get_z_correction_of_non_numbers_witness :
  exists r,
    result (@get_z_correction scenario_cfg (S754_infinity false)
              (F32.of_int 50)) (quiet scenario_mesh) = Some r
    /\ (r = F32.zero \/ exists sg, r = S754_infinity sg).
Proof.
  exact (@get_z_correction_of_non_numbers scenario_cfg (S754_infinity false)
           (F32.of_int 50) (quiet scenario_mesh) (F32.of_int 1) (F32.of_int 2)
           (F32.of_int 3) (F32.of_int 4) (scenario_reaches _ _) eq_refl
           eq_refl).
Defined.

(** ** The accuracy of the correction over the whole mesh *)

(** The integral part of a number that is not below zero. *)
Lemma trunc_nonneg (f : float) :
  F32.is_finite f = true -> (0 <= val f)%Q ->
  exists t, F32.trunc f = Some t /\ 0 <= t
            /\ (inject_Z t <= val f /\ val f < inject_Z t + 1)%Q.
Proof.
  intros Hf Hpos.
  set (i := Qfloor (val f)).
  pose proof (Qfloor_le (val f)) as H1.
  pose proof (Qlt_floor (val f)) as H2.
  fold i in H1, H2.
  rewrite inject_Z_plus in H2. change (inject_Z 1) with 1%Q in H2.
  assert (Hi0 : (inject_Z (-1) < inject_Z i)%Q)
    by (change (inject_Z (-1)) with (-1)%Q; lra).
  rewrite <- Zlt_Qlt in Hi0.
  exists i. split; [|split; [lia | split; assumption]].
  apply trunc_val; [exact Hf | lia | split; assumption].
Qed.

(** The exact interpolation up to one cell width outside the cell: its
    size against that of the two heights. *)
Lemma calc_z0_exact_size (a0 a1 a2 z1 z2 e : Q) :
  (a1 < a2 ->
   - (a2 - a1) <= a0 - a1 /\ a0 - a1 <= 2 * (a2 - a1) ->
   - e <= z1 /\ z1 <= e -> - e <= z2 /\ z2 <= e ->
   - (5 * e) <= calc_z0_exact a0 a1 z1 a2 z2
   /\ calc_z0_exact a0 a1 z1 a2 z2 <= 5 * e)%Q.
Proof.
  intros Hlt Ha H1 H2. unfold calc_z0_exact.
  set (T := ((z2 - z1) * (a0 - a1) / (a2 - a1))%Q).
  assert (HT : (T * (a2 - a1) == (z2 - z1) * (a0 - a1))%Q)
    by (unfold T; field; lra).
  assert (Hpos : (0 < a2 - a1)%Q) by lra.
  assert (Hd : (- (2 * e) <= z2 - z1 /\ z2 - z1 <= 2 * e)%Q)
    by (destruct H1, H2; split; lra).
  assert (Ha' : (- (2 * (a2 - a1)) <= a0 - a1
                 /\ a0 - a1 <= 2 * (a2 - a1))%Q)
    by (destruct Ha; split; lra).
  pose proof (Qmul_bounds _ _ _ _ Hd Ha') as [P1 P2].
  assert (HT1 : (- (4 * e) <= T)%Q).
  { apply (Qge_of_mul_pos (a2 - a1)); [exact Hpos|].
    setoid_replace ((a2 - a1) * (T - - (4 * e)))%Q
      with (T * (a2 - a1) + 2 * e * (2 * (a2 - a1)))%Q by ring.
    rewrite HT. lra. }
  assert (HT2 : (T <= 4 * e)%Q).
  { apply (Qle_of_mul_pos (a2 - a1)); [exact Hpos|].
    setoid_replace ((a2 - a1) * (T - 4 * e))%Q
      with (T * (a2 - a1) - 2 * e * (2 * (a2 - a1)))%Q by ring.
    rewrite HT. lra. }
  destruct H1. split; lra.
Qed.

Lemma calc_z0_exact_stable_wide (a0 a1 a2 z1 z2 z1' z2' e : Q) :
  (a1 < a2 ->
   - (a2 - a1) <= a0 - a1 /\ a0 - a1 <= 2 * (a2 - a1) ->
   - e <= z1' - z1 /\ z1' - z1 <= e ->
   - e <= z2' - z2 /\ z2' - z2 <= e ->
   - (5 * e)
   <= calc_z0_exact a0 a1 z1' a2 z2' - calc_z0_exact a0 a1 z1 a2 z2
   /\ calc_z0_exact a0 a1 z1' a2 z2' - calc_z0_exact a0 a1 z1 a2 z2
      <= 5 * e)%Q.
Proof.
  intros Hlt Ha H1 H2.
  assert (E : (calc_z0_exact a0 a1 z1' a2 z2' - calc_z0_exact a0 a1 z1 a2 z2
               == calc_z0_exact a0 a1 (z1' - z1) a2 (z2' - z2))%Q)
    by (unfold calc_z0_exact; field; lra).
  rewrite E. now apply calc_z0_exact_size.
Qed.

Section CellOnAxis.

Context {cfg : Configuration}.

Variables mn mx g : Z.
Variable pos : float.

Hypothesis Hg : 2 <= g <= 15.
Hypothesis Hmn : -32768 <= mn.
Hypothesis Hlt : mn < mx.
Hypothesis Hmx : mx <= 32767.
Hypothesis Hpos : F32.is_finite pos = true.
Hypothesis Hin : (0 <= cells_from_min mn mx g pos
                  /\ cells_from_min mn mx g pos <= inject_Z (g - 1))%Q.

(** On the mesh the cell selected holds the position, up to a
    ten-thousandth of a cell width. *)
Lemma cell_index_near_on_axis :
  let q := cells_from_min mn mx g pos in
  let T1 := F32.sub pos (F32.of_int mn) in
  let R := F32.div F32.one (mesh_dist mn mx g) in
  let cell := to_int8 (constrain (float_to_int8 (F32.mul T1 R)) 0 (g - 1)) in
  0 <= cell <= g - 1
  /\ (inject_Z cell - (1 # 10000) <= q
      /\ q <= inject_Z cell + 1 + (1 # 10000))%Q.
Proof.
  intros q T1 R cell.
  pose proof (inject_Z_range (g - 1) 1 14 ltac:(lia)) as [Hg0 Hg1].
  change (inject_Z 1) with 1%Q in Hg0. change (inject_Z 14) with 14%Q in Hg1.
  assert (Hq : (0 <= q /\ q <= inject_Z (g - 1))%Q) by exact Hin.
  destruct (quotients_near mn mx g pos Hg Hmn Hlt Hmx Hpos) as [[FT HT] _].
  { fold q. destruct Hq. split; lra. }
  fold q T1 R in FT, HT.
  assert (Hclamp : forall t, F32.trunc (F32.mul T1 R) = Some t ->
                             0 <= t <= g - 1 -> cell = t).
  { intros t Et Ht. unfold cell.
    rewrite (float_to_int8_trunc _ t Et) by (apply in_int8_spec; lia).
    destruct (clamp_to_grid t g ltac:(lia)) as [-> _]. lia. }
  destruct (Qlt_le_dec (val (F32.mul T1 R)) 0) as [Hneg|Hnn].
  - destruct (trunc_range (F32.mul T1 R) 0 0 FT ltac:(lia)) as (t & Et & Ht).
    { change (inject_Z 0) with 0%Q. destruct Hq. split; lra. }
    assert (t = 0) by lia. subst t.
    rewrite (Hclamp 0 Et ltac:(lia)).
    change (inject_Z 0) with 0%Q. destruct Hq. split; [lia | split; lra].
  - destruct (trunc_nonneg (F32.mul T1 R) FT Hnn) as (t & Et & Ht0 & Ht1 & Ht2).
    assert (Hlt' : (inject_Z t < inject_Z g)%Q).
    { assert (E : (inject_Z g == inject_Z (g - 1) + inject_Z 1)%Q).
      { rewrite <- inject_Z_plus. replace (g - 1 + 1) with g by lia.
        reflexivity. }
      change (inject_Z 1) with 1%Q in E. destruct Hq. lra. }
    rewrite <- Zlt_Qlt in Hlt'.
    rewrite (Hclamp t Et ltac:(lia)).
    destruct Hq. split; [lia | split; lra].
Qed.

End CellOnAxis.

Section CellAndLines.

Context {cfg : Configuration}.

Variables mn mx g : Z.
Variable pos : float.

Hypothesis Hg : 2 <= g <= 15.
Hypothesis Hmn : -32768 <= mn.
Hypothesis Hlt : mn < mx.
Hypothesis Hmx : mx <= 32767.
Hypothesis Hpos : F32.is_finite pos = true.

(** The position against the two lines of a cell that holds it up to a
    sixteenth of a cell width. *)
Lemma position_in_cell_on_axis (c : Z) :
  0 <= c <= g - 1 ->
  (inject_Z c - (1 # 16) <= cells_from_min mn mx g pos
   /\ cells_from_min mn mx g pos <= inject_Z c + 1 + (1 # 16))%Q ->
  let X := fun k => F32.add (F32.of_int mn)
                      (F32.mul (F32.of_int k) (mesh_dist mn mx g)) in
  F32.is_finite (X c) = true /\ F32.is_finite (X (c + 1)) = true
  /\ (1 # 16 <= val (X (c + 1)%Z) - val (X c)
      /\ val (X (c + 1)%Z) - val (X c) <= 2097152)%Q
  /\ (- (val (X (c + 1)%Z) - val (X c)) <= val pos - val (X c)
      /\ val pos - val (X c) <= 2 * (val (X (c + 1)%Z) - val (X c)))%Q.
Proof.
  intros Hc [Hq1 Hq2] X.
  destruct (line_position_near mn mx g Hg Hmn Hlt Hmx c ltac:(lia))
    as [F0 [L0 U0]].
  destruct (line_position_near mn mx g Hg Hmn Hlt Hmx (c + 1) ltac:(lia))
    as [F1 [L1 U1]].
  fold (X c) in F0, L0, U0. fold (X (c + 1)) in F1, L1, U1.
  pose proof (cell_width_bounds mn mx g Hg Hmn Hlt Hmx) as [HW1 HW2].
  pose proof (cells_from_min_spec mn mx g pos Hg Hmn Hlt Hmx) as Hqs.
  unfold line_position in *. rewrite inject_Z_plus in L1, U1.
  change (inject_Z 1) with 1%Q in L1, U1.
  set (W := cell_width mn mx g) in *.
  set (q := cells_from_min mn mx g pos) in *.
  assert (H1 : ((inject_Z c - (1 # 16)) * W <= q * W)%Q) by nra.
  assert (H2 : (q * W <= (inject_Z c + 1 + (1 # 16)) * W)%Q) by nra.
  set (cW := (inject_Z c * W)%Q) in *.
  assert (E1 : ((inject_Z c - (1 # 16)) * W == cW - (1 # 16) * W)%Q)
    by (unfold cW; ring).
  assert (E2 : ((inject_Z c + 1 + (1 # 16)) * W
                == cW + W + (1 # 16) * W)%Q) by (unfold cW; ring).
  assert (E3 : ((inject_Z c + 1) * W == cW + W)%Q) by (unfold cW; ring).
  rewrite E1 in H1. rewrite E2 in H2. rewrite E3 in L1, U1.
  rewrite Hqs in H1, H2.
  split; [exact F0|]. split; [exact F1|]. split; split; lra.
Qed.


(** Within a twentieth of a cell width of line [i] the cell selected is
    the one that starts at the line or the one that ends there. *)
Lemma cell_index_at_line_on_axis (i : Z) :
  0 <= i <= g - 1 ->
  (inject_Z i - (1 # 20) <= cells_from_min mn mx g pos
   /\ cells_from_min mn mx g pos <= inject_Z i + (1 # 20))%Q ->
  let T1 := F32.sub pos (F32.of_int mn) in
  let R := F32.div F32.one (mesh_dist mn mx g) in
  let cell := to_int8 (constrain (float_to_int8 (F32.mul T1 R)) 0 (g - 1)) in
  cell = i \/ (cell = i - 1 /\ 1 <= i).
Proof.
  intros Hi [Hq1 Hq2] T1 R cell.
  pose proof (inject_Z_range i 0 14 ltac:(lia)) as [Hi0 Hi1].
  change (inject_Z 0) with 0%Q in Hi0. change (inject_Z 14) with 14%Q in Hi1.
  destruct (quotients_near mn mx g pos Hg Hmn Hlt Hmx Hpos) as [[FT HT] _].
  { split; lra. }
  fold T1 R in FT, HT.
  assert (Hclamp : forall t, F32.trunc (F32.mul T1 R) = Some t ->
                             0 <= t <= g - 1 -> cell = t).
  { intros t Et Ht. unfold cell.
    rewrite (float_to_int8_trunc _ t Et) by (apply in_int8_spec; lia).
    destruct (clamp_to_grid t g ltac:(lia)) as [-> _]. lia. }
  destruct (Z.eq_dec i 0) as [->|Hne].
  - change (inject_Z 0) with 0%Q in *.
    destruct (trunc_range (F32.mul T1 R) 0 0 FT ltac:(lia)) as (t & Et & Ht).
    { change (inject_Z 0) with 0%Q. split; lra. }
    assert (t = 0) by lia. subst t. left. exact (Hclamp 0 Et ltac:(lia)).
  - destruct (trunc_range_pos (F32.mul T1 R) (i - 1) i FT ltac:(lia))
      as (t & Et & Ht).
    { unfold Z.sub. rewrite inject_Z_plus, inject_Z_opp.
      change (inject_Z 1) with 1%Q. split; lra. }
    rewrite (Hclamp t Et ltac:(lia)). lia.
Qed.

End CellAndLines.

Section LineAsPosition.

Variables mn mx g : Z.

Hypothesis Hg : 2 <= g <= 15.
Hypothesis Hmn : -32768 <= mn.
Hypothesis Hlt : mn < mx.
Hypothesis Hmx : mx <= 32767.

(** The position of line [i], measured in cell widths, is [i] up to a
    twentieth. *)
Lemma line_in_cells (i : Z) :
  0 <= i <= g ->
  let X := F32.add (F32.of_int mn) (F32.mul (F32.of_int i) (mesh_dist mn mx g)) in
  (inject_Z i - (1 # 20) <= cells_from_min mn mx g X
   /\ cells_from_min mn mx g X <= inject_Z i + (1 # 20))%Q.
Proof.
  intros Hi X.
  destruct (line_position_near mn mx g Hg Hmn Hlt Hmx i Hi) as [F [L U]].
  fold X in F, L, U.
  pose proof (cell_width_bounds mn mx g Hg Hmn Hlt Hmx) as [HW1 HW2].
  pose proof (cells_from_min_spec mn mx g X Hg Hmn Hlt Hmx) as Hqs.
  unfold line_position in L, U.
  set (W := cell_width mn mx g) in *.
  set (q := cells_from_min mn mx g X) in *.
  assert (Hpos : (0 < W)%Q) by lra.
  split.
  - apply (Qge_of_mul_pos W); [exact Hpos|].
    setoid_replace (W * (q - (inject_Z i - (1 # 20))))%Q
      with (q * W - inject_Z i * W + (1 # 20) * W)%Q by ring.
    rewrite Hqs. lra.
  - apply (Qle_of_mul_pos W); [exact Hpos|].
    setoid_replace (W * (q - (inject_Z i + (1 # 20))))%Q
      with (q * W - inject_Z i * W - (1 # 20) * W)%Q by ring.
    rewrite Hqs. lra.
Qed.

End LineAsPosition.

Lemma calc_z0_exact_at_ends (a1 a2 z1 z2 : Q) :
  (a1 < a2 ->
   calc_z0_exact a1 a1 z1 a2 z2 == z1 /\ calc_z0_exact a2 a1 z1 a2 z2 == z2)%Q.
Proof. intros H. unfold calc_z0_exact. split; field; lra. Qed.

Lemma calc_z0_exact_ext (a0 a1 a2 z1 z2 z1' z2' : Q) :
  (z1 == z1' -> z2 == z2' ->
   calc_z0_exact a0 a1 z1 a2 z2 == calc_z0_exact a0 a1 z1' a2 z2')%Q.
Proof. intros H1 H2. unfold calc_z0_exact. now rewrite H1, H2. Qed.

Section AccuracyOnTheMesh.

Context {cfg : Configuration}.

Lemma cell_values_inv (m : bed_mesh_t) (cx cy : Z) (za zb zc zd : float) :
  cell_values m cx cy = Some (za, zb, zc, zd) ->
  mesh_at m cx cy = Some za /\ mesh_at m (upper_x cx) cy = Some zb
  /\ mesh_at m cx (upper_y cy) = Some zc
  /\ mesh_at m (upper_x cx) (upper_y cy) = Some zd.
Proof.
  unfold cell_values.
  destruct (mesh_at m cx cy); [|discriminate].
  destruct (mesh_at m (upper_x cx) cy); [|discriminate].
  destruct (mesh_at m cx (upper_y cy)); [|discriminate].
  destruct (mesh_at m (upper_x cx) (upper_y cy)); [|discriminate].
  intros [= -> -> -> ->]. repeat split.
Qed.

(** At a grid point the exact interpolation is the height of the point,
    in the cell that starts at the point and in the ones that end there. *)
Lemma bilinear_exact_at_grid_point (i j : Z) (z za zb zc zd : float)
      (m : bed_mesh_t) (cx cy : Z) :
  cx = i \/ (cx = i - 1 /\ 1 <= i) ->
  cy = j \/ (cy = j - 1 /\ 1 <= j) ->
  i <= GRID_MAX_POINTS_X - 1 -> j <= GRID_MAX_POINTS_Y - 1 ->
  mesh_at m i j = Some z ->
  cell_values m cx cy = Some (za, zb, zc, zd) ->
  (val (mesh_index_to_xpos cx) < val (mesh_index_to_xpos (cx + 1)))%Q ->
  (val (mesh_index_to_ypos cy) < val (mesh_index_to_ypos (cy + 1)))%Q ->
  (bilinear_exact (mesh_index_to_xpos i) (mesh_index_to_ypos j) cx cy
     za zb zc zd == val z)%Q.
Proof.
  intros Hcx Hcy Hi Hj Ez Ec Hxlt Hylt.
  destruct (cell_values_inv _ _ _ _ _ _ _ Ec) as (Ea & Eb & Ec' & Ed).
  set (px := mesh_index_to_xpos i). set (py := mesh_index_to_ypos j).
  unfold bilinear_exact. cbv zeta.
  assert (HX : forall (yy : Z) (zl zu : float),
             yy = j ->
             mesh_at m cx yy = Some zl ->
             mesh_at m (upper_x cx) yy = Some zu ->
             (calc_z0_exact (val px) (val (mesh_index_to_xpos cx)) (val zl)
                (val (mesh_index_to_xpos (cx + 1))) (val zu) == val z)%Q).
  { intros yy zl zu -> El Eu.
    destruct (calc_z0_exact_at_ends (val (mesh_index_to_xpos cx))
                (val (mesh_index_to_xpos (cx + 1))) (val zl) (val zu) Hxlt)
      as [Hlo Hhi].
    destruct Hcx as [e | [e Hi1]].
    - rewrite e in El, Hlo |- *. fold px in Hlo |- *.
      rewrite Hlo. rewrite Ez in El. now injection El as ->.
    - assert (Eu' : upper_x cx = i)
        by (rewrite e; unfold upper_x; rewrite _MIN_min; lia).
      rewrite Eu' in Eu. rewrite Ez in Eu. injection Eu as ->.
      rewrite e in Hhi |- *.
      replace (i - 1 + 1) with i in Hhi |- * by lia.
      fold px in Hhi |- *. exact Hhi. }
  destruct (calc_z0_exact_at_ends (val (mesh_index_to_ypos cy))
              (val (mesh_index_to_ypos (cy + 1)))
              (calc_z0_exact (val px) (val (mesh_index_to_xpos cx)) (val za)
                 (val (mesh_index_to_xpos (cx + 1))) (val zb))
              (calc_z0_exact (val px) (val (mesh_index_to_xpos cx)) (val zc)
                 (val (mesh_index_to_xpos (cx + 1))) (val zd)) Hylt)
    as [Hlo Hhi].
  destruct Hcy as [e | [e Hj1]].
  - pose proof (HX _ za zb e Ea Eb) as Hv.
    rewrite e in Hlo |- *. fold py in Hlo |- *.
    rewrite Hlo. exact Hv.
  - assert (Eu' : upper_y cy = j)
      by (rewrite e; unfold upper_y; rewrite _MIN_min; lia).
    pose proof (HX _ zc zd Eu' Ec' Ed) as Hv.
    rewrite e in Hhi |- *.
    replace (j - 1 + 1) with j in Hhi |- * by lia.
    fold py in Hhi |- *.
    rewrite Hhi. exact Hv.
Qed.

(** The correction against the exact interpolation in the selected cell,
    for a position that the cell holds up to a sixteenth of a cell width. *)
Lemma accuracy_in_cell (rx0 ry0 : float) (s : ubl_state) (M : Q) :
  uniform_tables -> ordinary_bed -> has_dims (z_values s) = true ->
  (forall x y z, in_grid x y -> mesh_at (z_values s) x y = Some z ->
                 F32.is_finite z = true /\ (Qabs (val z) <= M)%Q) ->
  (M <= 200000)%Q ->
  F32.is_finite rx0 = true -> F32.is_finite ry0 = true ->
  let cx := get_cell_index_x rx0 in
  let cy := get_cell_index_y ry0 in
  (inject_Z cx - (1 # 16) <= cells_from_min_x rx0
   /\ cells_from_min_x rx0 <= inject_Z cx + 1 + (1 # 16))%Q ->
  (inject_Z cy - (1 # 16) <= cells_from_min_y ry0
   /\ cells_from_min_y ry0 <= inject_Z cy + 1 + (1 # 16))%Q ->
  reaches_interpolation rx0 ry0 ->
  exists r za zb zc zd,
    result (get_z_correction rx0 ry0) s = Some r
    /\ cell_values (z_values s) cx cy = Some (za, zb, zc, zd)
    /\ F32.is_finite r = true
    /\ (Qabs (val r - bilinear_exact rx0 ry0 cx cy za zb zc zd)
        <= M * (1 # 45000) + (1 # 2305843009213693952))%Q
    /\ (val (mesh_index_to_xpos cx) < val (mesh_index_to_xpos (cx + 1)))%Q
    /\ (val (mesh_index_to_ypos cy) < val (mesh_index_to_ypos (cy + 1)))%Q.
Proof.
  intros Hu Ho Hd Hm HM Frx Fry cx cy Hnx Hny Hr.
  pose proof Ho as (Hgx & Hgy & Hx1 & Hx2 & Hx3 & Hy1 & Hy2 & Hy3).
  pose proof (get_cell_index_x_range rx0 (ordinary_grid_dims Ho)) as Hcx.
  pose proof (get_cell_index_y_range ry0 (ordinary_grid_dims Ho)) as Hcy.
  fold cx in Hcx. fold cy in Hcy.
  (* the four heights of the cell *)
  destruct (cell_values_in_grid (z_values s) cx cy Hd Hcx Hcy)
    as (za & zb & zc & zd & Ec).
  destruct (cell_values_inv _ _ _ _ _ _ _ Ec) as (Ea & Eb & Ec' & Ed).
  pose proof (upper_x_range cx Hcx) as Hux.
  pose proof (upper_y_range cy Hcy) as Huy.
  destruct (Hm _ _ _ (conj Hcx Hcy) Ea) as [Fza Hza].
  destruct (Hm _ _ _ (conj Hux Hcy) Eb) as [Fzb Hzb].
  destruct (Hm _ _ _ (conj Hcx Huy) Ec') as [Fzc Hzc].
  destruct (Hm _ _ _ (conj Hux Huy) Ed) as [Fzd Hzd].
  assert (HM0 : (0 <= M)%Q)
    by (eapply Qle_trans; [apply Qabs_nonneg | exact Hza]).
  apply Qabs_Qle_condition in Hza, Hzb, Hzc, Hzd.
  (* its lines *)
  destruct (position_in_cell_on_axis MESH_MIN_X MESH_MAX_X GRID_MAX_POINTS_X
              rx0 Hgx Hx1 Hx2 Hx3 cx Hcx Hnx) as (Fx1 & Fx2 & HWx & Hax).
  destruct (position_in_cell_on_axis MESH_MIN_Y MESH_MAX_Y GRID_MAX_POINTS_Y
              ry0 Hgy Hy1 Hy2 Hy3 cy Hcy Hny) as (Fy1 & Fy2 & HWy & Hay).
  cbv beta in Fx1, Fx2, HWx, Hax, Fy1, Fy2, HWy, Hay.
  change (mesh_dist MESH_MIN_X MESH_MAX_X GRID_MAX_POINTS_X)
    with MESH_X_DIST in Fx1, Fx2, HWx, Hax.
  change (mesh_dist MESH_MIN_Y MESH_MAX_Y GRID_MAX_POINTS_Y)
    with MESH_Y_DIST in Fy1, Fy2, HWy, Hay.
  rewrite <- (mesh_index_to_xpos_line cx Hu ltac:(lia) ltac:(lia))
    in Fx1, HWx, Hax.
  rewrite <- (mesh_index_to_xpos_line (cx + 1) Hu ltac:(lia) ltac:(lia))
    in Fx2, HWx, Hax.
  rewrite <- (mesh_index_to_ypos_line cy Hu ltac:(lia) ltac:(lia))
    in Fy1, HWy, Hay.
  rewrite <- (mesh_index_to_ypos_line (cy + 1) Hu ltac:(lia) ltac:(lia))
    in Fy2, HWy, Hay.
  set (x1 := mesh_index_to_xpos cx) in *.
  set (x2 := mesh_index_to_xpos (cx + 1)) in *.
  set (y1 := mesh_index_to_ypos cy) in *.
  set (y2 := mesh_index_to_ypos (cy + 1)) in *.
  assert (Hxlt : (val x1 < val x2)%Q) by (destruct HWx; lra).
  assert (Hylt : (val y1 < val y2)%Q) by (destruct HWy; lra).
  (* along X *)
  assert (HM1 : (0 <= M /\ M <= 1048576)%Q) by (split; lra).
  destruct (calc_z0_near rx0 x1 za x2 zb M Frx Fx1 Fx2 Fza Fzb HM1 Hza Hzb
              HWx Hax) as [F1 [L1 U1]].
  destruct (calc_z0_near rx0 x1 zc x2 zd M Frx Fx1 Fx2 Fzc Fzd HM1 Hzc Hzd
              HWx Hax) as [F2 [L2 U2]].
  destruct (calc_z0_exact_size (val rx0) (val x1) (val x2) (val za) (val zb) M
              Hxlt Hax Hza Hzb) as [S1 S1'].
  destruct (calc_z0_exact_size (val rx0) (val x1) (val x2) (val zc) (val zd) M
              Hxlt Hax Hzc Hzd) as [S2 S2'].
  set (z1 := calc_z0 rx0 x1 za x2 zb) in *.
  set (z2 := calc_z0 rx0 x1 zc x2 zd) in *.
  set (E1 := calc_z0_exact (val rx0) (val x1) (val za) (val x2) (val zb)) in *.
  set (E2 := calc_z0_exact (val rx0) (val x1) (val zc) (val x2) (val zd)) in *.
  (* along Y *)
  set (e1 := (M * (1 # 500000) + (1 # 18446744073709551616))%Q) in *.
  set (M' := (5 * M + e1)%Q).
  assert (HM' : (0 <= M' /\ M' <= 1048576)%Q)
    by (unfold M', e1; split; lra).
  assert (Hz1 : (- M' <= val z1 /\ val z1 <= M')%Q)
    by (unfold M'; split; lra).
  assert (Hz2 : (- M' <= val z2 /\ val z2 <= M')%Q)
    by (unfold M'; split; lra).
  destruct (calc_z0_near ry0 y1 z1 y2 z2 M' Fry Fy1 Fy2 F1 F2 HM' Hz1 Hz2
              HWy Hay) as [F0 [L0 U0]].
  destruct (calc_z0_exact_stable_wide (val ry0) (val y1) (val y2) E1 E2
              (val z1) (val z2) e1 Hylt Hay (conj L1 U1) (conj L2 U2))
    as [T1 T2].
  (* the run *)
  exists (calc_z0 ry0 y1 z1 y2 z2), za, zb, zc, zd.
  rewrite get_z_correction_result.
  rewrite (z_correction_value_on_mesh _ _ _ _ _ _ _ Hr Ec).
  fold cx cy. unfold bilinear, bilinear_exact. fold x1 x2 y1 y2 z1 z2 E1 E2.
  rewrite (nan_to_zero_finite _ F0).
  split; [reflexivity|]. split; [exact Ec|]. split; [exact F0|].
  split; [|split; assumption].
  unfold M', e1 in *.
  set (X0 := calc_z0_exact (val ry0) (val y1) (val z1) (val y2) (val z2)) in *.
  set (X1 := calc_z0_exact (val ry0) (val y1) E1 (val y2) E2) in *.
  apply Qabs_Qle_condition. split; lra.
Qed.

(** X24: the accuracy of [get_z_correction] over the whole mesh. On a bed
    with 2 to 15 lines per axis, mesh bounds that fit a 16-bit [int] and
    tables of evenly spaced lines, with a number of size at most [M] (up
    to 200000) at every point of the grid, for every position between the
    first and the last line on both axes that reaches the interpolation,
    the cell selected holds the position up to a ten-thousandth of a cell
    width, and the value returned is a number within [M / 45000] (and
    2^-61) of the exact two-stage interpolation in that cell. *)
Theorem get_z_correction_accuracy_on_mesh (rx0 ry0 : float) (s : ubl_state)
        (M : Q) :
  uniform_tables -> ordinary_bed -> has_dims (z_values s) = true ->
  (forall x y z, in_grid x y -> mesh_at (z_values s) x y = Some z ->
                 F32.is_finite z = true /\ (Qabs (val z) <= M)%Q) ->
  (M <= 200000)%Q ->
  F32.is_finite rx0 = true -> F32.is_finite ry0 = true ->
  (0 <= cells_from_min_x rx0
   /\ cells_from_min_x rx0 <= inject_Z (GRID_MAX_POINTS_X - 1))%Q ->
  (0 <= cells_from_min_y ry0
   /\ cells_from_min_y ry0 <= inject_Z (GRID_MAX_POINTS_Y - 1))%Q ->
  reaches_interpolation rx0 ry0 ->
  let cx := get_cell_index_x rx0 in
  let cy := get_cell_index_y ry0 in
  exists r za zb zc zd,
    result (get_z_correction rx0 ry0) s = Some r
    /\ cell_values (z_values s) cx cy = Some (za, zb, zc, zd)
    /\ F32.is_finite r = true
    /\ (Qabs (val r - bilinear_exact rx0 ry0 cx cy za zb zc zd)
        <= M * (1 # 45000) + (1 # 2305843009213693952))%Q
    /\ (inject_Z cx - (1 # 10000) <= cells_from_min_x rx0
        /\ cells_from_min_x rx0 <= inject_Z cx + 1 + (1 # 10000))%Q
    /\ (inject_Z cy - (1 # 10000) <= cells_from_min_y ry0
        /\ cells_from_min_y ry0 <= inject_Z cy + 1 + (1 # 10000))%Q.
Proof.
  intros Hu Ho Hd Hm HM Frx Fry Hqx Hqy Hr cx cy.
  pose proof Ho as (Hgx & Hgy & Hx1 & Hx2 & Hx3 & Hy1 & Hy2 & Hy3).
  destruct (cell_index_near_on_axis MESH_MIN_X MESH_MAX_X GRID_MAX_POINTS_X
              rx0 Hgx Hx1 Hx2 Hx3 Frx Hqx) as [_ Hnx].
  destruct (cell_index_near_on_axis MESH_MIN_Y MESH_MAX_Y GRID_MAX_POINTS_Y
              ry0 Hgy Hy1 Hy2 Hy3 Fry Hqy) as [_ Hny].
  change ((inject_Z cx - (1 # 10000) <= cells_from_min_x rx0
           /\ cells_from_min_x rx0 <= inject_Z cx + 1 + (1 # 10000))%Q) in Hnx.
  change ((inject_Z cy - (1 # 10000) <= cells_from_min_y ry0
           /\ cells_from_min_y ry0 <= inject_Z cy + 1 + (1 # 10000))%Q) in Hny.
  destruct (accuracy_in_cell rx0 ry0 s M Hu Ho Hd Hm HM Frx Fry)
    as (r & za & zb & zc & zd & E & Ec & F & H & _).
  { fold cx. destruct Hnx. split; lra. }
  { fold cy. destruct Hny. split; lra. }
  { exact Hr. }
  exists r, za, zb, zc, zd. fold cx cy in Ec, H. repeat split; tauto.
Qed.

(** The position of a grid point, as the tables give it: two numbers, for
    which the cell lookup selects the cell that starts at the point or the
    one before it on each axis. *)
Lemma grid_point_position (i j : Z) :
  uniform_tables -> ordinary_bed -> in_grid i j ->
  let px := mesh_index_to_xpos i in
  let py := mesh_index_to_ypos j in
  let cx := get_cell_index_x px in
  let cy := get_cell_index_y py in
  F32.is_finite px = true /\ F32.is_finite py = true
  /\ (cx = i \/ (cx = i - 1 /\ 1 <= i))
  /\ (cy = j \/ (cy = j - 1 /\ 1 <= j))
  /\ (inject_Z cx - (1 # 16) <= cells_from_min_x px
      /\ cells_from_min_x px <= inject_Z cx + 1 + (1 # 16))%Q
  /\ (inject_Z cy - (1 # 16) <= cells_from_min_y py
      /\ cells_from_min_y py <= inject_Z cy + 1 + (1 # 16))%Q.
Proof.
  intros Hu Ho [Hi Hj] px py cx cy.
  pose proof Ho as (Hgx & Hgy & Hx1 & Hx2 & Hx3 & Hy1 & Hy2 & Hy3).
  assert (Epx : px = F32.add (F32.of_int MESH_MIN_X)
                       (F32.mul (F32.of_int i) MESH_X_DIST))
    by (apply mesh_index_to_xpos_line; [exact Hu | lia | lia]).
  assert (Epy : py = F32.add (F32.of_int MESH_MIN_Y)
                       (F32.mul (F32.of_int j) MESH_Y_DIST))
    by (apply mesh_index_to_ypos_line; [exact Hu | lia | lia]).
  destruct (line_position_near MESH_MIN_X MESH_MAX_X GRID_MAX_POINTS_X
              Hgx Hx1 Hx2 Hx3 i ltac:(lia)) as [Fpx _].
  destruct (line_position_near MESH_MIN_Y MESH_MAX_Y GRID_MAX_POINTS_Y
              Hgy Hy1 Hy2 Hy3 j ltac:(lia)) as [Fpy _].
  pose proof (line_in_cells MESH_MIN_X MESH_MAX_X GRID_MAX_POINTS_X
                Hgx Hx1 Hx2 Hx3 i ltac:(lia)) as Hqx.
  pose proof (line_in_cells MESH_MIN_Y MESH_MAX_Y GRID_MAX_POINTS_Y
                Hgy Hy1 Hy2 Hy3 j ltac:(lia)) as Hqy.
  cbv zeta in Fpx, Fpy, Hqx, Hqy.
  change (mesh_dist MESH_MIN_X MESH_MAX_X GRID_MAX_POINTS_X)
    with MESH_X_DIST in Fpx, Hqx.
  change (mesh_dist MESH_MIN_Y MESH_MAX_Y GRID_MAX_POINTS_Y)
    with MESH_Y_DIST in Fpy, Hqy.
  rewrite <- Epx in Fpx, Hqx. rewrite <- Epy in Fpy, Hqy.
  pose proof (cell_index_at_line_on_axis MESH_MIN_X MESH_MAX_X
                GRID_MAX_POINTS_X px Hgx Hx1 Hx2 Hx3 Fpx i Hi Hqx) as Hcx.
  pose proof (cell_index_at_line_on_axis MESH_MIN_Y MESH_MAX_Y
                GRID_MAX_POINTS_Y py Hgy Hy1 Hy2 Hy3 Fpy j Hj Hqy) as Hcy.
  change (cx = i \/ (cx = i - 1 /\ 1 <= i)) in Hcx.
  change (cy = j \/ (cy = j - 1 /\ 1 <= j)) in Hcy.
  change (cells_from_min MESH_MIN_X MESH_MAX_X GRID_MAX_POINTS_X px)
    with (cells_from_min_x px) in Hqx.
  change (cells_from_min MESH_MIN_Y MESH_MAX_Y GRID_MAX_POINTS_Y py)
    with (cells_from_min_y py) in Hqy.
  split; [exact Fpx|]. split; [exact Fpy|].
  split; [exact Hcx|]. split; [exact Hcy|]. split.
  - destruct Hqx as [Q1 Q2].
    destruct Hcx as [-> | [-> Hi1]]; [split; lra|].
    unfold Z.sub. rewrite inject_Z_plus, inject_Z_opp.
    change (inject_Z 1) with 1%Q. split; lra.
  - destruct Hqy as [Q1 Q2].
    destruct Hcy as [-> | [-> Hj1]]; [split; lra|].
    unfold Z.sub. rewrite inject_Z_plus, inject_Z_opp.
    change (inject_Z 1) with 1%Q. split; lra.
Qed.

(** X25: a grid point is reproduced up to rounding. On such a bed, with a
    number of size at most [M] at every point of the grid,
    [get_z_correction] at the position of grid point [(i, j)], as
    [mesh_index_to_xpos] and [mesh_index_to_ypos] give it, returns a number
    within [M / 45000] (and 2^-61) of the height stored at that point,
    whether the cell lookup selects the cell that starts at the point or,
    by rounding, the one before it. *)
Theorem get_z_correction_near_grid_point (i j : Z) (z : float)
        (s : ubl_state) (M : Q) :
  uniform_tables -> ordinary_bed -> has_dims (z_values s) = true ->
  (forall x y z, in_grid x y -> mesh_at (z_values s) x y = Some z ->
                 F32.is_finite z = true /\ (Qabs (val z) <= M)%Q) ->
  (M <= 200000)%Q ->
  in_grid i j -> mesh_at (z_values s) i j = Some z ->
  reaches_interpolation (mesh_index_to_xpos i) (mesh_index_to_ypos j) ->
  exists r,
    result (get_z_correction (mesh_index_to_xpos i) (mesh_index_to_ypos j)) s
    = Some r
    /\ F32.is_finite r = true
    /\ (Qabs (val r - val z)
        <= M * (1 # 45000) + (1 # 2305843009213693952))%Q.
Proof.
  intros Hu Ho Hd Hm HM Hin Ez Hr.
  destruct (grid_point_position i j Hu Ho Hin)
    as (Fpx & Fpy & Hcx & Hcy & Hnx & Hny).
  destruct (accuracy_in_cell _ _ s M Hu Ho Hd Hm HM Fpx Fpy Hnx Hny Hr)
    as (r & za & zb & zc & zd & E & Ec & F & H & Hxlt & Hylt).
  exists r. split; [exact E|]. split; [exact F|].
  destruct Hin as [Hi Hj].
  rewrite <- (bilinear_exact_at_grid_point i j z za zb zc zd (z_values s)
                _ _ Hcx Hcy ltac:(lia) ltac:(lia) Ez Ec Hxlt Hylt).
  exact H.
Qed.

(** X26: the cell of a line's own position. On such a bed the cell lookup
    at the position of line [i] returns [i] or, when the quotient rounds
    below [i], [i - 1] (never for line 0); it returns no other index.
    Likewise on Y. *)
Theorem get_cell_index_of_line (i : Z) :
  uniform_tables -> ordinary_bed ->
  (0 <= i <= GRID_MAX_POINTS_X - 1 ->
   get_cell_index_x (mesh_index_to_xpos i) = i
   \/ (get_cell_index_x (mesh_index_to_xpos i) = i - 1 /\ 1 <= i))
  /\ (0 <= i <= GRID_MAX_POINTS_Y - 1 ->
      get_cell_index_y (mesh_index_to_ypos i) = i
      \/ (get_cell_index_y (mesh_index_to_ypos i) = i - 1 /\ 1 <= i)).
Proof.
  intros Hu Ho.
  pose proof Ho as (Hgx & Hgy & _).
  split; intros Hi.
  - assert (Hin : in_grid i 0) by (split; lia).
    destruct (grid_point_position i 0 Hu Ho Hin) as (_ & _ & H & _).
    exact H.
  - assert (Hin : in_grid 0 i) by (split; lia).
    destruct (grid_point_position 0 i Hu Ho Hin) as (_ & _ & _ & H & _).
    exact H.
Qed.

(** X27: what is stored at a grid point is what the correction at that
    point is. On such a bed, after [set_z (i, j, z)] with a number [z] of
    size at most [M] on a mesh of such numbers, [get_z_correction] at the
    position of the point returns [z] up to [M / 45000] (and 2^-61). *)
Theorem set_z_then_get_z_correction (i j : Z) (z : float) (s : ubl_state)
        (M : Q) :
  uniform_tables -> ordinary_bed -> has_dims (z_values s) = true ->
  (forall x y z0, in_grid x y -> mesh_at (z_values s) x y = Some z0 ->
                  F32.is_finite z0 = true /\ (Qabs (val z0) <= M)%Q) ->
  (M <= 200000)%Q ->
  in_grid i j -> F32.is_finite z = true -> (Qabs (val z) <= M)%Q ->
  reaches_interpolation (mesh_index_to_xpos i) (mesh_index_to_ypos j) ->
  exists s' r,
    set_z i j z s = Some (tt, s')
    /\ result (get_z_correction (mesh_index_to_xpos i)
                 (mesh_index_to_ypos j)) s' = Some r
    /\ F32.is_finite r = true
    /\ (Qabs (val r - val z)
        <= M * (1 # 45000) + (1 # 2305843009213693952))%Q.
Proof.
  intros Hu Ho Hd Hm HM Hin Fz Hz Hr.
  set (s' := mk_ubl_state (mesh_set (z_values s) i j z) (storage_slot s)
               (marlin_debug_flags s) (serial s)).
  destruct (mesh_at_in_grid _ i j Hd Hin) as [z0 E0].
  assert (Ez : mesh_at (z_values s') i j = Some z)
    by exact (mesh_at_set_same _ _ _ z z0 E0).
  assert (Hd' : has_dims (z_values s') = true)
    by (now apply has_dims_mesh_set).
  assert (Hm' : forall x y z1, in_grid x y ->
                  mesh_at (z_values s') x y = Some z1 ->
                  F32.is_finite z1 = true /\ (Qabs (val z1) <= M)%Q).
  { intros x y z1 Hxy E1.
    destruct (Z.eq_dec x i) as [->|Hx]; [destruct (Z.eq_dec y j) as [->|Hy]|].
    - rewrite Ez in E1. injection E1 as <-. now split.
    - assert (Hne : (i, y) <> (i, j)) by congruence.
      unfold s' in E1. cbn [z_values] in E1.
      rewrite (mesh_at_set_other _ _ _ _ _ z Hne) in E1.
      exact (Hm _ _ _ Hxy E1).
    - assert (Hne : (x, y) <> (i, j)) by congruence.
      unfold s' in E1. cbn [z_values] in E1.
      rewrite (mesh_at_set_other _ _ _ _ _ z Hne) in E1.
      exact (Hm _ _ _ Hxy E1). }
  destruct (grid_point_position i j Hu Ho Hin)
    as (Fpx & Fpy & Hcx & Hcy & Hnx & Hny).
  destruct (accuracy_in_cell _ _ s' M Hu Ho Hd' Hm' HM Fpx Fpy Hnx Hny Hr)
    as (r & za & zb & zc & zd & E & Ec & F & H & Hxlt & Hylt).
  exists s', r. split; [now apply set_z_run|].
  split; [exact E|]. split; [exact F|].
  destruct Hin as [Hi Hj].
  rewrite <- (bilinear_exact_at_grid_point i j z za zb zc zd (z_values s')
                _ _ Hcx Hcy ltac:(lia) ltac:(lia) Ez Ec Hxlt Hylt).
  exact H.
Qed.

End AccuracyOnTheMesh.

Lemma bed220_uniform_tables : @uniform_tables bed220_cfg.
Proof. split; reflexivity. Defined.

Lemma bed220_ordinary_bed : @ordinary_bed bed220_cfg.
Proof. unfold ordinary_bed; simpl; lia. Defined.

Lemma tenths_mesh_bounded (x y : Z) (z : float) :
  @in_grid bed220_cfg x y -> mesh_at tenths_mesh x y = Some z ->
  F32.is_finite z = true /\ (Qabs (val z) <= 1)%Q.
Proof.
  unfold in_grid. simpl. intros [Hx Hy].
  assert (Ex : x = 0 \/ x = 1 \/ x = 2) by lia.
  assert (Ey : y = 0 \/ y = 1 \/ y = 2) by lia.
  destruct Ex as [-> | [-> | ->]], Ey as [-> | [-> | ->]];
    intros [= <-]; (split; [reflexivity|]);
    apply Qabs_Qle_condition; split; apply Qle_bool_iff; vm_compute;
    reflexivity.
Defined.

Lemma get_z_correction_accuracy_on_mesh_witness :
  exists r,
    result (@get_z_correction bed220_cfg (F32.of_int 50) (F32.of_int 160))
           (quiet tenths_mesh) = Some r
    /\ F32.is_finite r = true.
Proof.
  destruct (@get_z_correction_accuracy_on_mesh bed220_cfg (F32.of_int 50)
              (F32.of_int 160) (quiet tenths_mesh) 1
              bed220_uniform_tables bed220_ordinary_bed eq_refl
              tenths_mesh_bounded)
    as (r & za & zb & zc & zd & E & _ & F & _).
  - apply Qle_bool_iff; vm_compute; reflexivity.
  - reflexivity.
  - reflexivity.
  - split; apply Qle_bool_iff; vm_compute; reflexivity.
  - split; apply Qle_bool_iff; vm_compute; reflexivity.
  - exact (bed220_reaches _ _).
  - exists r. split; [exact E | exact F].
Defined.

Lemma bed220_in_grid_1_0 : @in_grid bed220_cfg 1 0.
Proof. unfold in_grid. simpl. lia. Defined.

Lemma get_z_correction_near_grid_point_witness :
  exists r,
    result (@get_z_correction bed220_cfg (@mesh_index_to_xpos bed220_cfg 1)
              (@mesh_index_to_ypos bed220_cfg 0)) (quiet tenths_mesh)
    = Some r
    /\ F32.is_finite r = true
    /\ (Qabs (val r - val (F32.of_ratio 1 10))
        <= 1 * (1 # 45000) + (1 # 2305843009213693952))%Q.
Proof.
  apply (@get_z_correction_near_grid_point bed220_cfg 1 0 (F32.of_ratio 1 10)
           (quiet tenths_mesh) 1 bed220_uniform_tables bed220_ordinary_bed
           eq_refl tenths_mesh_bounded).
  - apply Qle_bool_iff; vm_compute; reflexivity.
  - exact bed220_in_grid_1_0.
  - reflexivity.
  - exact (bed220_reaches _ _).
Defined.

Lemma get_cell_index_of_line_witness :
  @get_cell_index_x bed220_cfg (@mesh_index_to_xpos bed220_cfg 1) = 1
  \/ (@get_cell_index_x bed220_cfg (@mesh_index_to_xpos bed220_cfg 1) = 1 - 1
      /\ 1 <= 1).
Proof.
  apply (proj1 (@get_cell_index_of_line bed220_cfg 1 bed220_uniform_tables
                  bed220_ordinary_bed)).
  simpl. lia.
Defined.

(** Both outcomes occur: line 1 of the 200 mm bed is found in cell 1, that
    of the 220 mm bed in cell 0. *)
Example cell_of_line_1 :
  @get_cell_index_x scenario_cfg (@mesh_index_to_xpos scenario_cfg 1) = 1
  /\ @get_cell_index_x bed220_cfg (@mesh_index_to_xpos bed220_cfg 1) = 0.
Proof. vm_compute. split; reflexivity. Qed.

Lemma set_z_then_get_z_correction_witness :
  exists s' r,
    @set_z 1 0 (F32.of_ratio 1 2) (quiet tenths_mesh) = Some (tt, s')
    /\ result (@get_z_correction bed220_cfg (@mesh_index_to_xpos bed220_cfg 1)
                 (@mesh_index_to_ypos bed220_cfg 0)) s' = Some r
    /\ F32.is_finite r = true
    /\ (Qabs (val r - val (F32.of_ratio 1 2))
        <= 1 * (1 # 45000) + (1 # 2305843009213693952))%Q.
Proof.
  apply (@set_z_then_get_z_correction bed220_cfg 1 0 (F32.of_ratio 1 2)
           (quiet tenths_mesh) 1 bed220_uniform_tables bed220_ordinary_bed
           eq_refl tenths_mesh_bounded).
  - apply Qle_bool_iff; vm_compute; reflexivity.
  - exact bed220_in_grid_1_0.
  - reflexivity.
  - apply Qabs_Qle_condition; split; apply Qle_bool_iff; vm_compute;
      reflexivity.
  - exact (bed220_reaches _ _).
Defined.
